(** * The multi-adaptive time slab of dolfin/ode/MultiAdaptiveTimeSlab.cpp

    A shallow embedding of the class [MultiAdaptiveTimeSlab]: its arena of
    parallel arrays, the dry run that sizes it, the recursive construction
    of sub-slabs, elements, dofs and dependencies, the coverage sweep, the
    sampling queries, the shift to the next slab, the peer lookup of the
    right-hand side evaluators and the choice of the nonlinear solver.

    Conventions.
    - [real] is an exact rational ([Q]); comparisons are the source's, made
      with [Qltb] and [Qleb].  Rounding of machine reals is not modelled.
    - [uint] is [nat], [int] is [Z] with the sentinel [-1]; the 32-bit
      wrap-around is not modelled (every index is bounded by an arena
      size).  Where the source subtracts unsigned values, the difference
      is computed on [Z] or the run stops ([None]) when it would be
      negative.
    - An array is a list as long as its allocation.  Reading or writing out
      of range, and a failing [dolfin_assert], abort the run ([None]). *)

From Stdlib Require Import QArith Lqa ZArith Lia String.
From stdpp Require Import base option list.

(** ** Reals *)

Abbreviation real := Q.

Definition Qltb (x y : Q) : bool := negb (Qle_bool y x).
Definition Qleb (x y : Q) : bool := Qle_bool x y.

(** [std::min(a, b)]: [b] when [b < a], else [a]. *)
Definition real_min (x y : real) : real := if Qltb y x then y else x.

(** ** Arrays *)

(** [a[i]] for an unsigned index. *)
Definition rd {A} (l : list A) (i : nat) : option A := l !! i.

(** [a[i]] for a signed index: a negative index is out of range. *)
Definition rdZ {A} (l : list A) (i : Z) : option A :=
  if (0 <=? i)%Z then l !! Z.to_nat i else None.

(** [a[i] = v]. *)
Definition wr {A} (l : list A) (i : nat) (v : A) : option (list A) :=
  if decide (i < length l) then Some (<[i:=v]> l) else None.

(** [a[i] = v] for a signed index. *)
Definition wrZ {A} (l : list A) (i : Z) (v : A) : option (list A) :=
  if (0 <=? i)%Z then wr l (Z.to_nat i) v else None.

(** [dolfin_assert(c)]. *)
Definition assert (c : bool) : option unit := if c then Some tt else None.

(** Modelled from the spec: [Alloc::realloc(&data, oldsize, newsize)]
    (dolfin/ode/Alloc.h is not among the sources).  The arrays only ever
    grow: the new array has [newsize] entries and keeps the first [oldsize]
    old ones. *)
Definition realloc {A} (d : A) (l : list A) (oldsize newsize : nat) : list A :=
  take oldsize l ++ replicate (newsize - oldsize) d.

(** ** Loops *)

(** [for (x : l) body]: the body may abort. *)
Fixpoint for_each {A St} (body : A -> St -> option St) (l : list A)
    (s : St) : option St :=
  match l with
  | [] => Some s
  | x :: l' => s' ← body x s; for_each body l' s'
  end.

(** [for (n = lo; n < hi; n++) body]. *)
Definition for_range {St} (lo hi : nat) (body : nat -> St -> option St)
    (s : St) : option St :=
  for_each body (seq lo (hi - lo)) s.

(** [while (cond(t)) t = body(t)]: [fuel] bounds the number of iterations. *)
Fixpoint while_loop {St} (fuel : nat) (cond : real -> bool)
    (body : real -> St -> option (real * St)) (t : real) (s : St)
  : option (real * St) :=
  if cond t then
    match fuel with
    | O => None
    | S fuel' => '(t', s') ← body t s; while_loop fuel' cond body t' s'
    end
  else Some (t, s).

(** ** External collaborators (spec sections 4.1 to 4.3 and 6) *)

Inductive MethodType := cG | dG.

(** [Method]: the quadrature and basis family, consumed as a contract. *)
Class Method := {
  mtype : MethodType;
  nsize : nat;
  qsize : nat;
  npoint : nat -> real;
  qpoint : nat -> real;
  (** [ueval(x0, dofs, tau)]: [dofs] are the [nsize] values at [jx + j]. *)
  ueval : real -> list real -> real -> real
}.

(** [ODE]: the problem. *)
Class ODE := {
  N : nat;
  endtime : real;
  dependencies : nat -> list nat;
  transpose : nat -> list nat;
  ode_f : list real -> real -> nat -> real;
  (** [update(u, t, end)]: the user hook, which may veto a shift. *)
  ode_update : list real -> real -> bool -> bool;
  (** [ode.get("ODE implicit")], [ode.get("ODE nonlinear solver")]. *)
  ode_implicit : bool;
  ode_nonlinear_solver : string;
  (** [save_final], read by the base class from the ODE's options. *)
  save_final : bool
}.

(** [MultiAdaptivity]: the step-size controller. *)
Class Adaptivity := {
  kmax : real;
  threshold : real;
  residual : nat -> real
}.

(** [Partition]: [partition_update p offset K] is
    [partition.update(offset, end, adaptivity, K)] in state [p]; it returns
    the new state, the out-parameter [end] and the cutoff.
    [partition.size()] is [N]. *)
Class Partition (P : Type) := {
  partition_update : P -> nat -> real -> P * nat * real;
  partition_index : P -> nat -> nat
}.

(** [real_epsilon()]. *)
Class Tolerance := real_epsilon : real.

(** ** Outcomes *)

Inductive SolverKind := MultiAdaptiveFixedPointSolver | MultiAdaptiveNewtonSolver.

(** Modelled from the spec: [error(msg)] of dolfin/log (not among the
    sources) is fatal: it reports a human-readable message and the failure
    propagates, nothing after it runs. *)
Inductive Outcome (A : Type) :=
| Done (x : A)
| Fatal (msg : string).
Arguments Done {A} x.
Arguments Fatal {A} msg.

(** ** The slab *)

Record Size := MkSize { next : nat; size : nat }.

Section SlabDef.
Context {P : Type}.

Record Slab := MkSlab {
  sa : list real; sb : list real;
  ei : list nat; es : list nat; ee : list Z; ed : list nat;
  jx : list real;
  de : list Z;
  size_s : Size; size_e : Size; size_j : Size; size_d : Size;
  ns : nat; ne : nat; nj : nat; nd : nat;
  elast : list Z;
  f0 : list real;
  u : list real;
  u0 : list real;
  emax : nat;
  kmin : real;
  _a : real; _b : real;
  partition : P;
  (** What [write(N, u)] has sent to the external writer. *)
  written : list (list real);
  (** What [message] and [cout] have printed. *)
  log : list string
}.

Definition set_sa (v : list real) (s : Slab) : Slab :=
  MkSlab v (sb s) (ei s) (es s) (ee s) (ed s) (jx s) (de s) (size_s s)
    (size_e s) (size_j s) (size_d s) (ns s) (ne s) (nj s) (nd s) (elast s)
    (f0 s) (u s) (u0 s) (emax s) (kmin s) (_a s) (_b s) (partition s)
    (written s) (log s).

Definition set_sb (v : list real) (s : Slab) : Slab :=
  MkSlab (sa s) v (ei s) (es s) (ee s) (ed s) (jx s) (de s) (size_s s)
    (size_e s) (size_j s) (size_d s) (ns s) (ne s) (nj s) (nd s) (elast s)
    (f0 s) (u s) (u0 s) (emax s) (kmin s) (_a s) (_b s) (partition s)
    (written s) (log s).

Definition set_ei (v : list nat) (s : Slab) : Slab :=
  MkSlab (sa s) (sb s) v (es s) (ee s) (ed s) (jx s) (de s) (size_s s)
    (size_e s) (size_j s) (size_d s) (ns s) (ne s) (nj s) (nd s) (elast s)
    (f0 s) (u s) (u0 s) (emax s) (kmin s) (_a s) (_b s) (partition s)
    (written s) (log s).

Definition set_es (v : list nat) (s : Slab) : Slab :=
  MkSlab (sa s) (sb s) (ei s) v (ee s) (ed s) (jx s) (de s) (size_s s)
    (size_e s) (size_j s) (size_d s) (ns s) (ne s) (nj s) (nd s) (elast s)
    (f0 s) (u s) (u0 s) (emax s) (kmin s) (_a s) (_b s) (partition s)
    (written s) (log s).

Definition set_ee (v : list Z) (s : Slab) : Slab :=
  MkSlab (sa s) (sb s) (ei s) (es s) v (ed s) (jx s) (de s) (size_s s)
    (size_e s) (size_j s) (size_d s) (ns s) (ne s) (nj s) (nd s) (elast s)
    (f0 s) (u s) (u0 s) (emax s) (kmin s) (_a s) (_b s) (partition s)
    (written s) (log s).

Definition set_ed (v : list nat) (s : Slab) : Slab :=
  MkSlab (sa s) (sb s) (ei s) (es s) (ee s) v (jx s) (de s) (size_s s)
    (size_e s) (size_j s) (size_d s) (ns s) (ne s) (nj s) (nd s) (elast s)
    (f0 s) (u s) (u0 s) (emax s) (kmin s) (_a s) (_b s) (partition s)
    (written s) (log s).

Definition set_jx (v : list real) (s : Slab) : Slab :=
  MkSlab (sa s) (sb s) (ei s) (es s) (ee s) (ed s) v (de s) (size_s s)
    (size_e s) (size_j s) (size_d s) (ns s) (ne s) (nj s) (nd s) (elast s)
    (f0 s) (u s) (u0 s) (emax s) (kmin s) (_a s) (_b s) (partition s)
    (written s) (log s).

Definition set_de (v : list Z) (s : Slab) : Slab :=
  MkSlab (sa s) (sb s) (ei s) (es s) (ee s) (ed s) (jx s) v (size_s s)
    (size_e s) (size_j s) (size_d s) (ns s) (ne s) (nj s) (nd s) (elast s)
    (f0 s) (u s) (u0 s) (emax s) (kmin s) (_a s) (_b s) (partition s)
    (written s) (log s).

Definition set_size_s (v : Size) (s : Slab) : Slab :=
  MkSlab (sa s) (sb s) (ei s) (es s) (ee s) (ed s) (jx s) (de s) v
    (size_e s) (size_j s) (size_d s) (ns s) (ne s) (nj s) (nd s) (elast s)
    (f0 s) (u s) (u0 s) (emax s) (kmin s) (_a s) (_b s) (partition s)
    (written s) (log s).

Definition set_size_e (v : Size) (s : Slab) : Slab :=
  MkSlab (sa s) (sb s) (ei s) (es s) (ee s) (ed s) (jx s) (de s) (size_s s)
    v (size_j s) (size_d s) (ns s) (ne s) (nj s) (nd s) (elast s) (f0 s)
    (u s) (u0 s) (emax s) (kmin s) (_a s) (_b s) (partition s) (written s)
    (log s).

Definition set_size_j (v : Size) (s : Slab) : Slab :=
  MkSlab (sa s) (sb s) (ei s) (es s) (ee s) (ed s) (jx s) (de s) (size_s s)
    (size_e s) v (size_d s) (ns s) (ne s) (nj s) (nd s) (elast s) (f0 s)
    (u s) (u0 s) (emax s) (kmin s) (_a s) (_b s) (partition s) (written s)
    (log s).

Definition set_size_d (v : Size) (s : Slab) : Slab :=
  MkSlab (sa s) (sb s) (ei s) (es s) (ee s) (ed s) (jx s) (de s) (size_s s)
    (size_e s) (size_j s) v (ns s) (ne s) (nj s) (nd s) (elast s) (f0 s)
    (u s) (u0 s) (emax s) (kmin s) (_a s) (_b s) (partition s) (written s)
    (log s).

Definition set_ns (v : nat) (s : Slab) : Slab :=
  MkSlab (sa s) (sb s) (ei s) (es s) (ee s) (ed s) (jx s) (de s) (size_s s)
    (size_e s) (size_j s) (size_d s) v (ne s) (nj s) (nd s) (elast s) (f0 s)
    (u s) (u0 s) (emax s) (kmin s) (_a s) (_b s) (partition s) (written s)
    (log s).

Definition set_ne (v : nat) (s : Slab) : Slab :=
  MkSlab (sa s) (sb s) (ei s) (es s) (ee s) (ed s) (jx s) (de s) (size_s s)
    (size_e s) (size_j s) (size_d s) (ns s) v (nj s) (nd s) (elast s) (f0 s)
    (u s) (u0 s) (emax s) (kmin s) (_a s) (_b s) (partition s) (written s)
    (log s).

Definition set_nj (v : nat) (s : Slab) : Slab :=
  MkSlab (sa s) (sb s) (ei s) (es s) (ee s) (ed s) (jx s) (de s) (size_s s)
    (size_e s) (size_j s) (size_d s) (ns s) (ne s) v (nd s) (elast s) (f0 s)
    (u s) (u0 s) (emax s) (kmin s) (_a s) (_b s) (partition s) (written s)
    (log s).

Definition set_nd (v : nat) (s : Slab) : Slab :=
  MkSlab (sa s) (sb s) (ei s) (es s) (ee s) (ed s) (jx s) (de s) (size_s s)
    (size_e s) (size_j s) (size_d s) (ns s) (ne s) (nj s) v (elast s) (f0 s)
    (u s) (u0 s) (emax s) (kmin s) (_a s) (_b s) (partition s) (written s)
    (log s).

Definition set_elast (v : list Z) (s : Slab) : Slab :=
  MkSlab (sa s) (sb s) (ei s) (es s) (ee s) (ed s) (jx s) (de s) (size_s s)
    (size_e s) (size_j s) (size_d s) (ns s) (ne s) (nj s) (nd s) v (f0 s)
    (u s) (u0 s) (emax s) (kmin s) (_a s) (_b s) (partition s) (written s)
    (log s).

Definition set_f0 (v : list real) (s : Slab) : Slab :=
  MkSlab (sa s) (sb s) (ei s) (es s) (ee s) (ed s) (jx s) (de s) (size_s s)
    (size_e s) (size_j s) (size_d s) (ns s) (ne s) (nj s) (nd s) (elast s) v
    (u s) (u0 s) (emax s) (kmin s) (_a s) (_b s) (partition s) (written s)
    (log s).

Definition set_u (v : list real) (s : Slab) : Slab :=
  MkSlab (sa s) (sb s) (ei s) (es s) (ee s) (ed s) (jx s) (de s) (size_s s)
    (size_e s) (size_j s) (size_d s) (ns s) (ne s) (nj s) (nd s) (elast s)
    (f0 s) v (u0 s) (emax s) (kmin s) (_a s) (_b s) (partition s)
    (written s) (log s).

Definition set_u0 (v : list real) (s : Slab) : Slab :=
  MkSlab (sa s) (sb s) (ei s) (es s) (ee s) (ed s) (jx s) (de s) (size_s s)
    (size_e s) (size_j s) (size_d s) (ns s) (ne s) (nj s) (nd s) (elast s)
    (f0 s) (u s) v (emax s) (kmin s) (_a s) (_b s) (partition s) (written s)
    (log s).

Definition set_emax (v : nat) (s : Slab) : Slab :=
  MkSlab (sa s) (sb s) (ei s) (es s) (ee s) (ed s) (jx s) (de s) (size_s s)
    (size_e s) (size_j s) (size_d s) (ns s) (ne s) (nj s) (nd s) (elast s)
    (f0 s) (u s) (u0 s) v (kmin s) (_a s) (_b s) (partition s) (written s)
    (log s).

Definition set_kmin (v : real) (s : Slab) : Slab :=
  MkSlab (sa s) (sb s) (ei s) (es s) (ee s) (ed s) (jx s) (de s) (size_s s)
    (size_e s) (size_j s) (size_d s) (ns s) (ne s) (nj s) (nd s) (elast s)
    (f0 s) (u s) (u0 s) (emax s) v (_a s) (_b s) (partition s) (written s)
    (log s).

Definition set_a (v : real) (s : Slab) : Slab :=
  MkSlab (sa s) (sb s) (ei s) (es s) (ee s) (ed s) (jx s) (de s) (size_s s)
    (size_e s) (size_j s) (size_d s) (ns s) (ne s) (nj s) (nd s) (elast s)
    (f0 s) (u s) (u0 s) (emax s) (kmin s) v (_b s) (partition s) (written s)
    (log s).

Definition set_b (v : real) (s : Slab) : Slab :=
  MkSlab (sa s) (sb s) (ei s) (es s) (ee s) (ed s) (jx s) (de s) (size_s s)
    (size_e s) (size_j s) (size_d s) (ns s) (ne s) (nj s) (nd s) (elast s)
    (f0 s) (u s) (u0 s) (emax s) (kmin s) (_a s) v (partition s) (written s)
    (log s).

Definition set_partition (v : P) (s : Slab) : Slab :=
  MkSlab (sa s) (sb s) (ei s) (es s) (ee s) (ed s) (jx s) (de s) (size_s s)
    (size_e s) (size_j s) (size_d s) (ns s) (ne s) (nj s) (nd s) (elast s)
    (f0 s) (u s) (u0 s) (emax s) (kmin s) (_a s) (_b s) v (written s)
    (log s).

Definition set_written (v : list (list real)) (s : Slab) : Slab :=
  MkSlab (sa s) (sb s) (ei s) (es s) (ee s) (ed s) (jx s) (de s) (size_s s)
    (size_e s) (size_j s) (size_d s) (ns s) (ne s) (nj s) (nd s) (elast s)
    (f0 s) (u s) (u0 s) (emax s) (kmin s) (_a s) (_b s) (partition s) v
    (log s).

Definition set_log (v : list string) (s : Slab) : Slab :=
  MkSlab (sa s) (sb s) (ei s) (es s) (ee s) (ed s) (jx s) (de s) (size_s s)
    (size_e s) (size_j s) (size_d s) (ns s) (ne s) (nj s) (nd s) (elast s)
    (f0 s) (u s) (u0 s) (emax s) (kmin s) (_a s) (_b s) (partition s)
    (written s) v.

End SlabDef.
Arguments Slab : clear implicits.

Section Model.
Context {method : Method} {ode : ODE} {adaptivity : Adaptivity}
  {tolerance : Tolerance} {P : Type} {partition_ops : Partition P}.

Local Abbreviation Slab := (Slab P).
Local Abbreviation eps := real_epsilon.

(** ** Interval predicates *)

(** [within(t, a, b)]: the time [t] lies in [(a, b]], up to the tolerance,
    choosing the left interval close to an edge. *)
Definition within_time (t a b : real) : bool :=
  Qltb (a + eps) t && Qleb t (b + eps).

(** [within(a0, b0, a1, b1)]: is [[a0, b0]] contained in [[a1, b1]]? *)
Definition within_interval (a0 b0 a1 b1 : real) : bool :=
  Qleb a1 (a0 + eps) && Qleb (b0 - eps) b1.

(** ** Allocation *)

Definition alloc_s (newsize : nat) (s : Slab) : Slab :=
  let s := set_size_s (MkSize 0 (size (size_s s))) s in
  if decide (newsize ≤ size (size_s s)) then s else
  let s := set_sa (realloc 0%Q (sa s) (size (size_s s)) newsize) s in
  let s := set_sb (realloc 0%Q (sb s) (size (size_s s)) newsize) s in
  set_size_s (MkSize (next (size_s s)) newsize) s.

Definition alloc_e (newsize : nat) (s : Slab) : Slab :=
  let s := set_size_e (MkSize 0 (size (size_e s))) s in
  if decide (newsize ≤ size (size_e s)) then s else
  let s := set_ei (realloc 0%nat (ei s) (size (size_e s)) newsize) s in
  let s := set_es (realloc 0%nat (es s) (size (size_e s)) newsize) s in
  let s := set_ee (realloc 0%Z (ee s) (size (size_e s)) newsize) s in
  let s := set_ed (realloc 0%nat (ed s) (size (size_e s)) newsize) s in
  set_size_e (MkSize (next (size_e s)) newsize) s.

Definition alloc_j (newsize : nat) (s : Slab) : Slab :=
  let s := set_size_j (MkSize 0 (size (size_j s))) s in
  if decide (newsize ≤ size (size_j s)) then s else
  let s := set_jx (realloc 0%Q (jx s) (size (size_j s)) newsize) s in
  set_size_j (MkSize (next (size_j s)) newsize) s.

Definition alloc_d (newsize : nat) (s : Slab) : Slab :=
  let s := set_size_d (MkSize 0 (size (size_d s))) s in
  if decide (newsize ≤ size (size_d s)) then s else
  let s := set_de (realloc 0%Z (de s) (size (size_d s)) newsize) s in
  set_size_d (MkSize (next (size_d s)) newsize) s.

(** ** The end time of a sub-slab *)

Definition computeEndTime (a b : real) (offset : nat) (s : Slab)
  : real * nat * Slab :=
  let K := real_min kmax (b - a) in
  let '(p, end_, K) := partition_update (partition s) offset K in
  let s := set_partition p s in
  let b := if Qltb K (threshold * (b - a)) then (a + K)%Q else b in
  let s := set_kmin (real_min (kmin s) (b - a)) s in
  (b, end_, s).

(** ** The dry run *)

(** [countDependencies(i0)]: the version used before any element exists;
    [u] holds the latest time reached by each component. *)
Definition countDependencies_dry (i0 : nat) (s : Slab) : option nat :=
  for_each (fun i1 n =>
    ui0 ← rd (u s) i0;
    ui1 ← rd (u s) i1;
    Some (if Qltb (ui1 + eps) ui0 then n + nsize else n))
    (dependencies i0) 0.

(** [computeDataSize(a, b, offset)].  [end - offset] is a difference of
    unsigned values, which wraps around when the partition returns an
    [end] before [offset]; the model has no wrap-around and stops there
    ([None]), so that wherever it goes on [end_ - offset] is the source's
    value. *)
Fixpoint computeDataSize (fuel : nat) (a b : real) (offset : nat) (s : Slab)
  : option (real * Slab) :=
  match fuel with
  | O => None
  | S fuel' =>
    let '(b, end_, s) := computeEndTime a b offset s in
    s ← for_range offset end_ (fun n s =>
          u' ← wr (u s) (partition_index (partition s) n) b;
          Some (set_u u' s)) s;
    _ ← assert (bool_decide (offset ≤ end_));
    let s := set_ns (ns s + 1) s in
    let s := set_ne (ne s + (end_ - offset)) s in
    let s := set_nj (nj s + nsize * (end_ - offset)) s in
    s ← for_range offset end_ (fun n s =>
          c ← countDependencies_dry (partition_index (partition s) n) s;
          Some (set_nd (nd s + c) s)) s;
    '(_, s) ← while_loop fuel'
                (fun t => Qltb t b && bool_decide (end_ < N))
                (fun t s => computeDataSize fuel' t b end_ s) a s;
    Some (b, s)
  end.

(** ** Creation *)

(** [countDependencies(i0, b0)]: the version used when elements exist. *)
Definition countDependencies (i0 : nat) (b0 : real) (s : Slab) : option nat :=
  for_each (fun i1 n =>
    e1 ← rd (elast s) i1;
    if (e1 =? -1)%Z then Some (n + nsize) else
    s1 ← rdZ (es s) e1;
    b1 ← rd (sb s) s1;
    Some (if Qltb b1 (b0 - eps) then n + nsize else n))
    (dependencies i0) 0.

Definition create_j (index : nat) (s : Slab) : option Slab :=
  _ ← assert (bool_decide (1 ≤ next (size_j s) + nsize
                           ∧ next (size_j s) + nsize - 1 < size (size_j s)));
  let pos := next (size_j s) in
  let s := set_size_j (MkSize (pos + nsize) (size (size_j s))) s in
  for_range 0 nsize (fun n s =>
    x ← rd (u0 s) index;
    jx' ← wr (jx s) (pos + n) x;
    Some (set_jx jx' s)) s.

(** The search for an empty position in [de[d .. d + cnt)]; [None] is the
    failing [dolfin_assert(found)]. *)
Fixpoint find_free (l : list Z) (d cnt : nat) : option nat :=
  match cnt with
  | O => None
  | S cnt' =>
    x ← rd l d;
    if (x =? -1)%Z then Some d else find_free l (S d) cnt'
  end.

(** The body of [create_d] for one dependent component [i1].  The nodal
    point [t = a1 + k1 * npoint(n)] and the tests [within] are evaluated
    on exact rationals; the source evaluates them on machine reals, where
    [a1 + (b1 - a1)] need not give [b1] back, so what is proved of these
    tests is proved of the exact arithmetic only. *)
Definition create_d_dep (e0 s0 : nat) (a0 b0 : real) (i1 : nat) (s : Slab)
  : option Slab :=
  e1 ← rd (elast s) i1;
  if (e1 =? -1)%Z then Some s else
  s1 ← rdZ (es s) e1;
  a1 ← rd (sa s) s1;
  b1 ← rd (sb s) s1;
  let k1 := (b1 - a1)%Q in
  if negb (within_interval a0 b0 a1 b1) || bool_decide (s0 = s1) then Some s
  else
  for_range 0 nsize (fun n s =>
    let t := (a1 + k1 * npoint n)%Q in
    if within_time t a0 b0 then
      lo ← rdZ (ed s) e1;
      hi ← rdZ (ed s) (e1 + 1);
      d ← find_free (de s) lo (hi - lo);
      de' ← wr (de s) d (Z.of_nat e0);
      Some (set_de de' s)
    else Some s) s.

Definition create_d (i0 e0 s0 : nat) (a0 b0 : real) (s : Slab) : option Slab :=
  for_each (create_d_dep e0 s0 a0 b0) (transpose i0) s.

Definition create_e (index subslab : nat) (a b : real) (s : Slab)
  : option Slab :=
  _ ← assert (bool_decide (next (size_e s) < size (size_e s)));
  let pos := next (size_e s) in
  let s := set_size_e (MkSize (pos + 1) (size (size_e s))) s in
  ei' ← wr (ei s) pos index;
  let s := set_ei ei' s in
  es' ← wr (es s) pos subslab;
  let s := set_es es' s in
  el ← rd (elast s) index;
  ee' ← wr (ee s) pos el;
  let s := set_ee ee' s in
  s ← create_j index s;
  s ← create_d index pos subslab a b s;
  elast' ← wr (elast s) index (Z.of_nat pos);
  Some (set_elast elast' s).

(** The body of the second loop of [create_s]: the mapping [ed]. *)
Definition create_s_ed (b0 : real) (n : nat) (s : Slab) : option Slab :=
  let index := partition_index (partition s) n in
  element ← rd (elast s) index;
  _ ← assert (negb (element =? -1)%Z);
  c ← countDependencies index b0 s;
  let s := set_size_d (MkSize (next (size_d s) + c) (size (size_d s))) s in
  s ← (if (element =? 0)%Z
       then ed' ← wrZ (ed s) element 0%nat; Some (set_ed ed' s)
       else Some s);
  if (element <? Z.of_nat (ne s) - 1)%Z
  then ed' ← wrZ (ed s) (element + 1) (next (size_d s)); Some (set_ed ed' s)
  else Some s.

Definition create_s (a0 b0 : real) (offset end_ : nat) (s : Slab)
  : option Slab :=
  _ ← assert (bool_decide (next (size_s s) < size (size_s s)));
  let pos := next (size_s s) in
  let s := set_size_s (MkSize (pos + 1) (size (size_s s))) s in
  sa' ← wr (sa s) pos a0;
  let s := set_sa sa' s in
  sb' ← wr (sb s) pos b0;
  let s := set_sb sb' s in
  s ← for_range offset end_ (fun n s =>
        create_e (partition_index (partition s) n) pos a0 b0 s) s;
  for_range offset end_ (create_s_ed b0) s.

Fixpoint createTimeSlab (fuel : nat) (a b : real) (offset : nat) (s : Slab)
  : option (real * Slab) :=
  match fuel with
  | O => None
  | S fuel' =>
    let '(b, end_, s) := computeEndTime a b offset s in
    s ← create_s a b offset end_ s;
    '(_, s) ← while_loop fuel'
                (fun t => Qltb t b && bool_decide (end_ < N))
                (fun t s => createTimeSlab fuel' t b end_ s) a s;
    Some (b, s)
  end.

Definition allocData (fuel : nat) (a b : real) (s : Slab) : option Slab :=
  s ← for_range 0 N (fun i s => u' ← wr (u s) i a; Some (set_u u' s)) s;
  let s := set_ns 0 (set_ne 0 (set_nj 0 (set_nd 0 s))) in
  '(_, s) ← computeDataSize fuel a b 0 s;
  let s := alloc_s (ns s) s in
  let s := alloc_e (ne s) s in
  let s := alloc_j (nj s) s in
  let s := alloc_d (nd s) s in
  for_range 0 (nd s) (fun d s =>
    de' ← wr (de s) d (-1)%Z; Some (set_de de' s)) s.

Definition build (fuel : nat) (a b : real) (s : Slab) : option (real * Slab) :=
  s ← allocData fuel a b s;
  s ← for_range 0 N (fun i s =>
        el ← wr (elast s) i (-1)%Z; Some (set_elast el s)) s;
  let s := set_kmin endtime s in
  '(b, s) ← createTimeSlab fuel a b 0 s;
  let s := set_a a s in
  let s := set_b b s in
  (* ode.update(u0, a, false) at t = 0: its result is not used *)
  Some (b, s).

(** ** Coverage *)

(** The first loop of [coverTime]: is [t] covered for all components?
    Returns [ok]; [emax] is reset where the source resets it. *)
Fixpoint coverTime_check (t : real) (l : list nat) (s : Slab)
  : option (bool * Slab) :=
  match l with
  | [] => Some (true, s)
  | i :: l' =>
    e ← rd (elast s) i;
    if (e =? -1)%Z then Some (false, set_emax 0 s) else
    s1 ← rdZ (es s) e;
    a ← rd (sa s) s1;
    b ← rd (sb s) s1;
    if Qltb t (a + eps) then Some (false, set_emax 0 s) else
    if Qltb (b + eps) t then Some (false, s) else
    coverTime_check t l' s
  end.

(** The last loop of [coverTime]: [cnt] elements are left from [e]. *)
Fixpoint coverTime_sweep (t : real) (cnt e : nat) (s : Slab) : option Slab :=
  match cnt with
  | O => Some s
  | S cnt' =>
    s1 ← rd (es s) e;
    i ← rd (ei s) e;
    a ← rd (sa s) s1;
    if Qltb t (a + eps) && Qltb (_a s) (a - eps) then Some s else
    el ← wr (elast s) i (Z.of_nat e);
    coverTime_sweep t cnt' (S e) (set_emax e (set_elast el s))
  end.

Definition coverTime (t : real) (s : Slab) : option Slab :=
  '(ok, s) ← coverTime_check t (seq 0 N) s;
  if ok : bool then Some s else
  s ← (if decide (ne s ≤ emax s) then Some (set_emax 0 s) else
       s1 ← rd (es s) (emax s);
       a ← rd (sa s) s1;
       Some (if Qltb t (a + eps) then set_emax 0 s else s));
  coverTime_sweep t (ne s - emax s) (emax s) s.

Definition sample (t : real) (s : Slab) : option Slab := coverTime t s.

(** ** Shift *)

(** [shift], up to the call of the user's hook: cover the end time, read
    the end-time values into [u], write them if asked to. *)
Definition shift_values (end_ : bool) (s : Slab) : option Slab :=
  s ← coverTime (_b s) s;
  s ← for_range 0 N (fun i s =>
        e ← rd (elast s) i;
        _ ← assert (negb (e =? -1)%Z);
        s1 ← rdZ (es s) e;
        b ← rd (sb s) s1;
        _ ← assert (Qeq_bool b (_b s));
        let j := (e * Z.of_nat nsize)%Z in
        x ← rdZ (jx s) (j + Z.of_nat nsize - 1)%Z;
        u' ← wr (u s) i x;
        Some (set_u u' s)) s;
  Some (if save_final && end_
        then set_written (written s ++ [u s]) s else s).

Definition shift (end_ : bool) (s : Slab) : option (bool * Slab) :=
  s ← shift_values end_ s;
  if negb (ode_update (u s) (_b s) end_) then Some (false, s) else
  s ← for_range 0 N (fun i s =>
        x ← rd (u s) i;
        u0' ← wr (u0 s) i x;
        Some (set_u0 u0' s)) s;
  Some (true, s).

(** ** Sampling *)

(** The [nsize] dofs at [jx + j]. *)
Definition dofs (s : Slab) (j : Z) : list real :=
  take nsize (drop (Z.to_nat j) (jx s)).

(** The initial value of an element with previous element [ep]: the last
    dof of [ep], or [u0[i]] when there is none. *)
Definition initial_value (ep : Z) (i : nat) (s : Slab) : option real :=
  if (ep =? -1)%Z then rd (u0 s) i
  else rdZ (jx s) (ep * Z.of_nat nsize + Z.of_nat nsize - 1)%Z.

Definition usample (i : nat) (t : real) (s : Slab) : option (real * Slab) :=
  e ← rd (elast s) i;
  _ ← assert (negb (e =? -1)%Z);
  s1 ← rdZ (es s) e;
  let j := (e * Z.of_nat nsize)%Z in
  a ← rd (sa s) s1;
  b ← rd (sb s) s1;
  let k := (b - a)%Q in
  ep ← rdZ (ee s) e;
  x0 ← initial_value ep i s;
  let tau := ((t - a) / k)%Q in
  Some (ueval x0 (dofs s j) tau, s).

Definition ksample (i : nat) (t : real) (s : Slab) : option (real * Slab) :=
  e ← rd (elast s) i;
  _ ← assert (negb (e =? -1)%Z);
  s1 ← rdZ (es s) e;
  a ← rd (sa s) s1;
  b ← rd (sb s) s1;
  Some ((b - a)%Q, s).

Definition rsample (i : nat) (t : real) (s : Slab) : option (real * Slab) :=
  Some (residual i, s).

(** ** The right-hand side *)

(** [cg_feval], left end-point, one dependency. *)
Definition cg_peer_left (s0 : nat) (a0 : real) (i1 : nat) (s : Slab)
  : option Slab :=
  e1 ← rd (elast s) i1;
  if (e1 =? -1)%Z
  then x ← rd (u0 s) i1; u' ← wr (u s) i1 x; Some (set_u u' s)
  else
  s1 ← rdZ (es s) e1;
  if decide (s1 = s0) then
    ep ← rdZ (ee s) e1;
    x ← initial_value ep i1 s;
    u' ← wr (u s) i1 x; Some (set_u u' s)
  else
    b1 ← rd (sb s) s1;
    if Qltb b1 (a0 + eps) then
      x ← rdZ (jx s) (e1 * Z.of_nat nsize + Z.of_nat nsize - 1)%Z;
      u' ← wr (u s) i1 x; Some (set_u u' s)
    else
      a1 ← rd (sa s) s1;
      let k1 := (b1 - a1)%Q in
      let tau := ((a0 - a1) / k1)%Q in
      ep ← rdZ (ee s) e1;
      x0 ← initial_value ep i1 s;
      u' ← wr (u s) i1 (ueval x0 (dofs s (e1 * Z.of_nat nsize)) tau);
      Some (set_u u' s).

(** [cg_feval], quadrature point [m >= 1] at time [t], one dependency with
    a larger or equal time step. *)
Definition cg_peer (m : nat) (t : real) (s0 : nat) (a0 : real) (i1 : nat)
    (s : Slab) : option Slab :=
  e1 ← rd (elast s) i1;
  if (e1 =? -1)%Z then Some s else
  s1 ← rdZ (es s) e1;
  let j1 := (e1 * Z.of_nat nsize)%Z in
  if decide (s0 = s1) then
    x ← rdZ (jx s) (j1 + Z.of_nat m - 1)%Z;
    u' ← wr (u s) i1 x; Some (set_u u' s)
  else
    b1 ← rd (sb s) s1;
    if Qltb b1 (a0 + eps) then Some s else
    a1 ← rd (sa s) s1;
    let k1 := (b1 - a1)%Q in
    let tau := ((t - a1) / k1)%Q in
    ep ← rdZ (ee s) e1;
    x0 ← initial_value ep i1 s;
    u' ← wr (u s) i1 (ueval x0 (dofs s j1) tau);
    Some (set_u u' s).

(** [cg_feval], one dependency with a smaller time step, read at [de[d]]. *)
Definition cg_dependent (t : real) (d : nat) (s : Slab) : option Slab :=
  e1 ← rd (de s) d;
  _ ← assert (negb (e1 =? -1)%Z);
  ep ← rdZ (ee s) e1;
  i1 ← rdZ (ei s) e1;
  x0 ← initial_value ep i1 s;
  s1 ← rdZ (es s) e1;
  a1 ← rd (sa s) s1;
  b1 ← rd (sb s) s1;
  let k1 := (b1 - a1)%Q in
  let tau := ((t - a1) / k1)%Q in
  u' ← wr (u s) i1 (ueval x0 (dofs s (e1 * Z.of_nat nsize)) tau);
  Some (set_u u' s).

(** [ed[e0]] and the number of small-step dependencies per nodal point. *)
Definition dependents_range (e0 : nat) (s : Slab) : option (nat * nat) :=
  d ← rd (ed s) e0;
  end_ ← (if decide (ne s = 0 ∨ e0 < ne s - 1) then rd (ed s) (e0 + 1)
          else Some (nd s));
  let ndep := (end_ - d) / nsize in
  (* [end - d] is unsigned: a range that ends before it starts aborts here *)
  _ ← assert (bool_decide (d ≤ end_ ∧ ndep * nsize = end_ - d));
  Some (d, ndep).

Definition cg_feval (f : list real) (s0 e0 i0 : nat) (a0 b0 k0 : real)
    (s : Slab) : option (list real * Slab) :=
  let deps := dependencies i0 in
  '(f, s) ← (if Qltb a0 (_a s + eps) then
               y ← rd (f0 s) i0; f' ← wr f 0 y; Some (f', s)
             else
               s ← for_each (cg_peer_left s0 a0) deps s;
               f' ← wr f 0 (ode_f (u s) a0 i0); Some (f', s));
  '(d, ndep) ← dependents_range e0 s;
  for_range 1 qsize (fun m '(f, s) =>
    let t := (a0 + k0 * qpoint m)%Q in
    s ← for_each (cg_peer m t s0 a0) deps s;
    s ← for_range (d + (m - 1) * ndep) (d + m * ndep) (cg_dependent t) s;
    f' ← wr f m (ode_f (u s) t i0);
    Some (f', s)) (f, s).

(** [dg_feval], quadrature point [m] at time [t], one dependency with a
    larger or equal time step. *)
Definition dg_peer (m : nat) (t : real) (s0 : nat) (a0 : real) (i1 : nat)
    (s : Slab) : option Slab :=
  e1 ← rd (elast s) i1;
  if (e1 =? -1)%Z then Some s else
  s1 ← rdZ (es s) e1;
  let j1 := (e1 * Z.of_nat nsize)%Z in
  if decide (s0 = s1) then
    x ← rdZ (jx s) (j1 + Z.of_nat m)%Z;
    u' ← wr (u s) i1 x; Some (set_u u' s)
  else
    b1 ← rd (sb s) s1;
    if Qltb b1 (a0 + eps) then Some s else
    a1 ← rd (sa s) s1;
    let k1 := (b1 - a1)%Q in
    let tau := ((t - a1) / k1)%Q in
    u' ← wr (u s) i1 (ueval 0 (dofs s j1) tau);
    Some (set_u u' s).

Definition dg_dependent (t : real) (d : nat) (s : Slab) : option Slab :=
  e1 ← rd (de s) d;
  _ ← assert (negb (e1 =? -1)%Z);
  i1 ← rdZ (ei s) e1;
  s1 ← rdZ (es s) e1;
  a1 ← rd (sa s) s1;
  b1 ← rd (sb s) s1;
  let k1 := (b1 - a1)%Q in
  let tau := ((t - a1) / k1)%Q in
  u' ← wr (u s) i1 (ueval 0 (dofs s (e1 * Z.of_nat nsize)) tau);
  Some (set_u u' s).

Definition dg_feval (f : list real) (s0 e0 i0 : nat) (a0 b0 k0 : real)
    (s : Slab) : option (list real * Slab) :=
  let deps := dependencies i0 in
  '(d, ndep) ← dependents_range e0 s;
  for_range 0 qsize (fun m '(f, s) =>
    let t := (a0 + k0 * qpoint m)%Q in
    s ← for_each (dg_peer m t s0 a0) deps s;
    s ← for_range (d + m * ndep) (d + (m + 1) * ndep) (dg_dependent t) s;
    f' ← wr f m (ode_f (u s) t i0);
    Some (f', s)) (f, s).

(** ** Reset *)

(** [reset]: every dof of every element back to the initial value of its
    component; [j] runs along [jx]. *)
Definition reset (s : Slab) : option Slab :=
  '(_, s) ← for_range 0 (ne s) (fun e '(j, s) =>
      i ← rd (ei s) e;
      s ← for_range 0 nsize (fun n s =>
            x ← rd (u0 s) i;
            jx' ← wr (jx s) (j + n) x;
            Some (set_jx jx' s)) s;
      Some (j + nsize, s)) (0, s);
  Some s.

(** ** Covering a sub-slab *)

(** The loop of [coverSlab] and [coverNext]: from [e] on, as long as the
    element is in [subslab], make it the latest of its component; [cnt]
    elements are left.  Returns the element it stopped at. *)
Fixpoint cover_run (subslab : Z) (cnt e : nat) (s : Slab)
  : option (nat * Slab) :=
  match cnt with
  | O => Some (e, s)
  | S cnt' =>
    s1 ← rd (es s) e;
    if negb (Z.of_nat s1 =? subslab)%Z then Some (e, s) else
    i ← rd (ei s) e;
    el ← wr (elast s) i (Z.of_nat e);
    cover_run subslab cnt' (S e) (set_elast el s)
  end.

Definition coverSlab (subslab : Z) (e0 : nat) (s : Slab)
  : option (nat * Slab) :=
  cover_run subslab (ne s - e0) e0 s.

Definition coverNext (subslab : Z) (element : nat) (s : Slab)
  : option (Z * Slab) :=
  s1 ← rd (es s) element;
  if (subslab =? Z.of_nat s1)%Z then Some (subslab, s) else
  let subslab := Z.of_nat s1 in
  '(_, s) ← cover_run subslab (ne s - element) element s;
  Some (subslab, s).

(** ** Solve *)

(** [solve], up to the call of the solver (not among the sources): [u0]
    is copied to [u] and, for cG, [f] is evaluated at the left end. *)
Definition solve_start (s : Slab) : option Slab :=
  s ← for_range 0 N (fun i s =>
        x ← rd (u0 s) i;
        u' ← wr (u s) i x;
        Some (set_u u' s)) s;
  match mtype with
  | cG =>
    for_range 0 N (fun i s =>
      f0' ← wr (f0 s) i (ode_f (u0 s) (_a s) i);
      Some (set_f0 f0' s)) s
  | dG => Some s
  end.

(** ** The solver and the constructor *)

(** [chooseSolver]: returns the solver and what [message] printed. *)
Definition chooseSolver : Outcome (SolverKind * list string) :=
  let implicit := ode_implicit in
  let solver := ode_nonlinear_solver in
  if implicit then
    Fatal "Multi-adaptive solver cannot solver implicit ODEs. Use cG(q) or dG(q) instead."
  else if String.eqb solver "fixed-point" then
    Done (MultiAdaptiveFixedPointSolver,
          ["Using multi-adaptive fixed-point solver."%string])
  else if String.eqb solver "newton" then
    Done (MultiAdaptiveNewtonSolver,
          ["Using multi-adaptive Newton solver."%string])
  else if String.eqb solver "default" then
    Done (MultiAdaptiveFixedPointSolver,
          ["Using multi-adaptive fixed-point solver (default for mc/dG(q))."%string])
  else
    Fatal ("Uknown solver type: " ++ solver ++ ".").

(** The slab as the constructor leaves it.  The base class [TimeSlab]
    (not among the sources) has set [_a = _b = 0] and the initial values
    [u0]; [partition(N)] is the given state [p].  The source allocates
    [f0] without writing to it; the model holds zeros there until
    [solve] writes it. *)
Definition new_slab (init : list real) (p : P) (out : list string) : Slab :=
  MkSlab [] [] [] [] [] [] [] []
    (MkSize 0 0) (MkSize 0 0) (MkSize 0 0) (MkSize 0 0)
    0 0 0 0
    (replicate N (-1)%Z)
    (match mtype with cG => replicate N 0%Q | dG => [] end)
    (replicate N 0%Q)
    init
    0 0%Q 0%Q 0%Q
    p
    []
    out.

(** The constructor. *)
Definition MultiAdaptiveTimeSlab (init : list real) (p : P)
  : Outcome (SolverKind * Slab) :=
  match chooseSolver with
  | Fatal msg => Fatal msg
  | Done (solver, out) =>
    Done (solver,
          new_slab init p
            (out ++ ["Computing transpose (inverse) of dependency pattern."%string]))
  end.

End Model.
Section SpecSide.
Context {method : Method} {ode : ODE} {adaptivity : Adaptivity}
  {tolerance : Tolerance} {P : Type} {partition_ops : Partition P}.
Local Abbreviation Slab := (Slab P).

(** ** The sampled element, as the specification words it *)

(** The value of element [e] of component [i] at time [t]:
    [ueval(x0, jx + e * nsize, (t - sa[es[e]]) / (sb[es[e]] - sa[es[e]]))]
    with [x0] the last dof of [ee[e]], or [u0[i]] when [ee[e]] is [-1]. *)
Definition element_value (e i : nat) (t : real) (s : Slab) : option real :=
  s1 ← rd (es s) e;
  a ← rd (sa s) s1;
  b ← rd (sb s) s1;
  ep ← rd (ee s) e;
  x0 ← initial_value ep i s;
  Some (ueval x0 (dofs s (Z.of_nat e * Z.of_nat nsize)) ((t - a) / (b - a))%Q).




(** ** The growth policy, as the specification words it *)

End SpecSide.

(** Double-or-grow: a request beyond the capacity at least doubles it. *)
Definition double_or_grow (capacity request : nat) : nat :=
  if decide (request ≤ capacity) then capacity
  else Nat.max (2 * capacity) request.

(** * Concrete collaborators, used to run the model *)

(** cG(1): one nodal point at the right end, linear interpolation from the
    initial value. *)
Definition cg1 : Method :=
  {| mtype := cG; nsize := 1; qsize := 2;
     npoint := fun _ => 1%Q;
     qpoint := fun m => match m with O => 0%Q | _ => 1%Q end;
     ueval := fun x0 d tau => (x0 + tau * (nth 0 d 0 - x0))%Q |}.

(** dG(0): one nodal point at the right end, piecewise constant. *)
Definition dg0 : Method :=
  {| mtype := dG; nsize := 1; qsize := 1;
     npoint := fun _ => 1%Q;
     qpoint := fun _ => 1%Q;
     ueval := fun _ d _ => nth 0 d 0%Q |}.

(** dG(1): the two Radau points 1/3 and 1, linear interpolation. *)
Definition dg1 : Method :=
  {| mtype := dG; nsize := 2; qsize := 2;
     npoint := fun n => match n with O => (1 # 3)%Q | _ => 1%Q end;
     qpoint := fun m => match m with O => (1 # 3)%Q | _ => 1%Q end;
     ueval := fun _ d tau =>
       (nth 0 d 0 + (tau - (1 # 3)) * (3 # 2) * (nth 1 d 0 - nth 0 d 0))%Q |}.

(** Two components that depend on each other (and on nothing else); the
    hook's answer [go] and the options are parameters. *)
Definition two_components (go implicit : bool) (solver : string) : ODE :=
  {| N := 2; endtime := 1%Q;
     dependencies := fun i => match i with O => [1] | _ => [0] end;
     transpose := fun i => match i with O => [1] | _ => [0] end;
     ode_f := fun u t i =>
       match i with O => nth 1 u 0%Q | _ => (- (100 * nth 0 u 0))%Q end;
     ode_update := fun _ _ _ => go;
     ode_implicit := implicit;
     ode_nonlinear_solver := solver;
     save_final := false |}.

Definition oscillator : ODE := two_components true false "default".

Definition adaptivity1 : Adaptivity :=
  {| kmax := 1%Q; threshold := (9 # 10)%Q; residual := fun _ => 0%Q |}.

(** DOLFIN_EPS. *)
Definition dolfin_eps : Tolerance := (3 # 10000000000000000)%Q.

(** A partition of components already sorted by decreasing step: position
    [n] holds component [n] with step [steps[n]]; the head at [offset] is
    the run of positions with the step of [offset] (1 beyond the table),
    the cutoff the smaller of that step and [K].  The state counts the
    calls. *)
Fixpoint run_length (k0 : Q) (l : list Q) : nat :=
  match l with
  | k :: l' => if Qeq_bool k k0 then S (run_length k0 l') else 0
  | [] => 0
  end.

Definition table_update (steps : list Q) (p offset : nat) (K : Q)
  : nat * nat * Q :=
  let k0 := nth offset steps 1%Q in
  (S p, offset + run_length k0 (drop offset steps), real_min K k0).

Definition table (steps : list Q) : Partition nat :=
  {| partition_update := table_update steps;
     partition_index := fun _ n => n |}.

Definition stopping : ODE := two_components false false "default".

Definition implicit_oscillator : ODE := two_components true true "newton".

(** A very short time: a third of the tolerance. *)
Definition tiny : Q := (1 # 10000000000000000)%Q.

(** The oscillator on [[0, 1]]: component 0 takes the whole slab in one
    step, component 1 takes two steps. *)
Definition two_rates : Partition nat := table [1; 1 # 2]%Q.

(** The slab of the oscillator on [[0, 1]], as the constructor leaves it
    and as built with two rates. *)
Definition oscillator_new (m : Method) (o : ODE) : Slab nat :=
  new_slab (method := m) (ode := o) [1; 0]%Q 0 [].

Definition oscillator_build (m : Method) (o : ODE) (p : Partition nat)
    (b : real) : option (real * Slab nat) :=
  build (method := m) (ode := o) (adaptivity := adaptivity1)
    (tolerance := dolfin_eps) (partition_ops := p) 10 0 b
    (oscillator_new m o).

Definition built_or_new (m : Method) (o : ODE) (p : Partition nat)
    (b : real) : Slab nat :=
  match oscillator_build m o p b with
  | Some (_, s) => s
  | None => oscillator_new m o
  end.

Definition two_rates_built : Slab nat :=
  Eval vm_compute in built_or_new dg0 oscillator two_rates 1.

(** The same on a slab shorter than the tolerance. *)
Definition short_built : Slab nat :=
  Eval vm_compute in built_or_new dg0 oscillator two_rates tiny.

(** Three components: component 0 depends on components 1 and 2, which
    depend on it; its right-hand side shows both values that it reads. *)
Definition three_components : ODE :=
  {| N := 3; endtime := 1%Q;
     dependencies := fun i => match i with O => [1; 2] | _ => [0] end;
     transpose := fun i => match i with O => [1; 2] | _ => [0] end;
     ode_f := fun u t i =>
       match i with
       | O => (nth 1 u 0 + 1000 * nth 2 u 0)%Q
       | _ => nth 0 u 0%Q
       end;
     ode_update := fun _ _ _ => true;
     ode_implicit := false;
     ode_nonlinear_solver := "default";
     save_final := false |}.

(** Components 0 and 1 take the slab in one step, component 2 in two. *)
Definition two_and_one : Partition nat := table [1; 1; 1 # 2]%Q.

Definition three_build (m : Method) : Slab nat :=
  let s0 := new_slab (method := m) (ode := three_components)
              [1; 0; 0]%Q 0 [] in
  match build (method := m) (ode := three_components)
          (adaptivity := adaptivity1) (tolerance := dolfin_eps)
          (partition_ops := two_and_one) 10 0 1 s0 with
  | Some (_, s) => s
  | None => s0
  end.

(** The three components with dG(1) and with cG(1) on [[0, 1]], as built
    and with dofs (and [f0]) as a solver may leave them, all different. *)
Definition three_dg : Slab nat := Eval vm_compute in three_build dg1.

Definition three_dg_solved : Slab nat :=
  set_jx [10; 20; 30; 40; 50; 60; 70; 80]%Q three_dg.

Definition three_cg : Slab nat := Eval vm_compute in three_build cg1.

Definition three_cg_solved : Slab nat :=
  set_f0 [5; 6; 7]%Q (set_jx [10; 20; 30; 40]%Q three_cg).

(** The built slab with dofs as a solver may leave them. *)
Definition two_rates_solved : Slab nat := set_jx [10; 20; 30]%Q two_rates_built.


(** The built slab as it was before the last element was linked: the
    latest element of component 1 is its first, the dependency slot of
    element 0 is empty. *)
Definition two_rates_open : Slab nat :=
  set_de [-1]%Z (set_elast [0; 1]%Z two_rates_built).

(** The built slab, built once more. *)
Definition two_rates_rebuilt : Slab nat :=
  Eval vm_compute in
    match build (method := dg0) (ode := oscillator)
            (adaptivity := adaptivity1) (tolerance := dolfin_eps)
            (partition_ops := two_rates) 10 0 1 two_rates_built with
    | Some (_, s) => s
    | None => two_rates_built
    end.

(** The built slab with its arena emptied, as [build] has it before the
    creation. *)
Definition two_rates_empty : Slab nat :=
  set_de [-1]%Z (set_elast [-1; -1]%Z
    (alloc_d 1 (alloc_j 3 (alloc_e 3 (alloc_s 3 two_rates_built))))).

(** A partition of the two components that reorders them: component 1
    takes the step 1 and component 0 the step 1/2, so an update at
    position 0 moves component 1 to the front.  The state tells whether
    the two positions are swapped; the cutoff at position 1 is the step of
    the component found there. *)
Definition swap_index (p : bool) (n : nat) : nat :=
  if p then match n with O => 1 | 1 => 0 | _ => n end else n.

Definition swap_update (p : bool) (offset : nat) (K : Q) : bool * nat * Q :=
  match offset with
  | O => (true, 1, real_min K 1)
  | 1 => (p, 2, real_min K (if p then 1 # 2 else 1))
  | _ => (p, offset, K)
  end.

Definition reordering : Partition bool :=
  {| partition_update := swap_update; partition_index := swap_index |}.

(** The slab of the oscillator with this partition, not yet swapped, as
    the constructor leaves it and as built on [[0, 1]]. *)
Definition unswapped_new : Slab bool :=
  new_slab (method := dg0) (ode := oscillator) [1; 0]%Q false [].

Definition reordered_built : Slab bool :=
  Eval vm_compute in
    match build (method := dg0) (ode := oscillator)
            (adaptivity := adaptivity1) (tolerance := dolfin_eps)
            (partition_ops := reordering) 10 0 1 unswapped_new with
    | Some (_, s) => s
    | None => unswapped_new
    end.

(** dG(1) on a slab of twice the tolerance: component 0 takes the slab in
    one step, component 1 in two steps of the tolerance each. *)
Definition two_eps : Q := (6 # 10000000000000000)%Q.

Definition eps_rates : Partition nat :=
  table [two_eps; 3 # 10000000000000000]%Q.

Definition eps_built : Slab nat :=
  Eval vm_compute in built_or_new dg1 oscillator eps_rates two_eps.

(** dG(1) with two rates on [[0, 1]]: two nodal points for each element. *)
Definition two_rates_fine : Slab nat :=
  Eval vm_compute in built_or_new dg1 oscillator two_rates 1.

(** cG(1) with two rates on [[0, 1]]. *)
Definition two_rates_cg : Slab nat :=
  Eval vm_compute in built_or_new cg1 oscillator two_rates 1.

(** * Predicates of the verification *)

Section Predicates.
Context {method : Method} {ode : ODE} {adaptivity : Adaptivity}
  {tolerance : Tolerance} {P : Type} {partition_ops : Partition P}.
Local Abbreviation Slab := (Slab P).
Local Abbreviation eps := real_epsilon.

(** The step of the sub-slab of [elast[i]]. *)
Definition elast_step (i : nat) (s : Slab) : option real :=
  e ← rd (elast s) i;
  _ ← assert (negb (e =? -1)%Z);
  s1 ← rdZ (es s) e;
  a ← rd (sa s) s1;
  b ← rd (sb s) s1;
  Some (b - a)%Q.

Definition covered_from (s s' : Slab) : Prop :=
  s' = set_elast (elast s') (set_emax (emax s') s).

(** The state after [create_e], but for the dofs and the dependencies. *)
Definition element_added (index subslab : nat) (el : Z) (s : Slab) : Slab :=
  let pos := next (size_e s) in
  set_elast (<[index:=Z.of_nat pos]> (elast s))
    (set_size_j (MkSize (next (size_j s) + nsize) (size (size_j s)))
      (set_ee (<[pos:=el]> (ee s))
        (set_es (<[pos:=subslab]> (es s))
          (set_ei (<[pos:=index]> (ei s))
            (set_size_e (MkSize (pos + 1) (size (size_e s))) s))))).

(** [s] with the fields the creation writes taken from [s']. *)
Definition created_from (s s' : Slab) : Slab :=
  MkSlab (sa s') (sb s') (ei s') (es s') (ee s') (ed s') (jx s') (de s')
    (size_s s') (size_e s') (size_j s') (size_d s')
    (ns s) (ne s) (nj s) (nd s) (elast s') (f0 s) (u s) (u0 s) (emax s)
    (kmin s') (_a s) (_b s) (partition s') (written s) (log s).

(** [s'] is [s] after some creation steps: counters grew, capacities and
    the entries below the old counters are the same. *)
Record extends (s s' : Slab) : Prop := {
  ext_static : s' = created_from s s';
  ext_next_s : next (size_s s) <= next (size_s s');
  ext_next_e : next (size_e s) <= next (size_e s');
  ext_next_j : next (size_j s) <= next (size_j s');
  ext_next_d : next (size_d s) <= next (size_d s');
  ext_size_s : size (size_s s') = size (size_s s);
  ext_size_e : size (size_e s') = size (size_e s);
  ext_size_j : size (size_j s') = size (size_j s);
  ext_size_d : size (size_d s') = size (size_d s);
  ext_len_sa : length (sa s') = length (sa s);
  ext_len_sb : length (sb s') = length (sb s);
  ext_len_ei : length (ei s') = length (ei s);
  ext_len_es : length (es s') = length (es s);
  ext_len_ee : length (ee s') = length (ee s);
  ext_len_ed : length (ed s') = length (ed s);
  ext_len_jx : length (jx s') = length (jx s);
  ext_len_de : length (de s') = length (de s);
  ext_len_elast : length (elast s') = length (elast s);
  ext_sa : forall i, i < next (size_s s) -> sa s' !! i = sa s !! i;
  ext_sb : forall i, i < next (size_s s) -> sb s' !! i = sb s !! i;
  ext_ei : forall e, e < next (size_e s) -> ei s' !! e = ei s !! e;
  ext_es : forall e, e < next (size_e s) -> es s' !! e = es s !! e;
  ext_ee : forall e, e < next (size_e s) -> ee s' !! e = ee s !! e
}.

(** The mapping [ed] after the step of [create_s] for [element], with
    [total] the counter [size_d.next] after that step. *)
Definition ed_written (element : Z) (total ne_ : nat) (l : list nat)
  : list nat :=
  let l := if (element =? 0)%Z then <[0:=0]> l else l in
  if (element <? Z.of_nat ne_ - 1)%Z
  then <[Z.to_nat (element + 1):=total]> l else l.

(** Component [i] sits at a position from [offset] on. *)
Definition in_tail (p : P) (offset i : nat) : Prop :=
  exists n, offset <= n < N /\ partition_index p n = i.

(** [partition_index p] is a permutation of the components; an update at
    [offset] returns a head that ends within range, only reorders the
    positions from [offset] on, and answers a positive bound with a positive
    cutoff. *)
Record partition_contract : Prop := {
  pc_range : forall p offset K, offset <= N ->
    offset <= (partition_update p offset K).1.2 <= N;
  pc_inj : forall p n m, n < N -> m < N ->
    partition_index p n = partition_index p m -> n = m;
  pc_fixed : forall p offset K n, n < offset ->
    partition_index (partition_update p offset K).1.1 n = partition_index p n;
  pc_tail : forall p offset K i,
    in_tail (partition_update p offset K).1.1 offset i <-> in_tail p offset i;
  pc_positive : forall p offset K,
    (0 < K)%Q -> (0 < (partition_update p offset K).2)%Q
}.

(** The previous element [p] recorded for element [e] of component [i] in
    sub-slab [sigma]: none and [e] is the first of [i], or the latest
    earlier element of [i], which ends where [e] begins. *)
Definition prev_ok (s : Slab) (e i sigma : nat) (p : Z) : Prop :=
  (p = (-1)%Z /\ forall e', e' < e -> ei s !! e' <> Some i)
  \/ ((0 <= p)%Z /\ Z.to_nat p < e
      /\ ei s !! Z.to_nat p = Some i
      /\ (forall e', Z.to_nat p < e' < e -> ei s !! e' <> Some i)
      /\ exists sp t, es s !! Z.to_nat p = Some sp
           /\ sb s !! sp = Some t /\ sa s !! sigma = Some t).

Definition elems_ok (s : Slab) : Prop :=
  forall e, e < next (size_e s) ->
  exists i sigma p,
    ei s !! e = Some i /\ i < N
    /\ es s !! e = Some sigma /\ sigma < next (size_s s)
    /\ ee s !! e = Some p
    /\ prev_ok s e i sigma p.

(** [elast[i]] is the latest element of component [i], or [-1]. *)
Definition elast_ok (s : Slab) : Prop :=
  length (elast s) = N
  /\ forall i el, elast s !! i = Some el ->
       (el = (-1)%Z /\ forall e, e < next (size_e s) -> ei s !! e <> Some i)
       \/ ((0 <= el)%Z /\ Z.to_nat el < next (size_e s)
           /\ ei s !! Z.to_nat el = Some i
           /\ forall e', Z.to_nat el < e' < next (size_e s) ->
                ei s !! e' <> Some i).

(** Component [i] has no element yet or its latest element ends at [a]. *)
Definition reached (s : Slab) (i : nat) (a : real) : Prop :=
  forall el, elast s !! i = Some el ->
    el = (-1)%Z
    \/ exists sigma, es s !! Z.to_nat el = Some sigma /\ sb s !! sigma = Some a.

(** Every component from position [offset] on has reached [a]. *)
Definition covered (a : real) (offset : nat) (s : Slab) : Prop :=
  forall i, in_tail (partition s) offset i -> reached s i a.

(** Component [i] has a latest element, which ends at [a]. *)
Definition ended (s : Slab) (i : nat) (a : real) : Prop :=
  exists el sigma,
    elast s !! i = Some el /\ (0 <= el)%Z
    /\ es s !! Z.to_nat el = Some sigma /\ sb s !! sigma = Some a.

(** The predicates of the element graph read these fields only. *)
Record same_graph (s s' : Slab) : Prop := {
  sg_sa : sa s' = sa s; sg_sb : sb s' = sb s;
  sg_ei : ei s' = ei s; sg_es : es s' = es s; sg_ee : ee s' = ee s;
  sg_elast : elast s' = elast s;
  sg_next_s : next (size_s s') = next (size_s s);
  sg_next_e : next (size_e s') = next (size_e s)
}.

(** What a call [createTimeSlab(a, b, offset)] from state [s] guarantees
    when it returns [b'] in state [s']. *)
Record slab_post (a b : real) (offset : nat) (s : Slab) (b' : real)
    (s' : Slab) : Prop := {
  sp_elems : elems_ok s';
  sp_elast : elast_ok s';
  sp_frame : forall i, ~ in_tail (partition s) offset i ->
    elast s' !! i = elast s !! i;
  sp_fixed : forall n, n < offset ->
    partition_index (partition s') n = partition_index (partition s) n;
  sp_tail : forall i,
    in_tail (partition s') offset i <-> in_tail (partition s) offset i;
  sp_time : (a < b)%Q -> (a < b')%Q /\ (b' = b \/ (b' < b)%Q);
  sp_ended : (a < b)%Q ->
    forall i, in_tail (partition s') offset i -> ended s' i b'
}.

(** The partition answers a query by its arguments alone: the head range,
    the components in it and the cutoff do not depend on the state the
    partition is in. *)
Definition partition_deterministic : Prop :=
  forall (p q : P) offset K,
    (partition_update p offset K).1.2 = (partition_update q offset K).1.2
    /\ (partition_update p offset K).2 = (partition_update q offset K).2
    /\ forall n, offset <= n < (partition_update p offset K).1.2 ->
         partition_index (partition_update p offset K).1.1 n
         = partition_index (partition_update q offset K).1.1 n.

(** Component [i] sits at a position of the head [[offset, end_)]. *)
Definition in_head (p : P) (offset end_ i : nat) : Prop :=
  exists n, offset <= n < end_ /\ partition_index p n = i.

(** Two states of the partition hold the same components from [offset]
    on, in whatever order. *)
Definition same_tail (offset : nat) (p q : P) : Prop :=
  forall i, in_tail p offset i <-> in_tail q offset i.

(** The partition answers by the components it is asked to split: from
    two states that hold the same components from [offset] on, an update
    at [offset] with the same bound returns the same end of the head, the
    same cutoff and the same components in the head; their order and
    the state may differ.  This is what the dry run needs of a partition
    that reorders its tail: the creation meets the order that the dry run
    has left. *)
Definition partition_stable : Prop :=
  forall (p q : P) offset K, same_tail offset p q ->
    (partition_update p offset K).1.2 = (partition_update q offset K).1.2
    /\ (partition_update p offset K).2 = (partition_update q offset K).2
    /\ forall i,
         in_head (partition_update p offset K).1.1 offset
           (partition_update p offset K).1.2 i
         <-> in_head (partition_update q offset K).1.1 offset
               (partition_update p offset K).1.2 i.

(** Every sub-slab created so far is longer than the tolerance. *)
Definition longer_than_eps (s : Slab) : Prop :=
  forall sigma x y, sigma < next (size_s s) ->
    sa s !! sigma = Some x -> sb s !! sigma = Some y -> (x + eps < y)%Q.

(** The time [x] that the dry run holds in [u[i]] is the one the creation
    has reached for component [i]: the end of its latest element, or the
    start [a_top] of the slab when it has none. *)
Definition latest (a_top : real) (sc : Slab) (i : nat) (x : real) : Prop :=
  forall el, elast sc !! i = Some el ->
    (el = (-1)%Z /\ x = a_top)
    \/ ((0 <= el)%Z
        /\ exists sigma, es sc !! Z.to_nat el = Some sigma
             /\ sb sc !! sigma = Some x).

(** The dry run in state [sd] and the creation in state [sc] agree. *)
Record dry_matches (a_top : real) (sd sc : Slab) : Prop := {
  dm_s : next (size_s sc) = ns sd;
  dm_e : next (size_e sc) = ne sd;
  dm_j : next (size_j sc) = nj sd;
  dm_u : forall i x, u sd !! i = Some x -> latest a_top sc i x;
  dm_d : longer_than_eps sc -> next (size_d sc) = nd sd
}.

Definition dry_from (s s' : Slab) : Slab :=
  set_u (u s') (set_ns (ns s') (set_ne (ne s') (set_nj (nj s')
    (set_nd (nd s') (set_kmin (kmin s') (set_partition (partition s') s)))))).

(** [s] with the arena and its sizes taken from [s']. *)
Definition arena_from (s s' : Slab) : Slab :=
  set_sa (sa s') (set_sb (sb s') (set_ei (ei s') (set_es (es s')
    (set_ee (ee s') (set_ed (ed s') (set_jx (jx s') (set_de (de s')
      (set_size_s (size_s s') (set_size_e (size_e s')
        (set_size_j (size_j s') (set_size_d (size_d s') s))))))))))).

(** The dry run of a build, as [allocData] starts it. *)
Definition dry_run (fuel : nat) (a b : real) (s : Slab)
  : option (real * Slab) :=
  s1 ← for_range 0 N (fun i s => u' ← wr (u s) i a; Some (set_u u' s)) s;
  computeDataSize fuel a b 0 (set_ns 0 (set_ne 0 (set_nj 0 (set_nd 0 s1)))).

(** Slot [d] belongs to the range of an element [e1], the latest element
    of a component [i1] that depends on [i0]; the interval [[a0, b0]] lies
    within the one of [e1] up to the tolerance, in another sub-slab than
    [s0], and a nodal point of [e1] lies in [(a0, b0]] up to the
    tolerance. *)
Definition recorded_under (i0 s0 : nat) (a0 b0 : real) (s : Slab) (d : nat)
  : Prop :=
  exists i1 e1 s1 a1 b1 lo hi n,
    i1 ∈ transpose i0
    /\ elast s !! i1 = Some e1 /\ e1 <> (-1)%Z
    /\ rdZ (es s) e1 = Some s1
    /\ sa s !! s1 = Some a1 /\ sb s !! s1 = Some b1
    /\ rdZ (ed s) e1 = Some lo /\ rdZ (ed s) (e1 + 1) = Some hi
    /\ lo <= d < hi
    /\ within_interval a0 b0 a1 b1 = true
    /\ (a1 <= a0 + eps)%Q /\ (b0 - eps <= b1)%Q
    /\ s0 <> s1
    /\ n < nsize
    /\ within_time (a1 + (b1 - a1) * npoint n) a0 b0 = true
    /\ (a0 + eps < a1 + (b1 - a1) * npoint n)%Q
    /\ (a1 + (b1 - a1) * npoint n <= b0 + eps)%Q.

(** The slots that differ from those of [s] hold [e0], were empty, and
    are recorded under the containment rule. *)
Definition writes_ok (i0 e0 s0 : nat) (a0 b0 : real) (s sx : Slab) : Prop :=
  sx = set_de (de sx) s
  /\ forall d, de sx !! d <> de s !! d ->
       de sx !! d = Some (Z.of_nat e0)
       /\ de s !! d = Some (-1)%Z
       /\ recorded_under i0 s0 a0 b0 s d.

(** The dofs are laid out element by element, [nsize] for each, and each
    holds the initial value of the component of its element. *)
Definition dofs_initial (s : Slab) : Prop :=
  next (size_j s) = nsize * next (size_e s)
  /\ forall e n, e < next (size_e s) -> n < nsize ->
       exists i x, ei s !! e = Some i /\ u0 s !! i = Some x
                   /\ jx s !! (e * nsize + n) = Some x.

(** The end value of component [i] in a slab with latest elements
    [elast]: the last dof of [elast[i]], whose sub-slab ends at [_b]. *)
Definition end_value (s : Slab) (el : list Z) (i : nat) (x : real) : Prop :=
  exists e sigma b,
    el !! i = Some e /\ e <> (-1)%Z
    /\ rdZ (es s) e = Some sigma /\ sb s !! sigma = Some b
    /\ Qeq_bool b (_b s) = true
    /\ rdZ (jx s) (e * Z.of_nat nsize + Z.of_nat nsize - 1)%Z = Some x.

(** [s'] is [s] with another [u] of the same length. *)
Definition only_u (s s' : Slab) : Prop :=
  s' = set_u (u s') s /\ length (u s') = length (u s).

(** The latest element of component [i] covers [t] up to the tolerance. *)
Definition covers (s : Slab) (t : real) (i : nat) : Prop :=
  exists e s1 a b,
    elast s !! i = Some e /\ e <> (-1)%Z
    /\ rdZ (es s) e = Some s1
    /\ sa s !! s1 = Some a /\ sb s !! s1 = Some b
    /\ (a + eps <= t)%Q /\ (t <= b + eps)%Q.

(** The sub-slab of element [e] starts at [a] / ends at [b]. *)
Definition start_of (s : Slab) (e : nat) (a : real) : Prop :=
  exists sigma, es s !! e = Some sigma /\ sa s !! sigma = Some a.

Definition end_of (s : Slab) (e : nat) (b : real) : Prop :=
  exists sigma, es s !! e = Some sigma /\ sb s !! sigma = Some b.

(** The elements created so far start between [a_top] and [x], later
    elements do not start earlier, an element without a previous one
    starts at [a_top], and the sub-slabs can be read. *)
Record timeline (a_top x : real) (s : Slab) : Prop := {
  tl_bounds : forall e a, e < next (size_e s) -> start_of s e a ->
    (a_top <= a)%Q /\ (a <= x)%Q;
  tl_sorted : forall e1 e2 a1 a2, e1 <= e2 -> e2 < next (size_e s) ->
    start_of s e1 a1 -> start_of s e2 a2 -> (a1 <= a2)%Q;
  tl_first : forall e a, e < next (size_e s) ->
    ee s !! e = Some (-1)%Z -> start_of s e a -> a = a_top;
  tl_read : forall sigma, sigma < next (size_s s) ->
    is_Some (sa s !! sigma) /\ is_Some (sb s !! sigma)
}.

(** A built arena: [ne] elements, each readable, ordered by the start of
    their sub-slabs; an element without a previous one starts at [_a],
    the last element of a component ends at [_b] or later, and every
    component has an element. *)
Record arena_ok (s : Slab) : Prop := {
  ar_ne : ne s = next (size_e s);
  ar_elast : length (elast s) = N;
  ar_elems : elems_ok s;
  ar_read : forall sigma, sigma < next (size_s s) ->
    is_Some (sa s !! sigma) /\ is_Some (sb s !! sigma);
  ar_sorted : forall e1 e2 a1 a2, e1 <= e2 -> e2 < ne s ->
    start_of s e1 a1 -> start_of s e2 a2 -> (a1 <= a2)%Q;
  ar_first : forall e a, e < ne s -> ee s !! e = Some (-1)%Z ->
    start_of s e a -> a = _a s;
  ar_last : forall e i b, e < ne s -> ei s !! e = Some i ->
    (forall e', e < e' < ne s -> ei s !! e' <> Some i) ->
    end_of s e b -> (_b s <= b)%Q;
  ar_all : forall i, i < N -> exists e, e < ne s /\ ei s !! e = Some i
}.

(** [s'] has the arena of [s]: coverage has changed [elast] and [emax]
    at most. *)
Definition same_arena (s s' : Slab) : Prop :=
  es s' = es s /\ ei s' = ei s /\ ee s' = ee s
  /\ sa s' = sa s /\ sb s' = sb s
  /\ ne s' = ne s /\ size_e s' = size_e s /\ size_s s' = size_s s
  /\ _a s' = _a s /\ _b s' = _b s
  /\ length (elast s') = length (elast s).

(** Element [e] starts too late for [t]: the sweep stops at it. *)
Definition late (s : Slab) (t : real) (e : nat) : Prop :=
  exists a, start_of s e a /\ (t < a + eps)%Q /\ (_a s < a - eps)%Q.

(** With the latest elements [el], every component with an element below
    [m] has as its latest element its last one below [m]. *)
Definition below (s : Slab) (el : list Z) (m : nat) : Prop :=
  forall e i, e < m -> e < ne s -> ei s !! e = Some i ->
    exists x, el !! i = Some (Z.of_nat x)
              /\ e <= x /\ x < m /\ x < ne s /\ ei s !! x = Some i.

(** Every component has a latest element, and it is one of its own. *)
Definition valid_latest (s : Slab) : Prop :=
  forall i, i < N ->
    exists x, elast s !! i = Some (Z.of_nat x)
              /\ x < ne s /\ ei s !! x = Some i.

(** The states of [elast] and [emax] that a build or a sweep leaves: the
    latest elements are the last ones up to [emax], or the last ones of
    all. *)
Definition sampled (s : Slab) : Prop :=
  valid_latest s
  /\ (below s (elast s) (S (emax s)) \/ below s (elast s) (ne s)).

(** The latest element of component [i] holds the time [t]: it begins
    before [t] (or with the slab) and ends after it, up to the
    tolerance. *)
Definition holds_time (s : Slab) (t : real) (i : nat) : Prop :=
  exists x a b,
    elast s !! i = Some (Z.of_nat x) /\ x < ne s /\ ei s !! x = Some i
    /\ start_of s x a /\ end_of s x b
    /\ ((a + eps <= t)%Q \/ (a <= _a s + eps)%Q)
    /\ (t <= b + eps)%Q.

(** Every component sits at some position of the partition. *)
Definition partition_onto : Prop :=
  forall (p : P) i, i < N -> exists n, n < N /\ partition_index p n = i.

(** The latest element of every component is its last, and ends at
    [_b]. *)
Definition latest_is_last (s : Slab) : Prop :=
  forall i, i < N ->
    exists x, elast s !! i = Some (Z.of_nat x)
              /\ x < ne s /\ ei s !! x = Some i
              /\ (forall e', x < e' < ne s -> ei s !! e' <> Some i)
              /\ end_of s x (_b s).

(** The dofs and initial values that sampling reads are there. *)
Definition dofs_readable (s : Slab) : Prop :=
  1 <= nsize /\ ne s * nsize <= length (jx s) /\ N <= length (u0 s).

(** The number of entries of [l] that satisfy [f]. *)
Definition count_if {A} (f : A -> bool) (l : list A) : nat :=
  length (List.filter f l).

(** The number of positions of [de[lo .. lo + cnt)] that hold an element,
    an index from 0 on, not the sentinel [-1]. *)
Definition taken (l : list Z) (j : nat) : bool :=
  match l !! j with
  | Some z => (0 <=? z)%Z
  | None => false
  end.

Definition filled (l : list Z) (lo cnt : nat) : nat :=
  count_if (taken l) (seq lo cnt).

(** The arena read with defaults: the sub-slab and the component of an
    element, the ends of a sub-slab and of an element, a nodal point. *)
Definition slab_of (s : Slab) (e : nat) : nat := default 0 (es s !! e).

Definition comp_of (s : Slab) (e : nat) : nat := default 0 (ei s !! e).

Definition begin_at (s : Slab) (sigma : nat) : real :=
  default 0%Q (sa s !! sigma).

Definition end_at (s : Slab) (sigma : nat) : real :=
  default 0%Q (sb s !! sigma).

Definition left_end (s : Slab) (e : nat) : real := begin_at s (slab_of s e).

Definition right_end (s : Slab) (e : nat) : real := end_at s (slab_of s e).

Definition node_of (s : Slab) (e n : nat) : real :=
  (left_end s e + (right_end s e - left_end s e) * npoint n)%Q.

(** The sub-slabs are created in the order of their starts, each has a
    positive length, two of them are nested or follow each other, and the
    elements are created sub-slab by sub-slab. *)
Record laminar (s : Slab) : Prop := {
  lm_read : forall sigma, sigma < next (size_s s) ->
    is_Some (sa s !! sigma) /\ is_Some (sb s !! sigma);
  lm_pos : forall sigma, sigma < next (size_s s) ->
    (begin_at s sigma < end_at s sigma)%Q;
  lm_sorted : forall sigma sigma', sigma <= sigma' ->
    sigma' < next (size_s s) ->
    (begin_at s sigma <= begin_at s sigma')%Q;
  lm_nested : forall sigma sigma', sigma < sigma' ->
    sigma' < next (size_s s) ->
    (end_at s sigma <= begin_at s sigma')%Q
    \/ (end_at s sigma' <= end_at s sigma)%Q;
  lm_es : forall e e', e <= e' -> e' < next (size_e s) ->
    slab_of s e <= slab_of s e'
}.

(** The interval [[a, b]] can take the next sub-slab: the sub-slabs so far
    start at [a] or before, and end by [a] or not before [b]. *)
Definition fits (a b : real) (s : Slab) : Prop :=
  forall sigma, sigma < next (size_s s) ->
    (begin_at s sigma <= a)%Q
    /\ ((end_at s sigma <= a)%Q \/ (b <= end_at s sigma)%Q).

(** Every nodal point of a sub-slab lies inside it, later than its start
    by more than the tolerance. *)
Definition nodes_inside (s : Slab) : Prop :=
  forall sigma n, sigma < next (size_s s) -> n < nsize ->
    (begin_at s sigma + eps
       < begin_at s sigma + (end_at s sigma - begin_at s sigma) * npoint n)%Q
    /\ (begin_at s sigma + (end_at s sigma - begin_at s sigma) * npoint n
          <= end_at s sigma)%Q.

(** The sparsity pattern and its transpose describe the same dependencies,
    each once, between the components of the system. *)
Record sparsity_ok : Prop := {
  sp_transpose : forall i0 i1, i0 < N -> i1 < N ->
    i1 ∈ transpose i0 <-> i0 ∈ dependencies i1;
  sp_dependencies : forall i, i < N -> NoDup (dependencies i);
  sp_once : forall i, i < N -> NoDup (transpose i);
  sp_range : forall i i0, i < N -> i0 ∈ dependencies i -> i0 < N
}.

(** The conditions under which the slots of the dependencies are followed:
    the sparsity pattern is consistent, the tolerance is not negative,
    the nodal points lie inside their sub-slabs, and the arena has the
    size of the dry run or has not reached it yet. *)
Definition usable (s : Slab) : Prop :=
  sparsity_ok
  /\ (0 <= eps)%Q
  /\ nodes_inside s
  /\ next (size_e s) <= ne s
  /\ next (size_d s) <= nd s.

(** Component [i0] counts for element [e1]: among the first [E] elements,
    those of [i0] in the sub-slab of [e1] or an earlier one end before
    [e1] does, by more than the tolerance. *)
Definition counted_to (E : nat) (s : Slab) (e1 i0 : nat) : bool :=
  forallb (fun y =>
    implb (Nat.eqb (comp_of s y) i0 && (slab_of s y <=? slab_of s e1))
          (Qltb (right_end s y) (right_end s e1 - eps)))
    (seq 0 E).

(** The nodal point [n] of [e1] lies in element [y], by [within]. *)
Definition hit (s : Slab) (e1 n y : nat) : bool :=
  within_time (node_of s e1 n) (left_end s y) (right_end s y).

(** Among the first [E] elements, one of [i0] in a later sub-slab holds
    the nodal point [n] of [e1]. *)
Definition passed_to (E : nat) (s : Slab) (e1 i0 n : nat) : bool :=
  existsb (fun y =>
    Nat.eqb (comp_of s y) i0 && (slab_of s e1 <? slab_of s y)
    && hit s e1 n y)
    (seq 0 E).

(** The number of slots of [e1]: [nsize] for each dependency that
    counts. *)
Definition dim_to (E : nat) (s : Slab) (e1 : nat) : nat :=
  nsize * count_if (counted_to E s e1) (dependencies (comp_of s e1)).

(** The first slot of element [m]. *)
Fixpoint offs_to (E : nat) (s : Slab) (m : nat) : nat :=
  match m with
  | O => 0
  | S m' => offs_to E s m' + dim_to E s m'
  end.

(** The number of slots of [e1] whose nodal point has been passed. *)
Definition due_to (E : nat) (s : Slab) (e1 : nat) : nat :=
  count_if (fun p => counted_to E s e1 p.1 && passed_to E s e1 p.1 p.2)
    (list_prod (dependencies (comp_of s e1)) (seq 0 nsize)).

(** Element [z] is a small-step peer of [e1]: an element of a component
    on which the component of [e1] depends, in a later sub-slab, whose
    interval lies in that of [e1] and holds a nodal point of [e1]. *)
Definition small_peer (s : Slab) (e1 z : nat) : Prop :=
  z < next (size_e s)
  /\ comp_of s z ∈ dependencies (comp_of s e1)
  /\ slab_of s e1 < slab_of s z
  /\ within_interval (left_end s z) (right_end s z)
       (left_end s e1) (right_end s e1) = true
  /\ exists n, n < nsize /\ hit s e1 n z = true.

(** The state of the dependencies when the first [m] elements have their
    slots: [ed] holds the first slot of each, [size_d.next] the first
    free one, the slots filled are those of the nodal points passed and
    hold small-step peers, and the free slots are empty. *)
Record fill_inv (s : Slab) (m : nat) : Prop := {
  fi_ed : forall e, e <= m -> e < ne s -> 1 <= m ->
    ed s !! e = Some (offs_to (next (size_e s)) s e);
  fi_next : next (size_d s) = offs_to (next (size_e s)) s m;
  fi_due : forall e1, e1 < m ->
    filled (de s) (offs_to (next (size_e s)) s e1)
      (dim_to (next (size_e s)) s e1)
    = due_to (next (size_e s)) s e1;
  fi_free : forall j, offs_to (next (size_e s)) s m <= j < nd s ->
    de s !! j = Some (-1)%Z;
  fi_peer : forall e1 d z, e1 < m ->
    offs_to (next (size_e s)) s e1 <= d
      < offs_to (next (size_e s)) s e1 + dim_to (next (size_e s)) s e1 ->
    de s !! d = Some z ->
    z = (-1)%Z \/ exists y, z = Z.of_nat y /\ small_peer s e1 y
}.

(** [create_d] for a new element on [[a0, b0]] in sub-slab [s0] writes
    into the slots of [e]: [e] is the latest element of its component,
    in another sub-slab, and contains the interval. *)
Definition target (s : Slab) (a0 b0 : real) (s0 e : nat) : bool :=
  bool_decide (elast s !! comp_of s e = Some (Z.of_nat e))
  && within_interval a0 b0 (left_end s e) (right_end s e)
  && negb (bool_decide (s0 = slab_of s e)).

(** The number of nodal points of [e] that lie in [(a0, b0]]. *)
Definition nodes_within (s : Slab) (a0 b0 : real) (e : nat) : nat :=
  count_if (fun n => within_time (node_of s e n) a0 b0) (seq 0 nsize).

(** The state [sr] reads as [s] where [create_d] reads. *)
Definition view (s sr : Slab) : Prop :=
  elast sr = elast s /\ sa sr = sa s /\ sb sr = sb s /\ ed sr = ed s
  /\ forall e, e < next (size_e s) -> es sr !! e = es s !! e.

(** The range of slots of element [e0], as the right-hand side reads it:
    from [ed[e0]] to [ed[e0 + 1]], or to [nd] for the last element. *)
Definition slot_range (s : Slab) (e0 : nat) : option (nat * nat) :=
  lo ← rd (ed s) e0;
  hi ← (if decide (ne s = 0 ∨ e0 < ne s - 1) then rd (ed s) (e0 + 1)
        else Some (nd s));
  Some (lo, hi).

(** What the right-hand side reads is there: the latest elements, the
    elements with their components, sub-slabs and previous elements, the
    dofs, an initial value and room in [u] for every component, and for
    every element a range of slots, [nsize] times a number, that hold
    elements. *)
Record feval_ready (s : Slab) : Prop := {
  fr_elast : forall i, i < N ->
    exists el, elast s !! i = Some el
      /\ (el = (-1)%Z \/ exists x, el = Z.of_nat x /\ x < ne s);
  fr_elem : forall x, x < ne s ->
    exists i sigma a b,
      ei s !! x = Some i /\ i < N /\ es s !! x = Some sigma
      /\ sa s !! sigma = Some a /\ sb s !! sigma = Some b;
  fr_ee : forall x, x < ne s ->
    exists p, ee s !! x = Some p
      /\ (p = (-1)%Z \/ exists y, p = Z.of_nat y /\ y < ne s);
  fr_jx : ne s * nsize <= length (jx s);
  fr_u0 : N <= length (u0 s);
  fr_u : N <= length (u s);
  fr_slots : forall e, e < ne s ->
    exists lo k,
      slot_range s e = Some (lo, lo + nsize * k)
      /\ forall d, lo <= d < lo + nsize * k ->
           exists z, de s !! d = Some (Z.of_nat z) /\ z < ne s
}.

(** The state [sx] is [s] but for [u], and is ready as [s] is. *)
Definition ready_as (s sx : Slab) : Prop :=
  feval_ready sx /\ ed sx = ed s /\ de sx = de s /\ ne sx = ne s
  /\ nd sx = nd s.

(** Component [i1] is read from a smaller element at some quadrature
    point of element [e0]: one of the slots that the right-hand side
    visits for [e0] holds an element of [i1]. *)
Definition reads_smaller (s : Slab) (e0 i1 : nat) : Prop :=
  exists d ndep k z,
    dependents_range e0 s = Some (d, ndep)
    /\ d <= k < d + qsize * ndep
    /\ de s !! k = Some (Z.of_nat z) /\ ei s !! z = Some i1.

End Predicates.


(** * Properties *)

(** ** Reals and arrays *)

Lemma Qltb_lt (x y : Q) : Qltb x y = true <-> (x < y)%Q.
Proof.
  unfold Qltb. rewrite negb_true_iff, <- not_true_iff_false, Qle_bool_iff.
  split; intros; lra.
Qed.

Lemma Qltb_ge (x y : Q) : Qltb x y = false <-> (y <= x)%Q.
Proof.
  unfold Qltb. rewrite negb_false_iff, Qle_bool_iff. tauto.
Qed.

Lemma Qleb_le (x y : Q) : Qleb x y = true <-> (x <= y)%Q.
Proof. apply Qle_bool_iff. Qed.

Lemma Qleb_gt (x y : Q) : Qleb x y = false <-> (y < x)%Q.
Proof.
  unfold Qleb. rewrite <- not_true_iff_false, Qle_bool_iff.
  split; intros; lra.
Qed.

Lemma wr_Some {A} (l l' : list A) i v :
  wr l i v = Some l' <-> i < length l /\ l' = <[i:=v]> l.
Proof.
  unfold wr. destruct (decide (i < length l)); split.
  - intros [= <-]. auto.
  - intros [_ ->]. reflexivity.
  - discriminate.
  - intros [? _]. lia.
Qed.

Lemma wr_length {A} (l l' : list A) i v :
  wr l i v = Some l' -> length l' = length l.
Proof. intros [_ ->]%wr_Some. apply length_insert. Qed.

Lemma rdZ_Some {A} (l : list A) z x :
  rdZ l z = Some x <-> (0 <= z)%Z /\ l !! Z.to_nat z = Some x.
Proof.
  unfold rdZ. destruct (Z.leb_spec 0 z); split; try tauto.
  - discriminate.
  - intros [? _]. lia.
Qed.

Lemma rdZ_of_nat {A} (l : list A) (n : nat) : rdZ l (Z.of_nat n) = l !! n.
Proof.
  unfold rdZ. destruct (Z.leb_spec 0 (Z.of_nat n)); [|lia].
  by rewrite Nat2Z.id.
Qed.

Lemma assert_Some c x : assert c = Some x <-> c = true.
Proof. destruct c, x; simpl; split; congruence. Qed.

Lemma realloc_length {A} (d : A) l old new :
  old <= length l -> old <= new -> length (realloc d l old new) = new.
Proof.
  intros. unfold realloc. rewrite length_app, length_take, length_replicate.
  lia.
Qed.

(** ** Loops *)

Lemma for_each_inv {A St} (I : St -> Prop) (body : A -> St -> option St) l :
  (forall x s s', x ∈ l -> I s -> body x s = Some s' -> I s') ->
  forall s s', I s -> for_each body l s = Some s' -> I s'.
Proof.
  induction l as [|x l IH]; simpl; intros Hb s s' Hs Hrun.
  - by inversion Hrun; subst.
  - apply bind_Some in Hrun as (s1 & H1 & H2).
    eapply IH; [| |exact H2].
    + intros. eapply Hb; eauto. by right.
    + eapply Hb; eauto. by left.
Qed.

Lemma for_range_inv {St} (I : St -> Prop) lo hi
    (body : nat -> St -> option St) :
  (forall n s s', lo <= n < hi -> I s -> body n s = Some s' -> I s') ->
  forall s s', I s -> for_range lo hi body s = Some s' -> I s'.
Proof.
  intros Hb. unfold for_range. apply for_each_inv.
  intros n s s' Hn. apply Hb. apply elem_of_seq in Hn. lia.
Qed.

Lemma for_each_app {A St} (body : A -> St -> option St) l1 l2 s :
  for_each body (l1 ++ l2) s = (s' ← for_each body l1 s; for_each body l2 s').
Proof.
  revert s. induction l1 as [|x l1 IH]; simpl; intros s; [done|].
  destruct (body x s); simpl; auto.
Qed.

Lemma while_loop_inv {St} (I : real -> St -> Prop) cond
    (body : real -> St -> option (real * St)) :
  (forall t s t' s', I t s -> cond t = true -> body t s = Some (t', s') ->
     I t' s') ->
  forall fuel t s t' s', I t s ->
    while_loop fuel cond body t s = Some (t', s') ->
    I t' s' /\ cond t' = false.
Proof.
  intros Hb. induction fuel as [|fuel IH]; simpl; intros t s t' s' Hs Hrun.
  - destruct (cond t) eqn:Hc; [discriminate|]. by inversion Hrun; subst.
  - destruct (cond t) eqn:Hc.
    + apply bind_Some in Hrun as ([t1 s1] & H1 & H2).
      eapply IH; [|exact H2]. eauto.
    + by inversion Hrun; subst.
Qed.

Section Queries.
Context {method : Method} {ode : ODE} {adaptivity : Adaptivity}
  {tolerance : Tolerance} {P : Type} {partition_ops : Partition P}.
Local Abbreviation Slab := (Slab P).
Local Abbreviation eps := real_epsilon.

(** ** The solver choice (C7) *)

(** C7: whenever the option "ODE implicit" is true, [chooseSolver] ends in
    the fatal error with its message, whatever "ODE nonlinear solver" says,
    and so does the constructor: no slab is built. *)
Theorem chooseSolver_implicit_fatal (init : list real) (p : P) :
  ode_implicit = true ->
  chooseSolver
    = Fatal "Multi-adaptive solver cannot solver implicit ODEs. Use cG(q) or dG(q) instead."
  /\ MultiAdaptiveTimeSlab init p
    = Fatal "Multi-adaptive solver cannot solver implicit ODEs. Use cG(q) or dG(q) instead.".
Proof.
  intros Himp. unfold MultiAdaptiveTimeSlab, chooseSolver.
  rewrite Himp. split; reflexivity.
Qed.

(** ** Sampling the step and the residual (C10) *)

(** C10: [ksample] and [rsample] do not look at their time: [ksample]
    returns the step of the sub-slab of [elast[i]], [rsample] the stored
    residual, and both hand back the slab as they found it (no coverage
    sweep, no write). *)
Theorem ksample_rsample_ignore_time (i : nat) (t1 t2 : real) (s : Slab) :
  ksample i t1 s = ksample i t2 s
  /\ rsample i t1 s = rsample i t2 s
  /\ ksample i t1 s = (k ← elast_step i s; Some (k, s))
  /\ rsample i t1 s = Some (residual i, s).
Proof.
  repeat split; try reflexivity.
  unfold ksample, elast_step.
  destruct (rd (elast s) i) as [e|]; simpl; [|done].
  destruct (assert _); simpl; [|done].
  destruct (rdZ (es s) e) as [s1|]; simpl; [|done].
  destruct (rd (sa s) s1); simpl; [|done].
  destruct (rd (sb s) s1); simpl; done.
Qed.

End Queries.

Section Shift.
Context {method : Method} {ode : ODE} {adaptivity : Adaptivity}
  {tolerance : Tolerance} {P : Type} {partition_ops : Partition P}.
Local Abbreviation Slab := (Slab P).
Local Abbreviation eps := real_epsilon.

(** ** Coverage writes [elast] and [emax] only *)

Lemma covered_from_refl (s : Slab) : covered_from s s.
Proof. by destruct s. Qed.

Lemma covered_from_trans (s1 s2 s3 : Slab) :
  covered_from s1 s2 -> covered_from s2 s3 -> covered_from s1 s3.
Proof. unfold covered_from. intros -> ->. reflexivity. Qed.

Lemma coverTime_check_frame t l (s : Slab) ok s' :
  coverTime_check t l s = Some (ok, s') -> covered_from s s'.
Proof.
  induction l as [|i l IH]; simpl; intros Hrun.
  - inversion Hrun; subst. apply covered_from_refl.
  - apply bind_Some in Hrun as (e & _ & Hrun).
    destruct (e =? -1)%Z.
    { inversion Hrun; subst. by destruct s. }
    apply bind_Some in Hrun as (s1 & _ & Hrun).
    apply bind_Some in Hrun as (a & _ & Hrun).
    apply bind_Some in Hrun as (b & _ & Hrun).
    destruct (Qltb t (a + eps)).
    { inversion Hrun; subst. by destruct s. }
    destruct (Qltb (b + eps) t); [|auto].
    inversion Hrun; subst. apply covered_from_refl.
Qed.

Lemma coverTime_sweep_frame t cnt : forall e (s s' : Slab),
  coverTime_sweep t cnt e s = Some s' -> covered_from s s'.
Proof.
  induction cnt as [|cnt IH]; simpl; intros e s s' Hrun.
  - inversion Hrun; subst. apply covered_from_refl.
  - apply bind_Some in Hrun as (s1 & _ & Hrun).
    apply bind_Some in Hrun as (i & _ & Hrun).
    apply bind_Some in Hrun as (a & _ & Hrun).
    destruct (_ && _).
    { inversion Hrun; subst. apply covered_from_refl. }
    apply bind_Some in Hrun as (el & _ & Hrun).
    apply IH in Hrun. eapply covered_from_trans; [|exact Hrun].
    by destruct s.
Qed.

Lemma coverTime_frame t (s s' : Slab) :
  coverTime t s = Some s' -> covered_from s s'.
Proof.
  unfold coverTime. intros Hrun.
  apply bind_Some in Hrun as ([ok s1] & Hc & Hrun).
  apply coverTime_check_frame in Hc.
  destruct ok.
  { inversion Hrun; subst. done. }
  apply bind_Some in Hrun as (s2 & H2 & Hrun).
  apply coverTime_sweep_frame in Hrun.
  eapply covered_from_trans; [exact Hc|].
  eapply covered_from_trans; [|exact Hrun].
  destruct (decide _).
  { inversion H2; subst. by destruct s1. }
  apply bind_Some in H2 as (? & _ & H2).
  apply bind_Some in H2 as (a & _ & H2).
  inversion H2; subst.
  destruct (Qltb _ _); by destruct s1.
Qed.

(** ** Shift (C5) *)

Lemma shift_values_frame end_ (s s1 : Slab) :
  shift_values end_ s = Some s1 ->
  u0 s1 = u0 s /\ log s1 = log s /\ _a s1 = _a s /\ _b s1 = _b s
  /\ jx s1 = jx s.
Proof.
  unfold shift_values. intros Hrun.
  apply bind_Some in Hrun as (s2 & Hc & Hrun).
  apply coverTime_frame in Hc.
  apply bind_Some in Hrun as (s3 & Hl & Hrun).
  assert (u0 s3 = u0 s /\ log s3 = log s /\ _a s3 = _a s /\ _b s3 = _b s
          /\ jx s3 = jx s) as (? & ? & ? & ? & ?).
  { eapply (for_range_inv (fun sx : Slab =>
      u0 sx = u0 s /\ log sx = log s /\ _a sx = _a s /\ _b sx = _b s
      /\ jx sx = jx s)); [| |exact Hl].
    - intros n sx sx' _ IH Hb.
      repeat (apply bind_Some in Hb as (? & _ & Hb)).
      inversion Hb; subst. exact IH.
    - rewrite Hc. done. }
  inversion Hrun; subst. destruct (_ && _); done.
Qed.

(** C5: when the hook [ode.update(u, _b, end)] answers false, [shift]
    returns false in the state it had reached at the call: the initial
    values [u0] are those from before the shift (the copy of [u] into [u0]
    has not run) and nothing has been printed. *)
Theorem shift_veto_keeps_u0 (end_ : bool) (s s1 : Slab) :
  shift_values end_ s = Some s1 ->
  ode_update (u s1) (_b s1) end_ = false ->
  shift end_ s = Some (false, s1) /\ u0 s1 = u0 s /\ log s1 = log s.
Proof.
  intros Hv Hveto. unfold shift. rewrite Hv. simpl. rewrite Hveto. simpl.
  apply shift_values_frame in Hv as (? & ? & _). done.
Qed.

End Shift.

Section Creation.
Context {method : Method} {ode : ODE} {adaptivity : Adaptivity}
  {tolerance : Tolerance} {P : Type} {partition_ops : Partition P}.
Local Abbreviation Slab := (Slab P).
Local Abbreviation eps := real_epsilon.

(** ** What each step of the creation writes *)

Lemma computeEndTime_eq a b offset (s : Slab) b' end_ s' :
  computeEndTime a b offset s = (b', end_, s') ->
  exists K',
    partition_update (partition s) offset (real_min kmax (b - a))
      = (partition s', end_, K')
    /\ b' = (if Qltb K' (threshold * (b - a)) then (a + K')%Q else b)
    /\ s' = set_kmin (kmin s') (set_partition (partition s') s).
Proof.
  unfold computeEndTime.
  destruct (partition_update _ _ _) as [[p e] K'] eqn:Hp.
  intros [= <- <- <-]. exists K'. simpl. auto.
Qed.

Lemma create_j_eq index (s s' : Slab) :
  create_j index s = Some s' ->
  s' = set_jx (jx s')
         (set_size_j (MkSize (next (size_j s) + nsize) (size (size_j s))) s)
  /\ length (jx s') = length (jx s).
Proof.
  unfold create_j. intros Hrun.
  apply bind_Some in Hrun as (_ & _ & Hrun).
  set (s1 := set_size_j _ s) in *.
  eapply (for_range_inv (fun sx : Slab =>
    sx = set_jx (jx sx) s1 /\ length (jx sx) = length (jx s)));
    [| |exact Hrun].
  - intros n sx sx' _ [IH1 IH2] Hb.
    apply bind_Some in Hb as (x & _ & Hb).
    apply bind_Some in Hb as (jx' & Hw & Hb).
    inversion Hb; subst sx'. simpl. split.
    + rewrite IH1. reflexivity.
    + apply wr_length in Hw. congruence.
  - split; [by destruct s|done].
Qed.

Lemma create_d_dep_eq e0 s0 a0 b0 i1 (s s' : Slab) :
  create_d_dep e0 s0 a0 b0 i1 s = Some s' ->
  s' = set_de (de s') s /\ length (de s') = length (de s).
Proof.
  unfold create_d_dep. intros Hrun.
  apply bind_Some in Hrun as (e1 & _ & Hrun).
  destruct (e1 =? -1)%Z.
  { inversion Hrun; subst. split; [by destruct s'|done]. }
  apply bind_Some in Hrun as (s1 & _ & Hrun).
  apply bind_Some in Hrun as (a1 & _ & Hrun).
  apply bind_Some in Hrun as (b1 & _ & Hrun).
  destruct (_ || _).
  { inversion Hrun; subst. split; [by destruct s'|done]. }
  eapply (for_range_inv (fun sx : Slab =>
    sx = set_de (de sx) s /\ length (de sx) = length (de s)));
    [| |exact Hrun].
  - intros n sx sx' _ [IH1 IH2] Hb.
    destruct (within_time _ _ _); [|by inversion Hb; subst].
    apply bind_Some in Hb as (lo & _ & Hb).
    apply bind_Some in Hb as (hi & _ & Hb).
    apply bind_Some in Hb as (d & _ & Hb).
    apply bind_Some in Hb as (de' & Hw & Hb).
    inversion Hb; subst sx'. simpl. split.
    + rewrite IH1. reflexivity.
    + apply wr_length in Hw. congruence.
  - split; [by destruct s|done].
Qed.

Lemma create_d_eq i0 e0 s0 a0 b0 (s s' : Slab) :
  create_d i0 e0 s0 a0 b0 s = Some s' ->
  s' = set_de (de s') s /\ length (de s') = length (de s).
Proof.
  unfold create_d.
  apply (for_each_inv (fun sx : Slab =>
    sx = set_de (de sx) s /\ length (de sx) = length (de s))).
  - intros i1 sx sx' _ [IH1 IH2] Hb.
    apply create_d_dep_eq in Hb as [Hb1 Hb2]. split; [|congruence].
    rewrite Hb1, IH1. reflexivity.
  - split; [by destruct s|done].
Qed.

Lemma create_e_eq index subslab a b (s s' : Slab) :
  create_e index subslab a b s = Some s' ->
  exists el,
    elast s !! index = Some el
    /\ next (size_e s) < size (size_e s)
    /\ next (size_e s) < length (ei s)
    /\ next (size_e s) < length (es s)
    /\ next (size_e s) < length (ee s)
    /\ s' = set_de (de s') (set_jx (jx s') (element_added index subslab el s))
    /\ length (jx s') = length (jx s)
    /\ length (de s') = length (de s).
Proof.
  unfold create_e. intros Hrun.
  apply bind_Some in Hrun as (_ & Ha%assert_Some & Hrun).
  apply bool_decide_eq_true in Ha.
  apply bind_Some in Hrun as (ei' & [? ->]%wr_Some & Hrun).
  apply bind_Some in Hrun as (es' & [? ->]%wr_Some & Hrun).
  apply bind_Some in Hrun as (el & Hel & Hrun).
  apply bind_Some in Hrun as (ee' & [? ->]%wr_Some & Hrun).
  apply bind_Some in Hrun as (s1 & [Hj Hjl]%create_j_eq & Hrun).
  apply bind_Some in Hrun as (s2 & [Hd Hdl]%create_d_eq & Hrun).
  apply bind_Some in Hrun as (elast' & [? ->]%wr_Some & Hrun).
  inversion Hrun; subst s'. clear Hrun.
  exists el. simpl in *. repeat split; try done.
  - rewrite Hd at 1. rewrite Hj at 1. simpl.
    rewrite Hd, Hj. reflexivity.
  - rewrite Hd. simpl. rewrite Hjl. reflexivity.
  - rewrite Hdl. rewrite Hj. reflexivity.
Qed.

End Creation.

(** Reading the fields off an equation [s' = set_x v (set_y w s)]. *)
Ltac field_eq t :=
  let E := fresh "E" in
  pose proof t as E; simpl in E;
  lazymatch type of E with
  | ?x = ?x => clear E
  | _ => idtac
  end.

Ltac fields H :=
  field_eq (f_equal sa H); field_eq (f_equal sb H); field_eq (f_equal ei H);
  field_eq (f_equal es H); field_eq (f_equal ee H); field_eq (f_equal ed H);
  field_eq (f_equal jx H); field_eq (f_equal de H);
  field_eq (f_equal size_s H); field_eq (f_equal size_e H);
  field_eq (f_equal size_j H); field_eq (f_equal size_d H);
  field_eq (f_equal ns H); field_eq (f_equal ne H); field_eq (f_equal nj H);
  field_eq (f_equal nd H); field_eq (f_equal elast H);
  field_eq (f_equal f0 H); field_eq (f_equal u H); field_eq (f_equal u0 H);
  field_eq (f_equal emax H); field_eq (f_equal kmin H);
  field_eq (f_equal _a H); field_eq (f_equal _b H);
  field_eq (f_equal partition H); field_eq (f_equal written H);
  field_eq (f_equal log H).

Section Extends.
Context {method : Method} {ode : ODE} {adaptivity : Adaptivity}
  {tolerance : Tolerance} {P : Type} {partition_ops : Partition P}.
Local Abbreviation Slab := (Slab P).
Local Abbreviation eps := real_epsilon.

(** ** The creation only appends *)

Lemma static_intro (s s' : Slab) :
  ns s' = ns s -> ne s' = ne s -> nj s' = nj s -> nd s' = nd s ->
  f0 s' = f0 s -> u s' = u s -> u0 s' = u0 s -> emax s' = emax s ->
  _a s' = _a s -> _b s' = _b s -> written s' = written s -> log s' = log s ->
  s' = created_from s s'.
Proof. destruct s, s'; simpl; intros; subst; reflexivity. Qed.

Lemma extends_refl (s : Slab) : extends s s.
Proof. split; try done. by destruct s. Qed.

Lemma extends_trans (s1 s2 s3 : Slab) :
  extends s1 s2 -> extends s2 s3 -> extends s1 s3.
Proof.
  intros [] []. split; try (etrans; eassumption); try lia.
  - rewrite ext_static1, ext_static0. reflexivity.
  - intros. rewrite ext_sa1, ext_sa0 by lia. done.
  - intros. rewrite ext_sb1, ext_sb0 by lia. done.
  - intros. rewrite ext_ei1, ext_ei0 by lia. done.
  - intros. rewrite ext_es1, ext_es0 by lia. done.
  - intros. rewrite ext_ee1, ext_ee0 by lia. done.
Qed.

(** Closes the fields of [extends s s'] from equations on the fields of
    [s']. *)
Ltac extends_fields :=
  split; intros;
  first
    [ by apply static_intro
    | repeat match goal with
             | E : ?x = _ |- context [?x] => rewrite E
             end;
      simpl; rewrite ?length_insert;
      first [ done | lia | apply list_lookup_insert_ne; lia ] ].

Lemma computeEndTime_extends a b offset (s : Slab) b' end_ s' :
  computeEndTime a b offset s = (b', end_, s') -> extends s s'.
Proof.
  intros (K' & _ & _ & Heq)%computeEndTime_eq. fields Heq. clear Heq.
  extends_fields.
Qed.

Lemma create_e_extends index subslab a b (s s' : Slab) :
  create_e index subslab a b s = Some s' -> extends s s'.
Proof.
  intros (el & Hel & ? & ? & ? & ? & Heq & ? & ?)%create_e_eq.
  fields Heq. clear Heq. extends_fields.
Qed.

End Extends.

Section Extends2.
Context {method : Method} {ode : ODE} {adaptivity : Adaptivity}
  {tolerance : Tolerance} {P : Type} {partition_ops : Partition P}.
Local Abbreviation Slab := (Slab P).
Local Abbreviation eps := real_epsilon.

Lemma ed_written_length element total ne_ l :
  length (ed_written element total ne_ l) = length l.
Proof.
  unfold ed_written.
  destruct (_ =? _)%Z, (_ <? _)%Z; rewrite ?length_insert; done.
Qed.

Lemma create_s_ed_eq b0 n (s s' : Slab) :
  create_s_ed b0 n s = Some s' ->
  exists element c,
    elast s !! partition_index (partition s) n = Some element
    /\ element <> (-1)%Z
    /\ countDependencies (partition_index (partition s) n) b0 s = Some c
    /\ s' = set_ed (ed_written element (next (size_d s) + c) (ne s) (ed s))
              (set_size_d (MkSize (next (size_d s) + c) (size (size_d s))) s).
Proof.
  unfold create_s_ed. intros Hrun.
  apply bind_Some in Hrun as (element & Hel & Hrun).
  apply bind_Some in Hrun as (_ & Ha%assert_Some & Hrun).
  apply negb_true_iff, Z.eqb_neq in Ha.
  apply bind_Some in Hrun as (c & Hc & Hrun).
  apply bind_Some in Hrun as (s1 & H1 & Hrun).
  exists element, c. repeat split; try done.
  unfold ed_written.
  destruct (element =? 0)%Z eqn:H0.
  - apply bind_Some in H1 as (ed1 & Hw1 & H1). inversion H1; subst s1.
    apply Z.eqb_eq in H0. subst element.
    unfold wrZ in Hw1. simpl in Hw1. apply wr_Some in Hw1 as [? ->].
    simpl in Hrun.
    destruct (_ <? _)%Z.
    + apply bind_Some in Hrun as (ed2 & Hw2 & Hrun). inversion Hrun; subst s'.
      unfold wrZ in Hw2. simpl in Hw2. apply wr_Some in Hw2 as [? ->].
      reflexivity.
    + inversion Hrun; subst s'. reflexivity.
  - inversion H1; subst s1. simpl in Hrun.
    destruct (_ <? _)%Z.
    + apply bind_Some in Hrun as (ed2 & Hw2 & Hrun). inversion Hrun; subst s'.
      unfold wrZ in Hw2. destruct (0 <=? element + 1)%Z; [|done].
      apply wr_Some in Hw2 as [? ->]. reflexivity.
    + inversion Hrun; subst s'. reflexivity.
Qed.

Lemma create_s_ed_extends b0 n (s s' : Slab) :
  create_s_ed b0 n s = Some s' -> extends s s'.
Proof.
  intros (element & c & _ & _ & _ & Heq)%create_s_ed_eq. fields Heq.
  clear Heq. split; intros;
    first [ by apply static_intro
          | repeat match goal with
                   | E : ?x = _ |- context [?x] => rewrite E
                   end;
            simpl; rewrite ?ed_written_length; first [done | lia] ].
Qed.

Lemma create_s_eq a0 b0 offset end_ (s s' : Slab) :
  create_s a0 b0 offset end_ s = Some s' ->
  let pos := next (size_s s) in
  let s1 := set_sb (<[pos:=b0]> (sb s))
              (set_sa (<[pos:=a0]> (sa s))
                (set_size_s (MkSize (pos + 1) (size (size_s s))) s)) in
  pos < size (size_s s) /\ pos < length (sa s) /\ pos < length (sb s)
  /\ exists s2,
       for_range offset end_ (fun n s =>
         create_e (partition_index (partition s) n) pos a0 b0 s) s1 = Some s2
       /\ for_range offset end_ (create_s_ed b0) s2 = Some s'.
Proof.
  unfold create_s. intros Hrun.
  apply bind_Some in Hrun as (_ & Ha%assert_Some & Hrun).
  apply bool_decide_eq_true in Ha.
  apply bind_Some in Hrun as (sa' & [Hlsa ->]%wr_Some & Hrun).
  apply bind_Some in Hrun as (sb' & [Hlsb ->]%wr_Some & Hrun).
  apply bind_Some in Hrun as (s2 & H2 & Hrun).
  cbn [sa sb set_sa set_sb set_size_s] in Hlsa, Hlsb.
  repeat split; try done.
  exists s2. split; done.
Qed.

Lemma sub_slab_extends a0 b0 (s : Slab) :
  extends s
    (set_sb (<[next (size_s s):=b0]> (sb s))
      (set_sa (<[next (size_s s):=a0]> (sa s))
        (set_size_s (MkSize (next (size_s s) + 1) (size (size_s s))) s))).
Proof.
  split; cbn [sa sb ei es ee ed jx de size_s size_e size_j size_d elast
              set_sa set_sb set_size_s next size]; intros;
    rewrite ?length_insert; try done; try lia.
  - apply list_lookup_insert_ne. lia.
  - apply list_lookup_insert_ne. lia.
Qed.

Local Opaque create_e create_s_ed create_s computeEndTime.

Lemma create_s_extends a0 b0 offset end_ (s s' : Slab) :
  create_s a0 b0 offset end_ s = Some s' -> extends s s'.
Proof.
  intros (? & ? & ? & s2 & H1 & H2)%create_s_eq.
  eapply extends_trans; [apply (sub_slab_extends a0 b0)|].
  eapply extends_trans.
  - eapply (for_range_inv (extends _)); [| apply extends_refl | exact H1].
    intros n sx sx' _ IH Hb. eapply extends_trans; [exact IH|].
    eapply create_e_extends. exact Hb.
  - eapply (for_range_inv (extends _)); [| apply extends_refl | exact H2].
    intros n sx sx' _ IH Hb. eapply extends_trans; [exact IH|].
    eapply create_s_ed_extends. exact Hb.
Qed.

Lemma createTimeSlab_extends fuel : forall a b offset (s : Slab) b' s',
  createTimeSlab fuel a b offset s = Some (b', s') -> extends s s'.
Proof.
  induction fuel as [|fuel IH]; simpl; intros a b offset s b' s' Hrun;
    [done|].
  destruct (computeEndTime a b offset s) as [[b1 end_] s1] eqn:Hc.
  apply computeEndTime_extends in Hc.
  apply bind_Some in Hrun as (s2 & H2%create_s_extends & Hrun).
  apply bind_Some in Hrun as ([t s3] & H3 & Hrun).
  inversion Hrun; subst b' s'. clear Hrun.
  eapply extends_trans; [exact Hc|]. eapply extends_trans; [exact H2|].
  eapply (while_loop_inv (fun _ sx => extends s2 sx)) in H3 as [H3 _];
    [exact H3| |apply extends_refl].
  intros t0 sx t' sx' Hx _ Hb. eapply extends_trans; [exact Hx|].
  eapply IH. exact Hb.
Qed.

End Extends2.

Lemma for_range_ind {St} (I : nat -> St -> Prop) lo hi
    (body : nat -> St -> option St) :
  lo <= hi ->
  (forall n s s', lo <= n < hi -> I n s -> body n s = Some s' -> I (S n) s') ->
  forall s s', I lo s -> for_range lo hi body s = Some s' -> I hi s'.
Proof.
  unfold for_range. intros Hle Hb.
  remember (hi - lo) as k eqn:Hk.
  revert lo Hle Hb Hk. induction k as [|k IH]; simpl; intros lo Hle Hb Hk s s' Hs Hrun.
  - inversion Hrun; subst. by replace hi with lo by lia.
  - apply bind_Some in Hrun as (s1 & H1 & H2).
    eapply (IH (S lo)); [lia| |lia| |exact H2].
    + intros. eapply Hb; [lia|done..].
    + eapply Hb; [lia|done..].
Qed.

Section Structure.
Context {method : Method} {ode : ODE} {adaptivity : Adaptivity}
  {tolerance : Tolerance} {P : Type} {partition_ops : Partition P}.
Local Abbreviation Slab := (Slab P).
Local Abbreviation eps := real_epsilon.

(** ** The contract of the partition (spec section 4.2) *)

(** ** The element graph *)

Lemma create_e_wf index sigma a b (s s' : Slab) :
  create_e index sigma a b s = Some s' ->
  elems_ok s -> elast_ok s ->
  sigma < next (size_s s) -> sa s !! sigma = Some a ->
  reached s index a ->
  elems_ok s' /\ elast_ok s'.
Proof.
  intros Hrun Hel [Hlen Hla] Hsig Hsa Hre.
  pose proof (create_e_extends _ _ _ _ _ _ Hrun) as Hext.
  apply create_e_eq in Hrun
    as (el & Hlast & Hcap & Hlei & Hles & Hlee & Heq & _ & _).
  set (pos := next (size_e s)) in *.
  assert (Hn : next (size_e s') = pos + 1).
  { apply (f_equal size_e) in Heq. simpl in Heq. by rewrite Heq. }
  assert (Hei : ei s' = <[pos:=index]> (ei s)).
  { apply (f_equal ei) in Heq. done. }
  assert (Hes : es s' = <[pos:=sigma]> (es s)).
  { apply (f_equal es) in Heq. done. }
  assert (Hee : ee s' = <[pos:=el]> (ee s)).
  { apply (f_equal ee) in Heq. done. }
  assert (Hela : elast s' = <[index:=Z.of_nat pos]> (elast s)).
  { apply (f_equal elast) in Heq. done. }
  assert (Hss : size_s s' = size_s s).
  { apply (f_equal size_s) in Heq. done. }
  assert (Hsa' : sa s' = sa s) by (apply (f_equal sa) in Heq; done).
  assert (Hsb' : sb s' = sb s) by (apply (f_equal sb) in Heq; done).
  assert (HiN : index < N).
  { rewrite <- Hlen. by eapply lookup_lt_Some. }
  assert (Hold : forall e, e < pos -> ei s' !! e = ei s !! e).
  { intros. rewrite Hei. apply list_lookup_insert_ne. lia. }
  assert (Hnew : ei s' !! pos = Some index).
  { rewrite Hei. by apply list_lookup_insert_eq. }
  split.
  - (* elems_ok *)
    intros e He. rewrite Hn in He.
    destruct (decide (e = pos)) as [->|Hne].
    + exists index, sigma, el. rewrite Hss, Hes, Hee.
      rewrite !list_lookup_insert_eq by done.
      repeat split; try done.
      destruct (Hla _ _ Hlast) as [[-> Hnone]|(H0 & Hlt & Hi & Hnone)].
      * left. split; [done|]. intros e' He'. rewrite Hold by done. auto.
      * right. repeat split; try done.
        -- rewrite Hold by done. done.
        -- intros e' He'. rewrite Hold by lia. apply Hnone. lia.
        -- destruct (Hre _ Hlast) as [->|(sp & Hsp & Hsb)]; [lia|].
           exists sp, a. rewrite Hsb', Hsa', Hes. repeat split; try done.
           rewrite list_lookup_insert_ne by lia. done.
    + assert (He' : e < pos) by lia.
      destruct (Hel e He') as (i & sg & p & Hi & HiN' & Hsg & Hsgn & Hp & Hpr).
      exists i, sg, p. rewrite Hss, Hes, Hee.
      rewrite !list_lookup_insert_ne by lia. rewrite Hold by done.
      repeat split; try done.
      destruct Hpr as [[-> Hnone]|(H0 & Hlt & Hpi & Hnone & sp & t & ? & ? & ?)].
      * left. split; [done|]. intros e' ?. rewrite Hold by lia. auto.
      * right. repeat split; try done.
        -- rewrite Hold by lia. done.
        -- intros e' ?. rewrite Hold by lia. auto.
        -- exists sp, t. rewrite Hsb', Hsa', Hes. repeat split; try done.
           rewrite list_lookup_insert_ne by lia. done.
  - (* elast_ok *)
    split; [rewrite Hela, length_insert; done|].
    intros i el' Hi. rewrite Hn. rewrite Hela in Hi.
    destruct (decide (i = index)) as [->|Hne].
    + rewrite list_lookup_insert_eq in Hi by (rewrite Hlen; done).
      inversion Hi; subst el'. right.
      rewrite Nat2Z.id. repeat split; try done; try lia.
    + rewrite list_lookup_insert_ne in Hi by done.
      destruct (Hla _ _ Hi) as [[-> Hnone]|(H0 & Hlt & Hii & Hnone)].
      * left. split; [done|]. intros e He.
        destruct (decide (e = pos)) as [->|?].
        -- rewrite Hnew. congruence.
        -- rewrite Hold by lia. apply Hnone. lia.
      * right. repeat split; try done; try lia.
        -- rewrite Hold by done. done.
        -- intros e' He'. destruct (decide (e' = pos)) as [->|?].
           ++ rewrite Hnew. congruence.
           ++ rewrite Hold by lia. apply Hnone. lia.
Qed.

End Structure.

Section Structure2.
Context {method : Method} {ode : ODE} {adaptivity : Adaptivity}
  {tolerance : Tolerance} {P : Type} {partition_ops : Partition P}.
Local Abbreviation Slab := (Slab P).
Local Abbreviation eps := real_epsilon.

Lemma ended_reached (s : Slab) i a : ended s i a -> reached s i a.
Proof.
  intros (el & sg & Hl & ? & ? & ?) el' Hl'. right.
  rewrite Hl in Hl'. inversion Hl'; subst. eauto.
Qed.

Lemma same_graph_refl (s : Slab) : same_graph s s.
Proof. by split. Qed.

Lemma same_graph_trans (s1 s2 s3 : Slab) :
  same_graph s1 s2 -> same_graph s2 s3 -> same_graph s1 s3.
Proof. intros [] []. split; congruence. Qed.

Lemma same_graph_elems (s s' : Slab) :
  same_graph s s' -> elems_ok s -> elems_ok s'.
Proof.
  intros [] H e He. unfold prev_ok. rewrite sg_next_e0 in He.
  rewrite sg_ei0, sg_es0, sg_ee0, sg_sa0, sg_sb0, sg_next_s0. by apply H.
Qed.

Lemma same_graph_elast (s s' : Slab) :
  same_graph s s' -> elast_ok s -> elast_ok s'.
Proof.
  intros [] H. unfold elast_ok. rewrite sg_elast0, sg_ei0, sg_next_e0. done.
Qed.

Lemma same_graph_ended (s s' : Slab) i a :
  same_graph s s' -> ended s i a -> ended s' i a.
Proof.
  intros [] H. unfold ended. rewrite sg_elast0, sg_es0, sg_sb0. done.
Qed.

Lemma same_graph_reached (s s' : Slab) i a :
  same_graph s s' -> reached s i a -> reached s' i a.
Proof.
  intros [] H. unfold reached. rewrite sg_elast0, sg_es0, sg_sb0. done.
Qed.

Lemma create_s_ed_same_graph b0 n (s s' : Slab) :
  create_s_ed b0 n s = Some s' -> same_graph s s'.
Proof.
  intros (element & c & _ & _ & _ & Heq)%create_s_ed_eq.
  split; rewrite Heq; reflexivity.
Qed.

Lemma create_s_ed_partition b0 n (s s' : Slab) :
  create_s_ed b0 n s = Some s' -> partition s' = partition s.
Proof.
  intros (element & c & _ & _ & _ & Heq)%create_s_ed_eq.
  rewrite Heq; reflexivity.
Qed.

Lemma computeEndTime_same_graph a b offset (s : Slab) b' end_ s' :
  computeEndTime a b offset s = (b', end_, s') -> same_graph s s'.
Proof.
  intros (K' & _ & _ & Heq)%computeEndTime_eq.
  split; rewrite Heq; reflexivity.
Qed.

(** Reached and ended times survive the creation of later entries. *)
Lemma extends_ended (s s' : Slab) i a :
  elems_ok s -> elast_ok s -> extends s s' ->
  elast s' !! i = elast s !! i -> ended s i a -> ended s' i a.
Proof.
  intros Hel [_ Hla] Hext Hsame (el & sg & H1 & H0 & Hes & Hsb).
  exists el, sg. rewrite Hsame.
  destruct (Hla _ _ H1) as [[-> _]|(_ & Hlt & _)]; [lia|].
  destruct (Hel _ Hlt) as (? & sg' & ? & _ & _ & Hes' & Hsg & _).
  rewrite Hes in Hes'. inversion Hes'; subst sg'.
  rewrite (ext_es _ _ Hext) by done. rewrite (ext_sb _ _ Hext) by done.
  done.
Qed.

Lemma extends_reached (s s' : Slab) i a :
  elems_ok s -> elast_ok s -> extends s s' ->
  elast s' !! i = elast s !! i -> reached s i a -> reached s' i a.
Proof.
  intros Hel Hla Hext Hsame Hre el Hl. rewrite Hsame in Hl.
  destruct (proj2 Hla _ _ Hl) as [[-> _]|(Hpos & _)]; [by left|].
  destruct (Hre _ Hl) as [->|(sg & Hes & Hsb)]; [by left|right].
  destruct (extends_ended s s' i a Hel Hla Hext Hsame)
    as (el' & sg' & Hl' & _ & ? & ?).
  { exists el, sg. done. }
  rewrite Hsame, Hl in Hl'. inversion Hl'; subst. eauto.
Qed.

End Structure2.

Section Structure3.
Context {method : Method} {ode : ODE} {adaptivity : Adaptivity}
  {tolerance : Tolerance} {P : Type} {partition_ops : Partition P}.
Local Abbreviation Slab := (Slab P).
Local Abbreviation eps := real_epsilon.

Local Opaque create_e create_s_ed create_s computeEndTime.

Lemma create_e_fields index sigma a b (s s' : Slab) :
  create_e index sigma a b s = Some s' ->
  partition s' = partition s
  /\ elast s' = <[index:=Z.of_nat (next (size_e s))]> (elast s)
  /\ index < length (elast s)
  /\ next (size_e s') = next (size_e s) + 1
  /\ ei s' !! next (size_e s) = Some index
  /\ es s' !! next (size_e s) = Some sigma
  /\ ee s' !! next (size_e s) = elast s !! index
  /\ size_s s' = size_s s /\ sa s' = sa s /\ sb s' = sb s
  /\ ed s' = ed s /\ size_d s' = size_d s.
Proof.
  intros (el & Hlast & Hcap & Hlei & Hles & Hlee & Heq & _ & _)%create_e_eq.
  fields Heq. clear Heq.
  repeat match goal with E : _ s' = _ |- _ => rewrite E; clear E end.
  simpl. rewrite !list_lookup_insert_eq by done.
  repeat split; try done. by eapply lookup_lt_Some.
Qed.

Lemma extends_elems_same (s s' : Slab) :
  elems_ok s -> extends s s' ->
  next (size_e s') = next (size_e s) -> elems_ok s'.
Proof.
  intros Hel Hext Hn e He. rewrite Hn in He.
  destruct (Hel e He) as (i & sg & p & Hi & HiN & Hsg & Hsgn & Hp & Hpr).
  exists i, sg, p.
  rewrite (ext_ei _ _ Hext), (ext_es _ _ Hext), (ext_ee _ _ Hext) by done.
  repeat split; try done.
  { pose proof (ext_next_s _ _ Hext). lia. }
  destruct Hpr as [[-> Hnone]|(H0 & Hlt & Hpi & Hnone & sp & t & Hsp & Hsb & Hsa)].
  - left. split; [done|]. intros e' ?.
    rewrite (ext_ei _ _ Hext) by lia. auto.
  - right. repeat split; try done.
    + rewrite (ext_ei _ _ Hext) by lia. done.
    + intros e' ?. rewrite (ext_ei _ _ Hext) by lia. auto.
    + exists sp, t.
      rewrite (ext_es _ _ Hext) by lia.
      rewrite (ext_sa _ _ Hext) by done.
      destruct (Hel (Z.to_nat p)) as (? & sp' & ? & _ & _ & Hsp' & ? & _);
        [lia|].
      rewrite Hsp in Hsp'. inversion Hsp'; subst sp'.
      rewrite (ext_sb _ _ Hext) by done. done.
Qed.

Lemma extends_elast_same (s s' : Slab) :
  elast_ok s -> extends s s' ->
  next (size_e s') = next (size_e s) -> elast s' = elast s -> elast_ok s'.
Proof.
  intros [Hlen Hla] Hext Hn Hsame. split; [by rewrite Hsame|].
  intros i el Hi. rewrite Hn. rewrite Hsame in Hi.
  destruct (Hla _ _ Hi) as [[-> Hnone]|(H0 & Hlt & Hii & Hnone)].
  - left. split; [done|]. intros e ?.
    rewrite (ext_ei _ _ Hext) by done. auto.
  - right. repeat split; try done.
    + rewrite (ext_ei _ _ Hext) by done. done.
    + intros e' ?. rewrite (ext_ei _ _ Hext) by lia. auto.
Qed.

(** The first loop of [create_s]: one element per head component. *)
Lemma create_elements_wf a0 b0 pos offset end_ (s1 s2 : Slab) :
  partition_contract -> offset <= end_ <= N ->
  for_range offset end_ (fun n s =>
    create_e (partition_index (partition s) n) pos a0 b0 s) s1 = Some s2 ->
  elems_ok s1 -> elast_ok s1 ->
  pos < next (size_s s1) -> sa s1 !! pos = Some a0 ->
  (forall n, offset <= n < end_ ->
     reached s1 (partition_index (partition s1) n) a0) ->
  extends s1 s2 /\ partition s2 = partition s1
  /\ elems_ok s2 /\ elast_ok s2
  /\ size_s s2 = size_s s1 /\ sa s2 = sa s1 /\ sb s2 = sb s1
  /\ ed s2 = ed s1 /\ size_d s2 = size_d s1
  /\ next (size_e s2) = next (size_e s1) + (end_ - offset)
  /\ (forall i, (forall m, offset <= m < end_ ->
                   partition_index (partition s1) m <> i) ->
        elast s2 !! i = elast s1 !! i)
  /\ (forall m, offset <= m < end_ ->
        elast s2 !! partition_index (partition s1) m
          = Some (Z.of_nat (next (size_e s1) + (m - offset)))
        /\ ei s2 !! (next (size_e s1) + (m - offset))
             = Some (partition_index (partition s1) m)
        /\ es s2 !! (next (size_e s1) + (m - offset)) = Some pos
        /\ ee s2 !! (next (size_e s1) + (m - offset))
             = elast s1 !! partition_index (partition s1) m).
Proof.
  intros Hpc Hrange Hrun Hel Hla Hpos Hsa Hre.
  set (idx := partition_index (partition s1)).
  eapply (for_range_ind (fun n (sx : Slab) =>
    extends s1 sx /\ partition sx = partition s1
    /\ elems_ok sx /\ elast_ok sx
    /\ size_s sx = size_s s1 /\ sa sx = sa s1 /\ sb sx = sb s1
    /\ ed sx = ed s1 /\ size_d sx = size_d s1
    /\ next (size_e sx) = next (size_e s1) + (n - offset)
    /\ (forall i, (forall m, offset <= m < n -> idx m <> i) ->
          elast sx !! i = elast s1 !! i)
    /\ (forall m, offset <= m < n ->
          elast sx !! idx m = Some (Z.of_nat (next (size_e s1) + (m - offset)))
          /\ ei sx !! (next (size_e s1) + (m - offset)) = Some (idx m)
          /\ es sx !! (next (size_e s1) + (m - offset)) = Some pos
          /\ ee sx !! (next (size_e s1) + (m - offset)) = elast s1 !! idx m))
    offset end_); [lia| | |exact Hrun].
  - intros n sx sx' Hn (Hext & Hp & Helx & Hlax & Hssx & Hsax & Hsbx & Hedx
                        & Hsdx & Hne & Hfr & Hhd) Hb.
    rewrite Hp in Hb. fold idx in Hb.
    assert (Hsame : elast sx !! idx n = elast s1 !! idx n).
    { apply Hfr. intros m Hm Heq.
      apply (pc_inj Hpc) in Heq; lia. }
    pose proof (create_e_extends _ _ _ _ _ _ Hb) as Hext'.
    pose proof Hb as (Hp' & Hela & Hlen & Hn' & Hei & Hes & Hee & Hss' & Hsa'
                      & Hsb' & Hed' & Hsd')%create_e_fields.
    assert (Hpx : pos < next (size_s sx)) by (rewrite Hssx; done).
    assert (Hsx : sa sx !! pos = Some a0) by (rewrite Hsax; done).
    assert (Hrx : reached sx (idx n) a0).
    { eapply extends_reached; [exact Hel|exact Hla|exact Hext|exact Hsame|].
      apply Hre. exact Hn. }
    destruct (create_e_wf _ _ _ _ _ _ Hb Helx Hlax Hpx Hsx Hrx)
      as [Helx' Hlax'].
    split_and!; try congruence; try assumption.
    + by eapply extends_trans.
    + lia.
    + intros i Hi. rewrite Hela, list_lookup_insert_ne.
      * apply Hfr. intros m Hm. apply Hi. lia.
      * apply Hi. lia.
    + intros m Hm. destruct (decide (m = n)) as [->|Hne'].
      * rewrite Hela, list_lookup_insert_eq by done.
        rewrite <- Hne, Hee. done.
      * destruct (Hhd m) as (Hm1 & Hm2 & Hm3 & Hm4); [lia|].
        rewrite (ext_ei _ _ Hext'), (ext_es _ _ Hext'), (ext_ee _ _ Hext')
          by lia.
        split_and!; try done.
        rewrite Hela, list_lookup_insert_ne; [done|].
        intros Heq. apply (pc_inj Hpc) in Heq; lia.
  - split_and!; try done; try lia; try (intros; lia).
    apply extends_refl.
Qed.

End Structure3.

Section Structure4.
Context {method : Method} {ode : ODE} {adaptivity : Adaptivity}
  {tolerance : Tolerance} {P : Type} {partition_ops : Partition P}.
Local Abbreviation Slab := (Slab P).
Local Abbreviation eps := real_epsilon.

Local Opaque create_e create_s_ed create_s computeEndTime.

Lemma real_min_pos (x y : real) : (0 < x)%Q -> (0 < y)%Q -> (0 < real_min x y)%Q.
Proof. unfold real_min. destruct (Qltb y x); done. Qed.

Lemma in_tail_split (p : P) offset end_ i :
  offset <= end_ ->
  in_tail p offset i
  <-> (exists n, offset <= n < end_ /\ n < N /\ partition_index p n = i)
      \/ in_tail p end_ i.
Proof.
  intros Hle. unfold in_tail. split.
  - intros (n & Hn & Hi). destruct (decide (n < end_)).
    + left. exists n. split_and!; try done; lia.
    + right. exists n. split; [lia|done].
  - intros [(n & Hn & HN & Hi)|(n & Hn & Hi)]; exists n; split; try done; lia.
Qed.

Lemma create_s_wf a0 b0 offset end_ (s s' : Slab) :
  partition_contract -> offset <= end_ <= N ->
  create_s a0 b0 offset end_ s = Some s' ->
  elems_ok s -> elast_ok s -> covered a0 offset s ->
  extends s s' /\ elems_ok s' /\ elast_ok s' /\ partition s' = partition s
  /\ next (size_s s') = next (size_s s) + 1
  /\ sa s' !! next (size_s s) = Some a0
  /\ sb s' !! next (size_s s) = Some b0
  /\ next (size_e s') = next (size_e s) + (end_ - offset)
  /\ (forall i, (forall m, offset <= m < end_ ->
                   partition_index (partition s) m <> i) ->
        elast s' !! i = elast s !! i)
  /\ (forall m, offset <= m < end_ ->
        elast s' !! partition_index (partition s) m
          = Some (Z.of_nat (next (size_e s) + (m - offset)))
        /\ ei s' !! (next (size_e s) + (m - offset))
             = Some (partition_index (partition s) m)
        /\ es s' !! (next (size_e s) + (m - offset)) = Some (next (size_s s))
        /\ ee s' !! (next (size_e s) + (m - offset))
             = elast s !! partition_index (partition s) m)
  /\ covered a0 end_ s'
  /\ exists s2,
       for_range offset end_ (create_s_ed b0) s2 = Some s'
       /\ same_graph s2 s' /\ partition s2 = partition s
       /\ size_d s2 = size_d s /\ ed s2 = ed s /\ ne s2 = ne s.
Proof.
  intros Hpc Hrange Hrun Hel Hla Hcov.
  pose proof (create_s_extends _ _ _ _ _ _ Hrun) as Hext.
  apply create_s_eq in Hrun as (Hcap & Hlsa & Hlsb & s2 & H1 & H2).
  set (pos := next (size_s s)) in *.
  set (s1 := set_sb _ _) in H1.
  assert (Hext1 : extends s s1) by apply sub_slab_extends.
  assert (Hel1 : elems_ok s1) by (by eapply extends_elems_same).
  assert (Hla1 : elast_ok s1) by (by eapply extends_elast_same).
  assert (Hsa1 : sa s1 !! pos = Some a0).
  { simpl. by apply list_lookup_insert_eq. }
  assert (Hsb1 : sb s1 !! pos = Some b0).
  { simpl. by apply list_lookup_insert_eq. }
  pose proof H1 as H1'.
  eapply create_elements_wf in H1
    as (Hext2 & Hp2 & Hel2 & Hla2 & Hss2 & Hsa2 & Hsb2 & Hed2 & Hsd2 & Hne2
        & Hfr2 & Hhd2); try done.
  2: { simpl. lia. }
  2: { intros n Hn.
       eapply (extends_reached s s1);
         [exact Hel|exact Hla|exact Hext1|reflexivity|].
       apply Hcov. exists n. split; [lia|done]. }
  assert (Hsg : same_graph s2 s' /\ partition s' = partition s2).
  { eapply (for_range_inv (fun sx : Slab =>
      same_graph s2 sx /\ partition sx = partition s2)); [| |exact H2].
    - intros n sx sx' _ [IH1 IH2] Hb. split.
      + eapply same_graph_trans; [exact IH1|].
        eapply create_s_ed_same_graph. exact Hb.
      + rewrite <- IH2. eapply create_s_ed_partition. exact Hb.
    - split; [apply same_graph_refl|done]. }
  destruct Hsg as [Hsg Hp'].
  split_and!.
  - done.
  - by eapply same_graph_elems.
  - by eapply same_graph_elast.
  - rewrite Hp', Hp2. done.
  - rewrite (sg_next_s _ _ Hsg), Hss2. simpl. done.
  - rewrite (sg_sa _ _ Hsg), Hsa2. done.
  - rewrite (sg_sb _ _ Hsg), Hsb2. done.
  - rewrite (sg_next_e _ _ Hsg), Hne2. done.
  - intros i Hi. rewrite (sg_elast _ _ Hsg). by apply Hfr2.
  - intros m Hm.
    rewrite (sg_elast _ _ Hsg), (sg_ei _ _ Hsg), (sg_es _ _ Hsg),
      (sg_ee _ _ Hsg).
    by apply Hhd2.
  - intros i (n & Hn & Hi). rewrite Hp', Hp2 in Hi. simpl in Hi.
    eapply same_graph_reached; [exact Hsg|].
    eapply (extends_reached s s2);
      [exact Hel|exact Hla|by eapply extends_trans| |].
    + rewrite Hfr2; [done|]. intros m Hm Heq. simpl in Heq.
      rewrite <- Hi in Heq. apply (pc_inj Hpc) in Heq; lia.
    + apply Hcov. exists n. split; [lia|done].
  - exists s2. split_and!; try done.
    pose proof (f_equal ne (ext_static _ _ Hext2)) as Hne. exact Hne.
Qed.

End Structure4.

Section Structure5.
Context {method : Method} {ode : ODE} {adaptivity : Adaptivity}
  {tolerance : Tolerance} {P : Type} {partition_ops : Partition P}.
Local Abbreviation Slab := (Slab P).
Local Abbreviation eps := real_epsilon.

Local Opaque create_e create_s_ed create_s computeEndTime.

Lemma covered_same_graph a offset (s s' : Slab) :
  same_graph s s' ->
  (forall i, in_tail (partition s') offset i -> in_tail (partition s) offset i) ->
  covered a offset s -> covered a offset s'.
Proof.
  intros Hsg Hp Hcov i Hi. eapply same_graph_reached; [exact Hsg|].
  apply Hcov, Hp, Hi.
Qed.

(** The end time chosen by [computeEndTime]. *)
Lemma end_time_bounds a b K' :
  (threshold <= 1)%Q -> (0 < K')%Q -> (a < b)%Q ->
  let b1 := if Qltb K' (threshold * (b - a)) then (a + K')%Q else b in
  (a < b1)%Q /\ (b1 = b \/ (b1 < b)%Q).
Proof.
  intros Hthr HK Hab. simpl.
  destruct (Qltb K' (threshold * (b - a))) eqn:Hlt.
  - apply Qltb_lt in Hlt. split; [lra|right].
    assert (threshold * (b - a) <= 1 * (b - a))%Q.
    { apply Qmult_le_compat_r; lra. }
    lra.
  - split; [done|by left].
Qed.

Lemma createTimeSlab_wf fuel :
  partition_contract -> (0 < kmax)%Q -> (threshold <= 1)%Q ->
  forall a b offset (s : Slab) b' s',
    createTimeSlab fuel a b offset s = Some (b', s') ->
    offset <= N -> elems_ok s -> elast_ok s -> covered a offset s ->
    slab_post a b offset s b' s'.
Proof.
  intros Hpc Hkmax Hthr.
  induction fuel as [|fuel IH]; simpl;
    intros a b offset s b' s' Hrun HoN Hel Hla Hcov; [done|].
  destruct (computeEndTime a b offset s) as [[b1 end_] s1] eqn:Hc.
  pose proof (computeEndTime_same_graph _ _ _ _ _ _ _ Hc) as Hsg1.
  apply computeEndTime_eq in Hc as (K' & Hupd & Hb1 & _).
  pose proof (pc_range Hpc (partition s) offset (real_min kmax (b - a)) HoN)
    as Hrange.
  pose proof (pc_fixed Hpc (partition s) offset (real_min kmax (b - a)))
    as Hfixed.
  pose proof (pc_tail Hpc (partition s) offset (real_min kmax (b - a)))
    as Htail.
  pose proof (pc_positive Hpc (partition s) offset (real_min kmax (b - a)))
    as Hpos.
  rewrite Hupd in Hrange, Hfixed, Htail, Hpos. simpl in Hrange, Hfixed, Htail, Hpos.
  apply bind_Some in Hrun as (s2 & H2 & Hrun).
  apply bind_Some in Hrun as ([t s3] & H3 & Hrun).
  inversion Hrun; subst b' s'. clear Hrun.
  assert (Hel1 : elems_ok s1) by (by eapply same_graph_elems).
  assert (Hla1 : elast_ok s1) by (by eapply same_graph_elast).
  assert (Hcov1 : covered a offset s1).
  { eapply covered_same_graph; [exact Hsg1| |exact Hcov].
    intros i. apply Htail. }
  eapply create_s_wf in H2
    as (Hext2 & Hel2 & Hla2 & Hp2 & Hns2 & Hsa2 & Hsb2 & Hne2 & Hfr2 & Hhd2
        & Hcov2 & _);
    try done.
  set (idx := partition_index (partition s1)) in *.
  (* the loop over the sub-slabs of the tail *)
  eapply (while_loop_inv (fun t (sx : Slab) =>
    elems_ok sx /\ elast_ok sx /\ extends s2 sx
    /\ (forall i, ~ in_tail (partition s2) end_ i ->
          elast sx !! i = elast s2 !! i)
    /\ (forall n, n < end_ ->
          partition_index (partition sx) n = partition_index (partition s2) n)
    /\ (forall i, in_tail (partition sx) end_ i
                  <-> in_tail (partition s2) end_ i)
    /\ ((t = a /\ covered a end_ sx)
        \/ ((t = b1 \/ (t < b1)%Q)
            /\ forall i, in_tail (partition sx) end_ i -> ended sx i t))))
    in H3 as [(Hel3 & Hla3 & Hext3 & Hfr3 & Hfx3 & Htl3 & Hend3) Hcond].
  2: { (* one more sub-slab *)
    intros t0 sx t' sx' (Helx & Hlax & Hextx & Hfrx & Hfxx & Htlx & Hendx)
      Hcond Hb.
    apply andb_true_iff in Hcond as [Hlt Hlast].
    apply Qltb_lt in Hlt. apply bool_decide_eq_true in Hlast.
    pose proof (createTimeSlab_extends _ _ _ _ _ _ _ Hb) as Hextb.
    eapply IH in Hb; [|lia|exact Helx|exact Hlax|].
    2: { destruct Hendx as [[-> Hc0]|[_ He0]]; [exact Hc0|].
         intros i Hi. apply ended_reached, He0, Hi. }
    destruct Hb as [Q1 Q2 Q3 Q4 Q5 Q6 Q7].
    split_and!; try done.
    - by eapply extends_trans.
    - intros i Hi. rewrite Q3; [by apply Hfrx|].
      intros Hi'. apply Hi, Htlx, Hi'.
    - intros n Hn. rewrite Q4 by done. by apply Hfxx.
    - intros i. rewrite Q5. apply Htlx.
    - right. split; [apply Q6; done|]. apply Q7. done. }
  2: { (* before the loop *)
    split_and!; try done.
    - apply extends_refl.
    - left. split; done. }
  (* after the loop *)
  assert (Hidx : forall n, n < end_ ->
            partition_index (partition s3) n = idx n).
  { intros n Hn. rewrite Hfx3 by done. rewrite Hp2. done. }
  assert (Htails : forall i,
            in_tail (partition s3) offset i <-> in_tail (partition s1) offset i).
  { intros i. rewrite !(in_tail_split _ offset end_) by lia.
    rewrite Htl3, Hp2. split; (intros [(n & Hn & HnN & Hi)|Hi]; [left|by right]);
      exists n; split_and!; try done; try lia.
    - unfold idx in Hidx. rewrite <- Hidx by lia. done.
    - rewrite Hidx by lia. done. }
  split.
  - done.
  - done.
  - intros i Hi.
    assert (Hi1 : ~ in_tail (partition s1) offset i).
    { intros Hi'. apply Hi, Htail, Hi'. }
    rewrite Hfr3, Hfr2, (sg_elast _ _ Hsg1); [done| |].
    + intros m Hm Heq. apply Hi1. exists m. split; [lia|done].
    + intros (n & Hn & Heq). apply Hi1. exists n. split; [lia|].
      rewrite Hp2 in Heq. done.
  - intros n Hn. rewrite Hidx by lia. apply Hfixed. done.
  - intros i. rewrite Htails. apply Htail.
  - intros Hab. rewrite Hb1. apply end_time_bounds; try done.
    apply Hpos. apply real_min_pos; [done|lra].
  - intros Hab i Hi.
    assert (Hab1 : (a < b1)%Q).
    { rewrite Hb1. apply end_time_bounds; try done.
      apply Hpos. apply real_min_pos; [done|lra]. }
    assert (Hle : offset <= end_) by lia.
    destruct (proj1 (in_tail_split _ offset end_ i Hle) Hi)
      as [(n & Hn & HnN & Hi')|Hi']; clear Hi; rename Hi' into Hi.
    + (* a head component *)
      rewrite Hidx in Hi by lia. subst i.
      destruct (Hhd2 n) as (Hl & _ & Hes & _); [lia|].
      eapply (extends_ended s2 s3); [exact Hel2|exact Hla2|exact Hext3| |].
      * apply Hfr3. intros (m & Hm & Heq). rewrite Hp2 in Heq.
        apply (pc_inj Hpc) in Heq; lia.
      * eexists _, _. split_and!; [exact Hl|lia| |exact Hsb2].
        rewrite Nat2Z.id. exact Hes.
    + (* a tail component *)
      destruct Hend3 as [[-> _]|[Ht He]].
      * (* the loop has not run: the tail is empty or the slab is *)
        apply andb_false_iff in Hcond as [Hc|Hc].
        -- apply Qltb_ge in Hc. lra.
        -- apply bool_decide_eq_false in Hc.
           destruct Hi as (n & Hn & _). lia.
      * apply andb_false_iff in Hcond as [Hc|Hc].
        -- apply Qltb_ge in Hc. destruct Ht as [->|Ht]; [|lra].
           apply He, Hi.
        -- apply bool_decide_eq_false in Hc.
           destruct Hi as (n & Hn & _). lia.
Qed.

End Structure5.

Lemma for_each_sim {A S1 S2} (R : S1 -> S2 -> Prop)
    (body1 : A -> S1 -> option S1) (body2 : A -> S2 -> option S2) l :
  (forall x s1 s2 s1' s2', x ∈ l -> R s1 s2 ->
     body1 x s1 = Some s1' -> body2 x s2 = Some s2' -> R s1' s2') ->
  forall s1 s2 s1' s2', R s1 s2 ->
    for_each body1 l s1 = Some s1' -> for_each body2 l s2 = Some s2' ->
    R s1' s2'.
Proof.
  induction l as [|x l IH]; simpl; intros Hb s1 s2 s1' s2' HR H1 H2.
  - inversion H1; inversion H2; subst. done.
  - apply bind_Some in H1 as (t1 & Hx1 & H1).
    apply bind_Some in H2 as (t2 & Hx2 & H2).
    eapply IH; [| |exact H1|exact H2].
    + intros. eapply Hb; eauto. by right.
    + eapply Hb; eauto. by left.
Qed.

Lemma while_loop_sim {S1 S2} (R : real -> S1 -> S2 -> Prop) cond
    (body1 : real -> S1 -> option (real * S1))
    (body2 : real -> S2 -> option (real * S2)) :
  (forall t s1 s2 t1 s1' t2 s2', R t s1 s2 -> cond t = true ->
     body1 t s1 = Some (t1, s1') -> body2 t s2 = Some (t2, s2') ->
     t1 = t2 /\ R t1 s1' s2') ->
  forall f1 f2 t s1 s2 t1 s1' t2 s2', R t s1 s2 ->
    while_loop f1 cond body1 t s1 = Some (t1, s1') ->
    while_loop f2 cond body2 t s2 = Some (t2, s2') ->
    t1 = t2 /\ R t1 s1' s2' /\ cond t1 = false.
Proof.
  intros Hb. induction f1 as [|f1 IH]; intros f2 t s1 s2 t1 s1' t2 s2' HR H1 H2;
    destruct f2; simpl in H1, H2; destruct (cond t) eqn:Hc; try done.
  - inversion H1; inversion H2; subst. done.
  - inversion H1; inversion H2; subst. done.
  - inversion H1; inversion H2; subst. done.
  - apply bind_Some in H1 as ([u1 r1] & Hx1 & H1).
    apply bind_Some in H2 as ([u2 r2] & Hx2 & H2).
    destruct (Hb _ _ _ _ _ _ _ HR Hc Hx1 Hx2) as [-> HR'].
    eapply IH; [exact HR'|exact H1|exact H2].
  - inversion H1; inversion H2; subst. done.
Qed.

Section DryRun.
Context {method : Method} {ode : ODE} {adaptivity : Adaptivity}
  {tolerance : Tolerance} {P : Type} {partition_ops : Partition P}.
Local Abbreviation Slab := (Slab P).
Local Abbreviation eps := real_epsilon.

(** ** The dry run against the creation *)

Lemma deterministic_stable : partition_deterministic -> partition_stable.
Proof.
  intros Hdet p q offset K _.
  destruct (Hdet p q offset K) as (Hend & HK & Hidx).
  split; [exact Hend|]. split; [exact HK|].
  intros i. split; intros (n & Hn & Hi); exists n; (split; [exact Hn|]).
  - rewrite <- Hidx by exact Hn. exact Hi.
  - rewrite Hidx by exact Hn. exact Hi.
Qed.

(** The positions from [offset] on are those of the head and those from
    its end on. *)
Lemma tail_cut (p : P) offset end_ i :
  offset <= end_ <= N ->
  in_tail p offset i <-> in_head p offset end_ i \/ in_tail p end_ i.
Proof.
  intros Hr. split.
  - intros (n & Hn & Hi). destruct (decide (n < end_)) as [Hlt|Hge].
    + left. exists n. split; [lia|exact Hi].
    + right. exists n. split; [lia|exact Hi].
  - intros [(n & Hn & Hi)|(n & Hn & Hi)]; exists n; (split; [lia|exact Hi]).
Qed.

Lemma tail_minus_head (p : P) offset end_ i :
  (forall n m, n < N -> m < N ->
     partition_index p n = partition_index p m -> n = m) ->
  offset <= end_ <= N ->
  in_tail p end_ i <-> in_tail p offset i /\ ~ in_head p offset end_ i.
Proof.
  intros Hinj Hr. split.
  - intros (n & Hn & Hi). split; [exists n; split; [lia|exact Hi]|].
    intros (m & Hm & Hmi).
    assert (n = m) by (apply Hinj; [lia..|congruence]). lia.
  - intros [(n & Hn & Hi) Hnot]. exists n. split; [|exact Hi].
    destruct (decide (n < end_)) as [Hlt|Hge]; [|lia].
    exfalso. apply Hnot. exists n. split; [lia|exact Hi].
Qed.

(** The first loop of [computeDataSize]. *)
Lemma dry_times_loop b1 offset end_ (sd1 sdA : Slab) :
  for_range offset end_ (fun n s =>
    u' ← wr (u s) (partition_index (partition s) n) b1;
    Some (set_u u' s)) sd1 = Some sdA ->
  sdA = set_u (u sdA) sd1
  /\ (forall n, offset <= n < end_ ->
        u sdA !! partition_index (partition sd1) n = Some b1)
  /\ (forall i x, u sdA !! i = Some x ->
        (exists n, offset <= n < end_
                   /\ partition_index (partition sd1) n = i /\ x = b1)
        \/ ((forall n, offset <= n < end_ ->
               partition_index (partition sd1) n <> i)
            /\ u sd1 !! i = Some x)).
Proof.
  intros Hrun. unfold for_range in Hrun.
  assert (Hgen : forall l (s s' : Slab),
    for_each (fun n s =>
      u' ← wr (u s) (partition_index (partition s) n) b1;
      Some (set_u u' s)) l s = Some s' ->
    s' = set_u (u s') s /\ length (u s') = length (u s)
    /\ (forall n, n ∈ l -> u s' !! partition_index (partition s) n = Some b1)
    /\ (forall i x, u s' !! i = Some x ->
          (exists n, n ∈ l /\ partition_index (partition s) n = i /\ x = b1)
          \/ ((forall n, n ∈ l -> partition_index (partition s) n <> i)
              /\ u s !! i = Some x))).
  { induction l as [|n l IH]; simpl; intros s s' Hr.
    - inversion Hr; subst. split_and!.
      + by destruct s'.
      + done.
      + intros n Hn. by apply elem_of_nil in Hn.
      + intros i x Hx. right. split; [|done].
        intros n Hn. by apply elem_of_nil in Hn.
    - apply bind_Some in Hr as (s1 & Hb & Hr).
      apply bind_Some in Hb as (u' & [Hlt ->]%wr_Some & Hb).
      inversion Hb; subst s1. clear Hb.
      apply IH in Hr as (Heq & Hlen & Hin & Hout). simpl in *.
      rewrite length_insert in Hlen.
      split_and!.
      + rewrite Heq. reflexivity.
      + done.
      + intros m Hm. apply elem_of_cons in Hm as [->|Hm]; [|by apply Hin].
        destruct (lookup_lt_is_Some_2 (u s') (partition_index (partition s) n))
          as [y Hy]; [lia|].
        destruct (Hout _ _ Hy) as [(k & _ & _ & ->)|[_ Hy']]; [done|].
        rewrite list_lookup_insert_eq in Hy' by done. congruence.
      + intros i x Hx.
        destruct (Hout _ _ Hx) as [(k & Hk & Hki & ->)|[Hnot Hx']].
        * left. exists k. split_and!; try done. by right.
        * destruct (decide (i = partition_index (partition s) n)) as [->|Hne].
          -- rewrite list_lookup_insert_eq in Hx' by done.
             inversion Hx'; subst. left. exists n. split_and!; try done.
             by left.
          -- rewrite list_lookup_insert_ne in Hx' by done. right.
             split; [|done]. intros m Hm.
             apply elem_of_cons in Hm as [->|Hm]; [congruence|by apply Hnot]. }
  apply Hgen in Hrun as (Heq & _ & Hin & Hout). split_and!; try done.
  - intros n Hn. apply Hin, elem_of_seq. lia.
  - intros i x Hx. destruct (Hout _ _ Hx) as [(k & Hk & ? & ?)|[Hnot ?]].
    + left. exists k. apply elem_of_seq in Hk. split_and!; try done; lia.
    + right. split; [|done]. intros n Hn. apply Hnot, elem_of_seq. lia.
Qed.

End DryRun.

Section DryRun2.
Context {method : Method} {ode : ODE} {adaptivity : Adaptivity}
  {tolerance : Tolerance} {P : Type} {partition_ops : Partition P}.
Local Abbreviation Slab := (Slab P).
Local Abbreviation eps := real_epsilon.

Local Opaque create_e create_s_ed create_s computeEndTime.

Lemma Qltb_shift (x y e : Q) : Qltb (x + e) y = Qltb x (y - e).
Proof.
  destruct (Qltb (x + e) y) eqn:H1, (Qltb x (y - e)) eqn:H2; try done.
  - apply Qltb_lt in H1. apply Qltb_ge in H2. lra.
  - apply Qltb_ge in H1. apply Qltb_lt in H2. lra.
Qed.

(** The two ways of counting dependencies agree on a sub-slab that ends
    more than the tolerance after the start of the slab. *)
Lemma count_agree a_top i0 b0 (sd sc : Slab) c c' :
  countDependencies_dry i0 sd = Some c ->
  countDependencies i0 b0 sc = Some c' ->
  (forall x, u sd !! i0 = Some x -> x = b0) ->
  (forall i x, u sd !! i = Some x -> latest a_top sc i x) ->
  (a_top + eps < b0)%Q ->
  c = c'.
Proof.
  unfold countDependencies_dry, countDependencies.
  intros H1 H2 Hu0 Hlat Hlong.
  eapply (for_each_sim eq); [|reflexivity|exact H1|exact H2].
  intros i1 n ? n1 n2 _ <- Hb1 Hb2.
  apply bind_Some in Hb1 as (ui0 & Hi0 & Hb1).
  apply bind_Some in Hb1 as (ui1 & Hi1 & Hb1).
  inversion Hb1; subst n1. clear Hb1.
  apply Hu0 in Hi0 as ->.
  apply bind_Some in Hb2 as (e1 & He1 & Hb2).
  destruct (Hlat _ _ Hi1 _ He1) as [[-> ->]|(H0 & sg & Hes & Hsb)].
  - simpl in Hb2. inversion Hb2; subst n2.
    apply Qltb_lt in Hlong. rewrite Hlong. done.
  - destruct (Z.eqb_spec e1 (-1)); [lia|].
    apply bind_Some in Hb2 as (s1 & [_ Hs1]%rdZ_Some & Hb2).
    apply bind_Some in Hb2 as (b1 & Hb1 & Hb2).
    inversion Hb2; subst n2.
    unfold rd in *. rewrite Hes in Hs1. inversion Hs1; subst s1.
    rewrite Hsb in Hb1. inversion Hb1; subst b1.
    rewrite Qltb_shift. done.
Qed.

(** What the two counts read. *)
Lemma countDependencies_dry_reads i0 (s s' : Slab) :
  u s' = u s -> countDependencies_dry i0 s' = countDependencies_dry i0 s.
Proof. intros Hu. unfold countDependencies_dry. rewrite Hu. reflexivity. Qed.

Lemma countDependencies_same_graph i0 b0 (s s' : Slab) :
  same_graph s s' -> countDependencies i0 b0 s' = countDependencies i0 b0 s.
Proof.
  intros Hsg. unfold countDependencies.
  rewrite (sg_elast _ _ Hsg), (sg_es _ _ Hsg), (sg_sb _ _ Hsg). reflexivity.
Qed.

Lemma create_elements_next_j a0 b0 pos offset end_ (s1 s2 : Slab) :
  for_range offset end_ (fun n s =>
    create_e (partition_index (partition s) n) pos a0 b0 s) s1 = Some s2 ->
  next (size_j s2) = next (size_j s1) + nsize * (end_ - offset)
  /\ next (size_e s2) = next (size_e s1) + (end_ - offset).
Proof.
  unfold for_range.
  assert (Hgen : forall l (s s' : Slab),
    for_each (fun n s =>
      create_e (partition_index (partition s) n) pos a0 b0 s) l s = Some s' ->
    next (size_j s') = next (size_j s) + nsize * length l
    /\ next (size_e s') = next (size_e s) + length l).
  { induction l as [|n l IH]; simpl; intros s s' Hr.
    - inversion Hr; subst. lia.
    - apply bind_Some in Hr as (sx & Hb & Hr).
      apply IH in Hr as [Hr1 Hr2].
      apply create_e_eq in Hb as (el & _ & _ & _ & _ & _ & Heq & _ & _).
      apply (f_equal size_j) in Heq as Hj. apply (f_equal size_e) in Heq as He.
      simpl in Hj, He. rewrite Hr1, Hr2, Hj, He. simpl. lia. }
  intros Hrun. apply Hgen in Hrun. rewrite length_seq in Hrun. exact Hrun.
Qed.

Lemma create_s_counters a0 b0 offset end_ (s s' : Slab) :
  create_s a0 b0 offset end_ s = Some s' ->
  next (size_s s') = next (size_s s) + 1
  /\ next (size_e s') = next (size_e s) + (end_ - offset)
  /\ next (size_j s') = next (size_j s) + nsize * (end_ - offset).
Proof.
  intros (Hcap & Hlsa & Hlsb & s2 & H1 & H2)%create_s_eq.
  pose proof (create_elements_next_j _ _ _ _ _ _ _ H1) as [Hj He].
  simpl in Hj, He.
  assert (Hinv : size_s s' = size_s s2 /\ size_e s' = size_e s2
                 /\ size_j s' = size_j s2).
  { eapply (for_range_inv (fun sx : Slab =>
      size_s sx = size_s s2 /\ size_e sx = size_e s2
      /\ size_j sx = size_j s2)); [| |exact H2]; [|done].
    intros n sx sx' _ (I1 & I2 & I3) Hb.
    apply create_s_ed_eq in Hb as (? & ? & _ & _ & _ & Heq).
    rewrite Heq. simpl. done. }
  destruct Hinv as (-> & -> & ->).
  assert (Hs2 : size_s s2 = MkSize (next (size_s s) + 1) (size (size_s s))).
  { eapply (for_range_inv (fun sx : Slab =>
      size_s sx = MkSize (next (size_s s) + 1) (size (size_s s))));
      [| |exact H1]; [|done].
    intros n sx sx' _ IH Hb.
    apply create_e_eq in Hb as (el & _ & _ & _ & _ & _ & Heq & _ & _).
    apply (f_equal size_s) in Heq. simpl in Heq. congruence. }
  rewrite Hs2. simpl. done.
Qed.

End DryRun2.

Section DryRun3.
Context {method : Method} {ode : ODE} {adaptivity : Adaptivity}
  {tolerance : Tolerance} {P : Type} {partition_ops : Partition P}.
Local Abbreviation Slab := (Slab P).
Local Abbreviation eps := real_epsilon.

Local Opaque create_e create_s_ed create_s computeEndTime
  countDependencies countDependencies_dry.

Lemma same_graph_latest a_top (s s' : Slab) i x :
  same_graph s s' -> latest a_top s i x -> latest a_top s' i x.
Proof.
  intros Hsg H. unfold latest.
  rewrite (sg_elast _ _ Hsg), (sg_es _ _ Hsg), (sg_sb _ _ Hsg). done.
Qed.

Lemma extends_latest a_top (s s' : Slab) i x :
  elems_ok s -> elast_ok s -> extends s s' ->
  elast s' !! i = elast s !! i -> latest a_top s i x -> latest a_top s' i x.
Proof.
  intros Hel Hla Hext Hsame Hl el Hi. rewrite Hsame in Hi.
  destruct (Hl _ Hi) as [?|(H0 & sg & Hes & Hsb)]; [by left|right].
  split; [done|]. exists sg.
  destruct (proj2 Hla _ _ Hi) as [[-> _]|(_ & Hlt & _)]; [lia|].
  destruct (Hel _ Hlt) as (? & sg' & ? & _ & _ & Hes' & Hsg & _).
  rewrite Hes in Hes'. inversion Hes'; subst sg'.
  rewrite (ext_es _ _ Hext), (ext_sb _ _ Hext) by done. done.
Qed.

Lemma extends_longer (s s' : Slab) :
  extends s s' -> longer_than_eps s' -> longer_than_eps s.
Proof.
  intros Hext Hl sg x y Hsg Hx Hy.
  apply (Hl sg); [pose proof (ext_next_s _ _ Hext); lia| |].
  - rewrite (ext_sa _ _ Hext) by done. done.
  - rewrite (ext_sb _ _ Hext) by done. done.
Qed.

Lemma same_graph_sym (s s' : Slab) : same_graph s s' -> same_graph s' s.
Proof. intros []. by split. Qed.

Lemma same_graph_longer (s s' : Slab) :
  same_graph s s' -> longer_than_eps s -> longer_than_eps s'.
Proof.
  intros Hsg H. unfold longer_than_eps.
  rewrite (sg_sa _ _ Hsg), (sg_sb _ _ Hsg), (sg_next_s _ _ Hsg). done.
Qed.

(** The counts of the dry run over a list of positions. *)
Lemma dry_count_loop (sdA : Slab) l : forall (s s' : Slab),
  for_each (fun n s =>
    c ← countDependencies_dry (partition_index (partition s) n) s;
    Some (set_nd (nd s + c) s)) l s = Some s' ->
  s = set_nd (nd s) sdA ->
  s' = set_nd (nd s') sdA
  /\ Forall (fun n => is_Some
       (countDependencies_dry (partition_index (partition sdA) n) sdA)) l
  /\ nd s' = nd s + sum_list (List.map (fun n => default 0
       (countDependencies_dry (partition_index (partition sdA) n) sdA)) l).
Proof.
  induction l as [|n l IH]; simpl; intros s s' Hr Heq.
  - inversion Hr; subst s'. split; [exact Heq|]. split; [constructor|lia].
  - apply bind_Some in Hr as (s1 & Hb & Hr).
    apply bind_Some in Hb as (c & Hc & Hb). inversion Hb; subst s1. clear Hb.
    assert (Hp : partition s = partition sdA) by (by rewrite Heq).
    assert (Hc' : countDependencies_dry (partition_index (partition sdA) n)
                    sdA = Some c).
    { rewrite <- Hp, <- Hc. symmetry. apply countDependencies_dry_reads.
      by rewrite Heq. }
    apply IH in Hr as (E1 & E2 & E3).
    2: { simpl. rewrite Heq. reflexivity. }
    split; [exact E1|]. split.
    + constructor; [rewrite Hc'; eauto|exact E2].
    + rewrite E3, Hc'. simpl. lia.
Qed.

(** The counts of [create_s] over a list of positions. *)
Lemma ed_count_loop b0 (scE : Slab) l : forall (s s' : Slab),
  for_each (create_s_ed b0) l s = Some s' ->
  same_graph scE s -> partition s = partition scE ->
  same_graph scE s' /\ partition s' = partition scE
  /\ Forall (fun n => is_Some
       (countDependencies (partition_index (partition scE) n) b0 scE)) l
  /\ next (size_d s') = next (size_d s) + sum_list (List.map (fun n =>
       default 0 (countDependencies (partition_index (partition scE) n) b0
                    scE)) l).
Proof.
  induction l as [|n l IH]; simpl; intros s s' Hr Hsg Hp.
  - inversion Hr; subst s'. split_and!; [exact Hsg|exact Hp|constructor|lia].
  - apply bind_Some in Hr as (s1 & Hb & Hr).
    pose proof (create_s_ed_same_graph _ _ _ _ Hb) as Hsg'.
    pose proof (create_s_ed_partition _ _ _ _ Hb) as Hp'.
    apply create_s_ed_eq in Hb as (element & c' & _ & _ & Hc' & Heq').
    rewrite Hp, (countDependencies_same_graph _ _ _ _ Hsg) in Hc'.
    apply IH in Hr as (E1 & E2 & E3 & E4).
    2: { by eapply same_graph_trans. }
    2: { congruence. }
    split; [exact E1|]. split; [exact E2|]. split.
    + constructor; [rewrite Hc'; eauto|exact E3].
    + rewrite E4, Hc', Heq'. simpl. lia.
Qed.

(** The counting loops of the dry run and of [create_s] add the same,
    whatever the order in which the two states of the partition hold the
    components of the head. *)
Lemma count_loops_agree a_top b0 offset end_ (sdA sdB scE sc2 : Slab) :
  partition_contract -> end_ <= N ->
  for_range offset end_ (fun n s =>
    c ← countDependencies_dry (partition_index (partition s) n) s;
    Some (set_nd (nd s + c) s)) sdA = Some sdB ->
  for_range offset end_ (create_s_ed b0) scE = Some sc2 ->
  (forall i, in_head (partition sdA) offset end_ i
             <-> in_head (partition scE) offset end_ i) ->
  (forall n, offset <= n < end_ ->
     u sdA !! partition_index (partition sdA) n = Some b0) ->
  (forall i x, u sdA !! i = Some x -> latest a_top scE i x) ->
  sdB = set_nd (nd sdB) sdA
  /\ ((a_top + eps < b0)%Q ->
      next (size_d sc2) + nd sdA = nd sdB + next (size_d scE)).
Proof.
  intros Hpc HeN HB HE Hhead Hu Hlat.
  unfold for_range in HB, HE.
  set (l := seq offset (end_ - offset)) in *.
  apply (dry_count_loop sdA) in HB as (EB & FB & SB); [|by destruct sdA].
  apply (ed_count_loop b0 scE) in HE as (_ & _ & FE & SE);
    [|apply same_graph_refl|reflexivity].
  split; [exact EB|]. intros Hlong.
  set (gd := fun i => default 0 (countDependencies_dry i sdA)) in *.
  set (gc := fun i => default 0 (countDependencies i b0 scE)) in *.
  set (ld := List.map (partition_index (partition sdA)) l).
  set (lc := List.map (partition_index (partition scE)) l).
  assert (Hin : forall (p : P) i,
            i ∈ List.map (partition_index p) l <-> in_head p offset end_ i).
  { intros p i. rewrite list_elem_of_fmap. unfold l. split.
    - intros (n & -> & Hn%elem_of_seq). exists n. split; [lia|done].
    - intros (n & Hn & <-). exists n. split; [done|]. apply elem_of_seq. lia. }
  assert (Hnd : forall p : P, NoDup (List.map (partition_index p) l)).
  { intros p. apply NoDup_fmap_2_strong; [|apply NoDup_seq].
    intros n m Hn%elem_of_seq Hm%elem_of_seq Heq.
    apply (pc_inj Hpc p); [lia..|exact Heq]. }
  assert (Hperm : ld ≡ₚ lc).
  { apply NoDup_Permutation; [apply Hnd..|].
    intros i. unfold ld, lc. rewrite !Hin. apply Hhead. }
  assert (Hd : sum_list (List.map (fun n => gd (partition_index
                 (partition sdA) n)) l) = sum_list (List.map gd ld)).
  { unfold ld. rewrite List.map_map. reflexivity. }
  assert (Hc : sum_list (List.map (fun n => gc (partition_index
                 (partition scE) n)) l) = sum_list (List.map gc lc)).
  { unfold lc. rewrite List.map_map. reflexivity. }
  assert (Hsame : List.map gd ld = List.map gc ld).
  { apply List.map_ext_in. intros i Hi%list_elem_of_In.
    assert (Hi' : i ∈ lc) by (by rewrite <- Hperm).
    unfold ld in Hi. unfold lc in Hi'.
    apply list_elem_of_fmap in Hi as (n & -> & Hn).
    apply list_elem_of_fmap in Hi' as (m & Hm & Hml).
    rewrite Forall_forall in FB, FE.
    destruct (FB n Hn) as (c & Hcd). destruct (FE m Hml) as (c' & Hcc).
    rewrite <- Hm in Hcc. unfold gd, gc. rewrite Hcd, Hcc. simpl.
    eapply (count_agree a_top); [exact Hcd|exact Hcc| |exact Hlat|exact Hlong].
    intros x Hx. apply elem_of_seq in Hn. rewrite Hu in Hx by lia.
    congruence. }
  assert (Hsum : sum_list (List.map gc ld) = sum_list (List.map gc lc)).
  { assert (Hp2 : List.map gc ld ≡ₚ List.map gc lc)
      by (apply (fmap_Permutation gc); exact Hperm).
    rewrite Hp2. reflexivity. }
  fold gd in SB. fold gc in SE.
  change (fun n => default 0 (countDependencies_dry
            (partition_index (partition sdA) n) sdA))
    with (fun n => gd (partition_index (partition sdA) n)) in SB.
  change (fun n => default 0 (countDependencies
            (partition_index (partition scE) n) b0 scE))
    with (fun n => gc (partition_index (partition scE) n)) in SE.
  rewrite Hd in SB. rewrite Hc in SE. rewrite Hsame, Hsum in SB. lia.
Qed.

End DryRun3.

Section DryRun4.
Context {method : Method} {ode : ODE} {adaptivity : Adaptivity}
  {tolerance : Tolerance} {P : Type} {partition_ops : Partition P}.
Local Abbreviation Slab := (Slab P).
Local Abbreviation eps := real_epsilon.

Local Opaque create_e create_s_ed create_s computeEndTime
  countDependencies countDependencies_dry.

(** The dry run at [offset] leaves the positions below [offset] as they
    are and keeps the components from [offset] on. *)
Lemma computeDataSize_tail fuel :
  partition_contract ->
  forall a b offset (s : Slab) b' s',
    computeDataSize fuel a b offset s = Some (b', s') -> offset <= N ->
    (forall n, n < offset ->
       partition_index (partition s') n = partition_index (partition s) n)
    /\ same_tail offset (partition s') (partition s).
Proof.
  intros Hpc. induction fuel as [|fuel IH];
    intros a b offset s b' s' Hd HoN; [done|].
  simpl in Hd.
  destruct (computeEndTime a b offset s) as [[b1 end_] s1] eqn:Hc.
  apply computeEndTime_eq in Hc as (K & Hu & _ & Heq).
  pose proof (pc_range Hpc (partition s) offset (real_min kmax (b - a)) HoN)
    as Hrange.
  pose proof (pc_fixed Hpc (partition s) offset (real_min kmax (b - a)))
    as Hfixed.
  pose proof (pc_tail Hpc (partition s) offset (real_min kmax (b - a)))
    as Htail.
  rewrite Hu in Hrange, Hfixed, Htail. simpl in Hrange, Hfixed, Htail.
  apply bind_Some in Hd as (sA & HA & Hd).
  apply bind_Some in Hd as ([] & _ & Hd).
  apply bind_Some in Hd as (sB & HB & Hd).
  apply bind_Some in Hd as ([t sW] & HW & Hd).
  inversion Hd; subst b' s'. clear Hd.
  apply dry_times_loop in HA as (HeqA & _ & _).
  assert (HpB : partition sB = partition s1).
  { eapply (for_range_inv (fun sx : Slab => partition sx = partition s1));
      [| |exact HB].
    - intros n sx sx' _ IHx Hb.
      apply bind_Some in Hb as (c & _ & Hb). inversion Hb; subst sx'.
      exact IHx.
    - rewrite HeqA. reflexivity. }
  eapply (while_loop_inv (fun _ (sx : Slab) =>
    (forall n, n < end_ ->
       partition_index (partition sx) n = partition_index (partition sB) n)
    /\ same_tail end_ (partition sx) (partition sB))) in HW as [[HW1 HW2] _].
  2: { intros t0 sx t' sx' [Hx1 Hx2] _ Hb.
       apply IH in Hb as [Hb1 Hb2]; [|lia]. split.
       - intros n Hn. rewrite Hb1 by exact Hn. by apply Hx1.
       - intros i. rewrite (Hb2 i). apply Hx2. }
  2: { split; [done|]. intros i. reflexivity. }
  rewrite HpB in HW1, HW2. split.
  - intros n Hn. rewrite HW1 by lia. by apply Hfixed.
  - intros i. rewrite <- Htail.
    rewrite (tail_cut (partition sW) offset end_ i Hrange),
      (tail_cut _ offset end_ i Hrange), (HW2 i).
    split; (intros [(n & Hn & Hi)|Ht]; [left|by right]); exists n;
      (split; [exact Hn|]).
    + rewrite <- HW1 by lia. exact Hi.
    + rewrite HW1 by lia. exact Hi.
Qed.

(** The dry run and the creation, started on the same call in states that
    agree and hold the same components from [offset] on, return the same
    end time in states that agree. *)
Lemma dry_run_lockstep a_top :
  partition_contract -> partition_stable ->
  (0 < kmax)%Q -> (threshold <= 1)%Q ->
  forall fd fc a b offset (sd sc : Slab) bd sd' bc sc',
    computeDataSize fd a b offset sd = Some (bd, sd') ->
    createTimeSlab fc a b offset sc = Some (bc, sc') ->
    offset <= N -> (a_top <= a)%Q ->
    elems_ok sc -> elast_ok sc -> covered a offset sc ->
    same_tail offset (partition sd) (partition sc) ->
    dry_matches a_top sd sc ->
    bd = bc /\ dry_matches a_top sd' sc'.
Proof.
  intros Hpc Hdet Hkmax Hthr.
  induction fd as [|fd IH];
    intros fc a b offset sd sc bd sd' bc sc' Hd Hc HoN Htop Hel Hla Hcov
      Hst DM;
    [done|].
  destruct fc as [|fc]; [done|]. simpl in Hd, Hc.
  destruct (computeEndTime a b offset sd) as [[bd1 endd] sd1] eqn:Hcd.
  destruct (computeEndTime a b offset sc) as [[bc1 endc] sc1] eqn:Hcc.
  pose proof (computeEndTime_same_graph _ _ _ _ _ _ _ Hcc) as Hsg1.
  apply computeEndTime_eq in Hcd as (Kd & Hud & Hbd1 & Heqd).
  apply computeEndTime_eq in Hcc as (Kc & Huc & Hbc1 & Heqc).
  destruct (Hdet (partition sd) (partition sc) offset
              (real_min kmax (b - a)) Hst) as (Hend & HK & Hhead).
  pose proof (pc_range Hpc (partition sc) offset (real_min kmax (b - a)) HoN)
    as Hrange.
  pose proof (pc_tail Hpc (partition sc) offset (real_min kmax (b - a)))
    as Htail.
  pose proof (pc_tail Hpc (partition sd) offset (real_min kmax (b - a)))
    as Htaild.
  rewrite Hud, Huc in Hend, HK, Hhead. rewrite Hud in Htaild.
  rewrite Huc in Hrange, Htail.
  simpl in Hend, HK, Hhead, Hrange, Htail, Htaild. subst endc Kc.
  assert (bd1 = bc1) as <- by congruence. clear Hbc1.
  assert (Hst1 : same_tail offset (partition sd1) (partition sc1)).
  { intros i. rewrite (Htaild i), (Htail i). apply Hst. }
  assert (Hste : same_tail endd (partition sd1) (partition sc1)).
  { intros i.
    rewrite (tail_minus_head (partition sd1) offset endd i
               (pc_inj Hpc (partition sd1)) Hrange),
      (tail_minus_head (partition sc1) offset endd i
               (pc_inj Hpc (partition sc1)) Hrange),
      (Hst1 i), (Hhead i). reflexivity. }
  (* the dry run *)
  apply bind_Some in Hd as (sdA & HA & Hd).
  apply bind_Some in Hd as ([] & _ & Hd).
  apply bind_Some in Hd as (sdB & HB & Hd).
  apply bind_Some in Hd as ([td sdW] & HWd & Hd).
  inversion Hd; subst bd sd'. clear Hd.
  (* the creation *)
  apply bind_Some in Hc as (sc2 & H2 & Hc).
  apply bind_Some in Hc as ([tc scW] & HWc & Hc).
  inversion Hc; subst bc sc'. clear Hc.
  assert (Hel1 : elems_ok sc1) by (by eapply same_graph_elems).
  assert (Hla1 : elast_ok sc1) by (by eapply same_graph_elast).
  assert (Hcov1 : covered a offset sc1).
  { eapply covered_same_graph; [exact Hsg1| |exact Hcov].
    intros i. apply Htail. }
  pose proof (create_s_counters _ _ _ _ _ _ H2) as (Hcs & Hce & Hcj).
  eapply create_s_wf in H2
    as (Hext2 & Hel2 & Hla2 & Hp2 & _ & Hsa2 & Hsb2 & _ & Hfr2 & Hhd2
        & Hcov2 & scE & HE & HsgE & HpE & HsdE & _ & _);
    try done.
  apply dry_times_loop in HA as (HeqA & HuA & HuA').
  assert (Hsd1 : u sd1 = u sd /\ ns sd1 = ns sd /\ ne sd1 = ne sd
                 /\ nj sd1 = nj sd /\ nd sd1 = nd sd).
  { rewrite Heqd. done. }
  destruct Hsd1 as (Hu1 & Hns1 & Hne1 & Hnj1 & Hnd1).
  (* the times of the dry run are those of the created elements *)
  assert (HlatE : forall i x, u sdA !! i = Some x -> latest a_top scE i x).
  { intros i x Hx. eapply same_graph_latest; [apply same_graph_sym, HsgE|].
    destruct (HuA' _ _ Hx) as [(n & Hn & Hi & ->)|[Hnot Hx1]].
    - assert (Hih : in_head (partition sc1) offset endd i).
      { apply Hhead. exists n. split; [exact Hn|exact Hi]. }
      destruct Hih as (n' & Hn' & Hi').
      destruct (Hhd2 n' Hn') as (Hl & _ & Hes & _).
      intros el Hel'. rewrite <- Hi', Hl in Hel'. inversion Hel'; subst el.
      right. split; [lia|]. rewrite Nat2Z.id. eauto.
    - eapply (extends_latest a_top sc1 sc2);
        [exact Hel1|exact Hla1|exact Hext2| |].
      + apply Hfr2. intros m Hm Hmi.
        assert (Hih : in_head (partition sd1) offset endd i).
        { apply Hhead. exists m. split; [exact Hm|exact Hmi]. }
        destruct Hih as (n' & Hn' & Hi'). by apply (Hnot n' Hn').
      + eapply same_graph_latest; [exact Hsg1|].
        apply (dm_u _ _ _ DM). by rewrite <- Hu1. }
  assert (HpA : partition sdA = partition sd1) by (by rewrite HeqA).
  eapply (count_loops_agree a_top) in HB as [HeqB HcntB];
    [|exact Hpc|lia|exact HE| | |].
  2: { intros i. simpl. rewrite HpA, HpE. by apply Hhead. }
  2: { intros n Hn. simpl. rewrite HpA. by apply HuA. }
  2: { intros i x Hx. simpl in Hx. by apply HlatE. }
  simpl in HeqB, HcntB.
  assert (DM2 : dry_matches a_top sdB sc2).
  { split.
    - rewrite HeqB. simpl. rewrite HeqA. simpl. rewrite Hcs, Hns1.
      rewrite (sg_next_s _ _ Hsg1), (dm_s _ _ _ DM). done.
    - rewrite HeqB. simpl. rewrite HeqA. simpl. rewrite Hce, Hne1.
      rewrite (sg_next_e _ _ Hsg1), (dm_e _ _ _ DM). done.
    - rewrite HeqB. simpl. rewrite HeqA. simpl. rewrite Hcj, Hnj1.
      assert (size_j sc1 = size_j sc) as -> by (by rewrite Heqc).
      rewrite (dm_j _ _ _ DM). done.
    - intros i x Hx. rewrite HeqB in Hx. simpl in Hx.
      eapply same_graph_latest; [exact HsgE|]. by apply HlatE.
    - intros Hlong.
      assert (Hl0 : longer_than_eps sc).
      { eapply same_graph_longer; [apply same_graph_sym, Hsg1|].
        eapply extends_longer; [exact Hext2|exact Hlong]. }
      assert (Hpos : (a + eps < bd1)%Q).
      { apply (Hlong (next (size_s sc1))); [lia|done..]. }
      rewrite HeqA in HcntB. simpl in HcntB.
      rewrite HsdE in HcntB.
      assert (size_d sc1 = size_d sc) as Hsd by (by rewrite Heqc).
      rewrite Hsd, (dm_d _ _ _ DM Hl0), Hnd1 in HcntB.
      assert (a_top + eps < bd1)%Q by lra. specialize (HcntB H). lia. }
  (* the loops over the tail *)
  set (R := fun t (sdx scx : Slab) =>
    dry_matches a_top sdx scx /\ elems_ok scx /\ elast_ok scx
    /\ covered t endd scx /\ (a_top <= t)%Q
    /\ same_tail endd (partition sdx) (partition scx)).
  assert (Hinit : R a sdB sc2).
  { unfold R. split_and!; try done.
    assert (partition sdB = partition sd1) as ->
      by (rewrite HeqB; simpl; rewrite HeqA; reflexivity).
    rewrite Hp2. exact Hste. }
  assert (Hstep : forall t (sdx scx : Slab) t1 sdx' t2 scx',
    R t sdx scx ->
    Qltb t bd1 && bool_decide (endd < N) = true ->
    computeDataSize fd t bd1 endd sdx = Some (t1, sdx') ->
    createTimeSlab fc t bd1 endd scx = Some (t2, scx') ->
    t1 = t2 /\ R t1 sdx' scx').
  { intros t sdx scx t1 sdx' t2 scx'
      (DMx & Helx & Hlax & Hcovx & Htx & Hstx) Hcond Hb1 Hb2.
    apply andb_true_iff in Hcond as [Hlt Hlast].
    apply Qltb_lt in Hlt. apply bool_decide_eq_true in Hlast.
    assert (HeN : endd <= N) by lia.
    destruct (IH _ _ _ _ _ _ _ _ _ _ Hb1 Hb2 HeN Htx Helx Hlax Hcovx Hstx
                DMx) as [-> DMx'].
    pose proof (createTimeSlab_wf fc Hpc Hkmax Hthr _ _ _ _ _ _ Hb2 HeN Helx
                  Hlax Hcovx) as Hpost.
    destruct (computeDataSize_tail fd Hpc _ _ _ _ _ _ Hb1 HeN) as [_ Htd].
    destruct (sp_time _ _ _ _ _ _ Hpost Hlt) as [Hlt' _].
    split; [done|]. unfold R. split_and!; try done.
    - apply (sp_elems _ _ _ _ _ _ Hpost).
    - apply (sp_elast _ _ _ _ _ _ Hpost).
    - intros i Hi. apply ended_reached.
      apply (sp_ended _ _ _ _ _ _ Hpost Hlt). done.
    - lra.
    - intros i. rewrite (Htd i), (sp_tail _ _ _ _ _ _ Hpost i). apply Hstx. }
  destruct (while_loop_sim R _ _ _ Hstep _ _ _ _ _ _ _ _ _ Hinit HWd HWc)
    as (_ & (DMW & _) & _).
  split; [done|exact DMW].
Qed.

End DryRun4.

Section Build.
Context {method : Method} {ode : ODE} {adaptivity : Adaptivity}
  {tolerance : Tolerance} {P : Type} {partition_ops : Partition P}.
Local Abbreviation Slab := (Slab P).
Local Abbreviation eps := real_epsilon.

Local Opaque create_e create_s_ed create_s computeEndTime
  countDependencies countDependencies_dry.

(** ** The dry run writes its counters, [u], [kmin] and the partition *)

Lemma dry_from_refl (s : Slab) : s = dry_from s s.
Proof. by destruct s. Qed.

Lemma dry_from_trans (s1 s2 s3 : Slab) :
  s2 = dry_from s1 s2 -> s3 = dry_from s2 s3 -> s3 = dry_from s1 s3.
Proof. intros H1 H2. rewrite H2, H1. reflexivity. Qed.

Lemma computeDataSize_frame fuel : forall a b offset (s : Slab) b' s',
  computeDataSize fuel a b offset s = Some (b', s') -> s' = dry_from s s'.
Proof.
  induction fuel as [|fuel IH]; simpl; intros a b offset s b' s' Hrun;
    [done|].
  destruct (computeEndTime a b offset s) as [[b1 end_] s1] eqn:Hc.
  apply computeEndTime_eq in Hc as (K' & _ & _ & Heq1).
  apply bind_Some in Hrun as (sA & HA & Hrun).
  apply bind_Some in Hrun as ([] & _ & Hrun).
  apply bind_Some in Hrun as (sB & HB & Hrun).
  apply bind_Some in Hrun as ([t sW] & HW & Hrun).
  inversion Hrun; subst b' s'. clear Hrun.
  apply dry_times_loop in HA as (HeqA & _ & _).
  assert (HeqB : sB = dry_from s sB).
  { eapply (for_range_inv (fun sx : Slab => sx = dry_from s sx));
      [| |exact HB].
    - intros n sx sx' _ IHx Hb.
      apply bind_Some in Hb as (c & _ & Hb). inversion Hb; subst sx'.
      rewrite IHx. reflexivity.
    - rewrite HeqA, Heq1. reflexivity. }
  eapply (while_loop_inv (fun _ (sx : Slab) => sx = dry_from s sx)) in HW
    as [HW _]; [exact HW| |exact HeqB].
  intros t0 sx t' sx' Hx _ Hb. apply IH in Hb.
  eapply dry_from_trans; [exact Hx|exact Hb].
Qed.

(** ** Filling an array *)

Lemma fill_u_loop n a (s s' : Slab) :
  for_range 0 n (fun i s => u' ← wr (u s) i a; Some (set_u u' s)) s = Some s' ->
  s' = set_u (u s') s /\ length (u s') = length (u s)
  /\ (forall i x, i < n -> u s' !! i = Some x -> x = a).
Proof.
  intros Hrun.
  eapply (for_range_ind (fun k (sx : Slab) =>
    sx = set_u (u sx) s /\ length (u sx) = length (u s)
    /\ (forall i x, i < k -> u sx !! i = Some x -> x = a)) 0 n);
    [lia| | |exact Hrun].
  - intros k sx sx' Hk (I1 & I2 & I3) Hb.
    apply bind_Some in Hb as (u' & [Hlt ->]%wr_Some & Hb).
    inversion Hb; subst sx'. simpl. split_and!.
    + rewrite I1. reflexivity.
    + rewrite length_insert. done.
    + intros i x Hi Hx. destruct (decide (i = k)) as [->|Hne].
      * rewrite list_lookup_insert_eq in Hx by done. congruence.
      * rewrite list_lookup_insert_ne in Hx by done. apply (I3 i); [lia|done].
  - split_and!; [by destruct s|done|intros; lia].
Qed.

Lemma fill_elast_loop n (s s' : Slab) :
  for_range 0 n (fun i s =>
    el ← wr (elast s) i (-1)%Z; Some (set_elast el s)) s = Some s' ->
  s' = set_elast (elast s') s /\ length (elast s') = length (elast s)
  /\ (forall i x, i < n -> elast s' !! i = Some x -> x = (-1)%Z).
Proof.
  intros Hrun.
  eapply (for_range_ind (fun k (sx : Slab) =>
    sx = set_elast (elast sx) s /\ length (elast sx) = length (elast s)
    /\ (forall i x, i < k -> elast sx !! i = Some x -> x = (-1)%Z)) 0 n);
    [lia| | |exact Hrun].
  - intros k sx sx' Hk (I1 & I2 & I3) Hb.
    apply bind_Some in Hb as (u' & [Hlt ->]%wr_Some & Hb).
    inversion Hb; subst sx'. simpl. split_and!.
    + rewrite I1. reflexivity.
    + rewrite length_insert. done.
    + intros i x Hi Hx. destruct (decide (i = k)) as [->|Hne].
      * rewrite list_lookup_insert_eq in Hx by done. congruence.
      * rewrite list_lookup_insert_ne in Hx by done. apply (I3 i); [lia|done].
  - split_and!; [by destruct s|done|intros; lia].
Qed.

Lemma fill_de_loop n (s s' : Slab) :
  for_range 0 n (fun d s =>
    de' ← wr (de s) d (-1)%Z; Some (set_de de' s)) s = Some s' ->
  s' = set_de (de s') s /\ length (de s') = length (de s)
  /\ n <= length (de s)
  /\ (forall d, d < n -> de s' !! d = Some (-1)%Z).
Proof.
  intros Hrun.
  eapply (for_range_ind (fun k (sx : Slab) =>
    sx = set_de (de sx) s /\ length (de sx) = length (de s)
    /\ k <= length (de s)
    /\ (forall d, d < k -> de sx !! d = Some (-1)%Z)) 0 n);
    [lia| | |exact Hrun].
  - intros k sx sx' Hk (I1 & I2 & I3 & I4) Hb.
    apply bind_Some in Hb as (u' & [Hlt ->]%wr_Some & Hb).
    inversion Hb; subst sx'. simpl. split_and!.
    + rewrite I1. reflexivity.
    + rewrite length_insert. done.
    + lia.
    + intros d Hd. destruct (decide (d = k)) as [->|Hne].
      * rewrite list_lookup_insert_eq by done. done.
      * rewrite list_lookup_insert_ne by done. apply I4. lia.
  - split_and!; [by destruct s|done|lia|intros; lia].
Qed.

(** ** Allocation *)

Lemma alloc_s_spec n (s : Slab) :
  alloc_s n s = set_sa (sa (alloc_s n s)) (set_sb (sb (alloc_s n s))
                  (set_size_s (size_s (alloc_s n s)) s))
  /\ next (size_s (alloc_s n s)) = 0
  /\ size (size_s (alloc_s n s)) = Nat.max (size (size_s s)) n
  /\ (n <= size (size_s s) ->
      sa (alloc_s n s) = sa s /\ sb (alloc_s n s) = sb s).
Proof.
  unfold alloc_s. simpl. destruct (decide (n <= size (size_s s))); simpl.
  - split_and!; try done; try lia; by destruct s.
  - split_and!; try done; lia.
Qed.

Lemma alloc_e_spec n (s : Slab) :
  alloc_e n s = set_ei (ei (alloc_e n s)) (set_es (es (alloc_e n s))
                  (set_ee (ee (alloc_e n s)) (set_ed (ed (alloc_e n s))
                    (set_size_e (size_e (alloc_e n s)) s))))
  /\ next (size_e (alloc_e n s)) = 0
  /\ size (size_e (alloc_e n s)) = Nat.max (size (size_e s)) n
  /\ (n <= size (size_e s) ->
      ei (alloc_e n s) = ei s /\ es (alloc_e n s) = es s
      /\ ee (alloc_e n s) = ee s /\ ed (alloc_e n s) = ed s).
Proof.
  unfold alloc_e. simpl. destruct (decide (n <= size (size_e s))); simpl.
  - split_and!; try done; try lia; by destruct s.
  - split_and!; try done; lia.
Qed.

Lemma alloc_j_spec n (s : Slab) :
  alloc_j n s = set_jx (jx (alloc_j n s)) (set_size_j (size_j (alloc_j n s)) s)
  /\ next (size_j (alloc_j n s)) = 0
  /\ size (size_j (alloc_j n s)) = Nat.max (size (size_j s)) n
  /\ (n <= size (size_j s) -> jx (alloc_j n s) = jx s).
Proof.
  unfold alloc_j. simpl. destruct (decide (n <= size (size_j s))); simpl.
  - split_and!; try done; try lia; by destruct s.
  - split_and!; try done; lia.
Qed.

Lemma alloc_d_spec n (s : Slab) :
  alloc_d n s = set_de (de (alloc_d n s)) (set_size_d (size_d (alloc_d n s)) s)
  /\ next (size_d (alloc_d n s)) = 0
  /\ size (size_d (alloc_d n s)) = Nat.max (size (size_d s)) n
  /\ (n <= size (size_d s) -> de (alloc_d n s) = de s).
Proof.
  unfold alloc_d. simpl. destruct (decide (n <= size (size_d s))); simpl.
  - split_and!; try done; try lia; by destruct s.
  - split_and!; try done; lia.
Qed.

End Build.

Section Build2.
Context {method : Method} {ode : ODE} {adaptivity : Adaptivity}
  {tolerance : Tolerance} {P : Type} {partition_ops : Partition P}.
Local Abbreviation Slab := (Slab P).
Local Abbreviation eps := real_epsilon.

Local Opaque create_e create_s_ed create_s computeEndTime
  countDependencies countDependencies_dry alloc_s alloc_e alloc_j alloc_d
  createTimeSlab computeDataSize.

Lemma alloc_counters n (s : Slab) :
  (ns (alloc_s n s) = ns s /\ ne (alloc_s n s) = ne s
   /\ nj (alloc_s n s) = nj s /\ nd (alloc_s n s) = nd s)
  /\ (ns (alloc_e n s) = ns s /\ ne (alloc_e n s) = ne s
      /\ nj (alloc_e n s) = nj s /\ nd (alloc_e n s) = nd s)
  /\ (ns (alloc_j n s) = ns s /\ ne (alloc_j n s) = ne s
      /\ nj (alloc_j n s) = nj s /\ nd (alloc_j n s) = nd s)
  /\ (ns (alloc_d n s) = ns s /\ ne (alloc_d n s) = ne s
      /\ nj (alloc_d n s) = nj s /\ nd (alloc_d n s) = nd s).
Proof.
  destruct (alloc_s_spec n s) as (E1 & _).
  destruct (alloc_e_spec n s) as (E2 & _).
  destruct (alloc_j_spec n s) as (E3 & _).
  destruct (alloc_d_spec n s) as (E4 & _).
  split_and!.
  all: first [ rewrite E1 | rewrite E2 | rewrite E3 | rewrite E4 ];
    reflexivity.
Qed.

(** The state that [allocData] leaves: the dry run [sD], then the
    allocation and the reset of [de]. *)
Lemma allocData_eq fuel a b (s sA : Slab) :
  allocData fuel a b s = Some sA ->
  exists s1 bD sD,
    for_range 0 N (fun i s => u' ← wr (u s) i a; Some (set_u u' s)) s = Some s1
    /\ computeDataSize fuel a b 0
         (set_ns 0 (set_ne 0 (set_nj 0 (set_nd 0 s1)))) = Some (bD, sD)
    /\ for_range 0 (nd sD) (fun d s =>
         de' ← wr (de s) d (-1)%Z; Some (set_de de' s))
         (alloc_d (nd sD) (alloc_j (nj sD) (alloc_e (ne sD)
           (alloc_s (ns sD) sD)))) = Some sA.
Proof.
  unfold allocData. intros Hrun.
  apply bind_Some in Hrun as (s1 & H1 & Hrun).
  apply bind_Some in Hrun as ([bD sD] & HD & Hrun).
  cbv zeta in Hrun.
  exists s1, bD, sD. split_and!; try done.
  repeat match type of Hrun with
         | context [nd (alloc_d ?n ?x)] =>
             rewrite (proj2 (proj2 (proj2 (proj2 (proj2 (proj2
               (alloc_counters n x))))))) in Hrun
         | context [nd (alloc_j ?n ?x)] =>
             rewrite (proj2 (proj2 (proj2 (proj1 (proj2 (proj2
               (alloc_counters n x))))))) in Hrun
         | context [nd (alloc_e ?n ?x)] =>
             rewrite (proj2 (proj2 (proj2 (proj1 (proj2
               (alloc_counters n x)))))) in Hrun
         | context [nd (alloc_s ?n ?x)] =>
             rewrite (proj2 (proj2 (proj2 (proj1 (alloc_counters n x)))))
               in Hrun
         | context [nj (alloc_e ?n ?x)] =>
             rewrite (proj1 (proj2 (proj2 (proj1 (proj2
               (alloc_counters n x)))))) in Hrun
         | context [nj (alloc_s ?n ?x)] =>
             rewrite (proj1 (proj2 (proj2 (proj1 (alloc_counters n x)))))
               in Hrun
         | context [ne (alloc_s ?n ?x)] =>
             rewrite (proj1 (proj2 (proj1 (alloc_counters n x)))) in Hrun
         end.
  exact Hrun.
Qed.

Lemma alloc_chain (s : Slab) n1 n2 n3 n4 :
  let s' := alloc_d n4 (alloc_j n3 (alloc_e n2 (alloc_s n1 s))) in
  s' = arena_from s s'
  /\ next (size_s s') = 0 /\ next (size_e s') = 0
  /\ next (size_j s') = 0 /\ next (size_d s') = 0
  /\ size (size_s s') = Nat.max (size (size_s s)) n1
  /\ size (size_e s') = Nat.max (size (size_e s)) n2
  /\ size (size_j s') = Nat.max (size (size_j s)) n3
  /\ size (size_d s') = Nat.max (size (size_d s)) n4.
Proof.
  simpl.
  destruct (alloc_s_spec n1 s) as (E1 & A1 & B1 & _).
  destruct (alloc_e_spec n2 (alloc_s n1 s)) as (E2 & A2 & B2 & _).
  destruct (alloc_j_spec n3 (alloc_e n2 (alloc_s n1 s))) as (E3 & A3 & B3 & _).
  destruct (alloc_d_spec n4 (alloc_j n3 (alloc_e n2 (alloc_s n1 s))))
    as (E4 & A4 & B4 & _).
  set (s1 := alloc_s n1 s) in *. set (s2 := alloc_e n2 s1) in *.
  set (s3 := alloc_j n3 s2) in *. set (s4 := alloc_d n4 s3) in *.
  assert (F4 : size_s s4 = size_s s3 /\ size_e s4 = size_e s3
               /\ size_j s4 = size_j s3) by (by rewrite E4).
  assert (F3 : size_s s3 = size_s s2 /\ size_e s3 = size_e s2
               /\ size_d s3 = size_d s2) by (by rewrite E3).
  assert (F2 : size_s s2 = size_s s1 /\ size_j s2 = size_j s1
               /\ size_d s2 = size_d s1) by (by rewrite E2).
  assert (F1 : size_e s1 = size_e s /\ size_j s1 = size_j s
               /\ size_d s1 = size_d s) by (by rewrite E1).
  destruct F4 as (F41 & F42 & F43), F3 as (F31 & F32 & F33),
    F2 as (F21 & F22 & F23), F1 as (F11 & F12 & F13).
  split_and!.
  - rewrite E4 at 1. rewrite E3 at 1. rewrite E2 at 1. rewrite E1 at 1.
    unfold arena_from. rewrite E4, E3, E2. reflexivity.
  - rewrite F41, F31, F21. done.
  - rewrite F42, F32. done.
  - rewrite F43. done.
  - done.
  - rewrite F41, F31, F21. done.
  - rewrite F42, F32, B2, F11. done.
  - rewrite F43, B3, F22, F12. done.
  - rewrite B4, F33, F23, F13. done.
Qed.

End Build2.

Section Build3.
Context {method : Method} {ode : ODE} {adaptivity : Adaptivity}
  {tolerance : Tolerance} {P : Type} {partition_ops : Partition P}.
Local Abbreviation Slab := (Slab P).
Local Abbreviation eps := real_epsilon.

Local Opaque create_e create_s_ed create_s computeEndTime
  countDependencies countDependencies_dry alloc_s alloc_e alloc_j alloc_d
  createTimeSlab computeDataSize allocData.

(** ** The steps of [build] *)

Lemma build_eq fuel a b (s : Slab) b' s' :
  build fuel a b s = Some (b', s') ->
  exists sA sE sC,
    allocData fuel a b s = Some sA
    /\ for_range 0 N (fun i s =>
         el ← wr (elast s) i (-1)%Z; Some (set_elast el s)) sA = Some sE
    /\ createTimeSlab fuel a b 0 (set_kmin endtime sE) = Some (b', sC)
    /\ s' = set_b b' (set_a a sC).
Proof.
  unfold build. intros Hrun.
  apply bind_Some in Hrun as (sA & HA & Hrun).
  apply bind_Some in Hrun as (sE & HE & Hrun).
  cbv zeta in Hrun.
  apply bind_Some in Hrun as ([b1 sC] & HC & Hrun).
  inversion Hrun; subst b' s'.
  exists sA, sE, sC. done.
Qed.

(** The state in which the creation starts: an empty arena with the
    capacities that the dry run asked for, every [elast] reset, and the
    counters of the dry run. *)
Lemma build_start fuel a b (s sA sE : Slab) :
  allocData fuel a b s = Some sA ->
  for_range 0 N (fun i s =>
    el ← wr (elast s) i (-1)%Z; Some (set_elast el s)) sA = Some sE ->
  exists s1 bD sD,
    for_range 0 N (fun i s => u' ← wr (u s) i a; Some (set_u u' s)) s = Some s1
    /\ computeDataSize fuel a b 0
         (set_ns 0 (set_ne 0 (set_nj 0 (set_nd 0 s1)))) = Some (bD, sD)
    /\ set_kmin endtime sE
       = set_kmin endtime (set_elast (elast sE) (arena_from sD sE))
    /\ next (size_s sE) = 0 /\ next (size_e sE) = 0
    /\ next (size_j sE) = 0 /\ next (size_d sE) = 0
    /\ size (size_s sE) = Nat.max (size (size_s s)) (ns sD)
    /\ size (size_e sE) = Nat.max (size (size_e s)) (ne sD)
    /\ size (size_j sE) = Nat.max (size (size_j s)) (nj sD)
    /\ size (size_d sE) = Nat.max (size (size_d s)) (nd sD)
    /\ length (elast sE) = length (elast s)
    /\ (forall i x, i < N -> elast sE !! i = Some x -> x = (-1)%Z)
    /\ (forall i x, i < N -> u s1 !! i = Some x -> x = a)
    /\ nd sD <= length (de sE)
    /\ (forall d, d < nd sD -> de sE !! d = Some (-1)%Z).
Proof.
  intros HA HE.
  apply allocData_eq in HA as (s1 & bD & sD & H1 & HD & Hfill).
  exists s1, bD, sD. split; [exact H1|]. split; [exact HD|].
  apply fill_u_loop in H1 as (Eu & Lu & Fu).
  apply computeDataSize_frame in HD as ED.
  apply fill_de_loop in Hfill as (Ede & Lde & Bde & Fde).
  apply fill_elast_loop in HE as (Eel & Lel & Fel).
  pose proof (alloc_chain sD (ns sD) (ne sD) (nj sD) (nd sD)) as Hch.
  cbv zeta in Hch.
  set (s4 := alloc_d (nd sD) (alloc_j (nj sD) (alloc_e (ne sD)
               (alloc_s (ns sD) sD)))) in *.
  destruct Hch as (E4 & N1 & N2 & N3 & N4 & Z1 & Z2 & Z3 & Z4).
  assert (Hsz : size_s sE = size_s s4 /\ size_e sE = size_e s4
                /\ size_j sE = size_j s4 /\ size_d sE = size_d s4).
  { rewrite Eel, Ede. done. }
  destruct Hsz as (Q1 & Q2 & Q3 & Q4).
  assert (HszD : size_s sD = size_s s /\ size_e sD = size_e s
                 /\ size_j sD = size_j s /\ size_d sD = size_d s
                 /\ elast sD = elast s).
  { rewrite ED. simpl. rewrite Eu. done. }
  destruct HszD as (R1 & R2 & R3 & R4 & R5).
  assert (Hel4 : elast sA = elast sD).
  { rewrite Ede. simpl. rewrite E4. reflexivity. }
  assert (Hde : de sE = de sA) by (rewrite Eel; reflexivity).
  split_and!.
  - rewrite Eel at 1. rewrite Ede at 1. rewrite E4 at 1.
    unfold arena_from. rewrite Eel, Ede. reflexivity.
  - rewrite Q1. exact N1.
  - rewrite Q2. exact N2.
  - rewrite Q3. exact N3.
  - rewrite Q4. exact N4.
  - rewrite Q1, Z1, R1. reflexivity.
  - rewrite Q2, Z2, R2. reflexivity.
  - rewrite Q3, Z3, R3. reflexivity.
  - rewrite Q4, Z4, R4. reflexivity.
  - rewrite Lel, Hel4, R5. reflexivity.
  - exact Fel.
  - exact Fu.
  - rewrite Hde, Lde. exact Bde.
  - intros d Hd. rewrite Hde. apply Fde. exact Hd.
Qed.

End Build3.

Section Build4.
Context {method : Method} {ode : ODE} {adaptivity : Adaptivity}
  {tolerance : Tolerance} {P : Type} {partition_ops : Partition P}.
Local Abbreviation Slab := (Slab P).
Local Abbreviation eps := real_epsilon.

Local Opaque create_e create_s_ed create_s computeEndTime
  countDependencies countDependencies_dry alloc_s alloc_e alloc_j alloc_d
  createTimeSlab computeDataSize allocData.

(** ** What a completed build establishes *)

(** The element graph of a completed build, whatever the dry run has
    counted. *)
Lemma build_graph fuel a b (s : Slab) b' s' :
  partition_contract ->
  (0 < kmax)%Q -> (threshold <= 1)%Q ->
  length (elast s) = N ->
  build fuel a b s = Some (b', s') ->
  elems_ok s' /\ elast_ok s'.
Proof.
  intros Hpc Hk Hth Hlen Hrun.
  apply build_eq in Hrun as (sA & sE & sC & HA & HE & HC & ->).
  destruct (build_start _ _ _ _ _ _ HA HE)
    as (s1 & bD & sD & H1 & HD & Eq & N1 & N2 & N3 & N4
        & Z1 & Z2 & Z3 & Z4 & Lel & Fel & Fu & _).
  set (sc0 := set_kmin endtime sE) in *.
  assert (Hel0 : elems_ok sc0).
  { intros e He. change (next (size_e sc0)) with (next (size_e sE)) in He.
    lia. }
  assert (Hla0 : elast_ok sc0).
  { split; [change (elast sc0) with (elast sE); lia|].
    intros i el Hi. left.
    change (elast sc0) with (elast sE) in Hi.
    assert (i < N) by (apply lookup_lt_Some in Hi; lia).
    split; [by eapply Fel|].
    intros e He. change (next (size_e sc0)) with (next (size_e sE)) in He.
    lia. }
  assert (Hcov0 : covered a 0 sc0).
  { intros i _ el Hi. left.
    change (elast sc0) with (elast sE) in Hi.
    assert (i < N) by (apply lookup_lt_Some in Hi; lia).
    by eapply Fel. }
  pose proof (createTimeSlab_wf fuel Hpc Hk Hth _ _ _ _ _ _ HC
                (Nat.le_0_l N) Hel0 Hla0 Hcov0) as Hpost.
  split.
  - exact (sp_elems _ _ _ _ _ _ Hpost).
  - exact (sp_elast _ _ _ _ _ _ Hpost).
Qed.

Lemma build_invariants fuel a b (s : Slab) b' s' :
  partition_contract -> partition_stable ->
  (0 < kmax)%Q -> (threshold <= 1)%Q ->
  length (elast s) = N ->
  build fuel a b s = Some (b', s') ->
  exists sD,
    dry_run fuel a b s = Some (b', sD)
    /\ ns s' = ns sD /\ ne s' = ne sD /\ nj s' = nj sD /\ nd s' = nd sD
    /\ elems_ok s' /\ elast_ok s'
    /\ next (size_s s') = ns sD
    /\ next (size_e s') = ne sD
    /\ next (size_j s') = nj sD
    /\ (longer_than_eps s' -> next (size_d s') = nd sD)
    /\ size (size_s s') = Nat.max (size (size_s s)) (ns sD)
    /\ size (size_e s') = Nat.max (size (size_e s)) (ne sD)
    /\ size (size_j s') = Nat.max (size (size_j s)) (nj sD)
    /\ size (size_d s') = Nat.max (size (size_d s)) (nd sD).
Proof.
  intros Hpc Hdet Hk Hth Hlen Hrun.
  apply build_eq in Hrun as (sA & sE & sC & HA & HE & HC & ->).
  destruct (build_start _ _ _ _ _ _ HA HE)
    as (s1 & bD & sD & H1 & HD & Eq & N1 & N2 & N3 & N4
        & Z1 & Z2 & Z3 & Z4 & Lel & Fel & Fu & _).
  set (sd0 := set_ns 0 (set_ne 0 (set_nj 0 (set_nd 0 s1)))) in *.
  set (sc0 := set_kmin endtime sE) in *.
  assert (Hel0 : elems_ok sc0).
  { intros e He. change (next (size_e sc0)) with (next (size_e sE)) in He.
    lia. }
  assert (Hla0 : elast_ok sc0).
  { split; [change (elast sc0) with (elast sE); lia|].
    intros i el Hi. left.
    change (elast sc0) with (elast sE) in Hi.
    assert (i < N) by (apply lookup_lt_Some in Hi; lia).
    split; [by eapply Fel|].
    intros e He. change (next (size_e sc0)) with (next (size_e sE)) in He.
    lia. }
  assert (Hcov0 : covered a 0 sc0).
  { intros i _ el Hi. left.
    change (elast sc0) with (elast sE) in Hi.
    assert (i < N) by (apply lookup_lt_Some in Hi; lia).
    by eapply Fel. }
  assert (Hdm0 : dry_matches a sd0 sc0).
  { split.
    - exact N1.
    - exact N2.
    - exact N3.
    - intros i x Hx el Hi. left.
      change (elast sc0) with (elast sE) in Hi.
      change (u sd0) with (u s1) in Hx.
      assert (i < N) by (apply lookup_lt_Some in Hi; lia).
      split; [by eapply Fel|by eapply Fu].
    - intros _. exact N4. }
  assert (Hst0 : same_tail 0 (partition sd0) (partition sc0)).
  { destruct (computeDataSize_tail fuel Hpc _ _ _ _ _ _ HD (Nat.le_0_l N))
      as [_ Ht].
    assert (partition sc0 = partition sD) as -> by (rewrite Eq; done).
    intros i. symmetry. apply Ht. }
  destruct (dry_run_lockstep a Hpc Hdet Hk Hth _ _ _ _ _ _ _ _ _ _ _
              HD HC (Nat.le_0_l N) (Qle_refl a) Hel0 Hla0 Hcov0 Hst0 Hdm0)
    as (-> & Hdm).
  pose proof (createTimeSlab_wf fuel Hpc Hk Hth _ _ _ _ _ _ HC
                (Nat.le_0_l N) Hel0 Hla0 Hcov0) as Hpost.
  pose proof (createTimeSlab_extends _ _ _ _ _ _ _ HC) as Hext.
  assert (Hcnt : ns sC = ns sD /\ ne sC = ne sD /\ nj sC = nj sD
                 /\ nd sC = nd sD).
  { assert (Hc0 : ns sc0 = ns sD /\ ne sc0 = ne sD /\ nj sc0 = nj sD
                   /\ nd sc0 = nd sD) by (rewrite Eq; done).
    rewrite (ext_static _ _ Hext). exact Hc0. }
  destruct Hcnt as (C1 & C2 & C3 & C4).
  exists sD. split_and!.
  - unfold dry_run. rewrite H1. simpl. exact HD.
  - exact C1.
  - exact C2.
  - exact C3.
  - exact C4.
  - exact (sp_elems _ _ _ _ _ _ Hpost).
  - exact (sp_elast _ _ _ _ _ _ Hpost).
  - exact (dm_s _ _ _ Hdm).
  - exact (dm_e _ _ _ Hdm).
  - exact (dm_j _ _ _ Hdm).
  - exact (dm_d _ _ _ Hdm).
  - simpl. rewrite (ext_size_s _ _ Hext). exact Z1.
  - simpl. rewrite (ext_size_e _ _ Hext). exact Z2.
  - simpl. rewrite (ext_size_j _ _ Hext). exact Z3.
  - simpl. rewrite (ext_size_d _ _ Hext). exact Z4.
Qed.

End Build4.

Section BuildClaims.
Context {method : Method} {ode : ODE} {adaptivity : Adaptivity}
  {tolerance : Tolerance} {P : Type} {partition_ops : Partition P}.
Local Abbreviation Slab := (Slab P).
Local Abbreviation eps := real_epsilon.

Local Opaque create_e create_s_ed create_s computeEndTime
  countDependencies countDependencies_dry alloc_s alloc_e alloc_j alloc_d
  createTimeSlab computeDataSize allocData build.

(** The capacities after a build, whatever the collaborators do. *)
Lemma build_capacities fuel a b (s : Slab) b' s' :
  build fuel a b s = Some (b', s') ->
  exists bD sD,
    dry_run fuel a b s = Some (bD, sD)
    /\ size (size_s s') = Nat.max (size (size_s s)) (ns sD)
    /\ size (size_e s') = Nat.max (size (size_e s)) (ne sD)
    /\ size (size_j s') = Nat.max (size (size_j s)) (nj sD)
    /\ size (size_d s') = Nat.max (size (size_d s)) (nd sD).
Proof.
  intros Hrun.
  apply build_eq in Hrun as (sA & sE & sC & HA & HE & HC & ->).
  destruct (build_start _ _ _ _ _ _ HA HE)
    as (s1 & bD & sD & H1 & HD & _ & _ & _ & _ & _
        & Z1 & Z2 & Z3 & Z4 & _).
  pose proof (createTimeSlab_extends _ _ _ _ _ _ _ HC) as Hext.
  exists bD, sD. split_and!.
  - unfold dry_run. rewrite H1. simpl. exact HD.
  - simpl. rewrite (ext_size_s _ _ Hext). exact Z1.
  - simpl. rewrite (ext_size_e _ _ Hext). exact Z2.
  - simpl. rewrite (ext_size_j _ _ Hext). exact Z3.
  - simpl. rewrite (ext_size_d _ _ Hext). exact Z4.
Qed.

(** For a partition that keeps its contract and answers by the
    components it is asked to split, and an adaptivity with [0 < kmax]
    and [threshold <= 1], a completed build has consumed exactly the [ns]
    sub-slabs, [ne] elements and [nj] dofs that its dry run counted, and,
    when every sub-slab it created is longer than the tolerance, exactly
    the [nd] dependency slots. *)
Theorem dry_run_counts_creation fuel a b (s : Slab) b' s' :
  partition_contract -> partition_stable ->
  (0 < kmax)%Q -> (threshold <= 1)%Q ->
  length (elast s) = N ->
  build fuel a b s = Some (b', s') ->
  exists sD,
    dry_run fuel a b s = Some (b', sD)
    /\ ns s' = ns sD /\ ne s' = ne sD /\ nj s' = nj sD /\ nd s' = nd sD
    /\ next (size_s s') = ns sD
    /\ next (size_e s') = ne sD
    /\ next (size_j s') = nj sD
    /\ (longer_than_eps s' -> next (size_d s') = nd sD).
Proof.
  intros Hpc Hdet Hk Hth Hlen Hrun.
  destruct (build_invariants _ _ _ _ _ _ Hpc Hdet Hk Hth Hlen Hrun)
    as (sD & HD & C1 & C2 & C3 & C4 & _ & _ & E1 & E2 & E3 & E4 & _).
  exists sD. split_and!; assumption.
Qed.

(** C6: after a build, every element [e] that it has created has a
    component [ei[e] < N], a sub-slab [es[e]] among those created and a
    previous element [ee[e]] that is [-1] or an earlier element of the
    same component, which ends where [e] begins; [ee[e]] is [-1] exactly
    when [e] is the first element of its component.  This holds for any
    partition that keeps its contract, reordering or not.  The elements
    and sub-slabs created are the [ne] and [ns] that the dry run counted
    as soon as the partition answers by the components it is asked to
    split. *)
Theorem element_graph_after_build fuel a b (s : Slab) b' s' :
  partition_contract ->
  (0 < kmax)%Q -> (threshold <= 1)%Q ->
  length (elast s) = N ->
  build fuel a b s = Some (b', s') ->
  (partition_stable ->
   ne s' = next (size_e s') /\ ns s' = next (size_s s'))
  /\ forall e, e < next (size_e s') ->
     exists i sigma p,
       ei s' !! e = Some i /\ i < N
       /\ es s' !! e = Some sigma /\ sigma < next (size_s s')
       /\ ee s' !! e = Some p
       /\ (p = (-1)%Z \/ (0 <= p < Z.of_nat e)%Z)
       /\ (p <> (-1)%Z ->
           ei s' !! Z.to_nat p = Some i
           /\ exists sp t, es s' !! Z.to_nat p = Some sp
                /\ sb s' !! sp = Some t /\ sa s' !! sigma = Some t)
       /\ (p = (-1)%Z <-> forall e', e' < e -> ei s' !! e' <> Some i).
Proof.
  intros Hpc Hk Hth Hlen Hrun. split.
  { intros Hdet.
    destruct (build_invariants _ _ _ _ _ _ Hpc Hdet Hk Hth Hlen Hrun)
      as (sD & _ & C1 & C2 & _ & _ & _ & _ & E1 & E2 & _).
    split; congruence. }
  intros e He.
  destruct (build_graph _ _ _ _ _ _ Hpc Hk Hth Hlen Hrun) as [Hel _].
  destruct (Hel e He) as (i & sigma & p & Hi & HiN & Hs & Hsn & Hp & Hprev).
  exists i, sigma, p. split_and!; try assumption.
  - destruct Hprev as [[-> _]|(H0 & Hlt & _)]; [left; reflexivity|].
    right. lia.
  - intros Hne.
    destruct Hprev as [[-> _]|(H0 & Hlt & Hpi & _ & Hcont)]; [done|].
    split; assumption.
  - split.
    + intros ->. destruct Hprev as [[_ Hfirst]|(H0 & _)]; [exact Hfirst|lia].
    + intros Hfirst.
      destruct Hprev as [[-> _]|(H0 & Hlt & Hpi & _)]; [reflexivity|].
      destruct (Hfirst _ Hlt Hpi).
Qed.

(** ** The growth of the arena (C9) *)

(** C9 (amended): each of [alloc_s], [alloc_e], [alloc_j] and [alloc_d]
    resets its [next] to 0, leaves the arrays and the capacity as they
    are when the request is at most the capacity, and otherwise makes the
    capacity the request itself (never its double): the new capacity is
    the larger of the old one and the request.  So no capacity shrinks
    over a build. *)
Theorem capacities_never_shrink fuel a b (s : Slab) b' s' (n : nat) :
  build fuel a b s = Some (b', s') ->
  (next (size_s (alloc_s n s)) = 0 /\ next (size_e (alloc_e n s)) = 0
   /\ next (size_j (alloc_j n s)) = 0 /\ next (size_d (alloc_d n s)) = 0)
  /\ (size (size_s (alloc_s n s)) = Nat.max (size (size_s s)) n
      /\ size (size_e (alloc_e n s)) = Nat.max (size (size_e s)) n
      /\ size (size_j (alloc_j n s)) = Nat.max (size (size_j s)) n
      /\ size (size_d (alloc_d n s)) = Nat.max (size (size_d s)) n)
  /\ (n <= size (size_s s) ->
      sa (alloc_s n s) = sa s /\ sb (alloc_s n s) = sb s)
  /\ (n <= size (size_e s) ->
      ei (alloc_e n s) = ei s /\ es (alloc_e n s) = es s
      /\ ee (alloc_e n s) = ee s /\ ed (alloc_e n s) = ed s)
  /\ (n <= size (size_j s) -> jx (alloc_j n s) = jx s)
  /\ (n <= size (size_d s) -> de (alloc_d n s) = de s)
  /\ size (size_s s) <= size (size_s s')
  /\ size (size_e s) <= size (size_e s')
  /\ size (size_j s) <= size (size_j s')
  /\ size (size_d s) <= size (size_d s').
Proof.
  intros Hrun.
  destruct (alloc_s_spec n s) as (_ & A1 & B1 & C1).
  destruct (alloc_e_spec n s) as (_ & A2 & B2 & C2).
  destruct (alloc_j_spec n s) as (_ & A3 & B3 & C3).
  destruct (alloc_d_spec n s) as (_ & A4 & B4 & C4).
  apply build_capacities in Hrun as (bD & sD & _ & Z1 & Z2 & Z3 & Z4).
  split_and!; try assumption; lia.
Qed.

End BuildClaims.

Section Dependencies.
Context {method : Method} {ode : ODE} {adaptivity : Adaptivity}
  {tolerance : Tolerance} {P : Type} {partition_ops : Partition P}.
Local Abbreviation Slab := (Slab P).
Local Abbreviation eps := real_epsilon.

(** ** What [create_d] records (C3) *)

Lemma find_free_spec (l : list Z) cnt : forall d x,
  find_free l d cnt = Some x -> d <= x < d + cnt /\ l !! x = Some (-1)%Z.
Proof.
  induction cnt as [|cnt IH]; simpl; intros d x Hrun; [done|].
  apply bind_Some in Hrun as (y & Hy & Hrun).
  destruct (Z.eqb_spec y (-1)) as [->|Hne].
  - inversion Hrun; subst x. split; [lia|exact Hy].
  - apply IH in Hrun as [Hr Hx]. split; [lia|exact Hx].
Qed.

Lemma within_interval_spec a0 b0 a1 b1 :
  within_interval a0 b0 a1 b1 = true
  <-> (a1 <= a0 + eps)%Q /\ (b0 - eps <= b1)%Q.
Proof.
  unfold within_interval. rewrite andb_true_iff, !Qleb_le. reflexivity.
Qed.

Lemma within_time_spec t a b :
  within_time t a b = true <-> (a + eps < t)%Q /\ (t <= b + eps)%Q.
Proof.
  unfold within_time. rewrite andb_true_iff, Qltb_lt, Qleb_le. reflexivity.
Qed.

Lemma writes_ok_refl i0 e0 s0 a0 b0 (s : Slab) : writes_ok i0 e0 s0 a0 b0 s s.
Proof. split; [by destruct s|]. intros d Hd. by destruct Hd. Qed.

Lemma create_d_dep_writes i0 e0 s0 a0 b0 i1 (s sx sx' : Slab) :
  i1 ∈ transpose i0 ->
  writes_ok i0 e0 s0 a0 b0 s sx ->
  create_d_dep e0 s0 a0 b0 i1 sx = Some sx' ->
  writes_ok i0 e0 s0 a0 b0 s sx'.
Proof.
  intros Hin Hok Hrun. unfold create_d_dep in Hrun.
  apply bind_Some in Hrun as (e1 & He1 & Hrun).
  destruct (Z.eqb_spec e1 (-1)) as [->|Hne1].
  { inversion Hrun; subst sx'. exact Hok. }
  apply bind_Some in Hrun as (s1 & Hs1 & Hrun).
  apply bind_Some in Hrun as (a1 & Ha1 & Hrun).
  apply bind_Some in Hrun as (b1 & Hb1 & Hrun).
  destruct (within_interval a0 b0 a1 b1) eqn:Hwi; simpl in Hrun;
    [|inversion Hrun; subst sx'; exact Hok].
  destruct (bool_decide (s0 = s1)) eqn:Hs01; simpl in Hrun;
    [inversion Hrun; subst sx'; exact Hok|].
  apply bool_decide_eq_false in Hs01.
  destruct Hok as [Hx Hok].
  assert (Hfr : elast sx = elast s /\ es sx = es s /\ sa sx = sa s
                /\ sb sx = sb s) by (rewrite Hx; done).
  destruct Hfr as (F1 & F2 & F3 & F4).
  unfold rd in He1, Ha1, Hb1.
  rewrite F1 in He1. rewrite F2 in Hs1. rewrite F3 in Ha1.
  rewrite F4 in Hb1.
  eapply (for_range_inv (fun sy : Slab => writes_ok i0 e0 s0 a0 b0 s sy));
    [| |exact Hrun]; [|split; assumption].
  clear Hrun Hx Hok F1 F2 F3 F4 sx sx'.
  intros n sy sy' Hn [Hy Hok] Hb.
  destruct (within_time _ a0 b0) eqn:Hwt;
    [|inversion Hb; subst sy'; split; assumption].
  apply bind_Some in Hb as (lo & Hlo & Hb).
  apply bind_Some in Hb as (hi & Hhi & Hb).
  apply bind_Some in Hb as (d' & [Hd' Hfree]%find_free_spec & Hb).
  apply bind_Some in Hb as (de' & [Hlt ->]%wr_Some & Hb).
  inversion Hb; subst sy'. clear Hb.
  assert (Hed : ed sy = ed s) by (rewrite Hy; done).
  rewrite Hed in Hlo, Hhi.
  split; [simpl; rewrite Hy; reflexivity|].
  simpl. intros d Hd.
  destruct (decide (d = d')) as [->|Hdd].
  - rewrite list_lookup_insert_eq by exact Hlt.
    assert (Hs : de s !! d' = Some (-1)%Z).
    { destruct (decide (de sy !! d' = de s !! d')) as [Heq|Hneq].
      - rewrite <- Heq. exact Hfree.
      - destruct (Hok _ Hneq) as (Hv & _). rewrite Hfree in Hv.
        inversion Hv. lia. }
    split_and!; [reflexivity|exact Hs|].
    apply within_interval_spec in Hwi as Hwi'.
    apply within_time_spec in Hwt as Hwt'.
    exists i1, e1, s1, a1, b1, lo, hi, n.
    split_and!; try assumption; try tauto; lia.
  - rewrite list_lookup_insert_ne in Hd |- * by done.
    apply Hok. exact Hd.
Qed.

(** C3: running [create_d] for the new element [e0] of component [i0] in
    sub-slab [s0] over [[a0, b0]], every slot of [de] that it changes was
    empty, now holds [e0], and lies in the range of an element [e1] (the
    latest of a component depending on [i0]) such that [[a0, b0]] is within
    the interval of [e1] as [within] decides it, [e1] is in another
    sub-slab than [s0], and a nodal point [t] of [e1] has
    [a0 + eps < t <= b0 + eps]. *)
Theorem create_d_writes_contained i0 e0 s0 a0 b0 (s s' : Slab) d :
  create_d i0 e0 s0 a0 b0 s = Some s' ->
  de s' !! d <> de s !! d ->
  de s' !! d = Some (Z.of_nat e0)
  /\ de s !! d = Some (-1)%Z
  /\ recorded_under i0 s0 a0 b0 s d.
Proof.
  intros Hrun Hd.
  assert (Hok : writes_ok i0 e0 s0 a0 b0 s s').
  { unfold create_d in Hrun.
    eapply (for_each_inv (fun sx : Slab => writes_ok i0 e0 s0 a0 b0 s sx));
      [|apply writes_ok_refl|exact Hrun].
    intros i1 sx sx' Hin Hx Hb.
    exact (create_d_dep_writes _ _ _ _ _ _ _ _ _ Hin Hx Hb). }
  destruct Hok as [_ Hok]. exact (Hok d Hd).
Qed.

End Dependencies.

(** * The model at work *)

Section Table.
Context {ode : ODE}.
Variable steps : list Q.
Hypothesis steps_N : N = length steps.
Hypothesis steps_pos : Forall (fun k => (0 < k)%Q) steps.

Lemma run_length_le k0 (l : list Q) : run_length k0 l <= length l.
Proof.
  induction l as [|k l IH]; simpl; [lia|].
  destruct (Qeq_bool k k0); simpl; lia.
Qed.

(** The table keeps the contract of the partition. *)
Lemma table_contract : partition_contract (partition_ops := table steps).
Proof.
  split; simpl.
  - intros p offset K Hle. unfold table_update. simpl.
    pose proof (run_length_le (nth offset steps 1%Q) (drop offset steps)) as H.
    rewrite length_drop in H. lia.
  - intros _ n m _ _ H. exact H.
  - reflexivity.
  - intros p offset K i. unfold in_tail. simpl. reflexivity.
  - intros p offset K HK. unfold table_update. simpl.
    apply real_min_pos; [exact HK|].
    rewrite nth_lookup. destruct (steps !! offset) as [k|] eqn:Hk; simpl.
    + exact (proj1 (Forall_lookup _ _) steps_pos _ _ Hk).
    + reflexivity.
Qed.

(** The table answers by its arguments alone. *)
Lemma table_deterministic : partition_deterministic (partition_ops := table steps).
Proof. intros p q offset K. simpl. unfold table_update. simpl. done. Qed.

End Table.

Section TwoRates.
#[local] Existing Instances dg0 oscillator adaptivity1 dolfin_eps two_rates.

Lemma two_rates_contract : partition_contract.
Proof.
  apply table_contract; [reflexivity|].
  repeat constructor.
Qed.

Lemma two_rates_deterministic : partition_deterministic.
Proof. apply table_deterministic. Qed.

Lemma two_rates_stable : partition_stable.
Proof. exact (deterministic_stable two_rates_deterministic). Qed.

Lemma two_rates_build :
  build 10 0 1 (oscillator_new dg0 oscillator) = Some (1%Q, two_rates_built).
Proof. vm_compute. reflexivity. Qed.

Lemma two_rates_longer : longer_than_eps two_rates_built.
Proof.
  intros sigma x y Hs Hx Hy.
  destruct sigma as [|[|[|sigma]]]; simpl in *;
    [inversion Hx; inversion Hy; subst; reflexivity..|lia].
Qed.

End TwoRates.

(** A partition that reorders its tail keeps the contract and answers by
    the components it is asked to split, though not by its arguments
    alone. *)
Section Reordering.
#[local] Existing Instances dg0 oscillator adaptivity1 dolfin_eps reordering.

Lemma reordering_contract : partition_contract.
Proof.
  split; simpl.
  - intros p [|[|[|offset]]] K Hle; simpl in *; lia.
  - intros [] [|[|n]] [|[|m]] Hn Hm H; cbv in *; lia.
  - intros p [|[|offset]] K n Hn; simpl; try reflexivity. lia.
  - intros p [|[|offset]] K i; simpl; try reflexivity.
    unfold in_tail. change N with 2.
    split; intros (n & Hn & Hi).
    + destruct p.
      * exists n. split; [lia|exact Hi].
      * destruct n as [|[|n]]; simpl in Hi; [exists 1|exists 0|lia];
          (split; [lia|exact Hi]).
    + destruct p.
      * exists n. split; [lia|exact Hi].
      * destruct n as [|[|n]]; simpl in Hi; [exists 1|exists 0|lia];
          (split; [lia|exact Hi]).
  - intros p [|[|offset]] K HK; simpl; try exact HK;
      (apply real_min_pos; [exact HK|]); [reflexivity|].
    destruct p; reflexivity.
Qed.

Lemma reordering_stable : partition_stable.
Proof.
  intros p q [|[|offset]] K Hst; simpl.
  - split_and!; reflexivity.
  - assert (p = q) as ->; [|split_and!; reflexivity].
    destruct (proj1 (Hst (swap_index p 1))) as (n & Hn & Hi).
    { exists 1. split; [simpl; lia|reflexivity]. }
    simpl in Hn. assert (n = 1) by lia. subst n.
    destruct p, q; simpl in Hi; congruence.
  - split; [reflexivity|]. split; [reflexivity|].
    intros i. split; intros (n & Hn & _); lia.
Qed.

Lemma reordering_not_deterministic : ~ partition_deterministic.
Proof.
  intros Hdet. destruct (Hdet false true 1 1%Q) as (_ & HK & _).
  vm_compute in HK. discriminate.
Qed.

Lemma reordering_build :
  build 10 0 1 unswapped_new = Some (1%Q, reordered_built).
Proof. vm_compute. reflexivity. Qed.

Lemma reordered_longer : longer_than_eps reordered_built.
Proof.
  intros sigma x y Hs Hx Hy.
  destruct sigma as [|[|[|sigma]]]; simpl in *;
    [inversion Hx; inversion Hy; subst; reflexivity..|lia].
Qed.

Lemma dry_run_counts_creation_witness :
  partition unswapped_new = false /\ partition reordered_built = true
  /\ build 10 0 1 unswapped_new = Some (1%Q, reordered_built)
  /\ longer_than_eps reordered_built
  /\ next (size_s reordered_built) = ns reordered_built
  /\ next (size_e reordered_built) = ne reordered_built
  /\ next (size_j reordered_built) = nj reordered_built
  /\ next (size_d reordered_built) = nd reordered_built.
Proof.
  split; [reflexivity|]. split; [reflexivity|].
  split; [exact reordering_build|]. split; [exact reordered_longer|].
  assert (Hk : (0 < kmax)%Q) by reflexivity.
  assert (Hth : (threshold <= 1)%Q) by (vm_compute; discriminate).
  assert (Hlen : length (elast unswapped_new) = N) by reflexivity.
  destruct (dry_run_counts_creation 10 0 1 _ _ _
              reordering_contract reordering_stable Hk Hth Hlen
              reordering_build)
    as (sD & _ & C1 & C2 & C3 & C4 & E1 & E2 & E3 & E4).
  rewrite C1, C2, C3, C4. split_and!; [exact E1|exact E2|exact E3|].
  exact (E4 reordered_longer).
Defined.

Lemma element_graph_after_build_witness :
  build 10 0 1 unswapped_new = Some (1%Q, reordered_built)
  /\ (ne reordered_built = next (size_e reordered_built)
      /\ ns reordered_built = next (size_s reordered_built))
  /\ forall e, e < next (size_e reordered_built) ->
     exists i sigma p,
       ei reordered_built !! e = Some i /\ i < N
       /\ es reordered_built !! e = Some sigma
       /\ sigma < next (size_s reordered_built)
       /\ ee reordered_built !! e = Some p
       /\ (p = (-1)%Z \/ (0 <= p < Z.of_nat e)%Z)
       /\ (p <> (-1)%Z ->
           ei reordered_built !! Z.to_nat p = Some i
           /\ exists sp t, es reordered_built !! Z.to_nat p = Some sp
                /\ sb reordered_built !! sp = Some t
                /\ sa reordered_built !! sigma = Some t)
       /\ (p = (-1)%Z <->
           forall e', e' < e -> ei reordered_built !! e' <> Some i).
Proof.
  split; [exact reordering_build|].
  assert (Hk : (0 < kmax)%Q) by reflexivity.
  assert (Hth : (threshold <= 1)%Q) by (vm_compute; discriminate).
  assert (Hlen : length (elast unswapped_new) = N) by reflexivity.
  destruct (element_graph_after_build 10 0 1 _ _ _
              reordering_contract Hk Hth Hlen reordering_build)
    as [Hcount Hgraph].
  split; [exact (Hcount reordering_stable)|exact Hgraph].
Defined.

End Reordering.

Section ShortSlab.
#[local] Existing Instances dg0 oscillator adaptivity1 dolfin_eps two_rates.

(** C1: on a slab shorter than the tolerance the dry run, which the
    source describes as using the same algorithm as the creation, counts
    no dependency slot ([u[i0] > u[i1] + eps] fails for times within the
    tolerance of each other), while the creation consumes one
    ([elast[i1] == -1] for the component not yet created).  [de] is
    allocated for the [nd = 0] slots counted, [ed[1] = 1] points past
    its end, and the right-hand side of element 0 reads [de[0]] out of
    range. *)
Lemma dry_run_miscounts_short_slab :
  partition_contract /\ partition_deterministic
  /\ build 10 0 tiny (oscillator_new dg0 oscillator) = Some (tiny, short_built)
  /\ (exists sD, dry_run 10 0 tiny (oscillator_new dg0 oscillator)
                 = Some (tiny, sD) /\ nd sD = 0)
  /\ nd short_built = 0
  /\ next (size_d short_built) = 1
  /\ size (size_d short_built) = 0 /\ de short_built = []
  /\ dependents_range 0 short_built = Some (0, 1)
  /\ dg_feval [0]%Q 0 0 0 0 tiny tiny short_built = None.
Proof.
  split_and!.
  - exact two_rates_contract.
  - exact two_rates_deterministic.
  - vm_compute. reflexivity.
  - eexists. split; [vm_compute; reflexivity|reflexivity].
  - reflexivity.
  - reflexivity.
  - reflexivity.
  - reflexivity.
  - reflexivity.
  - vm_compute. reflexivity.
Qed.

End ShortSlab.

Section TwoRatesRuns.
#[local] Existing Instances dg0 oscillator adaptivity1 dolfin_eps two_rates.

Lemma capacities_never_shrink_witness :
  build 10 0 1 two_rates_built = Some (1%Q, two_rates_rebuilt)
  /\ size (size_s (alloc_s 5 two_rates_built)) = 5
  /\ size (size_s (alloc_s 2 two_rates_built)) = 3
  /\ sa (alloc_s 2 two_rates_built) = sa two_rates_built
  /\ size (size_s two_rates_built) <= size (size_s two_rates_rebuilt).
Proof.
  assert (Hb : build 10 0 1 two_rates_built = Some (1%Q, two_rates_rebuilt))
    by (vm_compute; reflexivity).
  split; [exact Hb|].
  destruct (capacities_never_shrink 10 0 1 _ _ _ 5 Hb)
    as (_ & (Z5 & _) & _).
  destruct (capacities_never_shrink 10 0 1 _ _ _ 2 Hb)
    as (_ & (Z2 & _) & K2 & _ & _ & _ & M1 & _).
  split_and!.
  - exact Z5.
  - exact Z2.
  - apply K2. vm_compute. lia.
  - exact M1.
Defined.

(** C9 fails as worded: a request of 5 on a capacity of 3 gives 5, where
    doubling gives 6. *)
Lemma alloc_does_not_double :
  size (size_s two_rates_built) = 3
  /\ size (size_s (alloc_s 5 two_rates_built)) = 5
  /\ double_or_grow (size (size_s two_rates_built)) 4 = 6
  /\ size (size_s (alloc_s 4 two_rates_built)) = 4
  /\ size (size_s (alloc_s 4 two_rates_built))
     <> double_or_grow (size (size_s two_rates_built)) 4.
Proof. vm_compute. split_and!; try reflexivity. lia. Qed.

Lemma create_d_writes_contained_witness :
  create_d 1 2 2 (1 # 2) 1 two_rates_open
    = Some (set_de [2%Z] two_rates_open)
  /\ de (set_de [2%Z] two_rates_open) !! 0 = Some 2%Z
  /\ de two_rates_open !! 0 = Some (-1)%Z
  /\ recorded_under 1 2 (1 # 2) 1 two_rates_open 0.
Proof.
  assert (Hc : create_d 1 2 2 (1 # 2) 1 two_rates_open
               = Some (set_de [2%Z] two_rates_open))
    by (vm_compute; reflexivity).
  split; [exact Hc|].
  apply (create_d_writes_contained 1 2 2 (1 # 2) 1 _ _ 0 Hc).
  vm_compute. discriminate.
Defined.

End TwoRatesRuns.

Section Veto.
#[local] Existing Instances dg0 stopping adaptivity1 dolfin_eps two_rates.

Lemma shift_veto_keeps_u0_witness :
  exists s1,
    shift_values true two_rates_solved = Some s1
    /\ shift true two_rates_solved = Some (false, s1)
    /\ u0 s1 = u0 two_rates_solved /\ log s1 = log two_rates_solved.
Proof.
  eexists. split; [vm_compute; reflexivity|].
  apply shift_veto_keeps_u0; [vm_compute; reflexivity|reflexivity].
Defined.

End Veto.

Section Implicit.
#[local] Existing Instances dg0 implicit_oscillator adaptivity1 dolfin_eps
  two_rates.

Lemma chooseSolver_implicit_fatal_witness :
  ode_nonlinear_solver = "newton"%string
  /\ chooseSolver
     = Fatal "Multi-adaptive solver cannot solver implicit ODEs. Use cG(q) or dG(q) instead."
  /\ MultiAdaptiveTimeSlab [1; 0]%Q 0
     = Fatal "Multi-adaptive solver cannot solver implicit ODEs. Use cG(q) or dG(q) instead.".
Proof.
  split; [reflexivity|].
  apply chooseSolver_implicit_fatal. reflexivity.
Defined.

End Implicit.

(** * Further properties of the time slab *)

Section Choice.
Context {method : Method} {ode : ODE} {adaptivity : Adaptivity}
  {tolerance : Tolerance} {P : Type} {partition_ops : Partition P}.
Local Abbreviation Slab := (Slab P).
Local Abbreviation eps := real_epsilon.

(** ** The solver choice, all cases *)

(** [chooseSolver] yields a solver exactly for an explicit ODE whose
    solver name is one of the three known ones: Newton for "newton", the
    fixed-point solver for "fixed-point" and "default"; everything else
    is fatal. *)
Theorem chooseSolver_cases :
  match chooseSolver with
  | Done (k, out) =>
    ode_implicit = false
    /\ length out = 1
    /\ ((k = MultiAdaptiveNewtonSolver
         /\ ode_nonlinear_solver = "newton"%string)
        \/ (k = MultiAdaptiveFixedPointSolver
            /\ (ode_nonlinear_solver = "fixed-point"%string
                \/ ode_nonlinear_solver = "default"%string)))
  | Fatal msg =>
    (ode_implicit = true
     /\ msg = "Multi-adaptive solver cannot solver implicit ODEs. Use cG(q) or dG(q) instead."%string)
    \/ (ode_implicit = false
        /\ ode_nonlinear_solver <> "fixed-point"%string
        /\ ode_nonlinear_solver <> "newton"%string
        /\ ode_nonlinear_solver <> "default"%string
        /\ msg = ("Uknown solver type: " ++ ode_nonlinear_solver ++ ".")%string)
  end.
Proof.
  unfold chooseSolver. destruct ode_implicit; [left; done|].
  destruct (String.eqb_spec ode_nonlinear_solver "fixed-point") as [E1|N1].
  { rewrite E1. split_and!; try done. right. split; [done|by left]. }
  destruct (String.eqb_spec ode_nonlinear_solver "newton") as [E2|N2].
  { rewrite E2. split_and!; try done. left. done. }
  destruct (String.eqb_spec ode_nonlinear_solver "default") as [E3|N3].
  { rewrite E3. split_and!; try done. right. split; [done|by right]. }
  right. done.
Qed.

(** ** The tolerant interval tests *)

(** Of two intervals that share the edge [b], exactly one contains a time
    between their outer ends: the left one up to [b + eps], the right one
    beyond. *)
Theorem within_time_adjacent (t a b c : real) :
  (a + eps < t)%Q -> (t <= c + eps)%Q ->
  within_time t a b = negb (within_time t b c)
  /\ (within_time t a b = true <-> (t <= b + eps)%Q).
Proof.
  intros Ha Hc. unfold within_time.
  apply Qltb_lt in Ha as Ha'. apply Qleb_le in Hc as Hc'.
  rewrite Ha', Hc'. simpl. rewrite andb_true_r.
  split; [|apply Qleb_le].
  destruct (Qleb t (b + eps)) eqn:H1.
  - apply Qleb_le in H1.
    assert (H2 : Qltb (b + eps) t = false) by (apply Qltb_ge; exact H1).
    rewrite H2. reflexivity.
  - apply Qleb_gt in H1.
    assert (H2 : Qltb (b + eps) t = true) by (apply Qltb_lt; exact H1).
    rewrite H2. reflexivity.
Qed.

(** ** The end time of a sub-slab *)

(** For [a < b], a positive cutoff [K'] of the partition and a threshold
    of at most 1, [computeEndTime] returns an end [b'] with
    [a < b' <= b] and [threshold * (b' - a) <= K']; [kmin] does not grow
    and is at most the step [b' - a]; but for [kmin] and the partition
    the slab is as before. *)
Theorem computeEndTime_bounds a b offset (s : Slab) b' end_ s' :
  (threshold <= 1)%Q -> (a < b)%Q ->
  (0 < (partition_update (partition s) offset (real_min kmax (b - a))).2)%Q ->
  computeEndTime a b offset s = (b', end_, s') ->
  (a < b')%Q /\ (b' <= b)%Q
  /\ (threshold * (b' - a)
      <= (partition_update (partition s) offset (real_min kmax (b - a))).2)%Q
  /\ (kmin s' <= kmin s)%Q /\ (kmin s' <= b' - a)%Q
  /\ s' = set_kmin (kmin s') (set_partition (partition s') s).
Proof.
  intros Hth Hab HK Hrun.
  unfold computeEndTime in Hrun.
  destruct (partition_update (partition s) offset (real_min kmax (b - a)))
    as [[p e] K'] eqn:Hp.
  simpl in HK |- *. inversion Hrun; subst b' end_ s'. clear Hrun.
  simpl.
  assert (Hmin : forall x y, (real_min x y <= x)%Q /\ (real_min x y <= y)%Q).
  { intros x y. unfold real_min. destruct (Qltb y x) eqn:H.
    - apply Qltb_lt in H. lra.
    - apply Qltb_ge in H. lra. }
  destruct (Qltb K' (threshold * (b - a))) eqn:Hlt.
  - apply Qltb_lt in Hlt.
    assert (threshold * (b - a) <= 1 * (b - a))%Q
      by (apply Qmult_le_compat_r; lra).
    assert (Hk : (threshold * K' <= 1 * K')%Q)
      by (apply Qmult_le_compat_r; lra).
    destruct (Hmin (kmin s) (a + K' - a)%Q).
    split_and!; try lra; done.
  - apply Qltb_ge in Hlt.
    destruct (Hmin (kmin s) (b - a)%Q).
    split_and!; try lra; done.
Qed.

End Choice.

Section Passes.
Context {method : Method} {ode : ODE} {adaptivity : Adaptivity}
  {tolerance : Tolerance} {P : Type} {partition_ops : Partition P}.
Local Abbreviation Slab := (Slab P).
Local Abbreviation eps := real_epsilon.

Local Opaque create_e create_s_ed create_s computeEndTime
  countDependencies countDependencies_dry alloc_s alloc_e alloc_j alloc_d.

(** ** The dry run *)

Lemma computeDataSize_counts fuel : forall a b offset (s : Slab) b' s',
  computeDataSize fuel a b offset s = Some (b', s') ->
  ns s < ns s' /\ ne s <= ne s'
  /\ nj s' + nsize * ne s = nj s + nsize * ne s'
  /\ nd s <= nd s'.
Proof.
  induction fuel as [|fuel IH]; simpl; intros a b offset s b' s' Hrun;
    [done|].
  destruct (computeEndTime a b offset s) as [[b1 end_] s1] eqn:Hc.
  apply computeEndTime_eq in Hc as (K' & _ & _ & Heq1).
  assert (H1 : ns s1 = ns s /\ ne s1 = ne s /\ nj s1 = nj s /\ nd s1 = nd s)
    by (rewrite Heq1; done).
  clear Heq1. destruct H1 as (A1 & A2 & A3 & A4).
  apply bind_Some in Hrun as (sA & HA & Hrun).
  apply bind_Some in Hrun as ([] & _ & Hrun).
  apply bind_Some in Hrun as (sB & HB & Hrun).
  apply bind_Some in Hrun as ([t sW] & HW & Hrun).
  inversion Hrun; subst b' s'. clear Hrun.
  apply dry_times_loop in HA as (HeqA & _ & _).
  assert (H2 : ns sA = ns s1 /\ ne sA = ne s1 /\ nj sA = nj s1
               /\ nd sA = nd s1) by (rewrite HeqA; done).
  clear HeqA. destruct H2 as (B1 & B2 & B3 & B4).
  assert (H3 : ns sB = ns s + 1 /\ ne sB = ne s + (end_ - offset)
               /\ nj sB = nj s + nsize * (end_ - offset)
               /\ nd s <= nd sB).
  { eapply (for_range_inv (fun sx : Slab =>
      ns sx = ns s + 1 /\ ne sx = ne s + (end_ - offset)
      /\ nj sx = nj s + nsize * (end_ - offset) /\ nd s <= nd sx));
      [| |exact HB].
    - intros n sx sx' _ (I1 & I2 & I3 & I4) Hb.
      apply bind_Some in Hb as (c & _ & Hb). inversion Hb; subst sx'.
      simpl. split_and!; try assumption. lia.
    - simpl. split_and!; lia. }
  destruct H3 as (C1 & C2 & C3 & C4).
  eapply (while_loop_inv (fun _ (sx : Slab) =>
    ns s < ns sx /\ ne s <= ne sx
    /\ nj sx + nsize * ne s = nj s + nsize * ne sx
    /\ nd s <= nd sx)) in HW as [HW _]; [exact HW| |].
  - intros t0 sx t' sx' (I1 & I2 & I3 & I4) _ Hb.
    apply IH in Hb as (J1 & J2 & J3 & J4). split_and!; lia.
  - split_and!; lia.
Qed.

(** The dry run [computeDataSize] writes nothing but [u], its four
    counters, [kmin] and the state of the partition: the arena, its
    capacities and [elast] are as before.  It counts at least one
    sub-slab and [nsize] dofs for every element. *)
Theorem dry_run_keeps_arena fuel a b offset (s : Slab) b' s' :
  computeDataSize fuel a b offset s = Some (b', s') ->
  (sa s' = sa s /\ sb s' = sb s /\ ei s' = ei s /\ es s' = es s
   /\ ee s' = ee s /\ ed s' = ed s /\ jx s' = jx s /\ de s' = de s)
  /\ (size_s s' = size_s s /\ size_e s' = size_e s
      /\ size_j s' = size_j s /\ size_d s' = size_d s)
  /\ (elast s' = elast s /\ f0 s' = f0 s /\ u0 s' = u0 s
      /\ emax s' = emax s /\ _a s' = _a s /\ _b s' = _b s
      /\ written s' = written s /\ log s' = log s)
  /\ ns s < ns s' /\ ne s <= ne s' /\ nd s <= nd s'
  /\ nj s' + nsize * ne s = nj s + nsize * ne s'.
Proof.
  intros Hrun.
  pose proof (computeDataSize_counts _ _ _ _ _ _ _ Hrun)
    as (C1 & C2 & C3 & C4).
  apply computeDataSize_frame in Hrun.
  split; [rewrite Hrun; done|]. split; [rewrite Hrun; done|].
  split; [rewrite Hrun; done|]. split_and!; assumption.
Qed.

(** ** The creation *)

(** [createTimeSlab] only appends to the arena: the counters [next] do
    not go back, the capacities and the lengths of the arrays stay, the
    sub-slabs and elements below the old counters are untouched, and the
    fields outside the arena, [elast], [kmin] and the partition are as
    before. *)
Theorem creation_only_appends fuel a b offset (s : Slab) b' s' :
  createTimeSlab fuel a b offset s = Some (b', s') -> extends s s'.
Proof. apply createTimeSlab_extends. Qed.

End Passes.

Section BuildEnd.
Context {method : Method} {ode : ODE} {adaptivity : Adaptivity}
  {tolerance : Tolerance} {P : Type} {partition_ops : Partition P}.
Local Abbreviation Slab := (Slab P).
Local Abbreviation eps := real_epsilon.

Local Opaque create_e create_s_ed create_s computeEndTime
  countDependencies countDependencies_dry alloc_s alloc_e alloc_j alloc_d
  createTimeSlab computeDataSize allocData build.

(** ** The slab that a build leaves *)

(** The creation of a build starts on an empty arena. *)
Lemma build_creation fuel a b (s : Slab) b' s' :
  length (elast s) = N ->
  build fuel a b s = Some (b', s') ->
  exists sc0 sC,
    createTimeSlab fuel a b 0 sc0 = Some (b', sC)
    /\ s' = set_b b' (set_a a sC)
    /\ elems_ok sc0 /\ elast_ok sc0 /\ covered a 0 sc0
    /\ next (size_s sc0) = 0 /\ next (size_e sc0) = 0
    /\ next (size_j sc0) = 0 /\ next (size_d sc0) = 0
    /\ u0 sc0 = u0 s.
Proof.
  intros Hlen Hrun.
  apply build_eq in Hrun as (sA & sE & sC & HA & HE & HC & ->).
  destruct (build_start _ _ _ _ _ _ HA HE)
    as (s1 & bD & sD & H1 & HD & Eq & N1 & N2 & N3 & N4
        & _ & _ & _ & _ & Lel & Fel & _).
  set (sc0 := set_kmin endtime sE) in *.
  exists sc0, sC. split; [exact HC|]. split; [reflexivity|].
  assert (Hu0 : u0 sc0 = u0 s).
  { rewrite Eq. simpl.
    apply computeDataSize_frame in HD. rewrite HD. simpl.
    apply fill_u_loop in H1 as (Eu & _). rewrite Eu. reflexivity. }
  split_and!; try assumption.
  - intros e He. change (next (size_e sc0)) with (next (size_e sE)) in He.
    lia.
  - split; [change (elast sc0) with (elast sE); lia|].
    intros i el Hi. left.
    change (elast sc0) with (elast sE) in Hi.
    assert (i < N) by (apply lookup_lt_Some in Hi; lia).
    split; [by eapply Fel|].
    intros e He. change (next (size_e sc0)) with (next (size_e sE)) in He.
    lia.
  - intros i _ el Hi. left.
    change (elast sc0) with (elast sE) in Hi.
    assert (i < N) by (apply lookup_lt_Some in Hi; lia).
    by eapply Fel.
Qed.

(** After [build(a, b)] with [a < b], the slab is [[_a, _b]] with
    [_a = a] and [a < _b <= b], and every component of the partition has
    a latest element, which ends at [_b]: what [shift] asserts. *)
Theorem build_reaches_end fuel a b (s : Slab) b' s' :
  partition_contract -> (0 < kmax)%Q -> (threshold <= 1)%Q ->
  length (elast s) = N -> (a < b)%Q ->
  build fuel a b s = Some (b', s') ->
  _a s' = a /\ _b s' = b' /\ (a < b')%Q /\ (b' <= b)%Q
  /\ forall n, n < N ->
     exists el sigma,
       elast s' !! partition_index (partition s') n = Some el
       /\ (0 <= el)%Z
       /\ es s' !! Z.to_nat el = Some sigma
       /\ sb s' !! sigma = Some (_b s').
Proof.
  intros Hpc Hk Hth Hlen Hab Hrun.
  destruct (build_creation _ _ _ _ _ _ Hlen Hrun)
    as (sc0 & sC & HC & -> & Hel0 & Hla0 & Hcov0 & _).
  pose proof (createTimeSlab_wf fuel Hpc Hk Hth _ _ _ _ _ _ HC
                (Nat.le_0_l N) Hel0 Hla0 Hcov0) as Hpost.
  destruct (sp_time _ _ _ _ _ _ Hpost Hab) as [Hlt Hle].
  split; [reflexivity|]. split; [reflexivity|]. split; [exact Hlt|].
  split; [destruct Hle as [->|Hle]; lra|].
  intros n Hn. simpl.
  apply (sp_ended _ _ _ _ _ _ Hpost Hab).
  exists n. split; [lia|reflexivity].
Qed.

End BuildEnd.

Section Dofs.
Context {method : Method} {ode : ODE} {adaptivity : Adaptivity}
  {tolerance : Tolerance} {P : Type} {partition_ops : Partition P}.
Local Abbreviation Slab := (Slab P).
Local Abbreviation eps := real_epsilon.

(** ** The dofs of a new slab *)

Lemma dofs_initial_frame (s s' : Slab) :
  jx s' = jx s -> ei s' = ei s -> u0 s' = u0 s ->
  size_e s' = size_e s -> size_j s' = size_j s ->
  dofs_initial s -> dofs_initial s'.
Proof.
  unfold dofs_initial. intros -> -> -> -> ->. done.
Qed.

(** [create_j] fills the next [nsize] dofs with [u0[index]] and leaves
    the dofs before them. *)
Lemma create_j_spec index (s s' : Slab) :
  create_j index s = Some s' ->
  s' = set_jx (jx s')
         (set_size_j (MkSize (next (size_j s) + nsize) (size (size_j s))) s)
  /\ next (size_j s) + nsize <= size (size_j s)
  /\ (forall n, n < nsize ->
        exists x, u0 s !! index = Some x
                  /\ jx s' !! (next (size_j s) + n) = Some x)
  /\ (forall k, k < next (size_j s) -> jx s' !! k = jx s !! k).
Proof.
  intros Hrun. pose proof Hrun as [Heq _]%create_j_eq.
  split; [exact Heq|]. clear Heq.
  unfold create_j in Hrun.
  apply bind_Some in Hrun as (_ & Ha%assert_Some & Hrun).
  apply bool_decide_eq_true in Ha. split; [lia|].
  set (pos := next (size_j s)) in *.
  set (s1 := set_size_j _ s) in *.
  eapply (for_range_ind (fun k (sx : Slab) =>
    u0 sx = u0 s
    /\ (forall n, n < k ->
          exists x, u0 s !! index = Some x /\ jx sx !! (pos + n) = Some x)
    /\ (forall j, j < pos -> jx sx !! j = jx s !! j)) 0 nsize);
    [lia| | |exact Hrun].
  - intros k sx sx' Hk (I0 & I1 & I2) Hb.
    apply bind_Some in Hb as (x & Hx & Hb).
    apply bind_Some in Hb as (jx' & [Hlt ->]%wr_Some & Hb).
    inversion Hb; subst sx'. clear Hb. simpl.
    unfold rd in Hx. rewrite I0 in Hx.
    split; [exact I0|]. split.
    + intros n Hn. destruct (decide (n = k)) as [->|Hne].
      * exists x. split; [exact Hx|].
        rewrite list_lookup_insert_eq by done. reflexivity.
      * destruct (I1 n ltac:(lia)) as (y & Hy & Hj). exists y.
        split; [exact Hy|].
        rewrite list_lookup_insert_ne by lia. exact Hj.
    + intros j Hj. rewrite list_lookup_insert_ne by lia. apply I2. exact Hj.
  - split; [reflexivity|]. split; [intros n Hn; lia|]. intros j _.
    reflexivity.
Qed.

Lemma create_e_dofs index subslab a b (s s' : Slab) :
  create_e index subslab a b s = Some s' ->
  dofs_initial s -> dofs_initial s' /\ u0 s' = u0 s.
Proof.
  intros Hrun [Hj Hd]. unfold create_e in Hrun.
  apply bind_Some in Hrun as (_ & Ha%assert_Some & Hrun).
  apply bind_Some in Hrun as (ei' & [Hlt ->]%wr_Some & Hrun).
  apply bind_Some in Hrun as (es' & [? ->]%wr_Some & Hrun).
  apply bind_Some in Hrun as (el & Hel & Hrun).
  apply bind_Some in Hrun as (ee' & [? ->]%wr_Some & Hrun).
  apply bind_Some in Hrun as (s1 & Hcj & Hrun).
  apply bind_Some in Hrun as (s2 & [Hd2 _]%create_d_eq & Hrun).
  apply bind_Some in Hrun as (elast' & [? ->]%wr_Some & Hrun).
  inversion Hrun; subst s'. clear Hrun.
  apply create_j_spec in Hcj as (Hs1 & _ & Hnew & Hold).
  simpl in Hlt, Hs1, Hnew, Hold.
  assert (F : jx s2 = jx s1 /\ ei s2 = <[next (size_e s):=index]> (ei s)
              /\ u0 s2 = u0 s
              /\ size_e s2 = MkSize (next (size_e s) + 1) (size (size_e s))
              /\ size_j s2 = MkSize (next (size_j s) + nsize)
                               (size (size_j s))).
  { rewrite Hd2. simpl. rewrite Hs1. simpl. done. }
  destruct F as (F1 & F2 & F3 & F4 & F5).
  split; [|exact F3]. split; simpl.
  - rewrite F4, F5. simpl. lia.
  - rewrite F4, F1, F2, F3. simpl. intros e n He Hn.
    destruct (decide (e = next (size_e s))) as [->|Hne].
    + destruct (Hnew n Hn) as (x & Hx & Hjx). exists index, x.
      rewrite list_lookup_insert_eq by done. split_and!; try done.
      rewrite <- Hjx. f_equal. lia.
    + destruct (Hd e n ltac:(lia) Hn) as (i & x & Hi & Hx & Hjx).
      exists i, x. rewrite list_lookup_insert_ne by done.
      split_and!; try done. rewrite Hold; [exact Hjx|]. nia.
Qed.

Local Opaque create_e create_s_ed create_s computeEndTime
  countDependencies countDependencies_dry.

Lemma create_s_dofs a0 b0 offset end_ (s s' : Slab) :
  create_s a0 b0 offset end_ s = Some s' ->
  dofs_initial s -> dofs_initial s' /\ u0 s' = u0 s.
Proof.
  intros Hrun HJ.
  apply create_s_eq in Hrun as (_ & _ & _ & s2 & H1 & H2).
  cbv zeta in H1.
  set (s1 := set_sb _ _) in H1.
  assert (HJ2 : dofs_initial s2 /\ u0 s2 = u0 s).
  { eapply (for_range_inv (fun sx : Slab =>
      dofs_initial sx /\ u0 sx = u0 s)); [| |exact H1].
    - intros n sx sx' _ [I1 I2] Hb.
      apply create_e_dofs in Hb as [Hb1 Hb2]; [|exact I1].
      split; [exact Hb1|]. rewrite Hb2. exact I2.
    - split; [|reflexivity]. exact HJ. }
  eapply (for_range_inv (fun sx : Slab =>
    dofs_initial sx /\ u0 sx = u0 s)); [| |exact H2]; [|exact HJ2].
  intros n sx sx' _ [I1 I2] Hb.
  apply create_s_ed_eq in Hb as (element & c & _ & _ & _ & Heq).
  split.
  - eapply dofs_initial_frame; [..|exact I1]; rewrite Heq; reflexivity.
  - rewrite Heq. exact I2.
Qed.

Lemma createTimeSlab_dofs fuel : forall a b offset (s : Slab) b' s',
  createTimeSlab fuel a b offset s = Some (b', s') ->
  dofs_initial s -> dofs_initial s' /\ u0 s' = u0 s.
Proof.
  induction fuel as [|fuel IH]; simpl; intros a b offset s b' s' Hrun HJ;
    [done|].
  destruct (computeEndTime a b offset s) as [[b1 end_] s1] eqn:Hc.
  apply computeEndTime_eq in Hc as (K' & _ & _ & Heq1).
  assert (HJ1 : dofs_initial s1 /\ u0 s1 = u0 s).
  { split; [|rewrite Heq1; reflexivity].
    eapply dofs_initial_frame; [..|exact HJ]; rewrite Heq1; reflexivity. }
  clear Heq1.
  apply bind_Some in Hrun as (s2 & H2 & Hrun).
  apply bind_Some in Hrun as ([t s3] & H3 & Hrun).
  inversion Hrun; subst b' s'. clear Hrun.
  apply create_s_dofs in H2 as [HJ2 Hu2]; [|exact (proj1 HJ1)].
  eapply (while_loop_inv (fun _ (sx : Slab) =>
    dofs_initial sx /\ u0 sx = u0 s)) in H3 as [H3 _]; [exact H3| |].
  - intros t0 sx t' sx' [I1 I2] _ Hb.
    apply IH in Hb as [Hb1 Hb2]; [|exact I1].
    split; [exact Hb1|]. rewrite Hb2. exact I2.
  - split; [exact HJ2|]. rewrite Hu2. exact (proj2 HJ1).
Qed.

Local Opaque createTimeSlab build.

(** After a build, there are [nsize] dofs for each of the elements
    created, and every dof holds the initial value [u0] of the component
    of its element; [u0] is the one of before the build. *)
Theorem build_dofs_initial fuel a b (s : Slab) b' s' :
  length (elast s) = N ->
  build fuel a b s = Some (b', s') ->
  u0 s' = u0 s
  /\ next (size_j s') = nsize * next (size_e s')
  /\ forall e n, e < next (size_e s') -> n < nsize ->
       exists i x, ei s' !! e = Some i /\ u0 s !! i = Some x
                   /\ jx s' !! (e * nsize + n) = Some x.
Proof.
  intros Hlen Hrun.
  destruct (build_creation _ _ _ _ _ _ Hlen Hrun)
    as (sc0 & sC & HC & -> & _ & _ & _ & _ & N2 & N3 & _ & Hu0).
  assert (HJ0 : dofs_initial sc0).
  { split; [lia|]. intros e n He. lia. }
  apply createTimeSlab_dofs in HC as [[HJ1 HJ2] Hu]; [|exact HJ0].
  simpl. rewrite Hu0 in Hu. split; [exact Hu|]. split; [exact HJ1|].
  intros e n He Hn. destruct (HJ2 e n He Hn) as (i & x & Hi & Hx & Hjx).
  exists i, x. rewrite Hu in Hx. done.
Qed.

End Dofs.

Section Reset.
Context {method : Method} {ode : ODE} {adaptivity : Adaptivity}
  {tolerance : Tolerance} {P : Type} {partition_ops : Partition P}.
Local Abbreviation Slab := (Slab P).
Local Abbreviation eps := real_epsilon.

(** ** Reset *)

Lemma for_each_fixed {A St} (body : A -> St -> option St) l (s : St) :
  (forall x, x ∈ l -> body x s = Some s) -> for_each body l s = Some s.
Proof.
  induction l as [|x l IH]; simpl; intros Hb; [done|].
  rewrite Hb by left. simpl. apply IH. intros y Hy. apply Hb. by right.
Qed.

Lemma for_range_run {St} (I : nat -> St -> Prop) lo hi
    (body : nat -> St -> option St) (s s' : St) :
  for_range lo hi body s = Some s' ->
  lo <= hi -> I lo s ->
  (forall n s s', lo <= n < hi -> I n s -> body n s = Some s' -> I (S n) s') ->
  I hi s'.
Proof. intros Hrun Hle Hs Hb. exact (for_range_ind I lo hi body Hle Hb s s' Hs Hrun). Qed.

(** The inner loop of [reset] for one element at [j]. *)
Lemma reset_element_spec i j (s s' : Slab) :
  for_range 0 nsize (fun n s =>
    x ← rd (u0 s) i;
    jx' ← wr (jx s) (j + n) x;
    Some (set_jx jx' s)) s = Some s' ->
  s' = set_jx (jx s') s /\ length (jx s') = length (jx s)
  /\ (forall n, n < nsize ->
        exists x, u0 s !! i = Some x /\ jx s' !! (j + n) = Some x)
  /\ (forall k, ~ j <= k < j + nsize -> jx s' !! k = jx s !! k).
Proof.
  intros Hrun.
  eapply (for_range_ind (fun k (sx : Slab) =>
    sx = set_jx (jx sx) s /\ length (jx sx) = length (jx s)
    /\ (forall n, n < k ->
          exists x, u0 s !! i = Some x /\ jx sx !! (j + n) = Some x)
    /\ (forall m, ~ j <= m < j + k -> jx sx !! m = jx s !! m)) 0 nsize);
    [lia| | |exact Hrun].
  - intros k sx sx' Hk (I0 & IL & I1 & I2) Hb.
    apply bind_Some in Hb as (x & Hx & Hb).
    apply bind_Some in Hb as (jx' & [Hlt ->]%wr_Some & Hb).
    inversion Hb; subst sx'. clear Hb. simpl.
    assert (Hu : u0 sx = u0 s) by (rewrite I0; reflexivity).
    unfold rd in Hx. rewrite Hu in Hx.
    split; [rewrite I0; reflexivity|].
    split; [rewrite length_insert; exact IL|]. split.
    + intros n Hn. destruct (decide (n = k)) as [->|Hne].
      * exists x. split; [exact Hx|].
        rewrite list_lookup_insert_eq by done. reflexivity.
      * destruct (I1 n ltac:(lia)) as (y & Hy & Hj). exists y.
        split; [exact Hy|].
        rewrite list_lookup_insert_ne by lia. exact Hj.
    + intros m Hm. rewrite list_lookup_insert_ne by lia. apply I2. lia.
  - split; [by destruct s|]. split; [reflexivity|].
    split; [intros n Hn; lia|]. intros m _. reflexivity.
Qed.

(** [reset] writes [jx] only: every dof of the [ne] elements gets the
    initial value of the component of its element, the dofs beyond
    [ne * nsize] keep their values. *)
Theorem reset_spec (s s' : Slab) :
  reset s = Some s' ->
  s' = set_jx (jx s') s
  /\ length (jx s') = length (jx s)
  /\ (forall e n, e < ne s -> n < nsize ->
        exists i x, ei s !! e = Some i /\ u0 s !! i = Some x
                    /\ jx s' !! (e * nsize + n) = Some x)
  /\ (forall k, ne s * nsize <= k -> jx s' !! k = jx s !! k).
Proof.
  unfold reset. intros Hrun.
  apply bind_Some in Hrun as ([j1 s1] & Hloop & Hrun).
  inversion Hrun; subst s1. clear Hrun.
  cut (j1 = ne s * nsize
       /\ s' = set_jx (jx s') s /\ length (jx s') = length (jx s)
       /\ (forall e n, e < ne s -> n < nsize ->
             exists i x, ei s !! e = Some i /\ u0 s !! i = Some x
                         /\ jx s' !! (e * nsize + n) = Some x)
       /\ (forall k, ne s * nsize <= k -> jx s' !! k = jx s !! k)).
  { intros (_ & H). exact H. }
  eapply (for_range_run (fun k (p : nat * Slab) =>
    p.1 = k * nsize
    /\ p.2 = set_jx (jx p.2) s /\ length (jx p.2) = length (jx s)
    /\ (forall e n, e < k -> n < nsize ->
          exists i x, ei s !! e = Some i /\ u0 s !! i = Some x
                      /\ jx p.2 !! (e * nsize + n) = Some x)
    /\ (forall m, k * nsize <= m -> jx p.2 !! m = jx s !! m))
    0 (ne s) _ (0, s) (j1, s') Hloop); [lia| |].
  - simpl. split; [lia|]. split; [by destruct s|]. split; [reflexivity|].
    split; [intros e n He; lia|]. intros m _. reflexivity.
  - intros k [j sx] [j' sx'] Hk (Ij & I0 & IL & I1 & I2) Hb. simpl in *.
    apply bind_Some in Hb as (i & Hi & Hb).
    apply bind_Some in Hb as (sy & Hin & Hb).
    inversion Hb; subst j' sy. clear Hb.
    apply reset_element_spec in Hin as (E & EL & Enew & Eold).
    assert (Hf : ei sx = ei s /\ u0 sx = u0 s) by (rewrite I0; done).
    destruct Hf as [F1 F2]. unfold rd in Hi. rewrite F1 in Hi.
    subst j. split; [lia|].
    split; [rewrite E, I0; reflexivity|].
    split; [rewrite EL; exact IL|]. split.
    + intros e n He Hn. destruct (decide (e = k)) as [->|Hne].
      * destruct (Enew n Hn) as (x & Hx & Hjx). exists i, x.
        rewrite F2 in Hx. done.
      * destruct (I1 e n ltac:(lia) Hn) as (i' & x & Hi' & Hx & Hjx).
        exists i', x. split_and!; try done.
        rewrite Eold; [exact Hjx|]. nia.
    + intros m Hm. rewrite Eold by nia. apply I2. nia.
Qed.

Lemma set_jx_same (s : Slab) : set_jx (jx s) s = s.
Proof. by destruct s. Qed.

Lemma reset_runs (s : Slab) cnt : forall lo,
  dofs_initial s -> 1 <= nsize -> lo + cnt <= next (size_e s) ->
  for_each (fun e '(j, s) =>
      i ← rd (ei s) e;
      s ← for_range 0 nsize (fun n s =>
            x ← rd (u0 s) i;
            jx' ← wr (jx s) (j + n) x;
            Some (set_jx jx' s)) s;
      Some (j + nsize, s)) (seq lo cnt) (lo * nsize, s)
  = Some ((lo + cnt) * nsize, s).
Proof.
  induction cnt as [|cnt IH]; simpl; intros lo HJ Hn Hle.
  { f_equal. f_equal. lia. }
  destruct HJ as [Hj Hd].
  destruct (Hd lo 0) as (i & x0 & Hi & _); [lia..|].
  replace (rd (ei s) lo) with (Some i) by (symmetry; exact Hi). simpl.
  assert (Hin : for_range 0 nsize (fun n s0 =>
                  x ← rd (u0 s0) i;
                  jx' ← wr (jx s0) (lo * nsize + n) x;
                  Some (set_jx jx' s0)) s = Some s).
  { unfold for_range. apply for_each_fixed.
    intros n Hin. apply elem_of_seq in Hin.
    destruct (Hd lo n) as (i' & x & Hi' & Hx & Hjx); [lia..|].
    assert (i' = i) by congruence. subst i'.
    unfold rd. rewrite Hx. simpl.
    unfold wr. destruct (decide (lo * nsize + n < length (jx s))) as [_|Hge].
    - simpl. rewrite list_insert_id by exact Hjx.
      rewrite set_jx_same. reflexivity.
    - apply lookup_lt_Some in Hjx. lia. }
  rewrite Hin. simpl.
  replace (lo * nsize + nsize) with (S lo * nsize) by lia.
  rewrite IH; [|split; assumption|exact Hn|lia].
  f_equal. f_equal. lia.
Qed.

(** On a slab whose dofs hold the initial values, as a build leaves
    them, [reset] does not fail and changes nothing. *)
Theorem reset_initial_slab (s : Slab) :
  dofs_initial s -> 1 <= nsize -> ne s = next (size_e s) ->
  reset s = Some s.
Proof.
  intros HJ Hn Hne. unfold reset.
  match goal with
  | |- (?m ≫= _) = _ => assert (Hrun : m = Some (ne s * nsize, s))
  end.
  { replace (ne s * nsize) with ((0 + (ne s - 0)) * nsize) by lia.
    exact (reset_runs s (ne s - 0) 0 HJ Hn ltac:(lia)). }
  rewrite Hrun. reflexivity.
Qed.

End Reset.

Section ShiftOn.
Context {method : Method} {ode : ODE} {adaptivity : Adaptivity}
  {tolerance : Tolerance} {P : Type} {partition_ops : Partition P}.
Local Abbreviation Slab := (Slab P).
Local Abbreviation eps := real_epsilon.

(** ** An accepted shift *)

Lemma shift_values_spec end_ (s s1 : Slab) :
  shift_values end_ s = Some s1 ->
  exists s2,
    coverTime (_b s) s = Some s2
    /\ elast s1 = elast s2
    /\ (forall i, i < N ->
          exists x, end_value s (elast s2) i x /\ u s1 !! i = Some x)
    /\ written s1 = (if save_final && end_
                     then written s ++ [u s1] else written s).
Proof.
  unfold shift_values. intros Hrun.
  apply bind_Some in Hrun as (s2 & Hc & Hrun).
  exists s2. split; [exact Hc|].
  apply coverTime_frame in Hc. unfold covered_from in Hc.
  assert (F : es s2 = es s /\ sb s2 = sb s /\ jx s2 = jx s /\ _b s2 = _b s
              /\ written s2 = written s) by (rewrite Hc; done).
  destruct F as (F1 & F2 & F3 & F4 & F5). clear Hc.
  apply bind_Some in Hrun as (s3 & Hl & Hrun).
  assert (H3 : s3 = set_u (u s3) s2
               /\ forall i, i < N ->
                  exists x, end_value s (elast s2) i x /\ u s3 !! i = Some x).
  { eapply (for_range_run (fun k (sx : Slab) =>
      sx = set_u (u sx) s2
      /\ forall i, i < k ->
         exists x, end_value s (elast s2) i x /\ u sx !! i = Some x)
      0 N _ _ _ Hl); [lia| |].
    - split; [by destruct s2|]. intros i Hi. lia.
    - intros k sx sx' Hk [I0 I1] Hb.
      apply bind_Some in Hb as (e & He & Hb).
      apply bind_Some in Hb as (_ & Hne%assert_Some & Hb).
      apply bind_Some in Hb as (sigma & Hs & Hb).
      apply bind_Some in Hb as (b & Hsb & Hb).
      apply bind_Some in Hb as (_ & Hq%assert_Some & Hb).
      apply bind_Some in Hb as (x & Hx & Hb).
      apply bind_Some in Hb as (u' & [Hlt ->]%wr_Some & Hb).
      inversion Hb; subst sx'. clear Hb.
      assert (G : elast sx = elast s2 /\ es sx = es s /\ sb sx = sb s
                  /\ jx sx = jx s /\ _b sx = _b s).
      { rewrite I0. simpl. done. }
      destruct G as (G1 & G2 & G3 & G4 & G5).
      unfold rd in He, Hsb. rewrite G1 in He. rewrite G2 in Hs.
      rewrite G3 in Hsb. rewrite G4 in Hx. rewrite G5 in Hq.
      apply negb_true_iff in Hne.
      split; [simpl; rewrite I0; reflexivity|]. simpl.
      intros i Hi. destruct (decide (i = k)) as [->|Hik].
      + exists x. rewrite list_lookup_insert_eq by done.
        split; [|reflexivity].
        exists e, sigma, b. split_and!; try done.
        intros ->. discriminate.
      + destruct (I1 i ltac:(lia)) as (y & Hy & Hu). exists y.
        rewrite list_lookup_insert_ne by done. done. }
  destruct H3 as [E3 V3].
  inversion Hrun; subst s1. clear Hrun.
  destruct (save_final && end_); simpl.
  - split; [rewrite E3; reflexivity|]. split; [exact V3|].
    rewrite E3. simpl. rewrite F5. reflexivity.
  - split; [rewrite E3; reflexivity|]. split; [exact V3|].
    rewrite E3. simpl. exact F5.
Qed.

(** When [shift] returns true, the hook has accepted, and for every
    component [u] and [u0] hold its end value: the last dof of its latest
    element after covering [_b], whose sub-slab ends at [_b].  The dofs
    and the slab's interval are as before; the values were written first
    if asked to. *)
Theorem shift_accepted end_ (s s' : Slab) :
  shift end_ s = Some (true, s') ->
  ode_update (u s') (_b s) end_ = true
  /\ (forall i, i < N ->
        exists x, end_value s (elast s') i x
                  /\ u s' !! i = Some x /\ u0 s' !! i = Some x)
  /\ jx s' = jx s /\ _a s' = _a s /\ _b s' = _b s
  /\ written s' = (if save_final && end_
                   then written s ++ [u s'] else written s).
Proof.
  unfold shift. intros Hrun.
  apply bind_Some in Hrun as (s1 & Hv & Hrun).
  pose proof (shift_values_frame _ _ _ Hv) as (_ & _ & Ha & Hb & Hjx).
  apply shift_values_spec in Hv as (s2 & _ & Hel & Hval & Hw).
  destruct (ode_update (u s1) (_b s1) end_) eqn:Hgo; simpl in Hrun;
    [|inversion Hrun].
  apply bind_Some in Hrun as (s3 & Hl & Hrun).
  inversion Hrun; subst s3. clear Hrun.
  assert (H3 : s' = set_u0 (u0 s') s1
               /\ forall i, i < N -> u0 s' !! i = u s1 !! i).
  { eapply (for_range_run (fun k (sx : Slab) =>
      sx = set_u0 (u0 sx) s1
      /\ forall i, i < k -> u0 sx !! i = u s1 !! i) 0 N _ _ _ Hl); [lia| |].
    - split; [by destruct s1|]. intros i Hi. lia.
    - intros k sx sx' Hk [I0 I1] Hb'.
      apply bind_Some in Hb' as (x & Hx & Hb').
      apply bind_Some in Hb' as (u' & [Hlt ->]%wr_Some & Hb').
      inversion Hb'; subst sx'. clear Hb'.
      assert (G : u sx = u s1) by (rewrite I0; reflexivity).
      unfold rd in Hx. rewrite G in Hx.
      split; [simpl; rewrite I0; reflexivity|]. simpl.
      intros i Hi. destruct (decide (i = k)) as [->|Hik].
      + rewrite list_lookup_insert_eq by done. symmetry. exact Hx.
      + rewrite list_lookup_insert_ne by done. apply I1. lia. }
  destruct H3 as [E3 V3].
  assert (G : u s' = u s1 /\ elast s' = elast s1 /\ jx s' = jx s1
              /\ _a s' = _a s1 /\ _b s' = _b s1 /\ written s' = written s1)
    by (rewrite E3; done).
  destruct G as (G1 & G2 & G3 & G4 & G5 & G6).
  rewrite G1, G2, G3, G4, G5, G6, Hel. rewrite Hb in Hgo.
  split_and!; try done; try congruence.
  intros i Hi. destruct (Hval i Hi) as (x & Hx & Hu).
  exists x. split_and!; try done. rewrite V3 by done. exact Hu.
Qed.

End ShiftOn.

Section FevalFrame.
Context {method : Method} {ode : ODE} {adaptivity : Adaptivity}
  {tolerance : Tolerance} {P : Type} {partition_ops : Partition P}.
Local Abbreviation Slab := (Slab P).
Local Abbreviation eps := real_epsilon.

(** ** The evaluators write [u] and [f] only *)

Lemma only_u_refl (s : Slab) : only_u s s.
Proof. split; [by destruct s|reflexivity]. Qed.

Lemma only_u_trans (s1 s2 s3 : Slab) :
  only_u s1 s2 -> only_u s2 s3 -> only_u s1 s3.
Proof.
  intros [E1 L1] [E2 L2]. split; [|congruence].
  rewrite E2, E1. reflexivity.
Qed.

Lemma only_u_write (s : Slab) i x u' :
  wr (u s) i x = Some u' -> only_u s (set_u u' s).
Proof.
  intros Hw. split; [reflexivity|]. simpl. exact (wr_length _ _ _ _ Hw).
Qed.

Ltac step_frame H :=
  repeat first
    [ match type of H with
      | Some _ = Some _ => inversion H; subst; clear H
      | None = Some _ => discriminate H
      end
    | match type of H with
      | (wr (u _) _ _ ≫= _) = Some _ =>
        let Hw := fresh "Hw" in
        apply bind_Some in H as (? & Hw & H)
      | (_ ≫= _) = Some _ => apply bind_Some in H as (? & _ & H)
      | (if ?c then _ else _) = Some _ => destruct c
      end ];
  first [ apply only_u_refl | eapply only_u_write; eassumption ].

Lemma cg_peer_left_frame s0 a0 i1 (s s' : Slab) :
  cg_peer_left s0 a0 i1 s = Some s' -> only_u s s'.
Proof. unfold cg_peer_left. intros H. step_frame H. Qed.

Lemma cg_peer_frame m t s0 a0 i1 (s s' : Slab) :
  cg_peer m t s0 a0 i1 s = Some s' -> only_u s s'.
Proof. unfold cg_peer. intros H. step_frame H. Qed.

Lemma cg_dependent_frame t d (s s' : Slab) :
  cg_dependent t d s = Some s' -> only_u s s'.
Proof. unfold cg_dependent. intros H. step_frame H. Qed.

Lemma dg_peer_frame m t s0 a0 i1 (s s' : Slab) :
  dg_peer m t s0 a0 i1 s = Some s' -> only_u s s'.
Proof. unfold dg_peer. intros H. step_frame H. Qed.

Lemma dg_dependent_frame t d (s s' : Slab) :
  dg_dependent t d s = Some s' -> only_u s s'.
Proof. unfold dg_dependent. intros H. step_frame H. Qed.

Lemma for_each_only_u {A} (body : A -> Slab -> option Slab) l (s s' : Slab) :
  (forall x sx sx', body x sx = Some sx' -> only_u sx sx') ->
  for_each body l s = Some s' -> only_u s s'.
Proof.
  intros Hb Hrun.
  eapply (for_each_inv (fun sx : Slab => only_u s sx)); [| |exact Hrun].
  - intros x sx sx' _ Hx Hbx. eapply only_u_trans; [exact Hx|].
    eapply Hb. exact Hbx.
  - apply only_u_refl.
Qed.

Local Opaque cg_peer_left cg_peer cg_dependent dg_peer dg_dependent
  dependents_range.

(** [cg_feval] and [dg_feval] change nothing of the slab but [u], whose
    length stays, and return an [f] of the length they were given: the
    arena, [elast], the dofs and [u0] are read only. *)
Theorem feval_writes_u_only (f : list real) s0 e0 i0 a0 b0 k0
    (s : Slab) f' s' :
  cg_feval f s0 e0 i0 a0 b0 k0 s = Some (f', s')
  \/ dg_feval f s0 e0 i0 a0 b0 k0 s = Some (f', s') ->
  s' = set_u (u s') s /\ length (u s') = length (u s)
  /\ length f' = length f.
Proof.
  cut (forall lo (p p' : list real * Slab)
         (peer : nat -> real -> nat -> Slab -> option Slab)
         (dep : real -> nat -> Slab -> option Slab)
         (rng : nat -> nat * nat),
         (forall m t i1 sx sx', peer m t i1 sx = Some sx' -> only_u sx sx') ->
         (forall t d sx sx', dep t d sx = Some sx' -> only_u sx sx') ->
         for_range lo qsize (fun m '(f, s) =>
           let t := (a0 + k0 * qpoint m)%Q in
           s ← for_each (peer m t) (dependencies i0) s;
           s ← for_range (rng m).1 (rng m).2 (dep t) s;
           f' ← wr f m (ode_f (u s) t i0);
           Some (f', s)) p = Some p' ->
         only_u p.2 p'.2 /\ length p'.1 = length p.1).
  { intros Hloop [Hrun|Hrun].
    - unfold cg_feval in Hrun. cbv zeta in Hrun.
      apply bind_Some in Hrun as ([f1 s1] & H1 & Hrun).
      apply bind_Some in Hrun as ([d ndep] & _ & Hrun).
      assert (G1 : only_u s s1 /\ length f1 = length f).
      { destruct (Qltb a0 (_a s + eps)).
        - apply bind_Some in H1 as (y & _ & H1).
          apply bind_Some in H1 as (fw & Hw%wr_length & H1).
          inversion H1; subst. split; [apply only_u_refl|exact Hw].
        - apply bind_Some in H1 as (sy & Hy & H1).
          apply bind_Some in H1 as (fw & Hw%wr_length & H1).
          inversion H1; subst. split; [|exact Hw].
          eapply for_each_only_u; [|exact Hy].
          intros x sx sx'. apply cg_peer_left_frame. }
      destruct G1 as [G1 G2].
      destruct (Hloop 1 (f1, s1) (f', s')
                  (fun m t => cg_peer m t s0 a0) cg_dependent
                  (fun m => (d + (m - 1) * ndep, d + m * ndep)))
        as [[E L] Lf]; [..|exact Hrun|].
      + intros m t i1 sx sx'. apply cg_peer_frame.
      + intros t d' sx sx'. apply cg_dependent_frame.
      + simpl in E, L, Lf. destruct G1 as [E1 L1].
        split_and!; [rewrite E, E1; reflexivity|congruence|congruence].
    - unfold dg_feval in Hrun. cbv zeta in Hrun.
      apply bind_Some in Hrun as ([d ndep] & _ & Hrun).
      destruct (Hloop 0 (f, s) (f', s')
                  (fun m t => dg_peer m t s0 a0) dg_dependent
                  (fun m => (d + m * ndep, d + (m + 1) * ndep)))
        as [[E L] Lf]; [..|exact Hrun|].
      + intros m t i1 sx sx'. apply dg_peer_frame.
      + intros t d' sx sx'. apply dg_dependent_frame.
      + simpl in E, L, Lf. split_and!; assumption. }
  intros lo p p' peer dep rng Hpeer Hdep Hrun.
  eapply (for_range_inv (fun q : list real * Slab =>
    only_u p.2 q.2 /\ length q.1 = length p.1)); [| |exact Hrun].
  - intros m [fx sx] [fy sy] _ [I1 I2] Hb. simpl in *.
    apply bind_Some in Hb as (s1 & H1 & Hb).
    apply bind_Some in Hb as (s2 & H2 & Hb).
    apply bind_Some in Hb as (fw & Hw%wr_length & Hb).
    inversion Hb; subst fy sy. clear Hb.
    split; [|congruence].
    eapply only_u_trans; [exact I1|].
    eapply only_u_trans.
    + eapply for_each_only_u; [|exact H1]. intros x a b. apply Hpeer.
    + eapply (for_range_inv (fun sx' : Slab => only_u s1 sx'));
        [| |exact H2]; [|apply only_u_refl].
      intros n a b _ Ha Hb'. eapply only_u_trans; [exact Ha|].
      eapply Hdep. exact Hb'.
  - split; [apply only_u_refl|reflexivity].
Qed.

End FevalFrame.

Section Room.
Context {method : Method} {ode : ODE} {adaptivity : Adaptivity}
  {tolerance : Tolerance} {P : Type} {partition_ops : Partition P}.
Local Abbreviation Slab := (Slab P).
Local Abbreviation eps := real_epsilon.

(** ** The assertions of the creation *)

(** The creation stops at its assertion when the arena has no room: a
    sub-slab needs [size_s.next < size_s.size], an element
    [size_e.next < size_e.size], its dofs
    [size_j.next + nsize - 1 < size_j.size]. *)
Theorem creation_asserts_room (s : Slab) :
  (size (size_s s) <= next (size_s s) ->
   forall a b offset,
     (forall end_, create_s a b offset end_ s = None)
     /\ forall fuel, createTimeSlab fuel a b offset s = None)
  /\ (size (size_e s) <= next (size_e s) ->
      forall index subslab a b, create_e index subslab a b s = None)
  /\ (size (size_j s) < next (size_j s) + nsize ->
      forall index, create_j index s = None).
Proof.
  assert (Hs : forall (s0 : Slab) a b offset end_,
            size (size_s s0) <= next (size_s s0) ->
            create_s a b offset end_ s0 = None).
  { intros s0 a b offset end_ Hfull. unfold create_s.
    rewrite bool_decide_eq_false_2 by lia. reflexivity. }
  split_and!.
  - intros Hfull a b offset. split; [intros; apply Hs; exact Hfull|].
    intros [|fuel]; simpl; [reflexivity|].
    destruct (computeEndTime a b offset s) as [[b1 end_] s1] eqn:Hc.
    apply computeEndTime_eq in Hc as (K' & _ & _ & Heq).
    rewrite Hs; [reflexivity|]. rewrite Heq. simpl. exact Hfull.
  - intros Hfull index subslab a b. unfold create_e.
    rewrite bool_decide_eq_false_2 by lia. reflexivity.
  - intros Hfull index. unfold create_j.
    rewrite bool_decide_eq_false_2 by lia. reflexivity.
Qed.

End Room.

Section Coverage.
Context {method : Method} {ode : ODE} {adaptivity : Adaptivity}
  {tolerance : Tolerance} {P : Type} {partition_ops : Partition P}.
Local Abbreviation Slab := (Slab P).
Local Abbreviation eps := real_epsilon.

(** ** Coverage: the quick return *)

Lemma coverTime_check_true t l (s s' : Slab) :
  coverTime_check t l s = Some (true, s') <->
  s' = s /\ forall i, i ∈ l -> covers s t i.
Proof.
  induction l as [|i l IH]; simpl.
  - split.
    + intros [= <-]. split; [reflexivity|]. intros i Hi.
      by apply elem_of_nil in Hi.
    + intros [-> _]. reflexivity.
  - split.
    + intros Hrun.
      apply bind_Some in Hrun as (e & He & Hrun).
      destruct (Z.eqb_spec e (-1)) as [->|Hne]; [inversion Hrun|].
      apply bind_Some in Hrun as (s1 & Hs1 & Hrun).
      apply bind_Some in Hrun as (a & Ha & Hrun).
      apply bind_Some in Hrun as (b & Hb & Hrun).
      destruct (Qltb t (a + eps)) eqn:H1; [inversion Hrun|].
      destruct (Qltb (b + eps) t) eqn:H2; [inversion Hrun|].
      apply IH in Hrun as [-> Hall]. split; [reflexivity|].
      intros j Hj. apply elem_of_cons in Hj as [->|Hj]; [|exact (Hall j Hj)].
      apply Qltb_ge in H1, H2.
      exists e, s1, a, b. done.
    + intros [-> Hall].
      destruct (Hall i) as (e & s1 & a & b & He & Hne & Hs1 & Ha & Hb & H1 & H2);
        [left|].
      unfold rd. rewrite He. simpl.
      destruct (Z.eqb_spec e (-1)) as [Heq|_]; [done|].
      rewrite Hs1. simpl. rewrite Ha. simpl. rewrite Hb. simpl.
      apply Qltb_ge in H1, H2. rewrite H1, H2.
      apply IH. split; [reflexivity|]. intros j Hj. apply Hall. by right.
Qed.

(** [coverTime(t)] returns at once, leaving the slab as it is, exactly
    when the latest element of every component covers [t] up to the
    tolerance: [a + eps <= t <= b + eps]. *)
Theorem coverTime_quick_return (t : real) (s : Slab) :
  ((forall i, i < N -> covers s t i)
   <-> coverTime_check t (seq 0 N) s = Some (true, s))
  /\ ((forall i, i < N -> covers s t i) -> coverTime t s = Some s).
Proof.
  assert (Hiff : (forall i, i < N -> covers s t i)
                 <-> coverTime_check t (seq 0 N) s = Some (true, s)).
  { rewrite coverTime_check_true. split.
    - intros Hall. split; [reflexivity|]. intros i Hi.
      apply elem_of_seq in Hi. apply Hall. lia.
    - intros [_ Hall] i Hi. apply Hall. apply elem_of_seq. lia. }
  split; [exact Hiff|].
  intros Hall. unfold coverTime. rewrite (proj1 Hiff Hall). reflexivity.
Qed.

(** ** Covering a sub-slab *)

Lemma cover_run_spec subslab cnt : forall e (s : Slab) e1 s',
  cover_run subslab cnt e s = Some (e1, s') ->
  e <= e1 <= e + cnt
  /\ s' = set_elast (elast s') s
  /\ length (elast s') = length (elast s)
  /\ (forall e', e <= e' < e1 ->
        exists s1 i el,
          es s !! e' = Some s1 /\ Z.of_nat s1 = subslab
          /\ ei s !! e' = Some i
          /\ elast s' !! i = Some (Z.of_nat el)
          /\ e' <= el < e1 /\ ei s !! el = Some i)
  /\ (e1 < e + cnt ->
      exists s1, es s !! e1 = Some s1 /\ Z.of_nat s1 <> subslab)
  /\ (forall i, (forall e', e <= e' < e1 -> ei s !! e' <> Some i) ->
        elast s' !! i = elast s !! i).
Proof.
  induction cnt as [|cnt IH]; simpl; intros e s e1 s' Hrun.
  { inversion Hrun; subst e1 s'.
    split_and!; try lia; try done; try (by destruct s); intros; lia. }
  apply bind_Some in Hrun as (s1 & Hs1 & Hrun).
  destruct (Z.eqb_spec (Z.of_nat s1) subslab) as [Heq|Hneq]; simpl in Hrun.
  2:{ inversion Hrun; subst e1 s'.
      split_and!; try lia; try done; try (by destruct s);
        try (intros; lia).
      intros _. exists s1. done. }
  apply bind_Some in Hrun as (i & Hi & Hrun).
  apply bind_Some in Hrun as (el & [Hlt ->]%wr_Some & Hrun).
  apply IH in Hrun as (Hr & Heq' & Hlen & Hin & Hout & Hfr).
  simpl in Heq', Hlen, Hin, Hout, Hfr.
  rewrite length_insert in Hlen.
  split_and!; try lia; try done.
  - intros e' He'. destruct (decide (e' = e)) as [->|Hne].
    + destruct (decide (Exists (fun e'' => ei s !! e'' = Some i)
                                 (seq (S e) (e1 - S e)))) as [Hex|Hno].
      * apply Exists_exists in Hex as (e'' & He'' & Hi'').
        apply elem_of_seq in He''.
        assert (He2 : S e <= e'' < e1) by lia. clear He''.
        destruct (Hin e'' He2) as (s2 & i2 & el2 & _ & _ & Hi2 & Hel2 & Hr2 & Hei2).
        assert (i2 = i) by (unfold rd in *; congruence). subst i2.
        exists s1, i, el2. split_and!; try done; lia.
      * exists s1, i, e. split_and!; try done; try lia.
        rewrite Hfr.
        -- rewrite list_lookup_insert_eq by done. reflexivity.
        -- intros e'' He'' Hi''. apply Hno. apply Exists_exists.
           exists e''. split; [apply elem_of_seq; lia|exact Hi''].
    + destruct (Hin e' ltac:(lia)) as (s2 & i2 & el2 & ? & ? & ? & ? & ? & ?).
      exists s2, i2, el2. split_and!; try done; lia.
  - intros Hlt1. apply Hout. lia.
  - intros j Hj. rewrite Hfr.
    + rewrite list_lookup_insert_ne; [reflexivity|].
      intros ->. apply (Hj e); [lia|exact Hi].
    + intros e' He'. apply Hj. lia.
Qed.

(** [coverSlab(subslab, e0)] returns the first element [e1 >= e0] that
    is not in [subslab] ([ne] when there is none), writes [elast] only,
    and makes every element of [[e0, e1)] or a later one of the same
    component in that range the latest of its component; the components
    without an element in the range keep their latest element. *)
Theorem coverSlab_spec (subslab : Z) (e0 : nat) (s : Slab) e1 s' :
  coverSlab subslab e0 s = Some (e1, s') ->
  e0 <= e1 /\ (e0 <= ne s -> e1 <= ne s)
  /\ s' = set_elast (elast s') s
  /\ (forall e, e0 <= e < e1 ->
        exists s1 i el,
          es s !! e = Some s1 /\ Z.of_nat s1 = subslab
          /\ ei s !! e = Some i
          /\ elast s' !! i = Some (Z.of_nat el)
          /\ e <= el < e1 /\ ei s !! el = Some i)
  /\ (e1 < ne s -> exists s1, es s !! e1 = Some s1 /\ Z.of_nat s1 <> subslab)
  /\ (forall i, (forall e, e0 <= e < e1 -> ei s !! e <> Some i) ->
        elast s' !! i = elast s !! i).
Proof.
  unfold coverSlab. intros Hrun.
  apply cover_run_spec in Hrun as (Hr & Heq & _ & Hin & Hout & Hfr).
  split_and!; try done; try lia.
  intros Hlt. apply Hout. lia.
Qed.

(** [coverNext(subslab, element)] returns the sub-slab of [element]; it
    leaves the slab as it is when that is [subslab], and otherwise does
    to the slab what [coverSlab] does from [element] on in the sub-slab
    of [element]. *)
Theorem coverNext_spec (subslab : Z) (element : nat) (s : Slab) r s' :
  coverNext subslab element s = Some (r, s') ->
  exists s1,
    es s !! element = Some s1 /\ r = Z.of_nat s1
    /\ (subslab = Z.of_nat s1 -> s' = s)
    /\ (subslab <> Z.of_nat s1 ->
        exists e1, coverSlab (Z.of_nat s1) element s = Some (e1, s')
                   /\ (element < ne s -> element < e1)).
Proof.
  unfold coverNext. intros Hrun.
  apply bind_Some in Hrun as (s1 & Hs1 & Hrun).
  exists s1. split; [exact Hs1|].
  destruct (Z.eqb_spec subslab (Z.of_nat s1)) as [Heq|Hneq].
  - inversion Hrun; subst r s'. split_and!; done.
  - apply bind_Some in Hrun as ([e1 s2] & Hc & Hrun).
    inversion Hrun; subst r s2. split_and!; try done.
    intros _. exists e1. split; [exact Hc|].
    intros Hlt. destruct (ne s - element) as [|cnt] eqn:Hcnt; [lia|].
    simpl in Hc.
    apply bind_Some in Hc as (s1' & Hs1' & Hc).
    assert (s1' = s1) by congruence. subst s1'.
    rewrite Z.eqb_refl in Hc. simpl in Hc.
    apply bind_Some in Hc as (i & _ & Hc).
    apply bind_Some in Hc as (el & _ & Hc).
    apply cover_run_spec in Hc as (Hr & _). lia.
Qed.

End Coverage.

Section Timeline.
Context {method : Method} {ode : ODE} {adaptivity : Adaptivity}
  {tolerance : Tolerance} {P : Type} {partition_ops : Partition P}.
Local Abbreviation Slab := (Slab P).
Local Abbreviation eps := real_epsilon.

Local Opaque create_e create_s_ed create_s computeEndTime
  countDependencies countDependencies_dry.

(** ** The elements in time *)

Lemma timeline_weaken a_top x y (s : Slab) :
  (x <= y)%Q -> timeline a_top x s -> timeline a_top y s.
Proof.
  intros Hxy [T1 T2 T3 T4]. split; try assumption.
  intros e a He Ha. destruct (T1 e a He Ha). split; lra.
Qed.

Lemma timeline_same_graph a_top x (s s' : Slab) :
  same_graph s s' -> timeline a_top x s -> timeline a_top x s'.
Proof.
  intros [G1 G2 G3 G4 G5 G6 G7 G8] [T1 T2 T3 T4].
  split; unfold start_of in *;
    rewrite ?G8, ?G7, ?G5, ?G4, ?G1, ?G2; assumption.
Qed.

(** An old element starts where it did. *)
Lemma start_of_extends (s s' : Slab) e a :
  extends s s' -> elems_ok s -> e < next (size_e s) ->
  start_of s' e a <-> start_of s e a.
Proof.
  intros Hext Hel He. unfold start_of.
  rewrite (ext_es _ _ Hext) by exact He.
  destruct (Hel e He) as (i & sigma & p & _ & _ & Hs & Hsn & _).
  split; intros (sg & Hsg & Ha); exists sg; (split; [exact Hsg|]);
    assert (sg = sigma) by congruence; subst sg.
  - rewrite <- (ext_sa _ _ Hext) by exact Hsn. exact Ha.
  - rewrite (ext_sa _ _ Hext) by exact Hsn. exact Ha.
Qed.

Lemma create_s_timeline a_top a0 b0 offset end_ (s s' : Slab) :
  partition_contract -> offset <= end_ <= N ->
  create_s a0 b0 offset end_ s = Some s' ->
  elems_ok s -> elast_ok s -> covered a0 offset s ->
  (a_top <= a0)%Q ->
  (forall m, offset <= m < end_ ->
     elast s !! partition_index (partition s) m = Some (-1)%Z -> a0 = a_top) ->
  timeline a_top a0 s -> timeline a_top a0 s'.
Proof.
  intros Hpc Hr Hrun Hel Hla Hcov Htop Hneg [T1 T2 T3 T4].
  destruct (create_s_wf _ _ _ _ _ _ Hpc Hr Hrun Hel Hla Hcov)
    as (Hext & _ & _ & _ & Hns & Hsa & Hsb & Hne & _ & Hhd & _).
  assert (Hnew : forall e, next (size_e s) <= e < next (size_e s') ->
            (forall a, start_of s' e a <-> a = a0)
            /\ ee s' !! e
               = elast s !! partition_index (partition s)
                              (offset + (e - next (size_e s)))
            /\ offset <= offset + (e - next (size_e s)) < end_).
  { intros e He.
    destruct (Hhd (offset + (e - next (size_e s)))) as (_ & _ & Hes & Hee);
      [lia|].
    replace (next (size_e s) + (offset + (e - next (size_e s)) - offset))
      with e in Hes, Hee by lia.
    split; [|split; [exact Hee|lia]].
    intros a. unfold start_of. split.
    - intros (sg & Hsg & Ha). congruence.
    - intros ->. exists (next (size_s s)). done. }
  split.
  - intros e a He Ha. destruct (decide (e < next (size_e s))) as [Ho|Hn].
    + apply (T1 e a Ho). by apply (start_of_extends s s').
    + destruct (Hnew e ltac:(lia)) as (Hst & _). apply Hst in Ha. subst a.
      split; [exact Htop|lra].
  - intros e1 e2 a1 a2 Hle He2 Ha1 Ha2.
    destruct (decide (e2 < next (size_e s))) as [Ho2|Hn2].
    + apply (T2 e1 e2 a1 a2 Hle Ho2).
      * apply (start_of_extends s s'); [done..|lia|done].
      * by apply (start_of_extends s s').
    + destruct (Hnew e2 ltac:(lia)) as (Hst2 & _). apply Hst2 in Ha2.
      subst a2.
      destruct (decide (e1 < next (size_e s))) as [Ho1|Hn1].
      * apply (T1 e1 a1 Ho1). by apply (start_of_extends s s').
      * destruct (Hnew e1 ltac:(lia)) as (Hst1 & _). apply Hst1 in Ha1.
        subst a1. lra.
  - intros e a He Hee Ha. destruct (decide (e < next (size_e s))) as [Ho|Hn].
    + apply (T3 e a Ho).
      * rewrite <- (ext_ee _ _ Hext) by exact Ho. exact Hee.
      * by apply (start_of_extends s s').
    + destruct (Hnew e ltac:(lia)) as (Hst & Hee' & Hm).
      apply Hst in Ha. subst a. rewrite Hee' in Hee.
      exact (Hneg _ Hm Hee).
  - intros sigma Hsg. destruct (decide (sigma < next (size_s s))) as [Ho|Hn].
    + rewrite (ext_sa _ _ Hext), (ext_sb _ _ Hext) by exact Ho.
      apply T4. exact Ho.
    + assert (sigma = next (size_s s)) by lia. subst sigma.
      rewrite Hsa, Hsb. split; eexists; reflexivity.
Qed.

Lemma createTimeSlab_timeline a_top fuel :
  partition_contract -> (0 < kmax)%Q -> (threshold <= 1)%Q ->
  forall a b offset (s : Slab) b' s',
    createTimeSlab fuel a b offset s = Some (b', s') ->
    offset <= N -> elems_ok s -> elast_ok s -> covered a offset s ->
    (a < b)%Q -> (a_top <= a)%Q ->
    (forall i, in_tail (partition s) offset i ->
       elast s !! i = Some (-1)%Z -> a = a_top) ->
    timeline a_top a s ->
    timeline a_top b' s'.
Proof.
  intros Hpc Hkmax Hthr.
  induction fuel as [|fuel IH];
    intros a b offset s b' s' Hrun HoN Hel Hla Hcov Hab Htop Hneg Htl.
  { simpl in Hrun. done. }
  simpl in Hrun.
  destruct (computeEndTime a b offset s) as [[b1 end_] s1] eqn:Hc.
  pose proof (computeEndTime_same_graph _ _ _ _ _ _ _ Hc) as Hsg1.
  apply computeEndTime_eq in Hc as (K' & Hupd & Hb1 & _).
  pose proof (pc_range Hpc (partition s) offset (real_min kmax (b - a)) HoN)
    as Hrange.
  pose proof (pc_tail Hpc (partition s) offset (real_min kmax (b - a)))
    as Htail.
  pose proof (pc_positive Hpc (partition s) offset (real_min kmax (b - a)))
    as Hpos.
  rewrite Hupd in Hrange, Htail, Hpos. simpl in Hrange, Htail, Hpos.
  assert (Hab1 : (a < b1)%Q /\ (b1 = b \/ (b1 < b)%Q)).
  { rewrite Hb1. apply end_time_bounds; try done.
    apply Hpos. apply real_min_pos; [done|lra]. }
  apply bind_Some in Hrun as (s2 & H2 & Hrun).
  apply bind_Some in Hrun as ([t s3] & H3 & Hrun).
  inversion Hrun; subst b' s'. clear Hrun.
  assert (Hel1 : elems_ok s1) by (by eapply same_graph_elems).
  assert (Hla1 : elast_ok s1) by (by eapply same_graph_elast).
  assert (Hcov1 : covered a offset s1).
  { eapply covered_same_graph; [exact Hsg1| |exact Hcov].
    intros i. apply Htail. }
  assert (Htl1 : timeline a_top a s1) by (by eapply timeline_same_graph).
  assert (Hneg1 : forall i, in_tail (partition s1) offset i ->
                    elast s1 !! i = Some (-1)%Z -> a = a_top).
  { intros i Hi. rewrite (sg_elast _ _ Hsg1). apply Hneg, Htail, Hi. }
  assert (Htl2 : timeline a_top a s2).
  { eapply create_s_timeline; try done.
    intros m Hm. apply Hneg1. exists m. split; [lia|done]. }
  destruct (create_s_wf _ _ _ _ _ _ Hpc Hrange H2 Hel1 Hla1 Hcov1)
    as (_ & Hel2 & Hla2 & Hp2 & _ & _ & _ & _ & Hfr2 & _ & Hcov2 & _).
  assert (Hneg2 : forall i, in_tail (partition s2) end_ i ->
                    elast s2 !! i = Some (-1)%Z -> a = a_top).
  { intros i Hi. rewrite Hp2 in Hi. rewrite Hfr2.
    - apply Hneg1. destruct Hi as (n & Hn & Hi). exists n. split; [lia|done].
    - intros m Hm Heq. destruct Hi as (n & Hn & Hi). rewrite <- Hi in Heq.
      apply (pc_inj Hpc) in Heq; lia. }
  eapply (while_loop_inv (fun t (sx : Slab) =>
    elems_ok sx /\ elast_ok sx /\ timeline a_top t sx
    /\ (a_top <= t)%Q /\ (t <= b1)%Q
    /\ ((covered t end_ sx
         /\ forall i, in_tail (partition sx) end_ i ->
              elast sx !! i = Some (-1)%Z -> t = a_top)
        \/ forall i, in_tail (partition sx) end_ i -> ended sx i t)))
    in H3 as [(_ & _ & Htl3 & _ & Hle3 & _) _].
  - eapply timeline_weaken; [|exact Htl3]. exact Hle3.
  - intros t0 sx t' sx' (Helx & Hlax & Htlx & Htopx & Hlex & Hendx) Hcond Hb.
    apply andb_true_iff in Hcond as [Hlt Hlast].
    apply Qltb_lt in Hlt. apply bool_decide_eq_true in Hlast.
    assert (Hcovx : covered t0 end_ sx).
    { destruct Hendx as [[Hc0 _]|He0]; [exact Hc0|].
      intros i Hi. apply ended_reached, He0, Hi. }
    assert (Hnegx : forall i, in_tail (partition sx) end_ i ->
                      elast sx !! i = Some (-1)%Z -> t0 = a_top).
    { destruct Hendx as [[_ Hn0]|He0]; [exact Hn0|].
      intros i Hi Hm1. destruct (He0 i Hi) as (el & sg & Hl & Hpos0 & _).
      rewrite Hl in Hm1. inversion Hm1. lia. }
    pose proof (createTimeSlab_wf fuel Hpc Hkmax Hthr _ _ _ _ _ _ Hb
                  ltac:(lia) Helx Hlax Hcovx) as [Q1 Q2 Q3 Q4 Q5 Q6 Q7].
    apply IH in Hb; try done; [|lia].
    destruct (Q6 Hlt) as [Hlt' Hle'].
    split_and!; try done; try lra.
    + destruct Hle' as [->|Hle']; lra.
    + right. apply Q7. exact Hlt.
  - split_and!; try done; try lra.
    left. split; [exact Hcov2|exact Hneg2].
Qed.

End Timeline.

Section Sweep.
Context {method : Method} {ode : ODE} {adaptivity : Adaptivity}
  {tolerance : Tolerance} {P : Type} {partition_ops : Partition P}.
Local Abbreviation Slab := (Slab P).
Local Abbreviation eps := real_epsilon.

(** ** The arena that sampling walks *)

Lemma same_arena_refl (s : Slab) : same_arena s s.
Proof. unfold same_arena. done. Qed.

Lemma covered_from_same_arena (s s' : Slab) :
  covered_from s s' -> length (elast s') = length (elast s) ->
  same_arena s s'.
Proof.
  unfold covered_from, same_arena. intros Heq Hlen.
  split_and!; try exact Hlen; rewrite Heq; reflexivity.
Qed.

Lemma arena_element (s : Slab) e :
  arena_ok s -> e < ne s ->
  exists i sigma a b p,
    ei s !! e = Some i /\ i < N /\ es s !! e = Some sigma
    /\ sa s !! sigma = Some a /\ sb s !! sigma = Some b
    /\ ee s !! e = Some p /\ prev_ok s e i sigma p.
Proof.
  intros Hok He. rewrite (ar_ne _ Hok) in He.
  destruct (ar_elems _ Hok e He) as (i & sigma & p & Hi & HiN & Hs & Hsn & Hp & Hprev).
  destruct (ar_read _ Hok sigma Hsn) as [[a Ha] [b Hb]].
  exists i, sigma, a, b, p. done.
Qed.

Lemma late_mono (s : Slab) t e1 e2 :
  arena_ok s -> e1 <= e2 -> e2 < ne s -> late s t e1 -> late s t e2.
Proof.
  intros Hok Hle He2 (a1 & Ha1 & Ht & Hs).
  destruct (arena_element s e2 Hok He2)
    as (i & sigma & a2 & b & p & _ & _ & Hes & Hsa & _).
  assert (Ha2 : start_of s e2 a2) by (exists sigma; done).
  pose proof (ar_sorted _ Hok e1 e2 a1 a2 Hle He2 Ha1 Ha2).
  exists a2. split; [exact Ha2|]. split; lra.
Qed.

(** The sweep of [coverTime] from element [e]: it does not fail, stops at
    the first late element [k] (at [ne] when there is none), and has then
    made the last element below [k] the latest of its component, for every
    component with an element below [k]. *)
Lemma sweep_spec (s : Slab) t :
  arena_ok s ->
  forall cnt e m (sx : Slab),
    same_arena s sx -> e + cnt = ne s -> e <= m <= e + 1 ->
    below s (elast sx) m ->
    exists sx' k,
      coverTime_sweep t cnt e sx = Some sx'
      /\ same_arena s sx' /\ e <= k <= ne s
      /\ below s (elast sx') (Nat.max m k)
      /\ (forall e', e <= e' < k -> ~ late s t e')
      /\ (k < ne s -> late s t k)
      /\ (e < k -> emax sx' = k - 1)
      /\ (k = e -> elast sx' = elast sx /\ emax sx' = emax sx).
Proof.
  intros Hok. induction cnt as [|cnt IH]; intros e m sx Hsame Hcnt Hm Hbel.
  { exists sx, e. simpl. replace (Nat.max m e) with m by lia.
    split_and!; try done; try lia; intros; lia. }
  simpl.
  destruct Hsame as (A1 & A2 & A3 & A4 & A5 & A6 & A7 & A8 & A9 & A10 & A11).
  destruct (arena_element s e Hok ltac:(lia))
    as (i & sigma & a & b & p & Hi & HiN & Hes & Hsa & Hsb & _).
  unfold rd. rewrite A1, A2, A4, A9, Hes, Hi. simpl. rewrite Hsa. simpl.
  assert (Hst : start_of s e a) by (exists sigma; done).
  destruct (Qltb t (a + eps) && Qltb (_a s) (a - eps)) eqn:Hlate.
  - (* the sweep stops at [e] *)
    apply andb_true_iff in Hlate as [H1 H2].
    apply Qltb_lt in H1, H2.
    exists sx, e. replace (Nat.max m e) with m by lia.
    split_and!; try done; try lia; try (intros; lia).
    intros _. exists a. done.
  - (* [e] is covered *)
    assert (Hnl : ~ late s t e).
    { intros (a' & (sg & Hsg & Ha') & H1 & H2).
      assert (sg = sigma) by congruence. subst sg.
      assert (a' = a) by congruence. subst a'.
      apply andb_false_iff in Hlate as [H|H]; apply Qltb_ge in H; lra. }
    assert (Hlt : i < length (elast sx)).
    { rewrite A11, (ar_elast _ Hok). exact HiN. }
    unfold wr. destruct (decide (i < length (elast sx))) as [_|Hge]; [|lia].
    simpl.
    set (sx1 := set_emax e (set_elast (<[i:=Z.of_nat e]> (elast sx)) sx)).
    assert (Hsame1 : same_arena s sx1).
    { unfold same_arena, sx1. simpl. rewrite length_insert. done. }
    assert (Hbel1 : below s (elast sx1) (S e)).
    { intros e0 i0 He0 He0n Hi0. unfold sx1. simpl.
      destruct (decide (i0 = i)) as [->|Hne].
      - exists e. rewrite list_lookup_insert_eq by exact Hlt.
        split_and!; try done; lia.
      - assert (e0 <> e) by (intros ->; congruence).
        destruct (Hbel e0 i0 ltac:(lia) He0n Hi0)
          as (x & Hx & Hx1 & Hx2 & Hx3 & Hx4).
        exists x. rewrite list_lookup_insert_ne by done.
        split_and!; try done; lia. }
    destruct (IH (S e) (S e) sx1 Hsame1 ltac:(lia) ltac:(lia) Hbel1)
      as (sx' & k & Hrun & Hsame' & Hk & Hbel' & Hnol & Hlatek & Hemax & Hstop).
    exists sx', k. split; [exact Hrun|].
    split_and!; try done; try lia.
    + replace (Nat.max m k) with (Nat.max (S e) k) by lia. exact Hbel'.
    + intros e' He'. destruct (decide (e' = e)) as [->|Hne]; [exact Hnl|].
      apply Hnol. lia.
    + intros _. destruct (decide (k = S e)) as [->|Hne].
      * destruct (Hstop eq_refl) as [_ ->]. unfold sx1. simpl. lia.
      * apply Hemax. lia.
Qed.

End Sweep.

Section Sampled.
Context {method : Method} {ode : ODE} {adaptivity : Adaptivity}
  {tolerance : Tolerance} {P : Type} {partition_ops : Partition P}.
Local Abbreviation Slab := (Slab P).
Local Abbreviation eps := real_epsilon.

(** ** What coverage establishes *)

Lemma least_element (s : Slab) i lo : forall e,
  lo <= e -> ei s !! e = Some i ->
  exists e0, lo <= e0 <= e /\ ei s !! e0 = Some i
             /\ forall e', lo <= e' < e0 -> ei s !! e' <> Some i.
Proof.
  intros e. induction e as [e IH] using lt_wf_ind. intros Hle Hi.
  destruct (decide (Exists (fun e' => ei s !! e' = Some i)
                      (seq lo (e - lo)))) as [Hex|Hno].
  - apply Exists_exists in Hex as (e' & He' & Hi').
    apply elem_of_seq in He'.
    destruct (IH e' ltac:(lia) ltac:(lia) Hi') as (e0 & H0 & Hi0 & Hmin).
    exists e0. split_and!; try done; lia.
  - exists e. split_and!; try done; try lia.
    intros e' He' Hi'. apply Hno. apply Exists_exists. exists e'.
    split; [apply elem_of_seq; lia|exact Hi'].
Qed.

(** The first element of a component starts with the slab: the sweep
    never stops at it. *)
Lemma first_not_late (s : Slab) t e i :
  arena_ok s -> (0 <= eps)%Q -> e < ne s -> ei s !! e = Some i ->
  (forall e', e' < e -> ei s !! e' <> Some i) ->
  ~ late s t e.
Proof.
  intros Hok Heps He Hi Hmin (a & Ha & _ & Hlate).
  destruct (arena_element s e Hok He)
    as (i' & sigma & a' & b & p & Hi' & _ & Hes & Hsa & _ & Hp & Hprev).
  assert (i' = i) by congruence. subst i'.
  destruct Hprev as [[-> _]|(Hp0 & Hlt & Hpi & _)].
  - rewrite (ar_first _ Hok e a He Hp Ha) in Hlate. lra.
  - exact (Hmin _ Hlt Hpi).
Qed.

Lemma after_sweep (s : Slab) t (el : list Z) K :
  arena_ok s -> (0 <= eps)%Q -> (t <= _b s + eps)%Q ->
  K <= ne s -> below s el K ->
  (forall e, e < K -> ~ late s t e) ->
  (K < ne s -> late s t K) ->
  forall i, i < N ->
    exists x a b,
      el !! i = Some (Z.of_nat x) /\ x < K /\ x < ne s
      /\ ei s !! x = Some i
      /\ start_of s x a /\ end_of s x b
      /\ ((a + eps <= t)%Q \/ (a <= _a s + eps)%Q)
      /\ (t <= b + eps)%Q.
Proof.
  intros Hok Heps Ht HK Hbel Hnol HlK i Hi.
  (* the first element of [i] is below [K] *)
  destruct (ar_all _ Hok i Hi) as (e1 & He1 & Hi1).
  destruct (least_element s i 0 e1 ltac:(lia) Hi1) as (e0 & He0 & Hi0 & Hmin).
  assert (Hnl0 : ~ late s t e0).
  { apply (first_not_late s t e0 i); try done; [lia|].
    intros e' He'. apply Hmin. lia. }
  assert (He0K : e0 < K).
  { destruct (decide (e0 < K)) as [|Hge]; [done|]. exfalso. apply Hnl0.
    apply (late_mono s t K e0); [done|lia|lia|]. apply HlK. lia. }
  destruct (Hbel e0 i He0K ltac:(lia) Hi0) as (x & Hx & Hx0 & HxK & Hxn & Hxi).
  assert (Hmax : forall e', x < e' < K -> ei s !! e' <> Some i).
  { intros e' He' Hi'.
    destruct (Hbel e' i ltac:(lia) ltac:(lia) Hi') as (x' & Hx' & Hle & _).
    rewrite Hx in Hx'. inversion Hx'. lia. }
  destruct (arena_element s x Hok Hxn)
    as (i' & sigma & a & b & p & _ & _ & Hes & Hsa & Hsb & _).
  exists x, a, b.
  assert (Hst : start_of s x a) by (exists sigma; done).
  assert (Hen : end_of s x b) by (exists sigma; done).
  split_and!; try done.
  - (* [x] was covered *)
    destruct (Qlt_le_dec t (a + eps)) as [H1|H1]; [|by left].
    destruct (Qlt_le_dec (_a s) (a - eps)) as [H2|H2]; [|right; lra].
    exfalso. apply (Hnol x HxK). exists a. done.
  - (* the next element of [i], if any, is late *)
    destruct (decide (Exists (fun e' => ei s !! e' = Some i)
                        (seq (S x) (ne s - S x)))) as [Hex|Hno].
    + apply Exists_exists in Hex as (e' & He' & Hi').
      apply elem_of_seq in He'.
      destruct (least_element s i (S x) e' ltac:(lia) Hi')
        as (e2 & He2 & Hi2 & Hmin2).
      destruct (arena_element s e2 Hok ltac:(lia))
        as (i2 & sigma2 & a2 & b2 & p2 & Hi2' & _ & Hes2 & Hsa2 & _ & _ & Hprev).
      assert (i2 = i) by congruence. subst i2.
      destruct Hprev as [[_ Hnone]|(Hp0 & Hlt & Hpi & Hbetween & sp & tt & Hsp & Htt & Hsa2')].
      { exfalso. apply (Hnone x); [lia|exact Hxi]. }
      assert (Z.to_nat p2 = x).
      { destruct (decide (Z.to_nat p2 < x)) as [Hl|Hl'].
        - exfalso. apply (Hbetween x); [lia|exact Hxi].
        - destruct (decide (x < Z.to_nat p2)) as [Hg|Hg']; [|lia].
          exfalso. apply (Hmin2 (Z.to_nat p2)); [lia|exact Hpi]. }
      subst x.
      assert (sp = sigma) by congruence. subst sp.
      assert (tt = b) by congruence. subst tt.
      assert (a2 = b) by congruence. subst a2.
      assert (HKe : K <= e2).
      { destruct (decide (K <= e2)) as [|Hlt2]; [done|]. exfalso.
        apply (Hmax e2); [lia|exact Hi2]. }
      destruct (late_mono s t K e2 Hok HKe ltac:(lia) ltac:(apply HlK; lia))
        as (a3 & (sg3 & Hsg3 & Ha3) & Hlt3 & _).
      assert (sg3 = sigma2) by congruence. subst sg3.
      assert (a3 = b) by congruence. subst a3. lra.
    + assert (_b s <= b)%Q; [|lra].
      apply (ar_last _ Hok x i b Hxn Hxi); [|exact Hen].
      intros e' He' Hi'. apply Hno. apply Exists_exists. exists e'.
      split; [apply elem_of_seq; lia|exact Hi'].
Qed.

End Sampled.

Section CoverTime.
Context {method : Method} {ode : ODE} {adaptivity : Adaptivity}
  {tolerance : Tolerance} {P : Type} {partition_ops : Partition P}.
Local Abbreviation Slab := (Slab P).
Local Abbreviation eps := real_epsilon.

Lemma same_arena_start (s s' : Slab) e a :
  same_arena s s' -> start_of s' e a <-> start_of s e a.
Proof.
  intros (A1 & _ & _ & A4 & _). unfold start_of. rewrite A1, A4. done.
Qed.

Lemma same_arena_end (s s' : Slab) e b :
  same_arena s s' -> end_of s' e b <-> end_of s e b.
Proof.
  intros (A1 & _ & _ & _ & A5 & _). unfold end_of. rewrite A1, A5. done.
Qed.

Lemma same_arena_ok (s s' : Slab) :
  same_arena s s' -> arena_ok s -> arena_ok s'.
Proof.
  intros Hsame [R1 R2 R3 R4 R5 R6 R7 R8].
  pose proof Hsame as (A1 & A2 & A3 & A4 & A5 & A6 & A7 & A8 & A9 & A10 & A11).
  split.
  - rewrite A6, A7. exact R1.
  - rewrite A11. exact R2.
  - intros e He. rewrite A7 in He.
    destruct (R3 e He) as (i & sigma & p & Hi & HiN & Hs & Hsn & Hp & Hprev).
    exists i, sigma, p. rewrite A1, A2, A3, A8. split_and!; try done.
    unfold prev_ok in *. rewrite A1, A2, A4, A5. exact Hprev.
  - intros sigma Hs. rewrite A8 in Hs. rewrite A4, A5. apply R4. exact Hs.
  - intros e1 e2 a1 a2 Hle He2 H1 H2. rewrite A6 in He2.
    apply (R5 e1 e2 a1 a2 Hle He2); by apply (same_arena_start s s').
  - intros e a He Hee Ha. rewrite A6 in He. rewrite A3 in Hee. rewrite A9.
    apply (R6 e a He Hee). by apply (same_arena_start s s').
  - intros e i b He Hi Hlast Hb. rewrite A6 in He. rewrite A2 in Hi.
    rewrite A10. apply (R7 e i b He Hi).
    + intros e' He'. rewrite <- A2. apply Hlast. rewrite A6. exact He'.
    + by apply (same_arena_end s s').
  - intros i Hi. destruct (R8 i Hi) as (e & He & Hie).
    exists e. rewrite A6, A2. done.
Qed.

(** The first loop of [coverTime] does not fail on a valid state. *)
Lemma check_total (s : Slab) t l :
  arena_ok s -> valid_latest s -> (forall i, i ∈ l -> i < N) ->
  exists ok s1, coverTime_check t l s = Some (ok, s1).
Proof.
  intros Hok Hval. induction l as [|i l IH]; simpl; intros Hl.
  { eexists _, _. reflexivity. }
  destruct (Hval i) as (x & Hx & Hxn & Hxi); [apply Hl; left|].
  destruct (arena_element s x Hok Hxn)
    as (i' & sigma & a & b & p & _ & _ & Hes & Hsa & Hsb & _).
  unfold rd. rewrite Hx. simpl.
  destruct (Z.eqb_spec (Z.of_nat x) (-1)) as [Hneg|_]; [lia|].
  rewrite rdZ_of_nat, Hes. simpl. rewrite Hsa. simpl. rewrite Hsb. simpl.
  destruct (Qltb t (a + eps)); [eexists _, _; reflexivity|].
  destruct (Qltb (b + eps) t); [eexists _, _; reflexivity|].
  apply IH. intros j Hj. apply Hl. by right.
Qed.

(** When it answers no, it has reset [emax], or found a component whose
    latest element ends before [t]. *)
Lemma check_false t l (s s1 : Slab) :
  coverTime_check t l s = Some (false, s1) ->
  s1 = set_emax 0 s
  \/ (s1 = s
      /\ exists i e sigma b,
           i ∈ l /\ elast s !! i = Some e /\ e <> (-1)%Z
           /\ rdZ (es s) e = Some sigma /\ sb s !! sigma = Some b
           /\ (b + eps < t)%Q).
Proof.
  induction l as [|i l IH]; simpl; intros Hrun; [inversion Hrun|].
  apply bind_Some in Hrun as (e & He & Hrun).
  destruct (Z.eqb_spec e (-1)) as [->|Hne].
  { inversion Hrun. by left. }
  apply bind_Some in Hrun as (sigma & Hs & Hrun).
  apply bind_Some in Hrun as (a & Ha & Hrun).
  apply bind_Some in Hrun as (b & Hb & Hrun).
  destruct (Qltb t (a + eps)); [inversion Hrun; by left|].
  destruct (Qltb (b + eps) t) eqn:H2.
  - inversion Hrun; subst s1. right. split; [reflexivity|].
    apply Qltb_lt in H2. exists i, e, sigma, b.
    split_and!; try done. by left.
  - apply IH in Hrun as [Hl|(Hs1 & j & e' & sg & b' & Hj & Hrest)];
      [by left|].
    right. split; [exact Hs1|]. exists j, e', sg, b'. split; [by right|done].
Qed.

(** The sweep of [coverTime] on a built arena. *)
Lemma coverTime_sweeps (t : real) (s : Slab) :
  arena_ok s -> sampled s -> (0 <= eps)%Q -> (t <= _b s + eps)%Q ->
  exists s',
    coverTime t s = Some s'
    /\ same_arena s s' /\ covered_from s s'
    /\ arena_ok s' /\ sampled s'
    /\ forall i, i < N -> holds_time s' t i.
Proof.
  intros Hok [Hval Hfront] Heps Ht.
  (* what a sweep gives *)
  assert (Hmain : forall (sx sx' : Slab) e m k,
            same_arena s sx ->
            coverTime_sweep t (ne s - e) e sx = Some sx' ->
            same_arena s sx' -> e <= k <= ne s -> e < ne s ->
            below s (elast sx') (Nat.max m k) -> m <= e + 1 ->
            (forall e', e' < e -> ~ late s t e') ->
            ~ late s t e ->
            (forall e', e <= e' < k -> ~ late s t e') ->
            (k < ne s -> late s t k) ->
            (e < k -> emax sx' = k - 1) ->
            (k = e -> elast sx' = elast sx /\ emax sx' = emax sx) ->
            same_arena s sx' /\ covered_from sx sx'
            /\ arena_ok sx' /\ sampled sx'
            /\ forall i, i < N -> holds_time sx' t i).
  { intros sx sx' e m k Hsx Hrun Hsame He Hen Hbel Hm Hold Hnle Hnol HlK
      Hemax Hstop.
    assert (Hek : e < k).
    { destruct (decide (e < k)) as [|Hge]; [done|]. exfalso. apply Hnle.
      assert (k = e) by lia. subst k. apply HlK. exact Hen. }
    replace (Nat.max m k) with k in Hbel by lia.
    assert (Hall : forall e', e' < k -> ~ late s t e').
    { intros e' He'. destruct (decide (e' < e)); [by apply Hold|].
      apply Hnol. lia. }
    pose proof (after_sweep s t (elast sx') k Hok Heps Ht ltac:(lia) Hbel
                  Hall HlK) as Hafter.
    pose proof Hsame as (A1 & A2 & A3 & A4 & A5 & A6 & A7 & A8 & A9 & A10 & A11).
    split; [exact Hsame|].
    split; [by eapply coverTime_sweep_frame|].
    split; [by eapply same_arena_ok|].
    split; [split|].
    - intros i Hi.
      destruct (Hafter i Hi) as (x & a & b & Hx & _ & Hxn & Hxi & _).
      exists x. rewrite A6, A2. done.
    - left. rewrite (Hemax Hek). replace (S (k - 1)) with k by lia.
      intros e0 i0 H0 H0n Hi0. rewrite A6 in H0n. rewrite A2 in Hi0.
      destruct (Hbel e0 i0 H0 H0n Hi0) as (x & Hx & Hx1 & Hx2 & Hx3 & Hx4).
      exists x. rewrite A6, A2. done.
    - intros i Hi.
      destruct (Hafter i Hi)
        as (x & a & b & Hx & _ & Hxn & Hxi & Hst & Hen' & Hcov & Hend).
      exists x, a, b. rewrite A6, A2, A9.
      split_and!; try done.
      + by apply (same_arena_start s sx').
      + by apply (same_arena_end s sx'). }
  (* a full sweep *)
  assert (Hfull : forall sx : Slab,
            same_arena s sx -> covered_from s sx -> emax sx = 0 -> 0 < N ->
            exists s',
              coverTime_sweep t (ne sx - emax sx) (emax sx) sx = Some s'
              /\ same_arena s s' /\ covered_from s s'
              /\ arena_ok s' /\ sampled s'
              /\ forall i, i < N -> holds_time s' t i).
  { intros sx Hsx Hcf He0 HN.
    pose proof Hsx as (_ & _ & _ & _ & _ & A6 & _).
    rewrite He0, A6.
    destruct (ar_all _ Hok 0 HN) as (e1 & He1 & _).
    destruct (arena_element s 0 Hok ltac:(lia))
      as (i0 & sg0 & a0 & b0 & p0 & Hi0 & _).
    destruct (sweep_spec s t Hok (ne s - 0) 0 0 sx Hsx ltac:(lia) ltac:(lia))
      as (sx' & k & Hrun & Hsame & Hk & Hbel & Hnol & HlK & Hemax & Hstop).
    { intros e i He. lia. }
    exists sx'. split; [exact Hrun|].
    destruct (Hmain sx sx' 0 0 k Hsx Hrun Hsame Hk ltac:(lia) Hbel ltac:(lia))
      as (H1 & H2 & H3 & H4 & H5); try done.
    - intros e' He'. lia.
    - apply (first_not_late s t 0 i0); try done; [lia|].
      intros e' He'. lia.
    - split_and!; try done. eapply covered_from_trans; [exact Hcf|exact H2]. }
  destruct (check_total s t (seq 0 N) Hok Hval) as (ok & s1 & Hchk).
  { intros i Hi. apply elem_of_seq in Hi. lia. }
  unfold coverTime. rewrite Hchk. simpl.
  destruct ok.
  - (* every component holds [t] already *)
    apply coverTime_check_true in Hchk as [-> Hcov].
    exists s. split; [reflexivity|].
    split; [apply same_arena_refl|]. split; [apply covered_from_refl|].
    split; [exact Hok|]. split; [split; assumption|].
    intros i Hi.
    destruct (Hcov i) as (e & sigma & a & b & He & Hne & Hs & Ha & Hb & H1 & H2);
      [apply elem_of_seq; lia|].
    destruct (Hval i Hi) as (x & Hx & Hxn & Hxi).
    assert (e = Z.of_nat x) by congruence. subst e.
    rewrite rdZ_of_nat in Hs.
    exists x, a, b. split_and!; try done; [exists sigma|exists sigma|left];
      done.
  - assert (HN : 0 < N).
    { destruct N as [|n] eqn:HN0; [|lia]. simpl in Hchk. inversion Hchk. }
    apply check_false in Hchk
      as [->|(-> & i & e & sigma & b & Hi & He & Hne & Hs & Hb & Hlt)].
    + (* start from the beginning *)
      simpl.
      assert (Hne0 : 0 < ne s).
      { destruct (ar_all _ Hok 0 HN) as (e1 & He1 & _). lia. }
      destruct (decide (ne s <= 0)) as [Hle|_]; [lia|].
      destruct (arena_element s 0 Hok Hne0)
        as (i0 & sg0 & a0 & b0 & p0 & _ & _ & Hes0 & Hsa0 & _).
      unfold rd. rewrite Hes0. simpl. rewrite Hsa0. simpl.
      destruct (Qltb t (a0 + eps)).
      * apply (Hfull (set_emax 0 (set_emax 0 s))); try done;
          by destruct s.
      * apply (Hfull (set_emax 0 s)); try done; by destruct s.
    + (* search forward *)
      apply elem_of_seq in Hi.
      destruct (Hval i ltac:(lia)) as (x & Hx & Hxn & Hxi).
      assert (e = Z.of_nat x) by congruence. subst e.
      rewrite rdZ_of_nat in Hs.
      destruct Hfront as [Hfr|Hall].
      2:{ (* the latest elements of all: they end at [_b] *)
          exfalso.
          assert (_b s <= b)%Q; [|lra].
          apply (ar_last _ Hok x i b Hxn Hxi); [|exists sigma; done].
          intros e' He' Hi'.
          destruct (Hall e' i ltac:(lia) ltac:(lia) Hi')
            as (x' & Hx' & Hle & _).
          rewrite Hx in Hx'. inversion Hx'. lia. }
      destruct (decide (ne s <= emax s)) as [Hle|Hgt].
      { apply (Hfull (set_emax 0 s)); try done; by destruct s. }
      destruct (arena_element s (emax s) Hok ltac:(lia))
        as (im & sgm & am & bm & pm & _ & _ & Hesm & Hsam & _).
      unfold rd. rewrite Hesm. simpl. rewrite Hsam. simpl.
      destruct (Qltb t (am + eps)) eqn:Hlm.
      { apply (Hfull (set_emax 0 s)); try done; by destruct s. }
      apply Qltb_ge in Hlm.
      assert (Hstm : start_of s (emax s) am) by (exists sgm; done).
      assert (Hnlm : forall e', e' <= emax s -> ~ late s t e').
      { intros e' He' (a' & Ha' & H1 & _).
        pose proof (ar_sorted _ Hok e' (emax s) a' am He' ltac:(lia) Ha' Hstm).
        lra. }
      destruct (sweep_spec s t Hok (ne s - emax s) (emax s) (S (emax s)) s
                  (same_arena_refl s) ltac:(lia) ltac:(lia) Hfr)
        as (sx' & k & Hrun & Hsame & Hk & Hbel & Hnol & HlK & Hemax & Hstop).
      exists sx'. split; [exact Hrun|].
      destruct (Hmain s sx' (emax s) (S (emax s)) k (same_arena_refl s)
                  Hrun Hsame Hk ltac:(lia) Hbel ltac:(lia))
        as (H1 & H2 & H3 & H4 & H5); try done.
      * intros e' He'. apply Hnlm. lia.
      * apply Hnlm. lia.
Qed.

(** [coverTime(t)] on a built arena, in a state that a build or an
    earlier call has left, for a time [t <= _b + eps]: it does not fail,
    writes [elast] and [emax] only, and leaves every component with a
    latest element that holds [t]: one that begins at least [eps] before
    [t] (or with the slab) and ends no more than [eps] before [t]. *)
Theorem coverTime_covers (t : real) (s : Slab) :
  arena_ok s -> sampled s -> (0 <= eps)%Q -> (t <= _b s + eps)%Q ->
  exists s',
    coverTime t s = Some s'
    /\ same_arena s s' /\ covered_from s s'
    /\ arena_ok s' /\ sampled s'
    /\ forall i, i < N -> holds_time s' t i.
Proof. apply coverTime_sweeps. Qed.

End CoverTime.

Section BuildSampled.
Context {method : Method} {ode : ODE} {adaptivity : Adaptivity}
  {tolerance : Tolerance} {P : Type} {partition_ops : Partition P}.
Local Abbreviation Slab := (Slab P).
Local Abbreviation eps := real_epsilon.

Local Opaque create_e create_s_ed create_s computeEndTime
  countDependencies countDependencies_dry alloc_s alloc_e alloc_j alloc_d
  createTimeSlab computeDataSize allocData build coverTime.

(** ** From a build to a sample *)

(** A build leaves an arena that sampling can walk, with the last
    element of every component as its latest. *)
Lemma build_arena fuel a b (s : Slab) b' s' :
  partition_contract -> partition_stable -> partition_onto ->
  (0 < kmax)%Q -> (threshold <= 1)%Q ->
  length (elast s) = N -> (a < b)%Q ->
  build fuel a b s = Some (b', s') ->
  arena_ok s' /\ sampled s' /\ latest_is_last s'.
Proof.
  intros Hpc Hdet Honto Hk Hth Hlen Hab Hrun.
  destruct (build_invariants _ _ _ _ _ _ Hpc Hdet Hk Hth Hlen Hrun)
    as (sD & _ & _ & C2 & _ & _ & _ & _ & _ & E2 & _).
  destruct (build_creation _ _ _ _ _ _ Hlen Hrun)
    as (sc0 & sC & HC & -> & Hel0 & Hla0 & Hcov0 & N1 & N2 & _).
  simpl in C2, E2.
  pose proof (createTimeSlab_wf fuel Hpc Hk Hth _ _ _ _ _ _ HC
                (Nat.le_0_l N) Hel0 Hla0 Hcov0) as [Q1 Q2 _ _ _ Q6 Q7].
  assert (Htl0 : timeline a a sc0).
  { split.
    - intros e x He. lia.
    - intros e1 e2 a1 a2 _ He2. lia.
    - intros e x He. lia.
    - intros sigma Hs. lia. }
  pose proof (createTimeSlab_timeline a fuel Hpc Hk Hth _ _ _ _ _ _ HC
                (Nat.le_0_l N) Hel0 Hla0 Hcov0 Hab ltac:(lra)
                ltac:(intros; reflexivity) Htl0) as [T1 T2 T3 T4].
  specialize (Q7 Hab).
  assert (Hne : ne sC = next (size_e sC)) by congruence.
  assert (Hend : forall i, i < N -> ended sC i b').
  { intros i Hi. apply Q7. destruct (Honto (partition sC) i Hi) as (n & Hn & Hni).
    exists n. split; [lia|exact Hni]. }
  (* the latest element of a component is its last *)
  assert (Hlast : forall i, i < N ->
            exists x, elast sC !! i = Some (Z.of_nat x)
                      /\ x < next (size_e sC) /\ ei sC !! x = Some i
                      /\ (forall e', x < e' < next (size_e sC) ->
                            ei sC !! e' <> Some i)
                      /\ end_of sC x b').
  { intros i Hi.
    destruct (Hend i Hi) as (el & sigma & Hl & Hpos & Hes & Hsb).
    destruct (proj2 Q2 i el Hl) as [[-> _]|(_ & Hlt & Hei & Hno)]; [lia|].
    exists (Z.to_nat el). rewrite Z2Nat.id by exact Hpos.
    split_and!; try done. exists sigma. done. }
  split; [|split].
  - split; simpl.
    + exact Hne.
    + exact (proj1 Q2).
    + exact Q1.
    + exact T4.
    + intros e1 e2 a1 a2 Hle He2. rewrite Hne in He2. by apply T2.
    + intros e x He. rewrite Hne in He. by apply T3.
    + intros e i x He Hi Hno Hx. rewrite Hne in He, Hno.
      destruct (Q1 e He) as (i' & sg & p & Hi' & HiN & _).
      assert (i' = i) by congruence. subst i'.
      destruct (Hlast i HiN) as (y & Hy & Hyn & Hyi & Hyno & (sg' & Hsg' & Hb')).
      assert (y = e).
      { destruct (decide (y < e)) as [Hl|Hl'].
        - exfalso. apply (Hyno e); [lia|exact Hi].
        - destruct (decide (e < y)) as [Hg|Hg']; [|lia].
          exfalso. apply (Hno y); [lia|exact Hyi]. }
      subst y. unfold end_of in Hx. simpl in Hx.
      destruct Hx as (sg2 & Hsg2 & Hx).
      assert (sg2 = sg') by congruence. subst sg2.
      assert (x = b') by congruence. subst x. lra.
    + intros i Hi. destruct (Hlast i Hi) as (y & _ & Hyn & Hyi & _).
      exists y. rewrite Hne. done.
  - split; unfold valid_latest, below; simpl.
    + intros i Hi. destruct (Hlast i Hi) as (y & Hy & Hyn & Hyi & _).
      exists y. rewrite Hne. done.
    + right. intros e i He _ Hi. rewrite Hne in He.
      destruct (Q1 e He) as (i' & sg & p & Hi' & HiN & _).
      assert (i' = i) by congruence. subst i'.
      destruct (Hlast i HiN) as (y & Hy & Hyn & Hyi & Hyno & _).
      exists y. rewrite Hne. split_and!; try done.
      destruct (decide (e <= y)) as [|Hgt]; [done|].
      exfalso. apply (Hyno e); [lia|exact Hi].
  - intros i Hi. destruct (Hlast i Hi) as (y & Hy & Hyn & Hyi & Hyno & Hye).
    exists y. simpl. rewrite Hne. done.
Qed.

Lemma build_dofs_readable fuel a b (s : Slab) b' s' :
  length (elast s) = N -> 1 <= nsize ->
  build fuel a b s = Some (b', s') ->
  arena_ok s' -> dofs_readable s'.
Proof.
  intros Hlen Hn Hrun Hok.
  destruct (build_creation _ _ _ _ _ _ Hlen Hrun)
    as (sc0 & sC & HC & -> & _ & _ & _ & _ & N2 & N3 & _ & Hu0).
  assert (HJ0 : dofs_initial sc0).
  { split; [lia|]. intros e n He. lia. }
  apply createTimeSlab_dofs in HC as [[HJ1 HJ2] Hu]; [|exact HJ0].
  pose proof (ar_ne _ Hok) as Hne. simpl in Hne.
  split; [exact Hn|]. simpl. split.
  - destruct (ne sC) as [|k] eqn:Hk; [lia|].
    destruct (HJ2 k (nsize - 1)) as (i & x & _ & _ & Hjx); [lia..|].
    apply lookup_lt_Some in Hjx. nia.
  - destruct N as [|k] eqn:Hk; [lia|].
    destruct (ar_all _ Hok k) as (e & He & Hi); [lia|]. simpl in He, Hi.
    destruct (HJ2 e 0) as (i & x & Hi' & Hx & _); [lia..|].
    assert (i = k) by congruence. subst i.
    apply lookup_lt_Some in Hx. lia.
Qed.

(** After [build(a, b)] with [a < b], under the contracts of the
    collaborators, the slab is ready to be sampled: the arena is ordered
    in time, the latest element [elast[i]] of every component is its
    last one and ends exactly at [_b], and the dofs and initial values
    that sampling reads are there. *)
Theorem build_sampled fuel a b (s : Slab) b' s' :
  partition_contract -> partition_stable -> partition_onto ->
  (0 < kmax)%Q -> (threshold <= 1)%Q -> 1 <= nsize ->
  length (elast s) = N -> (a < b)%Q ->
  build fuel a b s = Some (b', s') ->
  arena_ok s' /\ sampled s' /\ dofs_readable s'
  /\ forall i, i < N ->
       exists x, elast s' !! i = Some (Z.of_nat x)
                 /\ x < ne s' /\ ei s' !! x = Some i
                 /\ (forall e', x < e' < ne s' -> ei s' !! e' <> Some i)
                 /\ exists sigma, es s' !! x = Some sigma
                      /\ sb s' !! sigma = Some (_b s').
Proof.
  intros Hpc Hdet Honto Hk Hth Hn Hlen Hab Hrun.
  destruct (build_arena _ _ _ _ _ _ Hpc Hdet Honto Hk Hth Hlen Hab Hrun)
    as (Hok & Hsam & Hlast).
  split; [exact Hok|]. split; [exact Hsam|].
  split; [exact (build_dofs_readable _ _ _ _ _ _ Hlen Hn Hrun Hok)|].
  exact Hlast.
Qed.

(** Coverage, then a sample of component [i]. *)
Lemma sample_usample_runs (t : real) (i : nat) (s : Slab) :
  arena_ok s -> sampled s -> dofs_readable s ->
  (0 <= eps)%Q -> (t <= _b s + eps)%Q -> i < N ->
  exists s' x v,
    sample t s = Some s'
    /\ arena_ok s' /\ sampled s' /\ dofs_readable s'
    /\ holds_time s' t i /\ elast s' !! i = Some (Z.of_nat x)
    /\ element_value x i t s' = Some v
    /\ usample i t s' = Some (v, s').
Proof.
  intros Hok Hsam (Hn & Hjx & Hu0) Heps Ht Hi.
  destruct (coverTime_sweeps t s Hok Hsam Heps Ht)
    as (s' & Hrun & Hsame & Hcf & Hok' & Hsam' & Hcov).
  assert (F : jx s' = jx s /\ u0 s' = u0 s /\ ne s' = ne s).
  { unfold covered_from in Hcf. rewrite Hcf. done. }
  destruct F as (F1 & F2 & F3).
  destruct (Hcov i Hi) as (x & a & b & Hx & Hxn & Hxi & Hst & Hen & Hh).
  destruct (arena_element s' x Hok' Hxn)
    as (i' & sigma & a' & b2 & p & Hi' & _ & Hes & Hsa & Hsb & Hp & Hprev).
  assert (Hiv : exists x0, initial_value p i s' = Some x0).
  { unfold initial_value. destruct Hprev as [[-> _]|(Hp0 & Hlt & _)].
    - simpl. unfold rd. apply lookup_lt_is_Some. rewrite F2. lia.
    - destruct (Z.eqb_spec p (-1)) as [Hneg|_]; [lia|].
      unfold rdZ.
      destruct (Z.leb_spec 0 (p * Z.of_nat nsize + Z.of_nat nsize - 1))
        as [_|Hneg]; [|nia].
      apply lookup_lt_is_Some. rewrite F1.
      assert (Z.to_nat (p * Z.of_nat nsize + Z.of_nat nsize - 1)
              < ne s * nsize); [|lia].
      rewrite F3 in Hxn. nia. }
  destruct Hiv as (x0 & Hx0).
  exists s', x,
    (ueval x0 (dofs s' (Z.of_nat x * Z.of_nat nsize)) ((t - a') / (b2 - a'))%Q).
  split; [exact Hrun|]. split; [exact Hok'|]. split; [exact Hsam'|].
  split; [unfold dofs_readable; rewrite F1, F2, F3; done|].
  split; [exists x, a, b; done|]. split; [exact Hx|].
  assert (Hev : element_value x i t s'
                = Some (ueval x0 (dofs s' (Z.of_nat x * Z.of_nat nsize))
                          ((t - a') / (b2 - a'))%Q)).
  { unfold element_value, rd. rewrite Hes. simpl. rewrite Hsa. simpl.
    rewrite Hsb. simpl. rewrite Hp. simpl. rewrite Hx0. reflexivity. }
  split; [exact Hev|].
  unfold usample, rd. rewrite Hx. simpl.
  destruct (Z.eqb_spec (Z.of_nat x) (-1)) as [Hneg|_]; [lia|]. simpl.
  rewrite !rdZ_of_nat, Hes. simpl. rewrite Hsa. simpl. rewrite Hsb. simpl.
  rewrite Hp. simpl. rewrite Hx0. reflexivity.
Qed.

(** [sample(t)] followed by [usample(i, t)], on a built arena in a state
    that a build or an earlier sample has left and for [t <= _b + eps]:
    neither fails, and [usample] returns the value at [t] of an element
    of component [i] that holds [t]. *)
Theorem sample_then_usample (t : real) (i : nat) (s : Slab) :
  arena_ok s -> sampled s -> dofs_readable s ->
  (0 <= eps)%Q -> (t <= _b s + eps)%Q -> i < N ->
  exists s' x v,
    sample t s = Some s'
    /\ arena_ok s' /\ sampled s' /\ dofs_readable s'
    /\ holds_time s' t i /\ elast s' !! i = Some (Z.of_nat x)
    /\ element_value x i t s' = Some v
    /\ usample i t s' = Some (v, s').
Proof. apply sample_usample_runs. Qed.

End BuildSampled.

Section Counting.
Context {method : Method} {ode : ODE} {adaptivity : Adaptivity}
  {tolerance : Tolerance} {P : Type} {partition_ops : Partition P}.
Local Abbreviation Slab := (Slab P).
Local Abbreviation eps := real_epsilon.

(** ** Counting slots *)

Lemma count_if_nil {A} (f : A -> bool) : count_if f [] = 0.
Proof. reflexivity. Qed.

Lemma count_if_cons {A} (f : A -> bool) x l :
  count_if f (x :: l) = (if f x then 1 else 0) + count_if f l.
Proof. unfold count_if. simpl. by destruct (f x). Qed.

Lemma count_if_app {A} (f : A -> bool) l1 l2 :
  count_if f (l1 ++ l2) = count_if f l1 + count_if f l2.
Proof. unfold count_if. by rewrite List.filter_app, length_app. Qed.

Lemma count_if_ext {A} (f g : A -> bool) l :
  (forall x, x ∈ l -> f x = g x) -> count_if f l = count_if g l.
Proof.
  induction l as [|x l IH]; intros Hfg; [done|].
  rewrite !count_if_cons, IH.
  - rewrite (Hfg x); [done|by left].
  - intros y Hy. apply Hfg. by right.
Qed.

Lemma count_if_none {A} (f : A -> bool) l :
  (forall x, x ∈ l -> f x = false) -> count_if f l = 0.
Proof.
  induction l as [|x l IH]; intros Hf; [done|].
  rewrite count_if_cons, IH.
  - rewrite (Hf x); [done|by left].
  - intros y Hy. apply Hf. by right.
Qed.

Lemma count_if_le {A} (f : A -> bool) l : count_if f l <= length l.
Proof.
  induction l as [|x l IH]; [done|].
  rewrite count_if_cons. simpl. destruct (f x); lia.
Qed.

Lemma count_if_all {A} (f : A -> bool) l :
  (forall x, x ∈ l -> f x = true) -> count_if f l = length l.
Proof.
  induction l as [|x l IH]; intros Hf; [done|].
  rewrite count_if_cons, IH.
  - rewrite (Hf x); [done|by left].
  - intros y Hy. apply Hf. by right.
Qed.

Lemma count_if_full {A} (f : A -> bool) l :
  count_if f l = length l -> forall x, x ∈ l -> f x = true.
Proof.
  induction l as [|x l IH]; intros Hc y Hy.
  - by apply elem_of_nil in Hy.
  - rewrite count_if_cons in Hc. simpl in Hc.
    pose proof (count_if_le f l).
    apply elem_of_cons in Hy as [->|Hy].
    + destruct (f x); [done|lia].
    + apply IH; [|done]. destruct (f x); lia.
Qed.

(** Two conditions that never hold together are counted apart. *)
Lemma count_if_or {A} (f g : A -> bool) l :
  (forall x, x ∈ l -> f x = true -> g x = true -> False) ->
  count_if (fun x => f x || g x) l = count_if f l + count_if g l.
Proof.
  induction l as [|x l IH]; intros Hd; [done|].
  rewrite !count_if_cons, IH.
  - assert (Hx := Hd x ltac:(by left)).
    destruct (f x), (g x); simpl; first [lia | exfalso; by apply Hx].
  - intros y Hy. apply Hd. by right.
Qed.

Lemma count_if_prod {A B} (f : A -> bool) (g : B -> bool) l1 l2 :
  count_if (fun p => f p.1 && g p.2) (list_prod l1 l2)
  = count_if f l1 * count_if g l2.
Proof.
  induction l1 as [|x l1 IH]; [done|].
  simpl. rewrite count_if_app, IH, count_if_cons.
  match goal with |- count_if _ ?m + _ = _ =>
    assert (count_if (fun p : A * B => f p.1 && g p.2) m
            = (if f x then 1 else 0) * count_if g l2) as ->; [|lia] end.
  clear IH. induction l2 as [|y l2 IH2]; simpl.
  - unfold count_if. simpl. lia.
  - rewrite !count_if_cons, IH2. simpl. destruct (f x), (g y); simpl; lia.
Qed.

(** In a list without repetition one entry at most equals [i]. *)
Lemma count_if_single (f : nat -> bool) (i : nat) l :
  NoDup l ->
  count_if (fun x => Nat.eqb x i && f x) l
  = if decide (i ∈ l) then (if f i then 1 else 0) else 0.
Proof.
  induction 1 as [|x l Hx Hnd IH].
  - by destruct (decide (i ∈ [])) as [Hi|]; [apply elem_of_nil in Hi|].
  - rewrite count_if_cons, IH.
    destruct (Nat.eqb_spec x i) as [->|Hne]; simpl.
    + destruct (decide (i ∈ i :: l)) as [_|Hn]; [|by exfalso; apply Hn; left].
      destruct (decide (i ∈ l)); [done|]. lia.
    + destruct (decide (i ∈ l)) as [Hi|Hi],
               (decide (i ∈ x :: l)) as [Hi'|Hi']; try done.
      * exfalso. apply Hi'. by right.
      * apply elem_of_cons in Hi' as [->|Hi']; done.
Qed.

(** Changing the answer at one entry from no to yes adds one. *)
Lemma count_if_flip (f g : nat -> bool) (d : nat) l :
  NoDup l -> d ∈ l -> f d = false -> g d = true ->
  (forall x, x ∈ l -> x <> d -> g x = f x) ->
  count_if g l = S (count_if f l).
Proof.
  induction 1 as [|x l Hx Hnd IH]; intros Hd Hf Hg Hsame.
  - by apply elem_of_nil in Hd.
  - rewrite !count_if_cons.
    apply elem_of_cons in Hd as [->|Hd].
    + rewrite Hf, Hg. simpl. f_equal. apply count_if_ext.
      intros y Hy. apply Hsame; [by right|]. intros ->. done.
    + rewrite IH; try done.
      * rewrite (Hsame x); [lia|by left|]. intros ->. done.
      * intros y Hy. apply Hsame. by right.
Qed.

Lemma taken_insert (l : list Z) d v j :
  taken (<[d:=v]> l) j
  = if decide (j = d /\ d < length l) then (0 <=? v)%Z else taken l j.
Proof.
  unfold taken. destruct (decide (j = d /\ d < length l)) as [[-> Hd]|Hn].
  - by rewrite list_lookup_insert_eq.
  - destruct (decide (j = d)) as [->|Hne].
    + rewrite !(lookup_ge_None_2 _ d); try done; [lia|].
      rewrite length_insert. lia.
    + by rewrite list_lookup_insert_ne.
Qed.

(** Writing an element into an empty slot of the range fills one more. *)
Lemma filled_insert (l : list Z) lo cnt d v :
  lo <= d < lo + cnt -> l !! d = Some (-1)%Z -> (0 <= v)%Z ->
  filled (<[d:=v]> l) lo cnt = S (filled l lo cnt).
Proof.
  intros Hd Hl Hv. unfold filled.
  assert (Hlen : d < length l) by (by eapply lookup_lt_Some).
  apply (count_if_flip _ _ d).
  - apply NoDup_seq.
  - apply elem_of_seq. lia.
  - unfold taken. by rewrite Hl.
  - rewrite taken_insert. rewrite decide_True; [|done].
    by apply Z.leb_le.
  - intros j _ Hj. rewrite taken_insert. rewrite decide_False; [done|].
    intros [? _]. done.
Qed.

(** Writing elsewhere leaves the range as it is. *)
Lemma filled_insert_other (l : list Z) lo cnt d v :
  ~ lo <= d < lo + cnt ->
  filled (<[d:=v]> l) lo cnt = filled l lo cnt.
Proof.
  intros Hd. unfold filled. apply count_if_ext.
  intros j Hj%elem_of_seq. rewrite taken_insert.
  rewrite decide_False; [done|]. intros [-> _]. lia.
Qed.

Lemma filled_empty (l : list Z) lo cnt :
  (forall j, lo <= j < lo + cnt -> l !! j = Some (-1)%Z) ->
  filled l lo cnt = 0.
Proof.
  intros Hl. unfold filled. apply count_if_none.
  intros j Hj%elem_of_seq. unfold taken. by rewrite Hl.
Qed.

(** In a range that is filled up no sentinel is left. *)
Lemma filled_full (l : list Z) lo cnt :
  filled l lo cnt = cnt ->
  forall j, lo <= j < lo + cnt ->
    exists z, l !! j = Some z /\ (0 <= z)%Z.
Proof.
  intros Hf j Hj. unfold filled in Hf.
  assert (Hall : count_if (taken l) (seq lo cnt) = length (seq lo cnt))
    by (by rewrite length_seq).
  pose proof (count_if_full _ _ Hall j) as Ht.
  unfold taken in Ht. destruct (l !! j) as [z|].
  - exists z. split; [done|].
    specialize (Ht ltac:(apply elem_of_seq; lia)).
    by apply Z.leb_le.
  - specialize (Ht ltac:(apply elem_of_seq; lia)). done.
Qed.

End Counting.

Section Laminar.
Context {method : Method} {ode : ODE} {adaptivity : Adaptivity}
  {tolerance : Tolerance} {P : Type} {partition_ops : Partition P}.
Local Abbreviation Slab := (Slab P).
Local Abbreviation eps := real_epsilon.

(** ** The sub-slabs in time *)

Lemma begin_at_Some (s : Slab) sigma a :
  sa s !! sigma = Some a -> begin_at s sigma = a.
Proof. unfold begin_at. by intros ->. Qed.

Lemma end_at_Some (s : Slab) sigma b :
  sb s !! sigma = Some b -> end_at s sigma = b.
Proof. unfold end_at. by intros ->. Qed.

Lemma slab_of_Some (s : Slab) e sigma :
  es s !! e = Some sigma -> slab_of s e = sigma.
Proof. unfold slab_of. by intros ->. Qed.

Lemma comp_of_Some (s : Slab) e i :
  ei s !! e = Some i -> comp_of s e = i.
Proof. unfold comp_of. by intros ->. Qed.

(** What [elems_ok] says of one element, with the defaults. *)
Lemma element_facts (s : Slab) e :
  elems_ok s -> e < next (size_e s) ->
  ei s !! e = Some (comp_of s e) /\ comp_of s e < N
  /\ es s !! e = Some (slab_of s e) /\ slab_of s e < next (size_s s).
Proof.
  intros Hel He.
  destruct (Hel e He) as (i & sg & p & Hi & HiN & Hsg & Hsgn & _).
  rewrite (comp_of_Some _ _ _ Hi), (slab_of_Some _ _ _ Hsg). done.
Qed.

(** The element before [e] in its component ends where [e] begins. *)
Lemma previous_facts (s : Slab) e :
  elems_ok s -> e < next (size_e s) ->
  (forall e', e' < e -> comp_of s e' <> comp_of s e)
  \/ exists p, p < e /\ comp_of s p = comp_of s e
       /\ (forall e', p < e' < e -> comp_of s e' <> comp_of s e)
       /\ right_end s p = left_end s e.
Proof.
  intros Hel He.
  destruct (Hel e He) as (i & sg & p & Hi & HiN & Hsg & Hsgn & Hp & Hpr).
  rewrite (comp_of_Some _ _ _ Hi).
  assert (Hcmp : forall e', e' < next (size_e s) ->
            ei s !! e' <> Some i -> comp_of s e' <> i).
  { intros e' He' Hne Heq.
    destruct (element_facts s e' Hel He') as (Hi' & _). congruence. }
  destruct Hpr as [[_ Hnone]|(H0 & Hlt & Hpi & Hnone & sp & t & Hsp & Hsb & Hsa)].
  - left. intros e' He'. apply Hcmp; [lia|]. by apply Hnone.
  - right. exists (Z.to_nat p). split_and!; try done.
    + by apply comp_of_Some.
    + intros e' He'. apply Hcmp; [lia|]. by apply Hnone.
    + unfold right_end, left_end.
      rewrite (slab_of_Some _ _ _ Hsp), (slab_of_Some _ _ _ Hsg).
      by rewrite (end_at_Some _ _ _ Hsb), (begin_at_Some _ _ _ Hsa).
Qed.

(** The elements of one component follow each other in time. *)
Lemma comp_order (s : Slab) :
  elems_ok s -> laminar s ->
  forall y x, x < y -> y < next (size_e s) ->
    comp_of s x = comp_of s y ->
    (right_end s x <= left_end s y)%Q.
Proof.
  intros Hel Hlam y.
  induction (lt_wf y) as [y _ IH]. intros x Hxy Hy Hc.
  destruct (previous_facts s y Hel Hy) as [Hnone|(p & Hp & Hpc & Hbet & Hend)].
  - exfalso. by apply (Hnone x).
  - destruct (decide (x = p)) as [->|Hne].
    + rewrite Hend. lra.
    + assert (x < p).
      { destruct (decide (p < x)); [|lia]. exfalso. apply (Hbet x); [lia|done]. }
      assert (Hxp := IH p Hp x ltac:(lia) ltac:(lia) ltac:(congruence)).
      destruct (element_facts s p Hel ltac:(lia)) as (_ & _ & _ & Hsp).
      pose proof (lm_pos _ Hlam _ Hsp) as Hpos.
      rewrite <- Hend. unfold right_end, left_end in *. lra.
Qed.

(** The latest element of a component, with the defaults. *)
Lemma latest_facts (s : Slab) i :
  elems_ok s -> elast_ok s -> i < N ->
  (elast s !! i = Some (-1)%Z
   /\ forall e, e < next (size_e s) -> comp_of s e <> i)
  \/ exists x, elast s !! i = Some (Z.of_nat x)
       /\ x < next (size_e s) /\ comp_of s x = i
       /\ forall e, x < e < next (size_e s) -> comp_of s e <> i.
Proof.
  intros Hel [Hlen Hla] Hi.
  destruct (lookup_lt_is_Some_2 (elast s) i ltac:(lia)) as [el Hl].
  assert (Hcmp : forall e', e' < next (size_e s) ->
            ei s !! e' <> Some i -> comp_of s e' <> i).
  { intros e' He' Hne Heq.
    destruct (element_facts s e' Hel He') as (Hi' & _). congruence. }
  destruct (Hla i el Hl) as [[-> Hnone]|(H0 & Hlt & Hei & Hnone)].
  - left. split; [done|]. intros e He. apply Hcmp; [done|]. by apply Hnone.
  - right. exists (Z.to_nat el). rewrite Z2Nat.id by done.
    split_and!; try done.
    + by apply comp_of_Some.
    + intros e He. apply Hcmp; [lia|]. by apply Hnone.
Qed.

(** Later states read the same arena below the old counters. *)
Lemma begin_at_extends (s s' : Slab) sigma :
  extends s s' -> sigma < next (size_s s) ->
  begin_at s' sigma = begin_at s sigma.
Proof. intros Hx Hs. unfold begin_at. by rewrite (ext_sa _ _ Hx). Qed.

Lemma end_at_extends (s s' : Slab) sigma :
  extends s s' -> sigma < next (size_s s) ->
  end_at s' sigma = end_at s sigma.
Proof. intros Hx Hs. unfold end_at. by rewrite (ext_sb _ _ Hx). Qed.

Lemma slab_of_extends (s s' : Slab) e :
  extends s s' -> e < next (size_e s) -> slab_of s' e = slab_of s e.
Proof. intros Hx Hs. unfold slab_of. by rewrite (ext_es _ _ Hx). Qed.

Lemma comp_of_extends (s s' : Slab) e :
  extends s s' -> e < next (size_e s) -> comp_of s' e = comp_of s e.
Proof. intros Hx Hs. unfold comp_of. by rewrite (ext_ei _ _ Hx). Qed.

Lemma left_end_extends (s s' : Slab) e :
  elems_ok s -> extends s s' -> e < next (size_e s) ->
  left_end s' e = left_end s e.
Proof.
  intros Hel Hx He. unfold left_end.
  rewrite (slab_of_extends s s') by done.
  apply begin_at_extends; [done|]. by apply element_facts.
Qed.

Lemma right_end_extends (s s' : Slab) e :
  elems_ok s -> extends s s' -> e < next (size_e s) ->
  right_end s' e = right_end s e.
Proof.
  intros Hel Hx He. unfold right_end.
  rewrite (slab_of_extends s s') by done.
  apply end_at_extends; [done|]. by apply element_facts.
Qed.

Lemma node_of_extends (s s' : Slab) e n :
  elems_ok s -> extends s s' -> e < next (size_e s) ->
  node_of s' e n = node_of s e n.
Proof.
  intros Hel Hx He. unfold node_of.
  by rewrite (left_end_extends s s'), (right_end_extends s s').
Qed.

Lemma nodes_inside_extends (s s' : Slab) :
  extends s s' -> nodes_inside s' -> nodes_inside s.
Proof.
  intros Hx Hn sigma n Hs Hlt.
  rewrite <- (begin_at_extends s s'), <- (end_at_extends s s') by done.
  apply Hn; [|done]. pose proof (ext_next_s _ _ Hx). lia.
Qed.

Lemma usable_extends (s s' : Slab) :
  extends s s' -> usable s' -> usable s.
Proof.
  intros Hx (Hsp & Heps & Hn & He & Hd). split_and!; [done|done|..].
  - by eapply nodes_inside_extends.
  - pose proof (ext_next_e _ _ Hx). pose proof (ext_static _ _ Hx) as Hs.
    assert (ne s' = ne s) as <- by (rewrite Hs; done). lia.
  - pose proof (ext_next_d _ _ Hx). pose proof (ext_static _ _ Hx) as Hs.
    assert (nd s' = nd s) as <- by (rewrite Hs; done). lia.
Qed.

(** A nodal point of an element lies in it, after its start by more than
    the tolerance. *)
Lemma node_inside (s : Slab) e n :
  elems_ok s -> nodes_inside s -> e < next (size_e s) -> n < nsize ->
  (left_end s e + eps < node_of s e n)%Q
  /\ (node_of s e n <= right_end s e)%Q.
Proof.
  intros Hel Hn He Hlt. unfold node_of, left_end, right_end.
  apply Hn; [|done]. by apply element_facts.
Qed.

End Laminar.

Section Slots.
Context {method : Method} {ode : ODE} {adaptivity : Adaptivity}
  {tolerance : Tolerance} {P : Type} {partition_ops : Partition P}.
Local Abbreviation Slab := (Slab P).
Local Abbreviation eps := real_epsilon.

(** ** The slots of an element and the elements that fill them *)

Lemma forallb_same {A} (f g : A -> bool) l :
  (forall x, x ∈ l -> f x = g x) -> forallb f l = forallb g l.
Proof.
  induction l as [|x l IH]; intros Hfg; [done|]. simpl.
  rewrite IH, (Hfg x); [done|by left|].
  intros y Hy. apply Hfg. by right.
Qed.

Lemma existsb_same {A} (f g : A -> bool) l :
  (forall x, x ∈ l -> f x = g x) -> existsb f l = existsb g l.
Proof.
  induction l as [|x l IH]; intros Hfg; [done|]. simpl.
  rewrite IH, (Hfg x); [done|by left|].
  intros y Hy. apply Hfg. by right.
Qed.

(** *** One more element *)

Lemma counted_to_S E (s : Slab) e1 i0 :
  counted_to (S E) s e1 i0
  = counted_to E s e1 i0
    && implb (Nat.eqb (comp_of s E) i0 && (slab_of s E <=? slab_of s e1))
             (Qltb (right_end s E) (right_end s e1 - eps)).
Proof.
  unfold counted_to. rewrite seq_S, forallb_app. simpl.
  by rewrite andb_true_r.
Qed.

Lemma passed_to_S E (s : Slab) e1 i0 n :
  passed_to (S E) s e1 i0 n
  = passed_to E s e1 i0 n
    || Nat.eqb (comp_of s E) i0 && (slab_of s e1 <? slab_of s E)
       && hit s e1 n E.
Proof.
  unfold passed_to. rewrite seq_S, existsb_app. simpl.
  by rewrite orb_false_r.
Qed.

(** An element in a later sub-slab does not change the count. *)
Lemma counted_to_later E (s : Slab) e1 i0 :
  slab_of s e1 < slab_of s E ->
  counted_to (S E) s e1 i0 = counted_to E s e1 i0.
Proof.
  intros Hlt. rewrite counted_to_S.
  destruct (Nat.leb_spec (slab_of s E) (slab_of s e1)); [lia|].
  rewrite andb_false_r. simpl. by rewrite andb_true_r.
Qed.

Lemma dim_to_later E (s : Slab) e1 :
  slab_of s e1 < slab_of s E ->
  dim_to (S E) s e1 = dim_to E s e1.
Proof.
  intros Hlt. unfold dim_to. f_equal. apply count_if_ext.
  intros i _. by apply counted_to_later.
Qed.

Lemma offs_to_later E (s : Slab) m :
  (forall e, e < m -> slab_of s e < slab_of s E) ->
  offs_to (S E) s m = offs_to E s m.
Proof.
  induction m as [|m IH]; intros Hlt; [done|]. simpl.
  rewrite IH, dim_to_later; [done| |]; auto.
Qed.

(** *** The same arena below the counters *)

Lemma counted_to_extends E (s s' : Slab) e1 i0 :
  elems_ok s -> extends s s' ->
  E <= next (size_e s) -> e1 < next (size_e s) ->
  counted_to E s' e1 i0 = counted_to E s e1 i0.
Proof.
  intros Hel Hx HE He1. unfold counted_to. apply forallb_same.
  intros y Hy%elem_of_seq.
  rewrite (comp_of_extends s s'), !(slab_of_extends s s'),
    !(right_end_extends s s') by (done || lia).
  done.
Qed.

Lemma hit_extends (s s' : Slab) e1 n y :
  elems_ok s -> extends s s' ->
  y < next (size_e s) -> e1 < next (size_e s) ->
  hit s' e1 n y = hit s e1 n y.
Proof.
  intros Hel Hx Hy He1. unfold hit.
  by rewrite (node_of_extends s s'), (left_end_extends s s'),
    (right_end_extends s s').
Qed.

Lemma passed_to_extends E (s s' : Slab) e1 i0 n :
  elems_ok s -> extends s s' ->
  E <= next (size_e s) -> e1 < next (size_e s) ->
  passed_to E s' e1 i0 n = passed_to E s e1 i0 n.
Proof.
  intros Hel Hx HE He1. unfold passed_to. apply existsb_same.
  intros y Hy%elem_of_seq.
  rewrite (comp_of_extends s s'), !(slab_of_extends s s'),
    (hit_extends s s') by (done || lia).
  done.
Qed.

Lemma dim_to_extends E (s s' : Slab) e1 :
  elems_ok s -> extends s s' ->
  E <= next (size_e s) -> e1 < next (size_e s) ->
  dim_to E s' e1 = dim_to E s e1.
Proof.
  intros Hel Hx HE He1. unfold dim_to.
  rewrite (comp_of_extends s s') by done. f_equal.
  apply count_if_ext. intros i _. by apply counted_to_extends.
Qed.

Lemma offs_to_extends E (s s' : Slab) m :
  elems_ok s -> extends s s' ->
  E <= next (size_e s) -> m <= next (size_e s) ->
  offs_to E s' m = offs_to E s m.
Proof.
  intros Hel Hx HE. induction m as [|m IH]; intros Hm; [done|]. simpl.
  rewrite IH by lia. by rewrite (dim_to_extends E s s') by (done || lia).
Qed.

Lemma due_to_extends E (s s' : Slab) e1 :
  elems_ok s -> extends s s' ->
  E <= next (size_e s) -> e1 < next (size_e s) ->
  due_to E s' e1 = due_to E s e1.
Proof.
  intros Hel Hx HE He1. unfold due_to.
  rewrite (comp_of_extends s s') by done.
  apply count_if_ext. intros p _.
  by rewrite (counted_to_extends E s s'), (passed_to_extends E s s').
Qed.

Lemma small_peer_extends (s s' : Slab) e1 y :
  elems_ok s -> extends s s' -> e1 < next (size_e s) ->
  small_peer s e1 y -> small_peer s' e1 y.
Proof.
  intros Hel Hx He1 (Hy & Hc & Hs & Hw & n & Hn & Hh).
  pose proof (ext_next_e _ _ Hx).
  unfold small_peer.
  rewrite !(comp_of_extends s s'), !(slab_of_extends s s'),
    !(left_end_extends s s'), !(right_end_extends s s') by done.
  split_and!; try done; [lia|].
  exists n. by rewrite (hit_extends s s').
Qed.

(** The slots of the elements follow each other. *)
Lemma offs_to_mono E (s : Slab) m m' :
  m <= m' -> offs_to E s m <= offs_to E s m'.
Proof.
  induction 1 as [|m' _ IH]; [done|]. simpl. lia.
Qed.

Lemma offs_to_next E (s : Slab) e m :
  e < m -> offs_to E s e + dim_to E s e <= offs_to E s m.
Proof.
  intros He. apply (offs_to_mono E s (S e) m). lia.
Qed.

End Slots.

Section CreateD.
Context {method : Method} {ode : ODE} {adaptivity : Adaptivity}
  {tolerance : Tolerance} {P : Type} {partition_ops : Partition P}.
Local Abbreviation Slab := (Slab P).
Local Abbreviation eps := real_epsilon.

(** ** What [create_d] fills *)

Lemma view_set_de (s sr : Slab) l : view s sr -> view s (set_de l sr).
Proof. by destruct sr. Qed.

(** The latest element of a component, when [elast] can be read. *)
Lemma latest_cases (s : Slab) i el :
  elems_ok s -> elast_ok s -> elast s !! i = Some el ->
  (el = (-1)%Z /\ forall e, e < next (size_e s) -> comp_of s e <> i)
  \/ exists x, el = Z.of_nat x
       /\ x < next (size_e s) /\ comp_of s x = i
       /\ forall e, x < e < next (size_e s) -> comp_of s e <> i.
Proof.
  intros Hel [Hlen Hla] Hl.
  assert (Hcmp : forall e', e' < next (size_e s) ->
            ei s !! e' <> Some i -> comp_of s e' <> i).
  { intros e' He' Hne Heq.
    destruct (element_facts s e' Hel He') as (Hi' & _). congruence. }
  destruct (Hla i el Hl) as [[-> Hnone]|(H0 & Hlt & Hei & Hnone)].
  - left. split; [done|]. intros e He. apply Hcmp; [done|]. by apply Hnone.
  - right. exists (Z.to_nat el). rewrite Z2Nat.id by done.
    split_and!; try done.
    + by apply comp_of_Some.
    + intros e He. apply Hcmp; [lia|]. by apply Hnone.
Qed.

Section OneElement.
Variables (s : Slab) (m e0 s0 : nat) (a0 b0 : real).
Hypothesis Hel : elems_ok s.
Hypothesis Hla : elast_ok s.
Hypothesis Hed : forall e, e <= m -> e < ne s -> 1 <= m ->
  ed s !! e = Some (offs_to (next (size_e s)) s e).
Hypothesis Hm : m < ne s.
Hypothesis HmE : m <= next (size_e s).
Hypothesis Hbatch : forall e, m <= e < next (size_e s) -> slab_of s e = s0.

Local Abbreviation O := (offs_to (next (size_e s)) s).
Local Abbreviation Dm := (dim_to (next (size_e s)) s).

(** The nodal points of one element [x]. *)
Lemma create_d_nodes (sx sx' : Slab) x a1 b1 :
  view s sx -> x < m ->
  for_range 0 nsize (fun n s =>
    let t := (a1 + (b1 - a1) * npoint n)%Q in
    if within_time t a0 b0 then
      lo ← rdZ (ed s) (Z.of_nat x);
      hi ← rdZ (ed s) (Z.of_nat x + 1);
      d ← find_free (de s) lo (hi - lo);
      de' ← wr (de s) d (Z.of_nat e0);
      Some (set_de de' s)
    else Some s) sx = Some sx' ->
  sx' = set_de (de sx') sx
  /\ filled (de sx') (O x) (Dm x)
     = filled (de sx) (O x) (Dm x)
       + count_if (fun n => within_time (a1 + (b1 - a1) * npoint n) a0 b0)
           (seq 0 nsize)
  /\ (forall e, e < m -> e <> x ->
        filled (de sx') (O e) (Dm e) = filled (de sx) (O e) (Dm e))
  /\ (forall j, O m <= j -> de sx' !! j = de sx !! j).
Proof.
  intros Hv Hx Hrun.
  eapply (for_range_run (fun k (sy : Slab) =>
    sy = set_de (de sy) sx
    /\ filled (de sy) (O x) (Dm x)
       = filled (de sx) (O x) (Dm x)
         + count_if (fun n => within_time (a1 + (b1 - a1) * npoint n) a0 b0)
             (seq 0 k)
    /\ (forall e, e < m -> e <> x ->
          filled (de sy) (O e) (Dm e) = filled (de sx) (O e) (Dm e))
    /\ (forall j, O m <= j -> de sy !! j = de sx !! j)) 0 nsize);
    [exact Hrun|lia| |].
  - split; [by destruct sx|]. split; [simpl; rewrite count_if_nil; lia|].
    split; intros; reflexivity.
  - intros k sy sy' Hk (I0 & I1 & I2 & I3) Hb. simpl in Hb.
    rewrite seq_S, count_if_app, count_if_cons, count_if_nil. simpl.
    destruct (within_time _ _ _).
    2:{ inversion Hb; subst sy'. split_and!; try done.
        rewrite I1. lia. }
    assert (Hvy : view s sy) by (rewrite I0; by apply view_set_de).
    destruct Hvy as (_ & _ & _ & Hedy & _).
    apply bind_Some in Hb as (lo & Hlo & Hb).
    apply bind_Some in Hb as (hi & Hhi & Hb).
    apply bind_Some in Hb as (d & Hd & Hb).
    apply bind_Some in Hb as (de' & [Hlt ->]%wr_Some & Hb).
    inversion Hb; subst sy'. clear Hb. simpl.
    rewrite rdZ_of_nat, Hedy, Hed in Hlo by lia.
    replace (Z.of_nat x + 1)%Z with (Z.of_nat (S x)) in Hhi by lia.
    rewrite rdZ_of_nat, Hedy, Hed in Hhi by lia.
    inversion Hlo; subst lo. inversion Hhi; subst hi. clear Hlo Hhi.
    simpl in Hd. replace (O x + Dm x - O x) with (Dm x) in Hd by lia.
    apply find_free_spec in Hd as [Hr Hfree].
    split; [rewrite I0; reflexivity|]. split_and!.
    + rewrite filled_insert; [|done|done|lia]. rewrite I1. lia.
    + intros e He Hne. rewrite filled_insert_other; [by apply I2|].
      destruct (decide (e < x)).
      * pose proof (offs_to_next (next (size_e s)) s e x ltac:(lia)). lia.
      * pose proof (offs_to_next (next (size_e s)) s x e ltac:(lia)). lia.
    + intros j Hj. rewrite list_lookup_insert_ne; [by apply I3|].
      pose proof (offs_to_next (next (size_e s)) s x m ltac:(lia)). lia.
Qed.

(** One component [i1] of the transpose. *)
Lemma create_d_dep_fill (sx sx' : Slab) i1 :
  view s sx ->
  create_d_dep e0 s0 a0 b0 i1 sx = Some sx' ->
  view s sx'
  /\ (forall e, e < m ->
        filled (de sx') (O e) (Dm e)
        = filled (de sx) (O e) (Dm e)
          + (if target s a0 b0 s0 e && Nat.eqb (comp_of s e) i1
             then nodes_within s a0 b0 e else 0))
  /\ (forall j, O m <= j -> de sx' !! j = de sx !! j).
Proof.
  intros Hv Hrun.
  pose proof Hv as (Hvl & Hva & Hvb & Hvd & Hvs).
  unfold create_d_dep in Hrun.
  apply bind_Some in Hrun as (e1 & He1 & Hrun).
  unfold rd in He1. rewrite Hvl in He1.
  assert (Hother : forall e, e < m -> Z.of_nat e <> e1 ->
            target s a0 b0 s0 e && Nat.eqb (comp_of s e) i1 = false).
  { intros e He Hne. destruct (Nat.eqb_spec (comp_of s e) i1) as [Hc|];
      [|by rewrite andb_false_r].
    unfold target. rewrite Hc, He1.
    rewrite bool_decide_eq_false_2; [done|]. intros [= ->]. done. }
  destruct (latest_cases s i1 e1 Hel Hla He1)
    as [[-> Hnone]|(x & -> & HxE & Hxc & Hlast)].
  { simpl in Hrun. inversion Hrun; subst sx'. split_and!; try done.
    intros e He. rewrite Hother; [lia|done|lia]. }
  destruct (Z.eqb_spec (Z.of_nat x) (-1)) as [|_]; [lia|].
  apply bind_Some in Hrun as (s1 & Hs1 & Hrun).
  apply bind_Some in Hrun as (a1 & Ha1 & Hrun).
  apply bind_Some in Hrun as (b1 & Hb1 & Hrun).
  rewrite rdZ_of_nat, Hvs in Hs1 by done.
  unfold rd in Ha1, Hb1. rewrite Hva in Ha1. rewrite Hvb in Hb1.
  assert (Hsl : slab_of s x = s1) by (by apply slab_of_Some).
  assert (Hle : left_end s x = a1).
  { unfold left_end. rewrite Hsl. by apply begin_at_Some. }
  assert (Hre : right_end s x = b1).
  { unfold right_end. rewrite Hsl. by apply end_at_Some. }
  destruct (negb (within_interval a0 b0 a1 b1) || bool_decide (s0 = s1))
    eqn:Hskip.
  { inversion Hrun; subst sx'. split_and!; try done.
    intros e He. destruct (decide (e = x)) as [->|Hne].
    - unfold target. rewrite Hle, Hre, Hsl.
      apply orb_true_iff in Hskip as [Hs|Hs].
      + apply negb_true_iff in Hs. rewrite Hs, andb_false_r. simpl. lia.
      + rewrite Hs. simpl. rewrite andb_false_r. simpl. lia.
    - rewrite Hother; [lia|done|lia]. }
  apply orb_false_iff in Hskip as [Hwi Hne0].
  apply negb_false_iff in Hwi. apply bool_decide_eq_false in Hne0.
  assert (Hxm : x < m).
  { destruct (decide (x < m)); [done|]. exfalso. apply Hne0.
    symmetry. rewrite <- Hsl. apply Hbatch. lia. }
  apply create_d_nodes in Hrun as (Heq & Hfx & Hfo & Hbeyond); try done.
  split_and!; try done.
  - rewrite Heq. by apply view_set_de.
  - intros e He. destruct (decide (e = x)) as [->|Hne].
    + rewrite Hfx. f_equal.
      assert (target s a0 b0 s0 x = true) as ->.
      { unfold target. rewrite Hxc, He1, Hle, Hre, Hwi, Hsl.
        rewrite bool_decide_eq_true_2 by done.
        rewrite (bool_decide_eq_false_2 _ Hne0). done. }
      rewrite Hxc, Nat.eqb_refl. simpl.
      unfold nodes_within, node_of. by rewrite Hle, Hre.
    + rewrite Hfo by done. rewrite Hother; [lia|done|lia].
Qed.

(** All components of a list without repetition. *)
Lemma create_d_list_fill l :
  NoDup l ->
  forall sx sx' : Slab,
  view s sx ->
  for_each (create_d_dep e0 s0 a0 b0) l sx = Some sx' ->
  view s sx'
  /\ (forall e, e < m ->
        filled (de sx') (O e) (Dm e)
        = filled (de sx) (O e) (Dm e)
          + (if target s a0 b0 s0 e && bool_decide (comp_of s e ∈ l)
             then nodes_within s a0 b0 e else 0))
  /\ (forall j, O m <= j -> de sx' !! j = de sx !! j).
Proof.
  induction 1 as [|i1 l Hi1 Hnd IH]; intros sx sx' Hv Hrun.
  - simpl in Hrun. inversion Hrun; subst sx'. split_and!; try done.
    intros e He. rewrite bool_decide_eq_false_2, andb_false_r; [lia|].
    apply not_elem_of_nil.
  - simpl in Hrun. apply bind_Some in Hrun as (s1 & H1 & H2).
    apply create_d_dep_fill in H1 as (Hv1 & Hf1 & Hb1); [|done].
    apply IH in H2 as (Hv2 & Hf2 & Hb2); [|done].
    split_and!; try done.
    + intros e He. rewrite Hf2, Hf1 by done.
      destruct (target s a0 b0 s0 e); simpl; [|lia].
      destruct (Nat.eqb_spec (comp_of s e) i1) as [Hc|Hc].
      * rewrite (bool_decide_eq_false_2 (comp_of s e ∈ l)) by (by rewrite Hc).
        rewrite bool_decide_eq_true_2; [lia|]. rewrite Hc. by left.
      * destruct (decide (comp_of s e ∈ l)) as [Hin|Hin].
        -- rewrite !bool_decide_eq_true_2; [lia|by right|done].
        -- rewrite !bool_decide_eq_false_2; [lia| |done].
           intros [?|?]%elem_of_cons; done.
    + intros j Hj. rewrite Hb2, Hb1 by done. done.
Qed.

End OneElement.

End CreateD.

Section CreateE.
Context {method : Method} {ode : ODE} {adaptivity : Adaptivity}
  {tolerance : Tolerance} {P : Type} {partition_ops : Partition P}.
Local Abbreviation Slab := (Slab P).
Local Abbreviation eps := real_epsilon.

Local Opaque create_d create_j.

(** ** One element more *)

(** [create_e] runs [create_d] for the new element in a state that reads
    as the one before. *)
Lemma create_e_run index sigma a b (s s' : Slab) :
  create_e index sigma a b s = Some s' ->
  exists sr sd,
    view s sr /\ de sr = de s
    /\ create_d index (next (size_e s)) sigma a b sr = Some sd
    /\ de s' = de sd.
Proof.
  unfold create_e. intros Hrun.
  apply bind_Some in Hrun as (_ & Ha%assert_Some & Hrun).
  apply bind_Some in Hrun as (ei' & [? ->]%wr_Some & Hrun).
  apply bind_Some in Hrun as (es' & [? ->]%wr_Some & Hrun).
  apply bind_Some in Hrun as (el & Hel & Hrun).
  apply bind_Some in Hrun as (ee' & [? ->]%wr_Some & Hrun).
  apply bind_Some in Hrun as (s1 & Hj & Hrun).
  apply bind_Some in Hrun as (s2 & Hd & Hrun).
  apply bind_Some in Hrun as (elast' & [? ->]%wr_Some & Hrun).
  inversion Hrun; subst s'. clear Hrun.
  exists s1, s2. simpl in *.
  apply create_j_eq in Hj as [Hj _].
  split_and!; try done.
  - rewrite Hj. unfold view. simpl. split_and!; try done.
    intros e He. rewrite list_lookup_insert_ne; [done|lia].
  - rewrite Hj. done.
Qed.

(** The elements of a component that has reached [a0] end by [a0]. *)
Lemma reached_bound (s : Slab) i0 a0 :
  elems_ok s -> elast_ok s -> laminar s -> i0 < N ->
  reached s i0 a0 ->
  forall y, y < next (size_e s) -> comp_of s y = i0 ->
    (right_end s y <= a0)%Q.
Proof.
  intros Hel Hla Hlam Hi Hre y Hy Hc.
  destruct (latest_facts s i0 Hel Hla Hi)
    as [[_ Hnone]|(x & Hl & Hx & Hxc & Hlast)].
  { exfalso. by apply (Hnone y). }
  destruct (Hre _ Hl) as [?|(sg & Hsg & Hb)]; [lia|].
  rewrite Nat2Z.id in Hsg.
  assert (Hrx : right_end s x = a0).
  { unfold right_end. rewrite (slab_of_Some _ _ _ Hsg).
    by apply end_at_Some. }
  destruct (decide (y = x)) as [->|Hne]; [rewrite Hrx; lra|].
  assert (Hyx : y < x).
  { destruct (decide (x < y)); [|lia]. exfalso. apply (Hlast y); [lia|done]. }
  pose proof (comp_order s Hel Hlam x y Hyx Hx ltac:(congruence)) as Ho.
  destruct (element_facts s x Hel Hx) as (_ & _ & _ & Hsx).
  pose proof (lm_pos _ Hlam _ Hsx) as Hpos.
  rewrite <- Hrx. unfold right_end, left_end in *. lra.
Qed.

Section Step.
Variables (s : Slab) (m index sigma : nat) (a0 b0 : real).
Hypothesis Hsp : sparsity_ok.
Hypothesis Heps : (0 <= eps)%Q.
Hypothesis Hel : elems_ok s.
Hypothesis Hla : elast_ok s.
Hypothesis Hlam : laminar s.
Hypothesis Hnodes : nodes_inside s.
Hypothesis Hindex : index < N.
Hypothesis Hnewest : sigma + 1 = next (size_s s).
Hypothesis Hbegin : begin_at s sigma = a0.
Hypothesis Hend : end_at s sigma = b0.
Hypothesis HmE : m <= next (size_e s).
Hypothesis Hold : forall e, e < m -> slab_of s e < sigma.
Hypothesis Hends : forall y, y < next (size_e s) -> comp_of s y = index ->
  (right_end s y <= a0)%Q.

(** A nodal point is passed once. *)
Lemma passed_not_within e1 n :
  passed_to (next (size_e s)) s e1 index n = true ->
  within_time (node_of s e1 n) a0 b0 = true -> False.
Proof.
  intros Hp [Hw _]%within_time_spec.
  apply existsb_exists in Hp as (y & Hy%list_elem_of_In%elem_of_seq & Hp).
  apply andb_true_iff in Hp as [Hp Hh].
  apply andb_true_iff in Hp as [Hc%Nat.eqb_eq _].
  apply within_time_spec in Hh as [_ Hh].
  pose proof (Hends y ltac:(lia) Hc). lra.
Qed.

(** The rule of [create_d] and the count of [create_s] agree on the
    elements that a nodal point within [(a0, b0]] belongs to. *)
Lemma link e1 n :
  e1 < m -> n < nsize ->
  within_time (node_of s e1 n) a0 b0 = true ->
  target s a0 b0 sigma e1 && bool_decide (comp_of s e1 ∈ transpose index)
  = bool_decide (index ∈ dependencies (comp_of s e1))
    && counted_to (next (size_e s)) s e1 index.
Proof.
  intros He1 Hn [Hw1 Hw2]%within_time_spec.
  destruct (element_facts s e1 Hel ltac:(lia)) as (_ & Hc1 & _ & Hs1).
  destruct (node_inside s e1 n Hel Hnodes ltac:(lia) Hn) as [Hn1 Hn2].
  pose proof (Hold e1 He1) as Hlt.
  pose proof (lm_sorted _ Hlam (slab_of s e1) sigma ltac:(lia) ltac:(lia))
    as Hsorted.
  rewrite Hbegin in Hsorted.
  apply eq_true_iff_eq. rewrite !andb_true_iff, !bool_decide_eq_true.
  rewrite (sp_transpose Hsp index (comp_of s e1)) by done.
  split.
  - intros [_ Hdep]. split; [done|].
    unfold counted_to. apply forallb_forall.
    intros y Hy%list_elem_of_In%elem_of_seq.
    destruct (Nat.eqb_spec (comp_of s y) index) as [Hc|]; [|done].
    destruct (Nat.leb_spec (slab_of s y) (slab_of s e1)); [|done].
    simpl. apply Qltb_lt.
    pose proof (Hends y ltac:(lia) Hc). lra.
  - intros [Hdep _]. split; [|done].
    unfold target. rewrite !andb_true_iff. split_and!.
    + apply bool_decide_eq_true.
      destruct (latest_facts s (comp_of s e1) Hel Hla Hc1)
        as [[_ Hnone]|(x & Hl & Hx & Hxc & Hlast)].
      { exfalso. by apply (Hnone e1); [lia|]. }
      rewrite Hl. do 2 f_equal.
      destruct (decide (x = e1)) as [|Hne]; [done|]. exfalso.
      assert (Hlt1 : e1 < x).
      { destruct (decide (x < e1)); [|lia].
        exfalso. apply (Hlast e1); [lia|done]. }
      pose proof (comp_order s Hel Hlam x e1 Hlt1 Hx ltac:(congruence)) as Ho.
      destruct (element_facts s x Hel Hx) as (_ & _ & _ & Hsx).
      pose proof (lm_sorted _ Hlam (slab_of s x) sigma ltac:(lia) ltac:(lia))
        as Hsx'.
      rewrite Hbegin in Hsx'. unfold left_end in Ho. lra.
    + apply within_interval_spec. unfold left_end. split; [lra|].
      destruct (lm_nested _ Hlam (slab_of s e1) sigma Hlt ltac:(lia))
        as [Hn'|Hn'].
      * rewrite Hbegin in Hn'. unfold right_end in Hn2. lra.
      * rewrite Hend in Hn'. unfold right_end. lra.
    + apply negb_true_iff, bool_decide_eq_false. lia.
Qed.

(** What the new element adds to the slots filled and to the slots
    due. *)
Lemma link_count e1 :
  e1 < m ->
  (if target s a0 b0 sigma e1 && bool_decide (comp_of s e1 ∈ transpose index)
   then nodes_within s a0 b0 e1 else 0)
  = (if decide (index ∈ dependencies (comp_of s e1))
     then (if counted_to (next (size_e s)) s e1 index then 1 else 0) else 0)
    * nodes_within s a0 b0 e1.
Proof.
  intros He1.
  destruct (decide (nodes_within s a0 b0 e1 = 0)) as [H0|Hn0].
  { rewrite H0. destruct (_ && _); lia. }
  assert (exists n, n < nsize
            /\ within_time (node_of s e1 n) a0 b0 = true) as (n & Hn & Hw).
  { destruct (decide (Exists (fun n =>
        within_time (node_of s e1 n) a0 b0 = true) (seq 0 nsize)))
      as [Hex|Hnex].
    - apply Exists_exists in Hex as (n & Hn%elem_of_seq & Hw).
      exists n. split; [lia|done].
    - exfalso. apply Hn0. apply count_if_none. intros n Hn.
      apply not_true_is_false. intros Hw. apply Hnex.
      apply Exists_exists. by exists n. }
  rewrite (link e1 n He1 Hn Hw).
  destruct (decide (index ∈ dependencies (comp_of s e1))) as [Hd|Hd].
  - rewrite bool_decide_eq_true_2 by done. simpl.
    destruct (counted_to _ _ _ _); lia.
  - rewrite bool_decide_eq_false_2 by done. simpl. lia.
Qed.

Section After.
Variable s' : Slab.
Hypothesis Hx : extends s s'.
Hypothesis Hnext : next (size_e s') = next (size_e s) + 1.
Hypothesis Hei : ei s' !! next (size_e s) = Some index.
Hypothesis Hes : es s' !! next (size_e s) = Some sigma.

Lemma new_element_facts :
  comp_of s' (next (size_e s)) = index
  /\ slab_of s' (next (size_e s)) = sigma
  /\ left_end s' (next (size_e s)) = a0
  /\ right_end s' (next (size_e s)) = b0.
Proof.
  assert (Hsl : slab_of s' (next (size_e s)) = sigma)
    by (by apply slab_of_Some).
  split_and!; try done.
  - by apply comp_of_Some.
  - unfold left_end. rewrite Hsl, (begin_at_extends s s'); [done..|lia].
  - unfold right_end. rewrite Hsl, (end_at_extends s s'); [done..|lia].
Qed.

Lemma offs_to_new e :
  e <= m ->
  offs_to (S (next (size_e s))) s' e = offs_to (next (size_e s)) s e.
Proof.
  intros He. destruct new_element_facts as (_ & Hsl & _).
  rewrite offs_to_later.
  - apply offs_to_extends; try done. lia.
  - intros e' He'. rewrite Hsl, (slab_of_extends s s') by (done || lia).
    apply Hold. lia.
Qed.

Lemma dim_to_new e :
  e < m ->
  dim_to (S (next (size_e s))) s' e = dim_to (next (size_e s)) s e.
Proof.
  intros He. destruct new_element_facts as (_ & Hsl & _).
  rewrite dim_to_later.
  - apply dim_to_extends; try done. lia.
  - rewrite Hsl, (slab_of_extends s s') by (done || lia). by apply Hold.
Qed.

(** The slots due after the new element. *)
Lemma due_step e1 :
  e1 < m ->
  due_to (S (next (size_e s))) s' e1
  = due_to (next (size_e s)) s e1
    + (if decide (index ∈ dependencies (comp_of s e1))
       then (if counted_to (next (size_e s)) s e1 index then 1 else 0)
       else 0)
      * nodes_within s a0 b0 e1.
Proof.
  intros He1.
  destruct new_element_facts as (Hci & Hsl & Hle & Hre).
  destruct (element_facts s e1 Hel ltac:(lia)) as (_ & Hc1 & _).
  unfold due_to. rewrite (comp_of_extends s s') by (done || lia).
  rewrite <- (count_if_single _ index) by (by apply (sp_dependencies Hsp)).
  unfold nodes_within.
  rewrite <- (count_if_prod
    (fun i => Nat.eqb i index && counted_to (next (size_e s)) s e1 i)
    (fun n => within_time (node_of s e1 n) a0 b0)).
  rewrite <- count_if_or.
  - apply count_if_ext. intros [i n] _. simpl.
    rewrite counted_to_later.
    2:{ rewrite Hsl, (slab_of_extends s s') by (done || lia). by apply Hold. }
    rewrite (counted_to_extends _ s s') by (done || lia).
    rewrite passed_to_S, (passed_to_extends _ s s') by (done || lia).
    rewrite Hci, Hsl. unfold hit.
    rewrite Hle, Hre, (node_of_extends s s') by (done || lia).
    rewrite (slab_of_extends s s') by (done || lia).
    destruct (Nat.ltb_spec (slab_of s e1) sigma) as [_|Hge];
      [|pose proof (Hold e1 He1); lia].
    rewrite (Nat.eqb_sym index i).
    destruct (counted_to _ _ _ _), (passed_to _ _ _ _ _), (Nat.eqb i index),
      (within_time _ _ _); done.
  - intros [i n] _. simpl. intros H1 H2.
    apply andb_true_iff in H1 as [_ Hp].
    apply andb_true_iff in H2 as [H2 Hw].
    apply andb_true_iff in H2 as [->%Nat.eqb_eq _].
    by eapply passed_not_within.
Qed.

End After.

End Step.

End CreateE.

Section CreateEFill.
Context {method : Method} {ode : ODE} {adaptivity : Adaptivity}
  {tolerance : Tolerance} {P : Type} {partition_ops : Partition P}.
Local Abbreviation Slab := (Slab P).
Local Abbreviation eps := real_epsilon.

Local Opaque create_e create_j.

(** [create_e] keeps the sub-slabs, and the new element is in the newest
    one. *)
Lemma create_e_laminar index sigma a b (s s' : Slab) :
  create_e index sigma a b s = Some s' ->
  elems_ok s -> laminar s -> sigma + 1 = next (size_s s) ->
  laminar s'.
Proof.
  intros Hrun Hel Hlam Hnew.
  pose proof (create_e_extends _ _ _ _ _ _ Hrun) as Hx.
  destruct (create_e_fields _ _ _ _ _ _ Hrun)
    as (_ & _ & _ & Hne & _ & Hes & _ & Hss & Hsa & Hsb & _).
  destruct Hlam as [L1 L2 L3 L4 L5].
  split; rewrite ?Hss; unfold begin_at, end_at; rewrite ?Hsa, ?Hsb;
    try done.
  intros e e' Hle He'. rewrite Hne in He'.
  assert (Hnewest : forall x, x < next (size_e s) -> slab_of s' x <= sigma).
  { intros x Hxlt. rewrite (slab_of_extends s s') by done.
    destruct (element_facts s x Hel Hxlt) as (_ & _ & _ & Hlt). lia. }
  destruct (decide (e' = next (size_e s))) as [->|Hne'].
  - rewrite (slab_of_Some _ _ _ Hes).
    destruct (decide (e = next (size_e s))) as [->|Hne'].
    + by rewrite (slab_of_Some _ _ _ Hes).
    + apply Hnewest. lia.
  - rewrite !(slab_of_extends s s') by (done || lia). apply L5; lia.
Qed.

(** The state of the dependencies is kept by one more element. *)
Lemma create_e_fill index sigma a0 b0 (s s' : Slab) m :
  create_e index sigma a0 b0 s = Some s' ->
  elems_ok s -> elast_ok s -> laminar s -> index < N ->
  reached s index a0 ->
  sigma + 1 = next (size_s s) ->
  sa s !! sigma = Some a0 -> sb s !! sigma = Some b0 ->
  m <= next (size_e s) ->
  (forall e, e < m -> slab_of s e < sigma) ->
  (forall e, m <= e < next (size_e s) -> slab_of s e = sigma) ->
  usable s' ->
  fill_inv s m -> fill_inv s' m.
Proof.
  intros Hrun Hel Hla Hlam Hi Hre Hnew Hsa Hsb HmE Hold Hbatch
    Hus [F1 F2 F3 F4 F5].
  pose proof (create_e_extends _ _ _ _ _ _ Hrun) as Hx.
  destruct (create_e_fields _ _ _ _ _ _ Hrun)
    as (_ & _ & _ & Hne & Hei & Hes & _ & _ & _ & _ & Hed & Hsd).
  pose proof (usable_extends _ _ Hx Hus) as (Hsp & Heps & Hnodes & _ & _).
  destruct Hus as (_ & _ & _ & HneE & _).
  assert (Hne' : ne s' = ne s).
  { pose proof (ext_static _ _ Hx) as Hs. rewrite Hs. done. }
  assert (Hnd' : nd s' = nd s).
  { pose proof (ext_static _ _ Hx) as Hs. rewrite Hs. done. }
  assert (Hbegin : begin_at s sigma = a0) by (by apply begin_at_Some).
  assert (Hend : end_at s sigma = b0) by (by apply end_at_Some).
  pose proof (reached_bound s index a0 Hel Hla Hlam Hi Hre) as Hends.
  apply create_e_run in Hrun as (sr & sd & Hv & Hder & Hd & Hde).
  unfold create_d in Hd.
  assert (Hw : writes_ok index (next (size_e s)) sigma a0 b0 sr sd).
  { eapply (for_each_inv (fun sx : Slab =>
      writes_ok index (next (size_e s)) sigma a0 b0 sr sx));
      [|apply writes_ok_refl|exact Hd].
    intros i1 sx sx' Hin Hsx Hb.
    exact (create_d_dep_writes _ _ _ _ _ _ _ _ _ Hin Hsx Hb). }
  destruct Hw as [_ Hw].
  pose proof Hv as (Hvl & Hva & Hvb & Hvd & Hvs).
  eapply (create_d_list_fill s m _ sigma a0 b0 Hel Hla F1) in Hd
    as (_ & Hfill & Hbeyond); try done; [|lia|by apply (sp_once Hsp)].
  rewrite Hder in Hfill, Hbeyond. rewrite <- Hde in Hfill, Hbeyond.
  assert (HO : forall e, e <= m ->
     offs_to (next (size_e s')) s' e = offs_to (next (size_e s)) s e).
  { intros e He. rewrite Hne, Nat.add_1_r.
    by apply (offs_to_new s m index sigma a0 b0). }
  split.
  - intros e He1 He2 He3. rewrite Hed, HO by done. apply F1; [done|lia|done].
  - rewrite Hsd, HO by done. done.
  - intros e1 He1. rewrite HO by lia.
    rewrite Hne, Nat.add_1_r.
    rewrite (dim_to_new s m index sigma a0 b0) by done.
    rewrite (due_step s m index sigma a0 b0) by done.
    rewrite Hfill, F3 by done. f_equal.
    by apply (link_count s m index sigma a0 b0).
  - intros j Hj. rewrite HO in Hj by done.
    rewrite Hbeyond by lia. apply F4. lia.
  - intros e1 d z He1 Hd Hz. rewrite HO in Hd by lia.
    rewrite Hne, Nat.add_1_r in Hd.
    rewrite (dim_to_new s m index sigma a0 b0) in Hd by done.
    destruct (decide (de s' !! d = de s !! d)) as [Heq|Hneq].
    { rewrite Heq in Hz.
      destruct (F5 e1 d z He1 Hd Hz) as [?|(y & ? & Hy)]; [by left|right].
      exists y. split; [done|].
      eapply small_peer_extends; try done. lia. }
    right. exists (next (size_e s)).
    specialize (Hw d). rewrite <- Hde, Hder in Hw.
    destruct (Hw Hneq)
      as (Hval & _ & i1 & e1z & s1 & a1 & b1 & lo & hi & n & Hin & Hl & _
          & Hs1 & Ha1 & Hb1 & Hlo & Hhi & Hr & Hwi & _ & _ & Hs01 & Hn
          & Hwt & _).
    rewrite Hval in Hz. inversion Hz as [Hz']. split; [done|].
    rewrite Hvl in Hl.
    destruct (latest_cases s i1 e1z Hel Hla Hl)
      as [[-> _]|(x & -> & HxE & Hxc & _)].
    { unfold rdZ in Hs1. simpl in Hs1. done. }
    rewrite rdZ_of_nat, Hvs in Hs1 by done.
    rewrite Hva in Ha1. rewrite Hvb in Hb1.
    assert (Hsl : slab_of s x = s1) by (by apply slab_of_Some).
    assert (Hlx : left_end s x = a1).
    { unfold left_end. rewrite Hsl. by apply begin_at_Some. }
    assert (Hrx : right_end s x = b1).
    { unfold right_end. rewrite Hsl. by apply end_at_Some. }
    assert (Hxm : x < m).
    { destruct (decide (x < m)); [done|]. exfalso. apply Hs01.
      symmetry. rewrite <- Hsl. apply Hbatch. lia. }
    rewrite rdZ_of_nat, Hvd, F1 in Hlo by lia.
    replace (Z.of_nat x + 1)%Z with (Z.of_nat (S x)) in Hhi by lia.
    rewrite rdZ_of_nat, Hvd, F1 in Hhi by lia.
    inversion Hlo; subst lo. inversion Hhi; subst hi. simpl in Hr.
    assert (x = e1).
    { destruct (lt_eq_lt_dec x e1) as [[Hlt|?]|Hgt]; [|done|]; exfalso.
      - pose proof (offs_to_next (next (size_e s)) s x e1 Hlt). lia.
      - pose proof (offs_to_next (next (size_e s)) s e1 x Hgt). lia. }
    subst x.
    destruct (new_element_facts s m index sigma a0 b0 Hi Hnew Hbegin Hend
                HmE s' Hx Hne Hei Hes) as (Hci & Hsl' & Hle & Hre').
    destruct (element_facts s e1 Hel HxE) as (_ & Hc1 & _).
    unfold small_peer, hit.
    rewrite Hci, Hsl', Hle, Hre', (comp_of_extends s s'),
      (slab_of_extends s s'), (left_end_extends s s'),
      (right_end_extends s s'), Hlx, Hrx by done.
    split_and!; try done.
    + lia.
    + rewrite Hxc. apply (sp_transpose Hsp index i1); [done| |done].
      by rewrite <- Hxc.
    + by apply Hold.
    + exists n. split; [done|].
      rewrite (node_of_extends s s') by done.
      unfold node_of. by rewrite Hlx, Hrx.
Qed.

End CreateEFill.

Section CreateElements.
Context {method : Method} {ode : ODE} {adaptivity : Adaptivity}
  {tolerance : Tolerance} {P : Type} {partition_ops : Partition P}.
Local Abbreviation Slab := (Slab P).
Local Abbreviation eps := real_epsilon.

Local Opaque create_e create_j create_d.

Lemma for_range_S {St} lo n (body : nat -> St -> option St) (s : St) :
  lo <= n ->
  for_range lo (S n) body s = (s' ← for_range lo n body s; body n s').
Proof.
  intros Hle. unfold for_range.
  replace (S n - lo) with (S (n - lo)) by lia.
  rewrite seq_S, for_each_app. simpl.
  replace (lo + (n - lo)) with n by lia.
  destruct (for_each body (seq lo (n - lo)) s) as [s1|]; simpl; [|done].
  by destruct (body n s1).
Qed.

(** The elements of a new sub-slab: the first loop of [create_s]. *)
Lemma create_elements_fill a0 b0 pos offset end_ (s1 s2 : Slab) m :
  partition_contract ->
  offset <= end_ <= N ->
  for_range offset end_ (fun n s =>
    create_e (partition_index (partition s) n) pos a0 b0 s) s1 = Some s2 ->
  elems_ok s1 -> elast_ok s1 -> laminar s1 ->
  pos + 1 = next (size_s s1) ->
  sa s1 !! pos = Some a0 -> sb s1 !! pos = Some b0 ->
  (forall n, offset <= n < end_ ->
     reached s1 (partition_index (partition s1) n) a0) ->
  m = next (size_e s1) ->
  (forall e, e < m -> slab_of s1 e < pos) ->
  laminar s2 /\ (usable s2 -> fill_inv s1 m -> fill_inv s2 m).
Proof.
  intros Hpc Hr Hrun Hel Hla Hlam Hpos Hsa Hsb Hre Hm Hold.
  set (body := fun n (s : Slab) =>
    create_e (partition_index (partition s) n) pos a0 b0 s) in *.
  assert (for_range offset end_ body s1 = Some s2
          /\ laminar s2 /\ (usable s2 -> fill_inv s1 m -> fill_inv s2 m))
    as (_ & H1 & H2); [|done].
  eapply (for_range_run (fun n (sx : Slab) =>
    for_range offset n body s1 = Some sx
    /\ laminar sx /\ (usable sx -> fill_inv s1 m -> fill_inv sx m))
    offset end_); [exact Hrun|lia| |].
  - split_and!; try done.
    unfold for_range. by rewrite Nat.sub_diag.
  - intros n sx sx' Hn (Hpre & Hlamx & Hfx) Hb.
    assert (Hpre' : for_range offset (S n) body s1 = Some sx').
    { rewrite for_range_S by lia. rewrite Hpre. done. }
    split; [done|].
    destruct (create_elements_wf a0 b0 pos offset n s1 sx Hpc ltac:(lia)
                Hpre Hel Hla ltac:(lia) Hsa)
      as (Hext & Hp & Helx & Hlax & Hss & Hsax & Hsbx & _ & _ & Hnex
          & Hfr & Hhd).
    { intros k Hk. apply Hre. lia. }
    unfold body in Hb. rewrite Hp in Hb.
    set (index := partition_index (partition s1) n) in *.
    assert (Hrex : reached sx index a0).
    { eapply (extends_reached s1 sx); try done.
      - apply Hfr. intros k Hk Heq. apply (pc_inj Hpc) in Heq; lia.
      - apply Hre. lia. }
    pose proof (create_e_wf _ _ _ _ _ _ Hb Helx Hlax
                  ltac:(rewrite Hss; lia) ltac:(by rewrite Hsax) Hrex)
      as [Helx' _].
    destruct (create_e_fields _ _ _ _ _ _ Hb)
      as (_ & _ & _ & Hne' & Hei' & _).
    assert (Hindex : index < N).
    { destruct (element_facts sx' (next (size_e sx)) Helx' ltac:(lia))
        as (Hc & HcN & _).
      rewrite Hei' in Hc. inversion Hc as [Hc']. by rewrite Hc'. }
    split.
    + eapply create_e_laminar; try done. rewrite Hss. done.
    + intros Hus Hf1.
      pose proof (usable_extends _ _ (create_e_extends _ _ _ _ _ _ Hb) Hus)
        as Husx.
      eapply (create_e_fill index pos a0 b0 sx sx' m); try done.
      * by rewrite Hss.
      * by rewrite Hsax.
      * by rewrite Hsbx.
      * lia.
      * intros e He. rewrite (slab_of_extends s1 sx) by (done || lia).
        by apply Hold.
      * intros e He. rewrite Hnex in He.
        destruct (Hhd (offset + (e - m)) ltac:(lia)) as (_ & _ & Hes & _).
        replace (next (size_e s1) + (offset + (e - m) - offset)) with e
          in Hes by lia.
        by apply slab_of_Some.
      * by apply Hfx.
Qed.

(** The new sub-slab of [create_s]. *)
Lemma sub_slab_laminar a0 b0 b (s : Slab) :
  let pos := next (size_s s) in
  let s1 := set_sb (<[pos:=b0]> (sb s))
              (set_sa (<[pos:=a0]> (sa s))
                (set_size_s (MkSize (pos + 1) (size (size_s s))) s)) in
  pos < length (sa s) -> pos < length (sb s) ->
  laminar s -> fits a0 b s -> (a0 < b0)%Q -> (b0 <= b)%Q ->
  laminar s1
  /\ begin_at s1 pos = a0 /\ end_at s1 pos = b0
  /\ (forall sigma, sigma < pos ->
        begin_at s1 sigma = begin_at s sigma
        /\ end_at s1 sigma = end_at s sigma)
  /\ (forall e, slab_of s1 e = slab_of s e).
Proof.
  intros pos s1 Hla Hlb [L1 L2 L3 L4 L5] Hfit Hab Hb0.
  assert (Hb1 : begin_at s1 pos = a0).
  { unfold begin_at. simpl. by rewrite list_lookup_insert_eq. }
  assert (He1 : end_at s1 pos = b0).
  { unfold end_at. simpl. by rewrite list_lookup_insert_eq. }
  assert (Hold : forall sigma, sigma < pos ->
            begin_at s1 sigma = begin_at s sigma
            /\ end_at s1 sigma = end_at s sigma).
  { intros sigma Hs. unfold begin_at, end_at. simpl.
    rewrite !list_lookup_insert_ne by lia. done. }
  split_and!; try done.
  split; simpl.
  - intros sigma Hs. destruct (decide (sigma = pos)) as [->|Hne].
    + rewrite !list_lookup_insert_eq by done. split; by eexists.
    + rewrite !list_lookup_insert_ne by lia. apply L1. fold pos. lia.
  - intros sigma Hs. destruct (decide (sigma = pos)) as [->|Hne].
    + rewrite Hb1, He1. done.
    + destruct (Hold sigma ltac:(lia)) as [-> ->]. apply L2. fold pos. lia.
  - intros sigma sigma' Hle Hs'.
    destruct (decide (sigma' = pos)) as [->|Hne'].
    + rewrite Hb1. destruct (decide (sigma = pos)) as [->|Hne].
      * rewrite Hb1. lra.
      * destruct (Hold sigma ltac:(lia)) as [-> _].
        apply Hfit. fold pos. lia.
    + destruct (Hold sigma ltac:(lia)) as [-> _].
      destruct (Hold sigma' ltac:(lia)) as [-> _].
      apply L3; [done|]. fold pos. lia.
  - intros sigma sigma' Hlt Hs'.
    destruct (Hold sigma ltac:(lia)) as [_ ->].
    destruct (decide (sigma' = pos)) as [->|Hne'].
    + rewrite Hb1, He1.
      destruct (Hfit sigma ltac:(fold pos; lia)) as [_ [?|?]]; [by left|].
      right. lra.
    + destruct (Hold sigma' ltac:(lia)) as [-> ->].
      apply L4; [done|]. fold pos. lia.
  - exact L5.
Qed.

End CreateElements.

Section CountLoop.
Context {method : Method} {ode : ODE} {adaptivity : Adaptivity}
  {tolerance : Tolerance} {P : Type} {partition_ops : Partition P}.
Local Abbreviation Slab := (Slab P).
Local Abbreviation eps := real_epsilon.

Local Opaque create_e create_j create_d.

(** ** The slots of the new elements: the second loop of [create_s] *)

(** The slots and their nodal points are read from the element graph
    alone. *)
Lemma counted_to_same_graph E (s s' : Slab) e1 i0 :
  same_graph s s' -> counted_to E s' e1 i0 = counted_to E s e1 i0.
Proof.
  intros [G1 G2 G3 G4 _ _ _ _].
  unfold counted_to, comp_of, slab_of, right_end, end_at, slab_of.
  by rewrite G2, G3, G4.
Qed.

Lemma passed_to_same_graph E (s s' : Slab) e1 i0 n :
  same_graph s s' -> passed_to E s' e1 i0 n = passed_to E s e1 i0 n.
Proof.
  intros [G1 G2 G3 G4 _ _ _ _].
  unfold passed_to, hit, node_of, comp_of, slab_of, left_end, right_end,
    begin_at, end_at, slab_of.
  by rewrite G1, G2, G3, G4.
Qed.

Lemma dim_to_same_graph E (s s' : Slab) e1 :
  same_graph s s' -> dim_to E s' e1 = dim_to E s e1.
Proof.
  intros Hsg. unfold dim_to.
  assert (comp_of s' e1 = comp_of s e1) as ->.
  { unfold comp_of. by rewrite (sg_ei _ _ Hsg). }
  f_equal. apply count_if_ext. intros i _. by apply counted_to_same_graph.
Qed.

Lemma offs_to_same_graph E (s s' : Slab) m :
  same_graph s s' -> offs_to E s' m = offs_to E s m.
Proof.
  intros Hsg. induction m as [|m IH]; [done|]. simpl.
  by rewrite IH, (dim_to_same_graph E s s').
Qed.

Lemma due_to_same_graph E (s s' : Slab) e1 :
  same_graph s s' -> due_to E s' e1 = due_to E s e1.
Proof.
  intros Hsg. unfold due_to.
  assert (comp_of s' e1 = comp_of s e1) as ->.
  { unfold comp_of. by rewrite (sg_ei _ _ Hsg). }
  apply count_if_ext. intros p _.
  by rewrite (counted_to_same_graph E s s'), (passed_to_same_graph E s s').
Qed.

Lemma laminar_same_graph (s s' : Slab) :
  same_graph s s' -> laminar s -> laminar s'.
Proof.
  intros [G1 G2 G3 G4 _ _ G7 G8] [L1 L2 L3 L4 L5].
  split; unfold begin_at, end_at, slab_of; rewrite ?G1, ?G2, ?G4, ?G7, ?G8;
    done.
Qed.

Lemma small_peer_same_graph (s s' : Slab) e1 y :
  same_graph s s' -> small_peer s e1 y -> small_peer s' e1 y.
Proof.
  intros [G1 G2 G3 G4 _ _ _ G8].
  unfold small_peer, hit, node_of, comp_of, slab_of, left_end, right_end,
    begin_at, end_at, slab_of.
  by rewrite G1, G2, G3, G4, G8.
Qed.

Lemma fill_inv_same_graph (s s' : Slab) m :
  same_graph s s' -> ed s' = ed s -> de s' = de s ->
  size_d s' = size_d s -> ne s' = ne s -> nd s' = nd s ->
  fill_inv s m -> fill_inv s' m.
Proof.
  intros Hsg Hed Hde Hsd Hne Hnd [F1 F2 F3 F4 F5].
  split; rewrite ?Hed, ?Hde, ?Hsd, ?Hne, ?Hnd, (sg_next_e _ _ Hsg).
  - intros e. rewrite (offs_to_same_graph _ s s') by done. apply F1.
  - by rewrite (offs_to_same_graph _ s s').
  - intros e1. rewrite (offs_to_same_graph _ s s'),
      (dim_to_same_graph _ s s'), (due_to_same_graph _ s s') by done.
    apply F3.
  - intros j. rewrite (offs_to_same_graph _ s s') by done. apply F4.
  - intros e1 d z He1.
    rewrite (offs_to_same_graph _ s s'), (dim_to_same_graph _ s s') by done.
    intros Hd Hz. destruct (F5 e1 d z He1 Hd Hz) as [?|(y & ? & Hy)];
      [by left|right].
    exists y. split; [done|]. by eapply small_peer_same_graph.
Qed.

(** A loop that adds [k] for the entries that satisfy [g]. *)
Lemma for_each_count {A} (g : A -> bool) (body : A -> nat -> option nat)
    (k : nat) l :
  (forall x n n', x ∈ l -> body x n = Some n' ->
     n' = n + (if g x then k else 0)) ->
  forall n n', for_each body l n = Some n' -> n' = n + k * count_if g l.
Proof.
  induction l as [|x l IH]; intros Hb n n' Hrun.
  - simpl in Hrun. inversion Hrun. rewrite count_if_nil. lia.
  - simpl in Hrun. apply bind_Some in Hrun as (n1 & H1 & H2).
    apply Hb in H1; [|by left].
    apply IH in H2; [|intros; eapply Hb; [by right|done]].
    rewrite count_if_cons. destruct (g x); lia.
Qed.

(** [countDependencies] for the latest element [e] of the newest sub-slab
    returns the number of its slots. *)
Lemma countDependencies_dim (s : Slab) index b0 e c :
  elems_ok s -> elast_ok s -> laminar s ->
  e < next (size_e s) -> comp_of s e = index -> right_end s e = b0 ->
  (forall y, y < next (size_e s) -> slab_of s y <= slab_of s e) ->
  countDependencies index b0 s = Some c ->
  c = dim_to (next (size_e s)) s e.
Proof.
  intros Hel Hla Hlam He Hc Hb Hnewest Hrun.
  unfold countDependencies in Hrun.
  apply (for_each_count (counted_to (next (size_e s)) s e) _ nsize) in Hrun.
  { unfold dim_to. rewrite Hc. lia. }
  clear Hrun c. intros i1 n n' _ Hrun.
  apply bind_Some in Hrun as (e1 & He1 & Hrun).
  destruct (latest_cases s i1 e1 Hel Hla He1)
    as [[-> Hnone]|(x & -> & HxE & Hxc & Hlast)].
  { simpl in Hrun. inversion Hrun.
    assert (counted_to (next (size_e s)) s e i1 = true) as ->; [|done].
    apply forallb_forall. intros y Hy%list_elem_of_In%elem_of_seq.
    destruct (Nat.eqb_spec (comp_of s y) i1) as [Hcy|]; [|done].
    exfalso. apply (Hnone y); [lia|done]. }
  destruct (Z.eqb_spec (Z.of_nat x) (-1)) as [|_]; [lia|].
  apply bind_Some in Hrun as (s1 & Hs1 & Hrun).
  apply bind_Some in Hrun as (b1 & Hb1 & Hrun).
  rewrite rdZ_of_nat in Hs1.
  assert (Hrx : right_end s x = b1).
  { unfold right_end. rewrite (slab_of_Some _ _ _ Hs1). by apply end_at_Some. }
  inversion Hrun as [Hn']. clear Hrun Hn'.
  destruct (Qltb b1 (b0 - eps)) eqn:Hlt.
  - assert (counted_to (next (size_e s)) s e i1 = true) as ->; [|done].
    apply Qltb_lt in Hlt.
    apply forallb_forall. intros y Hy%list_elem_of_In%elem_of_seq.
    destruct (Nat.eqb_spec (comp_of s y) i1) as [Hcy|]; [|done].
    destruct (Nat.leb_spec (slab_of s y) (slab_of s e)); [|done].
    simpl. apply Qltb_lt. rewrite Hb.
    destruct (decide (y = x)) as [->|Hne]; [rewrite Hrx; lra|].
    assert (Hyx : y < x).
    { destruct (decide (x < y)); [|lia]. exfalso. apply (Hlast y); [lia|done]. }
    pose proof (comp_order s Hel Hlam x y Hyx HxE ltac:(congruence)) as Ho.
    destruct (element_facts s x Hel HxE) as (_ & _ & _ & Hsx).
    pose proof (lm_pos _ Hlam _ Hsx) as Hpos.
    rewrite <- Hrx in Hlt. unfold right_end, left_end in *. lra.
  - destruct (counted_to (next (size_e s)) s e i1) eqn:Hcnt; [|done].
    exfalso.
    pose proof (proj1 (forallb_forall _ _) Hcnt x) as Hx.
    simpl in Hx. rewrite Hxc, Nat.eqb_refl, Hrx, Hb, Hlt in Hx.
    destruct (Nat.leb_spec (slab_of s x) (slab_of s e)) as [_|Hgt].
    + simpl in Hx. specialize (Hx ltac:(apply list_elem_of_In, elem_of_seq; lia)).
      done.
    + pose proof (Hnewest x HxE). lia.
Qed.

(** One step of the second loop, for the element [x]. *)
Lemma create_s_ed_run b0 n (s s' : Slab) x :
  create_s_ed b0 n s = Some s' ->
  elast s !! partition_index (partition s) n = Some (Z.of_nat x) ->
  exists c,
    countDependencies (partition_index (partition s) n) b0 s = Some c
    /\ next (size_d s') = next (size_d s) + c
    /\ de s' = de s /\ ne s' = ne s /\ nd s' = nd s
    /\ (x = 0 -> ed s' !! 0 = Some 0)
    /\ (x + 1 < ne s -> ed s' !! (x + 1) = Some (next (size_d s) + c))
    /\ (forall j, j <> x + 1 -> j <> 0 \/ x <> 0 -> ed s' !! j = ed s !! j).
Proof.
  unfold create_s_ed. intros Hrun Hl.
  apply bind_Some in Hrun as (element & Hel & Hrun).
  unfold rd in Hel. rewrite Hl in Hel. inversion Hel; subst element.
  apply bind_Some in Hrun as (_ & _ & Hrun).
  apply bind_Some in Hrun as (c & Hc & Hrun).
  apply bind_Some in Hrun as (s1 & H1 & Hrun).
  exists c. split; [done|].
  assert (H1' : (x = 0 /\ 0 < length (ed s)
                 /\ s1 = set_ed (<[0:=0]> (ed s))
                     (set_size_d (MkSize (next (size_d s) + c)
                        (size (size_d s))) s))
                \/ (x <> 0
                    /\ s1 = set_size_d (MkSize (next (size_d s) + c)
                              (size (size_d s))) s)).
  { destruct (Z.eqb_spec (Z.of_nat x) 0) as [H0|H0].
    - left. apply bind_Some in H1 as (ed1 & Hw1 & H1). inversion H1.
      unfold wrZ in Hw1. rewrite H0 in Hw1. simpl in Hw1.
      apply wr_Some in Hw1 as [? ->]. split_and!; [lia|done|done].
    - right. inversion H1. split; [lia|done]. }
  clear H1.
  assert (Hne1 : ne s1 = ne s) by (by destruct H1' as [(_ & _ & ->)|(_ & ->)]).
  assert (Hsd1 : next (size_d s1) = next (size_d s) + c)
    by (by destruct H1' as [(_ & _ & ->)|(_ & ->)]).
  rewrite Hne1, Hsd1 in Hrun.
  destruct (Z.ltb_spec (Z.of_nat x) (Z.of_nat (ne s) - 1)) as [Hlt|Hge].
  - apply bind_Some in Hrun as (ed2 & Hw2 & Hrun). inversion Hrun; subst s'.
    clear Hrun. unfold wrZ in Hw2.
    destruct (Z.leb_spec 0 (Z.of_nat x + 1)); [|lia].
    replace (Z.to_nat (Z.of_nat x + 1)) with (x + 1) in Hw2 by lia.
    apply wr_Some in Hw2 as [Hlen ->]. simpl.
    destruct H1' as [(-> & Hlen0 & ->)|(Hx0 & ->)]; simpl in *.
    + split_and!; try done.
      * intros _. rewrite list_lookup_insert_ne by lia.
        by rewrite list_lookup_insert_eq.
      * intros _. by rewrite list_lookup_insert_eq.
      * intros j Hj [Hj0|?]; [|done].
        by rewrite !list_lookup_insert_ne by lia.
    + split_and!; try done.
      * intros _. by rewrite list_lookup_insert_eq.
      * intros j Hj _. by rewrite list_lookup_insert_ne by lia.
  - inversion Hrun; subst s'. clear Hrun.
    destruct H1' as [(-> & Hlen0 & ->)|(Hx0 & ->)]; simpl in *.
    + split_and!; try done.
      * intros _. by rewrite list_lookup_insert_eq.
      * lia.
      * intros j Hj [Hj0|?]; [|done].
        by rewrite !list_lookup_insert_ne by lia.
    + split_and!; try done. lia.
Qed.

End CountLoop.

Section CreateS.
Context {method : Method} {ode : ODE} {adaptivity : Adaptivity}
  {tolerance : Tolerance} {P : Type} {partition_ops : Partition P}.
Local Abbreviation Slab := (Slab P).
Local Abbreviation eps := real_epsilon.

Local Opaque create_e create_j create_d create_s_ed countDependencies.

(** The element [x] of the newest sub-slab gets its slots: they are
    empty, and none of its nodal points has been passed. *)
Lemma count_step_fill (sx sx' : Slab) x c :
  same_graph sx sx' ->
  next (size_d sx') = next (size_d sx) + c ->
  de sx' = de sx -> ne sx' = ne sx -> nd sx' = nd sx ->
  (x = 0 -> ed sx' !! 0 = Some 0) ->
  (x + 1 < ne sx -> ed sx' !! (x + 1) = Some (next (size_d sx) + c)) ->
  (forall j, j <> x + 1 -> j <> 0 \/ x <> 0 -> ed sx' !! j = ed sx !! j) ->
  c = dim_to (next (size_e sx)) sx x ->
  (forall y, y < next (size_e sx) -> slab_of sx y <= slab_of sx x) ->
  usable sx' ->
  fill_inv sx x -> fill_inv sx' (S x).
Proof.
  intros Hsg Hsd Hde Hne Hnd Hed0 Hed1 Hedo Hc Hnewest
    (_ & _ & _ & _ & Hus) [F1 F2 F3 F4 F5].
  assert (HO : forall e, offs_to (next (size_e sx')) sx' e
                         = offs_to (next (size_e sx)) sx e).
  { intros e. rewrite (sg_next_e _ _ Hsg). by apply offs_to_same_graph. }
  assert (HD : forall e, dim_to (next (size_e sx')) sx' e
                         = dim_to (next (size_e sx)) sx e).
  { intros e. rewrite (sg_next_e _ _ Hsg). by apply dim_to_same_graph. }
  assert (HU : forall e, due_to (next (size_e sx')) sx' e
                         = due_to (next (size_e sx)) sx e).
  { intros e. rewrite (sg_next_e _ _ Hsg). by apply due_to_same_graph. }
  assert (Hnext : next (size_d sx')
                  = offs_to (next (size_e sx)) sx (S x)).
  { simpl. rewrite Hsd, F2, Hc. done. }
  split.
  - intros e He1 He2 _. rewrite HO. rewrite Hne in He2.
    destruct (decide (e = S x)) as [->|Hne1].
    + replace (S x) with (x + 1) at 1 by lia.
      rewrite Hed1 by lia. rewrite <- Hnext, Hsd. done.
    + destruct (decide (x = 0)) as [->|Hx0].
      * replace e with 0 by lia. by apply Hed0.
      * rewrite Hedo; [|lia|by right]. apply F1; lia.
  - by rewrite HO.
  - intros e1 He1. rewrite HO, HD, HU, Hde.
    destruct (decide (e1 = x)) as [->|Hne1]; [|apply F3; lia].
    rewrite filled_empty.
    + symmetry. apply count_if_none. intros [i n] _. simpl.
      apply andb_false_intro2.
      apply not_true_is_false. intros Hp.
      apply existsb_exists in Hp as (y & Hy%list_elem_of_In%elem_of_seq & Hp).
      apply andb_true_iff in Hp as [Hp _].
      apply andb_true_iff in Hp as [_ Hp%Nat.ltb_lt].
      pose proof (Hnewest y ltac:(lia)). lia.
    + intros j Hj. apply F4. rewrite Hnext, Hnd in Hus. simpl in Hus. lia.
  - intros j Hj. rewrite HO, Hnd in Hj. rewrite Hde. apply F4.
    simpl in Hj. lia.
  - intros e1 d z He1. rewrite HO, HD, Hde. intros Hd Hz.
    destruct (decide (e1 = x)) as [->|Hne1].
    + left. rewrite F4 in Hz; [by inversion Hz|].
      rewrite Hnext, Hnd in Hus. simpl in Hus. lia.
    + destruct (F5 e1 d z ltac:(lia) Hd Hz) as [?|(y & ? & Hy)];
        [by left|right].
      exists y. split; [done|]. by eapply small_peer_same_graph.
Qed.

(** The second loop of [create_s]. *)
Lemma count_loop_fill b0 pos offset end_ (s2 s' : Slab) m :
  offset <= end_ ->
  for_range offset end_ (create_s_ed b0) s2 = Some s' ->
  elems_ok s2 -> elast_ok s2 -> laminar s2 ->
  next (size_e s2) = m + (end_ - offset) ->
  (forall n, offset <= n < end_ ->
     elast s2 !! partition_index (partition s2) n
       = Some (Z.of_nat (m + (n - offset)))
     /\ ei s2 !! (m + (n - offset))
          = Some (partition_index (partition s2) n)
     /\ es s2 !! (m + (n - offset)) = Some pos) ->
  (forall y, y < next (size_e s2) -> slab_of s2 y <= pos) ->
  sb s2 !! pos = Some b0 ->
  same_graph s2 s'
  /\ (usable s' -> fill_inv s2 m -> fill_inv s' (next (size_e s'))).
Proof.
  intros Hle Hrun Hel Hla Hlam HE Hhd Hnewest Hsb.
  assert (same_graph s2 s' /\ partition s' = partition s2
          /\ (usable s' -> fill_inv s2 m ->
              fill_inv s' (m + (end_ - offset)))) as (Hsg & _ & Hf).
  2:{ split; [done|]. rewrite (sg_next_e _ _ Hsg), HE. done. }
  eapply (for_range_run (fun n (sx : Slab) =>
    same_graph s2 sx /\ partition sx = partition s2
    /\ (usable sx -> fill_inv s2 m -> fill_inv sx (m + (n - offset))))
    offset end_); [exact Hrun|lia| |].
  - split_and!; [apply same_graph_refl|done|].
    intros _ Hf. by rewrite Nat.sub_diag, Nat.add_0_r.
  - intros n sx sx' Hn (Hsg & Hp & Hf) Hb.
    pose proof (create_s_ed_same_graph _ _ _ _ Hb) as Hsg1.
    pose proof (create_s_ed_partition _ _ _ _ Hb) as Hp1.
    split_and!; [by eapply same_graph_trans|congruence|].
    intros Hus Hf2.
    pose proof (usable_extends _ _ (create_s_ed_extends _ _ _ _ Hb) Hus)
      as Husx.
    specialize (Hf Husx Hf2).
    destruct (Hhd n Hn) as (Hl & Hei & Hes).
    set (x := m + (n - offset)) in *.
    assert (Hlx : elast sx !! partition_index (partition sx) n
                  = Some (Z.of_nat x)).
    { rewrite (sg_elast _ _ Hsg), Hp. done. }
    destruct (create_s_ed_run _ _ _ _ _ Hb Hlx)
      as (c & Hc & Hsd & Hde & Hne & Hnd & Hed0 & Hed1 & Hedo).
    assert (Hslab : forall y, slab_of sx y = slab_of s2 y).
    { intros y. unfold slab_of. by rewrite (sg_es _ _ Hsg). }
    assert (Hsx : slab_of sx x = pos).
    { rewrite Hslab. by apply slab_of_Some. }
    replace (m + (S n - offset)) with (S x) by (unfold x; lia).
    apply (count_step_fill sx sx' x c); try done.
    + eapply (countDependencies_dim sx); try exact Hc.
      * by eapply same_graph_elems.
      * by eapply same_graph_elast.
      * by eapply laminar_same_graph.
      * rewrite (sg_next_e _ _ Hsg), HE. unfold x. lia.
      * unfold comp_of. rewrite (sg_ei _ _ Hsg), Hei, Hp. done.
      * unfold right_end. rewrite Hsx. apply end_at_Some.
        by rewrite (sg_sb _ _ Hsg).
      * intros y Hy. rewrite Hsx, Hslab. apply Hnewest.
        by rewrite <- (sg_next_e _ _ Hsg).
    + intros y Hy. rewrite Hsx, Hslab. apply Hnewest.
      by rewrite <- (sg_next_e _ _ Hsg).
Qed.

(** [create_s]: a new sub-slab with its elements and their slots. *)
Lemma create_s_fill a0 b0 b offset end_ (s s' : Slab) :
  partition_contract ->
  offset <= end_ <= N ->
  create_s a0 b0 offset end_ s = Some s' ->
  elems_ok s -> elast_ok s -> covered a0 offset s ->
  laminar s -> fits a0 b s -> (a0 < b0)%Q -> (b0 <= b)%Q ->
  laminar s'
  /\ begin_at s' (next (size_s s)) = a0
  /\ end_at s' (next (size_s s)) = b0
  /\ (usable s' -> fill_inv s (next (size_e s)) ->
      fill_inv s' (next (size_e s'))).
Proof.
  intros Hpc Hr Hrun Hel Hla Hcov Hlam Hfit Hab Hb0.
  pose proof (create_s_extends _ _ _ _ _ _ Hrun) as Hext.
  destruct (create_s_eq _ _ _ _ _ _ Hrun) as (_ & Hlsa & Hlsb & s2 & H1 & H2).
  set (pos := next (size_s s)) in *.
  set (s1 := set_sb _ _) in H1.
  destruct (sub_slab_laminar a0 b0 b s Hlsa Hlsb Hlam Hfit Hab Hb0)
    as (Hlam1 & Hb1 & He1 & Hold1 & Hslab1).
  fold pos in Hb1, He1, Hold1, Hslab1. fold s1 in Hlam1, Hb1, He1, Hold1, Hslab1.
  assert (Hext1 : extends s s1) by apply sub_slab_extends.
  assert (Hel1 : elems_ok s1) by (by eapply extends_elems_same).
  assert (Hla1 : elast_ok s1) by (by eapply extends_elast_same).
  assert (Hsa1 : sa s1 !! pos = Some a0).
  { simpl. by apply list_lookup_insert_eq. }
  assert (Hsb1 : sb s1 !! pos = Some b0).
  { simpl. by apply list_lookup_insert_eq. }
  assert (Hre1 : forall n, offset <= n < end_ ->
            reached s1 (partition_index (partition s1) n) a0).
  { intros n Hn.
    eapply (extends_reached s s1);
      [exact Hel|exact Hla|exact Hext1|reflexivity|].
    apply Hcov. exists n. split; [lia|done]. }
  assert (Hold : forall e, e < next (size_e s) -> slab_of s1 e < pos).
  { intros e He. rewrite Hslab1.
    by destruct (element_facts s e Hel He) as (_ & _ & _ & ?). }
  destruct (create_elements_fill a0 b0 pos offset end_ s1 s2
              (next (size_e s)) Hpc Hr H1 Hel1 Hla1 Hlam1)
    as (Hlam2 & Hf2); try done.
  destruct (create_elements_wf a0 b0 pos offset end_ s1 s2 Hpc Hr H1
              Hel1 Hla1 ltac:(simpl; lia) Hsa1 Hre1)
    as (Hext2 & Hp2 & Hel2 & Hla2 & Hss2 & Hsa2 & Hsb2 & _ & _ & Hne2
        & _ & Hhd2).
  destruct (count_loop_fill b0 pos offset end_ s2 s' (next (size_e s))
              ltac:(lia) H2 Hel2 Hla2 Hlam2) as (Hsg & Hf3); try done.
  { intros n Hn. rewrite Hp2. destruct (Hhd2 n Hn) as (Q1 & Q2 & Q3 & _).
    done. }
  { intros y Hy.
    destruct (element_facts s2 y Hel2 Hy) as (_ & _ & _ & Hlt).
    rewrite Hss2 in Hlt. simpl in Hlt. lia. }
  { by rewrite Hsb2. }
  split_and!.
  - by eapply laminar_same_graph.
  - unfold begin_at. rewrite (sg_sa _ _ Hsg), Hsa2, Hsa1. done.
  - unfold end_at. rewrite (sg_sb _ _ Hsg), Hsb2, Hsb1. done.
  - intros Hus Hf. apply Hf3; [done|].
    assert (Hx2 : extends s2 s').
    { eapply (for_range_inv (fun sx : Slab => extends s2 sx));
        [| |exact H2].
      - intros n sx sx' _ IH Hb. eapply extends_trans; [exact IH|].
        by eapply create_s_ed_extends.
      - apply extends_refl. }
    pose proof (usable_extends _ _ Hx2 Hus) as Hus2.
    apply Hf2; [done|].
    pose proof (usable_extends _ _ Hext2 Hus2) as Hus1.
    destruct Hf as [F1 F2 F3 F4 F5].
    assert (HO : forall e, e <= next (size_e s) ->
              offs_to (next (size_e s)) s1 e = offs_to (next (size_e s)) s e).
    { intros e He. by apply offs_to_extends. }
    split; simpl.
    + intros e Q1 Q2 Q3. rewrite HO by done. by apply F1.
    + rewrite HO by done. done.
    + intros e1 Q1. rewrite HO by lia.
      rewrite (dim_to_extends _ s s1), (due_to_extends _ s s1) by (done || lia).
      by apply F3.
    + intros j Hj. rewrite HO in Hj by done. by apply F4.
    + intros e1 d z Q1. rewrite HO by lia.
      rewrite (dim_to_extends _ s s1) by (done || lia). intros Hd Hz.
      destruct (F5 e1 d z Q1 Hd Hz) as [?|(y & ? & Hy)]; [by left|right].
      exists y. split; [done|].
      exact (small_peer_extends s s1 e1 y Hel Hext1 Q1 Hy).
Qed.

End CreateS.

Section Recursion.
Context {method : Method} {ode : ODE} {adaptivity : Adaptivity}
  {tolerance : Tolerance} {P : Type} {partition_ops : Partition P}.
Local Abbreviation Slab := (Slab P).
Local Abbreviation eps := real_epsilon.

Local Opaque create_e create_s_ed create_s computeEndTime
  countDependencies countDependencies_dry.

(** ** The whole creation *)

Lemma begin_at_same_graph (s s' : Slab) sigma :
  same_graph s s' -> begin_at s' sigma = begin_at s sigma.
Proof. intros Hsg. unfold begin_at. by rewrite (sg_sa _ _ Hsg). Qed.

Lemma end_at_same_graph (s s' : Slab) sigma :
  same_graph s s' -> end_at s' sigma = end_at s sigma.
Proof. intros Hsg. unfold end_at. by rewrite (sg_sb _ _ Hsg). Qed.

(** [createTimeSlab(a, b, offset)] keeps the sub-slabs nested, creates
    its sub-slabs within [[a, b']], and keeps the state of the
    dependencies. *)
Lemma createTimeSlab_fill fuel :
  partition_contract -> (0 < kmax)%Q -> (threshold <= 1)%Q ->
  forall a b offset (s : Slab) b' s',
    createTimeSlab fuel a b offset s = Some (b', s') ->
    offset <= N -> elems_ok s -> elast_ok s -> covered a offset s ->
    (a < b)%Q -> laminar s -> fits a b s ->
    (usable s -> fill_inv s (next (size_e s))) ->
    laminar s'
    /\ (forall sigma, next (size_s s) <= sigma < next (size_s s') ->
          (a <= begin_at s' sigma)%Q /\ (end_at s' sigma <= b')%Q)
    /\ (usable s' -> fill_inv s' (next (size_e s'))).
Proof.
  intros Hpc Hkmax Hthr.
  induction fuel as [|fuel IH];
    intros a b offset s b' s' Hrun HoN Hel Hla Hcov Hab Hlam Hfit Hfill.
  { simpl in Hrun. done. }
  simpl in Hrun.
  destruct (computeEndTime a b offset s) as [[b1 end_] s1] eqn:Hc.
  pose proof (computeEndTime_same_graph _ _ _ _ _ _ _ Hc) as Hsg1.
  pose proof (computeEndTime_extends _ _ _ _ _ _ _ Hc) as Hx1.
  apply computeEndTime_eq in Hc as (K' & Hupd & Hb1 & Hs1).
  pose proof (pc_range Hpc (partition s) offset (real_min kmax (b - a)) HoN)
    as Hrange.
  pose proof (pc_tail Hpc (partition s) offset (real_min kmax (b - a)))
    as Htail.
  pose proof (pc_positive Hpc (partition s) offset (real_min kmax (b - a)))
    as Hpos.
  rewrite Hupd in Hrange, Htail, Hpos. simpl in Hrange, Htail, Hpos.
  assert (Hab1 : (a < b1)%Q /\ (b1 = b \/ (b1 < b)%Q)).
  { rewrite Hb1. apply end_time_bounds; try done.
    apply Hpos. apply real_min_pos; [done|lra]. }
  assert (Hb1b : (b1 <= b)%Q).
  { destruct Hab1 as [_ [->|?]]; lra. }
  apply bind_Some in Hrun as (s2 & H2 & Hrun).
  apply bind_Some in Hrun as ([t s3] & H3 & Hrun).
  inversion Hrun; subst b' s'. clear Hrun.
  assert (Hel1 : elems_ok s1) by (by eapply same_graph_elems).
  assert (Hla1 : elast_ok s1) by (by eapply same_graph_elast).
  assert (Hcov1 : covered a offset s1).
  { eapply covered_same_graph; [exact Hsg1| |exact Hcov].
    intros i. apply Htail. }
  assert (Hlam1 : laminar s1) by (by eapply laminar_same_graph).
  assert (Hfit1 : fits a b s1).
  { intros sigma Hs. rewrite (sg_next_s _ _ Hsg1) in Hs.
    rewrite (begin_at_same_graph s s1), (end_at_same_graph s s1) by done.
    by apply Hfit. }
  assert (Hfill1 : usable s1 -> fill_inv s1 (next (size_e s1))).
  { intros Hus. rewrite (sg_next_e _ _ Hsg1).
    apply (fill_inv_same_graph s s1); try done;
      try (rewrite Hs1; reflexivity).
    apply Hfill. by eapply usable_extends. }
  pose proof (create_s_extends _ _ _ _ _ _ H2) as Hx2.
  destruct (create_s_fill a b1 b offset end_ s1 s2 Hpc Hrange H2
              Hel1 Hla1 Hcov1 Hlam1 Hfit1 ltac:(lra) Hb1b)
    as (Hlam2 & Hbeg2 & Hend2 & Hfill2).
  destruct (create_s_wf _ _ _ _ _ _ Hpc Hrange H2 Hel1 Hla1 Hcov1)
    as (_ & Hel2 & Hla2 & Hp2 & Hss2 & _ & _ & _ & Hfr2 & _ & Hcov2 & _).
  rewrite (sg_next_s _ _ Hsg1) in Hss2, Hbeg2, Hend2.
  assert (Hfit2 : fits a b1 s2).
  { intros sigma Hs. rewrite Hss2 in Hs.
    destruct (decide (sigma = next (size_s s))) as [->|Hne].
    - rewrite Hbeg2, Hend2. split; [lra|right; lra].
    - rewrite (begin_at_extends s1 s2), (end_at_extends s1 s2)
        by (done || rewrite (sg_next_s _ _ Hsg1); lia).
      destruct (Hfit1 sigma ltac:(rewrite (sg_next_s _ _ Hsg1); lia))
        as [Q1 [Q2|Q2]]; (split; [done|]); [by left|right; lra]. }
  eapply (while_loop_inv (fun t (sx : Slab) =>
    elems_ok sx /\ elast_ok sx /\ laminar sx /\ fits t b1 sx
    /\ (a <= t)%Q /\ (t <= b1)%Q
    /\ next (size_s s) <= next (size_s sx)
    /\ (forall sigma, next (size_s s) <= sigma < next (size_s sx) ->
          (a <= begin_at sx sigma)%Q /\ (end_at sx sigma <= b1)%Q)
    /\ (usable sx -> fill_inv sx (next (size_e sx)))
    /\ (covered t end_ sx
        \/ forall i, in_tail (partition sx) end_ i -> ended sx i t)))
    in H3 as [(_ & _ & Hlam3 & _ & _ & _ & _ & Hnew3 & Hfill3 & _) _].
  - done.
  - intros t0 sx t' sx'
      (Helx & Hlax & Hlamx & Hfitx & Hat & Htb & Hmono & Hnewx & Hfillx & Hendx)
      Hcond Hb.
    apply andb_true_iff in Hcond as [Hlt Hlast].
    apply Qltb_lt in Hlt. apply bool_decide_eq_true in Hlast.
    assert (Hcovx : covered t0 end_ sx).
    { destruct Hendx as [Hc0|He0]; [exact Hc0|].
      intros i Hi. apply ended_reached, He0, Hi. }
    pose proof (createTimeSlab_wf fuel Hpc Hkmax Hthr _ _ _ _ _ _ Hb
                  ltac:(lia) Helx Hlax Hcovx) as [Q1 Q2 Q3 Q4 Q5 Q6 Q7].
    pose proof (createTimeSlab_extends _ _ _ _ _ _ _ Hb) as Hxx.
    apply IH in Hb as (Hlamx' & Hnewx' & Hfillx'); try done; [|lia].
    destruct (Q6 Hlt) as [Hlt' Hle'].
    assert (Htb' : (t' <= b1)%Q) by (destruct Hle' as [->|?]; lra).
    pose proof (ext_next_s _ _ Hxx) as Hmono'.
    split_and!; try done; try lra; try lia.
    + intros sigma Hs.
      destruct (decide (sigma < next (size_s sx))) as [Hold|Hnew].
      * rewrite (begin_at_extends sx sx'), (end_at_extends sx sx') by done.
        destruct (Hfitx sigma Hold) as [R1 [R2|R2]];
          (split; [lra|]); [left; lra|by right].
      * destruct (Hnewx' sigma ltac:(lia)) as [R1 R2].
        pose proof (lm_pos _ Hlamx' sigma Hs). split; [lra|left; lra].
    + intros sigma Hs.
      destruct (decide (sigma < next (size_s sx))) as [Hold|Hnew].
      * rewrite (begin_at_extends sx sx'), (end_at_extends sx sx') by done.
        apply Hnewx. lia.
      * destruct (Hnewx' sigma ltac:(lia)) as [R1 R2]. split; lra.
    + right. apply Q7. exact Hlt.
  - split_and!; try done; try lra; try lia.
    + intros sigma Hs. rewrite Hss2 in Hs.
      replace sigma with (next (size_s s)) by lia.
      rewrite Hbeg2, Hend2. split; lra.
    + intros Hus. apply Hfill2; [done|]. apply Hfill1.
      by eapply usable_extends.
    + by left.
Qed.

End Recursion.

Section Filled.
Context {method : Method} {ode : ODE} {adaptivity : Adaptivity}
  {tolerance : Tolerance} {P : Type} {partition_ops : Partition P}.
Local Abbreviation Slab := (Slab P).
Local Abbreviation eps := real_epsilon.

Local Opaque create_e create_s_ed create_s computeEndTime createTimeSlab
  countDependencies countDependencies_dry.

(** ** The slab that is built *)

(** An element is the first of its component, or follows another one. *)
Lemma previous_cases (s : Slab) e :
  elems_ok s -> e < next (size_e s) ->
  ee s !! e = Some (-1)%Z
  \/ exists p, p < e /\ comp_of s p = comp_of s e
       /\ right_end s p = left_end s e.
Proof.
  intros Hel He.
  destruct (Hel e He) as (i & sg & p & Hi & HiN & Hsg & Hsgn & Hp & Hpr).
  destruct Hpr as [[-> _]|(H0 & Hlt & Hpi & _ & sp & t & Hsp & Hsb & Hsa)].
  - by left.
  - right. exists (Z.to_nat p). split_and!; try done.
    + by rewrite (comp_of_Some _ _ _ Hi), (comp_of_Some _ _ _ Hpi).
    + unfold right_end, left_end.
      rewrite (slab_of_Some _ _ _ Hsp), (slab_of_Some _ _ _ Hsg).
      by rewrite (end_at_Some _ _ _ Hsb), (begin_at_Some _ _ _ Hsa).
Qed.

Lemma start_of_left_end (s : Slab) e :
  elems_ok s -> laminar s -> e < next (size_e s) ->
  start_of s e (left_end s e).
Proof.
  intros Hel Hlam He.
  destruct (element_facts s e Hel He) as (_ & _ & Hes & Hlt).
  exists (slab_of s e). split; [done|].
  destruct (lm_read _ Hlam _ Hlt) as [[x Hx] _].
  unfold left_end. by rewrite (begin_at_Some _ _ _ Hx).
Qed.

(** The elements of a component up to [y] tile the time from the start
    of the slab to the end of [y]: a time in between lies in one of
    them. *)
Lemma chain_find (s : Slab) a_top x t :
  elems_ok s -> laminar s -> timeline a_top x s ->
  (a_top + eps < t)%Q ->
  forall y, y < next (size_e s) -> (t <= right_end s y + eps)%Q ->
    exists y', y' <= y /\ comp_of s y' = comp_of s y
      /\ within_time t (left_end s y') (right_end s y') = true.
Proof.
  intros Hel Hlam Htl Ht y.
  induction (lt_wf y) as [y _ IH]. intros Hy Hty.
  destruct (Qlt_le_dec (left_end s y + eps) t) as [Hin|Hout].
  { exists y. split_and!; try done. by apply within_time_spec. }
  destruct (previous_cases s y Hel Hy) as [Hfirst|(p & Hp & Hpc & Hend)].
  - exfalso.
    pose proof (tl_first _ _ _ Htl y _ Hy Hfirst
                  (start_of_left_end s y Hel Hlam Hy)) as Heq.
    rewrite Heq in Hout. lra.
  - destruct (IH p Hp ltac:(lia) ltac:(rewrite Hend; lra))
      as (y' & Hy' & Hc' & Hw).
    exists y'. split_and!; [lia|congruence|done].
Qed.

(** When every component has reached the end of the slab, every slot of
    every element is due. *)
Lemma due_to_full (s : Slab) a_top b_end e1 :
  sparsity_ok -> (0 <= eps)%Q ->
  elems_ok s -> elast_ok s -> laminar s -> nodes_inside s ->
  timeline a_top b_end s ->
  (forall sigma, sigma < next (size_s s) -> (end_at s sigma <= b_end)%Q) ->
  (forall i, i < N -> ended s i b_end) ->
  e1 < next (size_e s) ->
  due_to (next (size_e s)) s e1 = dim_to (next (size_e s)) s e1.
Proof.
  intros Hsp Heps Hel Hla Hlam Hnodes Htl Hbound Hended He1.
  unfold due_to, dim_to.
  rewrite Nat.mul_comm.
  assert (nsize = count_if (fun _ : nat => true) (seq 0 nsize)) as Hns.
  { rewrite count_if_all; [by rewrite length_seq|done]. }
  rewrite Hns at 2. rewrite <- count_if_prod.
  apply count_if_ext. intros [i0 n] Hin. simpl.
  apply list_elem_of_In, in_prod_iff in Hin as [Hi0 Hn].
  apply list_elem_of_In in Hi0.
  apply list_elem_of_In, elem_of_seq in Hn.
  destruct (counted_to (next (size_e s)) s e1 i0) eqn:Hcnt; [|done].
  simpl.
  destruct (element_facts s e1 Hel He1) as (_ & Hc1 & _ & Hs1).
  pose proof (sp_range Hsp _ _ Hc1 Hi0) as Hi0N.
  destruct (node_inside s e1 n Hel Hnodes He1 ltac:(lia)) as [Hn1 Hn2].
  destruct (Hended i0 Hi0N) as (el & sg & Hl & Hpos & Hes & Hsb).
  destruct (latest_cases s i0 el Hel Hla Hl)
    as [[-> _]|(l & -> & HlE & Hlc & _)]; [lia|].
  rewrite Nat2Z.id in Hes.
  assert (Hrl : right_end s l = b_end).
  { unfold right_end. rewrite (slab_of_Some _ _ _ Hes). by apply end_at_Some. }
  pose proof (tl_bounds _ _ _ Htl e1 _ He1 (start_of_left_end s e1 Hel Hlam He1))
    as [Htop _].
  pose proof (Hbound _ Hs1) as Hb1.
  assert (Hlate : (a_top + eps < node_of s e1 n)%Q) by lra.
  destruct (chain_find s a_top b_end (node_of s e1 n) Hel Hlam Htl
              Hlate l HlE) as (y & Hyl & Hyc & Hw).
  { rewrite Hrl. unfold right_end in Hn2. lra. }
  apply existsb_exists. exists y. split.
  { apply list_elem_of_In, elem_of_seq. lia. }
  rewrite Hyc, Hlc, Nat.eqb_refl. unfold hit. rewrite Hw.
  rewrite andb_true_r. simpl. apply Nat.ltb_lt.
  destruct (decide (slab_of s e1 < slab_of s y)) as [|Hge]; [done|].
  exfalso.
  pose proof (proj1 (forallb_forall _ _) Hcnt y
                ltac:(apply list_elem_of_In, elem_of_seq; lia)) as Hy.
  simpl in Hy. rewrite Hyc, Hlc, Nat.eqb_refl in Hy.
  destruct (Nat.leb_spec (slab_of s y) (slab_of s e1)); [|lia].
  simpl in Hy. apply Qltb_lt in Hy.
  apply within_time_spec in Hw as [_ Hw2].
  destruct (decide (slab_of s y = slab_of s e1)) as [Heq|Hne].
  - unfold right_end in Hy. rewrite Heq in Hy. lra.
  - destruct (lm_nested _ Hlam (slab_of s y) (slab_of s e1) ltac:(lia) Hs1)
      as [Hn'|Hn']; unfold right_end, left_end in *; lra.
Qed.

(** The state in which [build] starts the creation: no sub-slab, no
    element, and the slots that the dry run has counted are empty. *)
Lemma build_creation_slots fuel a b (s : Slab) b' s' :
  length (elast s) = N ->
  build fuel a b s = Some (b', s') ->
  exists sc0 sC,
    createTimeSlab fuel a b 0 sc0 = Some (b', sC)
    /\ s' = set_b b' (set_a a sC)
    /\ elems_ok sc0 /\ elast_ok sc0 /\ covered a 0 sc0
    /\ next (size_s sc0) = 0 /\ next (size_e sc0) = 0
    /\ next (size_d sc0) = 0
    /\ (forall j, j < nd sc0 -> de sc0 !! j = Some (-1)%Z).
Proof.
  intros Hlen Hrun.
  apply build_eq in Hrun as (sA & sE & sC & HA & HE & HC & ->).
  destruct (build_start _ _ _ _ _ _ HA HE)
    as (s1 & bD & sD & H1 & HD & Eq & N1 & N2 & N3 & N4
        & _ & _ & _ & _ & Lel & Fel & _ & _ & Hfree).
  set (sc0 := set_kmin endtime sE) in *.
  exists sc0, sC. split; [exact HC|]. split; [reflexivity|].
  assert (Hnd : nd sc0 = nd sD) by (rewrite Eq; reflexivity).
  split_and!; try assumption.
  - intros e He. change (next (size_e sc0)) with (next (size_e sE)) in He.
    lia.
  - split; [change (elast sc0) with (elast sE); lia|].
    intros i el Hi. left.
    change (elast sc0) with (elast sE) in Hi.
    assert (i < N) by (apply lookup_lt_Some in Hi; lia).
    split; [by eapply Fel|].
    intros e He. change (next (size_e sc0)) with (next (size_e sE)) in He.
    lia.
  - intros i _ el Hi. left.
    change (elast sc0) with (elast sE) in Hi.
    assert (i < N) by (apply lookup_lt_Some in Hi; lia).
    by eapply Fel.
  - intros j Hj. rewrite Hnd in Hj. change (de sc0) with (de sE).
    by apply Hfree.
Qed.

(** The creation of a build: the sub-slabs are nested and end by the end
    of the slab, the elements follow each other from its start, every
    component reaches its end, and the state of the dependencies is that
    of a slab with all its elements. *)
Lemma build_fill fuel a b (s : Slab) b' s' :
  partition_contract -> partition_stable -> partition_onto ->
  sparsity_ok ->
  (0 < kmax)%Q -> (threshold <= 1)%Q -> (0 <= eps)%Q -> 1 <= nsize ->
  length (elast s) = N -> (a < b)%Q ->
  build fuel a b s = Some (b', s') ->
  nodes_inside s' ->
  elems_ok s' /\ elast_ok s' /\ laminar s'
  /\ ne s' = next (size_e s')
  /\ nd s' = next (size_d s')
  /\ (forall sigma, sigma < next (size_s s') -> (end_at s' sigma <= b')%Q)
  /\ timeline a b' s'
  /\ (forall i, i < N -> ended s' i b')
  /\ fill_inv s' (next (size_e s')).
Proof.
  intros Hpc Hdet Honto Hsp Hk Hth Heps Hns Hlen Hab Hrun Hnodes.
  destruct (build_invariants _ _ _ _ _ _ Hpc Hdet Hk Hth Hlen Hrun)
    as (sD & _ & _ & C2 & _ & C4 & _ & _ & _ & E2 & _ & E4 & _).
  destruct (build_creation_slots _ _ _ _ _ _ Hlen Hrun)
    as (sc0 & sC & HC & -> & Hel0 & Hla0 & Hcov0 & N1 & N2 & N4 & Hfree).
  simpl in C2, C4, E2, E4.
  assert (Hnodes' : nodes_inside sC) by exact Hnodes.
  assert (Hlong : longer_than_eps sC).
  { intros sigma x y Hsg Hx Hy.
    destruct (Hnodes' sigma 0 Hsg ltac:(lia)) as [Q1 Q2].
    rewrite (begin_at_Some _ _ _ Hx), (end_at_Some _ _ _ Hy) in Q1, Q2. lra. }
  assert (Hlam0 : laminar sc0) by (split; intros; lia).
  assert (Hfit0 : fits a b sc0) by (intros sigma Hsg; lia).
  assert (Htl0 : timeline a a sc0).
  { split.
    - intros e x He. lia.
    - intros e1 e2 a1 a2 _ He2. lia.
    - intros e x He. lia.
    - intros sigma Hsg. lia. }
  pose proof (createTimeSlab_wf fuel Hpc Hk Hth _ _ _ _ _ _ HC
                (Nat.le_0_l N) Hel0 Hla0 Hcov0) as [Q1 Q2 _ _ _ Q6 Q7].
  specialize (Q7 Hab).
  pose proof (createTimeSlab_timeline a fuel Hpc Hk Hth _ _ _ _ _ _ HC
                (Nat.le_0_l N) Hel0 Hla0 Hcov0 Hab ltac:(lra)
                ltac:(intros; reflexivity) Htl0) as Htl.
  destruct (createTimeSlab_fill fuel Hpc Hk Hth _ _ _ _ _ _ HC
              (Nat.le_0_l N) Hel0 Hla0 Hcov0 Hab Hlam0 Hfit0)
    as (Hlam & Hnew & Hfill).
  { intros _. rewrite N2. split.
    - intros e He1 He2 He3. lia.
    - simpl. done.
    - intros e1 He1. lia.
    - intros j Hj. simpl in Hj. apply Hfree. lia.
    - intros e1 d z He1. lia. }
  assert (Hus : usable sC).
  { split_and!; [done|done|done|lia|]. rewrite (E4 Hlong). lia. }
  assert (Hsg : same_graph sC (set_b b' (set_a a sC)))
    by (split; reflexivity).
  split_and!; simpl.
  - by eapply same_graph_elems.
  - by eapply same_graph_elast.
  - by eapply laminar_same_graph.
  - congruence.
  - rewrite (E4 Hlong). done.
  - intros sigma Hsg'. rewrite (end_at_same_graph sC) by done.
    apply Hnew. lia.
  - by eapply timeline_same_graph.
  - intros i Hi. eapply same_graph_ended; [exact Hsg|]. apply Q7.
    destruct (Honto (partition sC) i Hi) as (n & Hn & Hni).
    exists n. split; [lia|exact Hni].
  - apply (fill_inv_same_graph sC); try done. by apply Hfill.
Qed.

End Filled.

Section FilledRanges.
Context {method : Method} {ode : ODE} {adaptivity : Adaptivity}
  {tolerance : Tolerance} {P : Type} {partition_ops : Partition P}.
Local Abbreviation Slab := (Slab P).
Local Abbreviation eps := real_epsilon.

(** On exact rationals: after a build in which every nodal point of
    every sub-slab lies inside it, later than its start by more than the
    tolerance, the range of slots of every element can be read and every
    slot holds a small-step element of the element.  (On machine reals
    the nodal point [a1 + (b1 - a1)] may exceed [b1] by a rounding error,
    and with it the tolerance of [within]: see the note at
    [create_d_dep].) *)
Lemma build_fills_ranges fuel a b (s : Slab) b' s' :
  partition_contract -> partition_stable -> partition_onto ->
  sparsity_ok ->
  (0 < kmax)%Q -> (threshold <= 1)%Q -> (0 <= eps)%Q -> 1 <= nsize ->
  length (elast s) = N -> (a < b)%Q ->
  build fuel a b s = Some (b', s') ->
  nodes_inside s' ->
  forall e, e < ne s' ->
    exists lo hi,
      slot_range s' e = Some (lo, hi) /\ lo <= hi
      /\ forall d, lo <= d < hi ->
           exists z, de s' !! d = Some (Z.of_nat z) /\ small_peer s' e z.
Proof.
  intros Hpc Hdet Honto Hsp Hk Hth Heps Hns Hlen Hab Hrun Hnodes e He.
  destruct (build_fill fuel a b s b' s' Hpc Hdet Honto Hsp Hk Hth Heps Hns
              Hlen Hab Hrun Hnodes)
    as (Hel & Hla & Hlam & Hne & Hnd & Hbound & Htl & Hend
        & [F1 F2 F3 F4 F5]).
  rewrite <- Hne in *.
  assert (Hlast : forall k, k = ne s' -> offs_to (ne s') s' k = nd s').
  { intros k ->. by rewrite Hnd, F2. }
  remember (offs_to (ne s') s' e) as lo eqn:Hlo.
  remember (offs_to (ne s') s' (S e)) as hi eqn:Hhi.
  assert (Hdim : hi = lo + dim_to (ne s') s' e) by (by rewrite Hhi, Hlo).
  exists lo, hi. split_and!.
  - unfold slot_range, rd. rewrite (F1 e) by lia. rewrite <- Hlo. simpl.
    destruct (decide (ne s' = 0 ∨ e < ne s' - 1)) as [Hd|Hd].
    + rewrite (F1 (e + 1)) by lia. simpl.
      replace (e + 1) with (S e) by lia. by rewrite <- Hhi.
    + simpl. rewrite <- (Hlast (S e)) by lia. by rewrite <- Hhi.
  - lia.
  - intros d Hd.
    destruct (filled_full (de s') lo (dim_to (ne s') s' e)) with (j := d)
      as (z & Hz & Hpos); [|lia|].
    { rewrite Hlo, F3 by done.
      rewrite Hne. apply (due_to_full s' a b'); try done. by rewrite <- Hne. }
    destruct (F5 e d z He ltac:(lia) Hz) as [->|(y & -> & Hy)]; [lia|].
    by exists y.
Qed.

End FilledRanges.

Section SlabLayout.
Context {method : Method} {ode : ODE} {adaptivity : Adaptivity}
  {tolerance : Tolerance} {P : Type} {partition_ops : Partition P}.
Local Abbreviation Slab := (Slab P).
Local Abbreviation eps := real_epsilon.

Local Opaque createTimeSlab.

(** After [build(a, b)] the sub-slabs lie within [[a, b']], in the order
    of their starts, each of positive length; of two sub-slabs the later
    one begins after the end of the earlier one or ends within it; and
    the elements are stored sub-slab by sub-slab. *)
Theorem build_subslabs_nested fuel a b (s : Slab) b' s' :
  partition_contract -> (0 < kmax)%Q -> (threshold <= 1)%Q ->
  length (elast s) = N -> (a < b)%Q ->
  build fuel a b s = Some (b', s') ->
  laminar s'
  /\ forall sigma, sigma < next (size_s s') ->
       (a <= begin_at s' sigma)%Q /\ (end_at s' sigma <= b')%Q.
Proof.
  intros Hpc Hk Hth Hlen Hab Hrun.
  destruct (build_creation_slots _ _ _ _ _ _ Hlen Hrun)
    as (sc0 & sC & HC & -> & Hel0 & Hla0 & Hcov0 & N1 & N2 & N4 & Hfree).
  assert (Hlam0 : laminar sc0) by (split; intros; lia).
  assert (Hfit0 : fits a b sc0) by (intros sigma Hsg; lia).
  destruct (createTimeSlab_fill fuel Hpc Hk Hth _ _ _ _ _ _ HC
              (Nat.le_0_l N) Hel0 Hla0 Hcov0 Hab Hlam0 Hfit0)
    as (Hlam & Hnew & _).
  { intros _. rewrite N2. split.
    - intros e He1 He2 He3. lia.
    - simpl. done.
    - intros e1 He1. lia.
    - intros j Hj. simpl in Hj. apply Hfree. lia.
    - intros e1 d z He1. lia. }
  assert (Hsg : same_graph sC (set_b b' (set_a a sC)))
    by (split; reflexivity).
  split.
  - by eapply laminar_same_graph.
  - intros sigma Hs. simpl in Hs.
    rewrite (begin_at_same_graph sC), (end_at_same_graph sC) by done.
    apply Hnew. lia.
Qed.

(** After a build in which every nodal point lies inside its sub-slab,
    the range of element 0 starts at 0 and the range of an element [e]
    has [nsize] slots for each dependency [i0] of its component that
    counts: the elements of [i0] in the sub-slab of [e] or an earlier
    one end before [e] does, by more than the tolerance. *)
Theorem build_slot_sizes fuel a b (s : Slab) b' s' :
  partition_contract -> partition_deterministic -> partition_onto ->
  sparsity_ok ->
  (0 < kmax)%Q -> (threshold <= 1)%Q -> (0 <= eps)%Q -> 1 <= nsize ->
  length (elast s) = N -> (a < b)%Q ->
  build fuel a b s = Some (b', s') ->
  nodes_inside s' ->
  (0 < ne s' -> exists hi, slot_range s' 0 = Some (0, hi))
  /\ forall e, e < ne s' ->
       exists lo,
         slot_range s' e
         = Some (lo, lo + nsize * count_if (counted_to (ne s') s' e)
                                   (dependencies (comp_of s' e))).
Proof.
  intros Hpc Hdet%deterministic_stable Honto Hsp Hk Hth Heps Hns Hlen Hab
    Hrun Hnodes.
  destruct (build_fill fuel a b s b' s' Hpc Hdet Honto Hsp Hk Hth Heps Hns
              Hlen Hab Hrun Hnodes)
    as (_ & _ & _ & Hne & Hnd & _ & _ & _ & [F1 F2 _ _ _]).
  rewrite <- Hne in *.
  assert (Hlast : forall k, k = ne s' -> offs_to (ne s') s' k = nd s').
  { intros k ->. by rewrite Hnd, F2. }
  assert (Hrange : forall e, e < ne s' ->
            slot_range s' e
            = Some (offs_to (ne s') s' e,
                    offs_to (ne s') s' e + dim_to (ne s') s' e)).
  { intros e He. change (offs_to (ne s') s' e + dim_to (ne s') s' e)
      with (offs_to (ne s') s' (S e)).
    remember (offs_to (ne s') s' e) as lo eqn:Hlo.
    remember (offs_to (ne s') s' (S e)) as hi eqn:Hhi.
    unfold slot_range, rd. rewrite (F1 e) by lia. rewrite <- Hlo. simpl.
    destruct (decide (ne s' = 0 ∨ e < ne s' - 1)) as [Hd|Hd].
    - rewrite (F1 (e + 1)) by lia. simpl.
      replace (e + 1) with (S e) by lia. by rewrite <- Hhi.
    - simpl. rewrite <- (Hlast (S e)) by lia. by rewrite <- Hhi. }
  split.
  - intros H0. eexists. by rewrite (Hrange 0 H0).
  - intros e He. eexists. by rewrite (Hrange e He).
Qed.

(** The element graph of a built slab in time. *)
Lemma build_grid fuel a b (s : Slab) b' s' :
  partition_contract -> partition_onto ->
  (0 < kmax)%Q -> (threshold <= 1)%Q ->
  length (elast s) = N -> (a < b)%Q ->
  build fuel a b s = Some (b', s') ->
  elems_ok s' /\ elast_ok s' /\ laminar s' /\ timeline a b' s'
  /\ forall i, i < N -> ended s' i b'.
Proof.
  intros Hpc Honto Hk Hth Hlen Hab Hrun.
  destruct (build_creation_slots _ _ _ _ _ _ Hlen Hrun)
    as (sc0 & sC & HC & -> & Hel0 & Hla0 & Hcov0 & N1 & N2 & N4 & Hfree).
  assert (Hlam0 : laminar sc0) by (split; intros; lia).
  assert (Hfit0 : fits a b sc0) by (intros sigma Hsg; lia).
  assert (Htl0 : timeline a a sc0).
  { split.
    - intros e x He. lia.
    - intros e1 e2 a1 a2 _ He2. lia.
    - intros e x He. lia.
    - intros sigma Hsg. lia. }
  pose proof (createTimeSlab_wf fuel Hpc Hk Hth _ _ _ _ _ _ HC
                (Nat.le_0_l N) Hel0 Hla0 Hcov0) as [Q1 Q2 _ _ _ Q6 Q7].
  specialize (Q7 Hab).
  pose proof (createTimeSlab_timeline a fuel Hpc Hk Hth _ _ _ _ _ _ HC
                (Nat.le_0_l N) Hel0 Hla0 Hcov0 Hab ltac:(lra)
                ltac:(intros; reflexivity) Htl0) as Htl.
  destruct (createTimeSlab_fill fuel Hpc Hk Hth _ _ _ _ _ _ HC
              (Nat.le_0_l N) Hel0 Hla0 Hcov0 Hab Hlam0 Hfit0)
    as (Hlam & _ & _).
  { intros _. rewrite N2. split.
    - intros e He1 He2 He3. lia.
    - simpl. done.
    - intros e1 He1. lia.
    - intros j Hj. simpl in Hj. apply Hfree. lia.
    - intros e1 d z He1. lia. }
  assert (Hsg : same_graph sC (set_b b' (set_a a sC)))
    by (split; reflexivity).
  split_and!.
  - by eapply same_graph_elems.
  - by eapply same_graph_elast.
  - by eapply laminar_same_graph.
  - by eapply timeline_same_graph.
  - intros i Hi. eapply same_graph_ended; [exact Hsg|]. apply Q7.
    destruct (Honto (partition sC) i Hi) as (n & Hn & Hni).
    exists n. split; [lia|exact Hni].
Qed.

(** After [build(a, b)] the elements of each component tile the slab: a
    time [t] in [(a, b']], up to the tolerance, lies by [within] in one
    element of the component, and in one only. *)
Theorem build_components_tile fuel a b (s : Slab) b' s' :
  partition_contract -> partition_onto ->
  (0 < kmax)%Q -> (threshold <= 1)%Q -> (0 <= eps)%Q ->
  length (elast s) = N -> (a < b)%Q ->
  build fuel a b s = Some (b', s') ->
  forall i t, i < N -> (a + eps < t)%Q -> (t <= b' + eps)%Q ->
    exists y, y < next (size_e s') /\ comp_of s' y = i
      /\ within_time t (left_end s' y) (right_end s' y) = true
      /\ forall y', y' < next (size_e s') -> comp_of s' y' = i ->
           within_time t (left_end s' y') (right_end s' y') = true ->
           y' = y.
Proof.
  intros Hpc Honto Hk Hth Heps Hlen Hab Hrun i t Hi Ht1 Ht2.
  destruct (build_grid fuel a b s b' s' Hpc Honto Hk Hth Hlen Hab Hrun)
    as (Hel & Hla & Hlam & Htl & Hend).
  destruct (Hend i Hi) as (el & sg & Hl & Hpos & Hes & Hsb).
  destruct (latest_cases s' i el Hel Hla Hl)
    as [[-> _]|(l & -> & HlE & Hlc & _)]; [lia|].
  rewrite Nat2Z.id in Hes.
  assert (Hrl : right_end s' l = b').
  { unfold right_end. rewrite (slab_of_Some _ _ _ Hes). by apply end_at_Some. }
  destruct (chain_find s' a b' t Hel Hlam Htl Ht1 l HlE)
    as (y & Hyl & Hyc & Hw); [by rewrite Hrl|].
  exists y. split_and!; [lia|congruence|done|].
  intros y' Hy' Hc' Hw'.
  apply within_time_spec in Hw as [W1 W2].
  apply within_time_spec in Hw' as [W1' W2'].
  destruct (lt_eq_lt_dec y' y) as [[Hlt|Heq]|Hgt]; [|done|]; exfalso.
  - pose proof (comp_order s' Hel Hlam y y' Hlt ltac:(lia) ltac:(congruence)).
    lra.
  - pose proof (comp_order s' Hel Hlam y' y Hgt Hy' ltac:(congruence)).
    lra.
Qed.

End SlabLayout.

Section FevalRuns.
Context {method : Method} {ode : ODE} {adaptivity : Adaptivity}
  {tolerance : Tolerance} {P : Type} {partition_ops : Partition P}.
Local Abbreviation Slab := (Slab P).
Local Abbreviation eps := real_epsilon.

(** ** The right-hand side on a built slab *)

Lemma feval_ready_set_u (s : Slab) (u' : list real) :
  feval_ready s -> N <= length u' -> feval_ready (set_u u' s).
Proof. intros [R1 R2 R3 R4 R5 R6 R7] Hu. by split. Qed.

(** Loops that cannot fail. *)
Lemma for_each_total {A St} (I : St -> Prop) (body : A -> St -> option St) l :
  (forall x s, x ∈ l -> I s -> exists s', body x s = Some s' /\ I s') ->
  forall s, I s -> exists s', for_each body l s = Some s' /\ I s'.
Proof.
  induction l as [|x l IH]; intros Hb s Hs; simpl.
  - by exists s.
  - destruct (Hb x s ltac:(by left) Hs) as (s1 & -> & H1). simpl.
    apply IH; [|done]. intros y sy Hy. apply Hb. by right.
Qed.

Lemma for_range_total {St} (I : St -> Prop) lo hi
    (body : nat -> St -> option St) :
  (forall n s, lo <= n < hi -> I s -> exists s', body n s = Some s' /\ I s') ->
  forall s, I s -> exists s', for_range lo hi body s = Some s' /\ I s'.
Proof.
  intros Hb. unfold for_range. apply for_each_total.
  intros n s Hn%elem_of_seq. apply Hb. lia.
Qed.

Lemma ready_as_set_u (s sx : Slab) (u' : list real) :
  ready_as s sx -> N <= length u' -> ready_as s (set_u u' sx).
Proof.
  intros (R & E1 & E2 & E3 & E4) Hu. split; [by apply feval_ready_set_u|].
  done.
Qed.

Lemma write_u_ready (s sx : Slab) i x :
  ready_as s sx -> i < N ->
  exists sx', (u' ← wr (u sx) i x; Some (set_u u' sx)) = Some sx'
              /\ ready_as s sx'.
Proof.
  intros Hr Hi. pose proof (fr_u _ (proj1 Hr)) as Hu.
  unfold wr. rewrite decide_True by lia. simpl. eexists. split; [done|].
  apply ready_as_set_u; [done|]. rewrite length_insert. lia.
Qed.

(** A dof of an element can be read. *)
Lemma dof_readable (sx : Slab) x n :
  feval_ready sx -> x < ne sx -> n < nsize ->
  is_Some (jx sx !! (x * nsize + n)).
Proof.
  intros Hr Hx Hn. apply lookup_lt_is_Some_2.
  pose proof (fr_jx _ Hr). nia.
Qed.

Lemma dg_peer_runs m t s0 a0 i1 (s sx : Slab) :
  ready_as s sx -> i1 < N -> m < nsize ->
  exists sx', dg_peer m t s0 a0 i1 sx = Some sx' /\ ready_as s sx'.
Proof.
  intros Hr Hi Hm. pose proof (proj1 Hr) as R.
  unfold dg_peer, rd.
  destruct (fr_elast _ R i1 Hi) as (el & -> & [->|(x & -> & Hx)]); simpl.
  { by exists sx. }
  destruct (Z.eqb_spec (Z.of_nat x) (-1)) as [|_]; [lia|].
  destruct (fr_elem _ R x Hx) as (i & sigma & a & b & _ & _ & Hes & Hsa & Hsb).
  rewrite rdZ_of_nat, Hes. simpl.
  destruct (decide (s0 = sigma)) as [_|_].
  - destruct (dof_readable sx x m R Hx Hm) as [v Hv].
    replace (Z.of_nat x * Z.of_nat nsize + Z.of_nat m)%Z
      with (Z.of_nat (x * nsize + m)) by lia.
    rewrite rdZ_of_nat, Hv. simpl. by apply write_u_ready.
  - rewrite Hsb. simpl. destruct (Qltb b (a0 + eps)); [by exists sx|].
    rewrite Hsa. simpl. by apply write_u_ready.
Qed.

Lemma dg_dependent_runs t d (s sx : Slab) z :
  ready_as s sx -> de s !! d = Some (Z.of_nat z) -> z < ne s ->
  exists sx', dg_dependent t d sx = Some sx' /\ ready_as s sx'.
Proof.
  intros Hr Hd Hz. pose proof Hr as (R & _ & Hde & Hne & _).
  unfold dg_dependent, rd. rewrite Hde, Hd. simpl.
  destruct (Z.eqb_spec (Z.of_nat z) (-1)) as [|_]; [lia|]. simpl.
  destruct (fr_elem _ R z ltac:(lia))
    as (i & sigma & a & b & Hei & Hi & Hes & Hsa & Hsb).
  rewrite !rdZ_of_nat, Hei. simpl. rewrite Hes. simpl.
  rewrite Hsa. simpl. rewrite Hsb. simpl. by apply write_u_ready.
Qed.

(** The range of slots of an element, by quadrature point. *)
Lemma dependents_range_ready (s sx : Slab) e0 :
  1 <= nsize -> ready_as s sx -> e0 < ne s ->
  exists lo k,
    dependents_range e0 sx = Some (lo, k)
    /\ forall d, lo <= d < lo + nsize * k ->
         exists z, de s !! d = Some (Z.of_nat z) /\ z < ne s.
Proof.
  intros Hn (R & Hed & Hde & Hne & Hnd) He.
  destruct (fr_slots _ R e0 ltac:(lia)) as (lo & k & Hr & Hs).
  exists lo, k. split.
  - unfold slot_range in Hr. unfold dependents_range.
    destruct (rd (ed sx) e0) as [lo'|]; [|done]. simpl in *.
    destruct (if decide (ne sx = 0 ∨ e0 < ne sx - 1)
              then rd (ed sx) (e0 + 1) else Some (nd sx)) as [hi'|]; [|done].
    simpl in *. inversion Hr; subst lo' hi'.
    replace (lo + nsize * k - lo) with (k * nsize) by lia.
    rewrite Nat.div_mul by lia.
    rewrite bool_decide_eq_true_2 by lia. done.
  - intros d Hd. destruct (Hs d Hd) as (z & Hz & Hlt).
    exists z. rewrite <- Hde, <- Hne. done.
Qed.

(** [dg_feval] does not fail on a slab that is ready for it, whatever
    has made it so: when the latest elements, the elements with their
    components, sub-slabs and previous elements, the dofs, [u0] and [u]
    are in range and every range of slots [[ed[e], ed[e + 1])] (to [nd]
    for the last element) has [nsize] times a number of slots that all
    hold elements (none holds the sentinel -1), then for a method with
    [qsize <= nsize], dependencies below [N], an element [e0 < ne] and
    an [f] with room for [qsize] values the evaluation returns: no read
    is out of range and neither assertion fires. *)
Theorem dg_feval_total (f : list real) s0 e0 i0 a0 b0 k0 (s : Slab) :
  qsize <= nsize -> 1 <= nsize ->
  (forall i1, i1 ∈ dependencies i0 -> i1 < N) ->
  feval_ready s -> e0 < ne s -> qsize <= length f ->
  exists f' s', dg_feval f s0 e0 i0 a0 b0 k0 s = Some (f', s').
Proof.
  intros Hq Hn Hdeps R He Hf.
  assert (Hr : ready_as s s) by (by split).
  unfold dg_feval.
  destruct (dependents_range_ready s s e0 Hn Hr He) as (lo & k & -> & Hs).
  simpl.
  destruct (for_range_total
    (fun '(fx, sx) => length fx = length f /\ ready_as s sx) 0 qsize
    (fun m '(f, s) =>
       let t := (a0 + k0 * qpoint m)%Q in
       s ← for_each (dg_peer m t s0 a0) (dependencies i0) s;
       s ← for_range (lo + m * k) (lo + (m + 1) * k) (dg_dependent t) s;
       f' ← wr f m (ode_f (u s) t i0);
       Some (f', s))) with (s := (f, s)) as ([f' s'] & Hrun & _).
  - intros m [fx sx] Hm [Hlen Hrx]. simpl.
    destruct (for_each_total (ready_as s)
                (dg_peer m (a0 + k0 * qpoint m) s0 a0) (dependencies i0))
      with (s := sx) as (s1 & -> & Hr1); [|done|].
    { intros i1 sy Hi1 Hsy. apply dg_peer_runs; [done|by apply Hdeps|lia]. }
    simpl.
    destruct (for_range_total (ready_as s) (lo + m * k) (lo + (m + 1) * k)
                (dg_dependent (a0 + k0 * qpoint m)))
      with (s := s1) as (s2 & -> & Hr2); [|done|].
    { intros d sy Hd Hsy.
      destruct (Hs d) as (z & Hz & Hlt); [nia|].
      by eapply dg_dependent_runs. }
    simpl. unfold wr. rewrite decide_True by lia. simpl.
    eexists (_, _). split; [done|]. split; [|done].
    rewrite length_insert. done.
  - done.
  - by exists f', s'.
Qed.

(** The initial value of an element can be read. *)
Lemma initial_value_ready (sx : Slab) p i :
  1 <= nsize -> feval_ready sx -> i < N ->
  p = (-1)%Z \/ (exists y, p = Z.of_nat y /\ y < ne sx) ->
  is_Some (initial_value p i sx).
Proof.
  intros Hn R Hi [->|(y & -> & Hy)]; unfold initial_value, rd; simpl.
  - apply lookup_lt_is_Some_2. pose proof (fr_u0 _ R). lia.
  - destruct (Z.eqb_spec (Z.of_nat y) (-1)) as [|_]; [lia|].
    replace (Z.of_nat y * Z.of_nat nsize + Z.of_nat nsize - 1)%Z
      with (Z.of_nat (y * nsize + (nsize - 1))) by lia.
    rewrite rdZ_of_nat. apply dof_readable; [done..|lia].
Qed.

Lemma cg_peer_left_runs s0 a0 i1 (s sx : Slab) :
  1 <= nsize -> ready_as s sx -> i1 < N ->
  exists sx', cg_peer_left s0 a0 i1 sx = Some sx' /\ ready_as s sx'.
Proof.
  intros Hn Hr Hi. pose proof (proj1 Hr) as R.
  unfold cg_peer_left, rd.
  destruct (fr_elast _ R i1 Hi) as (el & -> & [->|(x & -> & Hx)]); simpl.
  { destruct (lookup_lt_is_Some_2 (u0 sx) i1) as [v ->].
    { pose proof (fr_u0 _ R). lia. }
    simpl. by apply write_u_ready. }
  destruct (Z.eqb_spec (Z.of_nat x) (-1)) as [|_]; [lia|].
  destruct (fr_elem _ R x Hx) as (i & sigma & a & b & _ & _ & Hes & Hsa & Hsb).
  destruct (fr_ee _ R x Hx) as (p & Hee & Hp).
  destruct (initial_value_ready sx p i1 Hn R Hi Hp) as [v0 Hv0].
  simpl. rewrite !rdZ_of_nat, Hes. simpl.
  destruct (decide (sigma = s0)) as [_|_].
  - rewrite Hee. simpl. rewrite Hv0. simpl.
    by apply write_u_ready.
  - rewrite Hsb. simpl. destruct (Qltb b (a0 + eps)).
    + destruct (dof_readable sx x (nsize - 1) R Hx ltac:(lia)) as [v Hv].
      replace (Z.of_nat x * Z.of_nat nsize + Z.of_nat nsize - 1)%Z
        with (Z.of_nat (x * nsize + (nsize - 1))) by lia.
      rewrite rdZ_of_nat, Hv. simpl. by apply write_u_ready.
    + rewrite Hsa. simpl. rewrite Hee. simpl.
      rewrite Hv0. simpl. by apply write_u_ready.
Qed.

Lemma cg_peer_runs m t s0 a0 i1 (s sx : Slab) :
  1 <= nsize -> ready_as s sx -> i1 < N -> 1 <= m <= nsize ->
  exists sx', cg_peer m t s0 a0 i1 sx = Some sx' /\ ready_as s sx'.
Proof.
  intros Hn Hr Hi Hm. pose proof (proj1 Hr) as R.
  unfold cg_peer, rd.
  destruct (fr_elast _ R i1 Hi) as (el & -> & [->|(x & -> & Hx)]); simpl.
  { by exists sx. }
  destruct (Z.eqb_spec (Z.of_nat x) (-1)) as [|_]; [lia|].
  destruct (fr_elem _ R x Hx) as (i & sigma & a & b & _ & _ & Hes & Hsa & Hsb).
  destruct (fr_ee _ R x Hx) as (p & Hee & Hp).
  destruct (initial_value_ready sx p i1 Hn R Hi Hp) as [v0 Hv0].
  simpl. rewrite !rdZ_of_nat, Hes. simpl.
  destruct (decide (s0 = sigma)) as [_|_].
  - destruct (dof_readable sx x (m - 1) R Hx ltac:(lia)) as [v Hv].
    replace (Z.of_nat x * Z.of_nat nsize + Z.of_nat m - 1)%Z
      with (Z.of_nat (x * nsize + (m - 1))) by lia.
    rewrite rdZ_of_nat, Hv. simpl. by apply write_u_ready.
  - rewrite Hsb. simpl. destruct (Qltb b (a0 + eps)); [by exists sx|].
    rewrite Hsa. simpl. rewrite Hee. simpl.
    rewrite Hv0. simpl. by apply write_u_ready.
Qed.

Lemma cg_dependent_runs t d (s sx : Slab) z :
  1 <= nsize -> ready_as s sx ->
  de s !! d = Some (Z.of_nat z) -> z < ne s ->
  exists sx', cg_dependent t d sx = Some sx' /\ ready_as s sx'.
Proof.
  intros Hn Hr Hd Hz. pose proof Hr as (R & _ & Hde & Hne & _).
  unfold cg_dependent, rd. rewrite Hde, Hd. simpl.
  destruct (Z.eqb_spec (Z.of_nat z) (-1)) as [|_]; [lia|]. simpl.
  destruct (fr_elem _ R z ltac:(lia))
    as (i & sigma & a & b & Hei & Hi & Hes & Hsa & Hsb).
  destruct (fr_ee _ R z ltac:(lia)) as (p & Hee & Hp).
  destruct (initial_value_ready sx p i Hn R Hi Hp) as [v0 Hv0].
  rewrite !rdZ_of_nat, Hee. simpl. rewrite Hei. simpl. rewrite Hv0. simpl.
  rewrite Hes. simpl. rewrite Hsa. simpl. rewrite Hsb. simpl.
  by apply write_u_ready.
Qed.

(** The same for [cg_feval], for a method with [qsize <= nsize + 1], a
    component [i0 < N] and an [f0] with an entry for every component:
    on a slab that is ready for it the evaluation returns. *)
Theorem cg_feval_total (f : list real) s0 e0 i0 a0 b0 k0 (s : Slab) :
  qsize <= nsize + 1 -> 1 <= nsize ->
  (forall i1, i1 ∈ dependencies i0 -> i1 < N) ->
  i0 < N -> N <= length (f0 s) ->
  feval_ready s -> e0 < ne s -> qsize <= length f -> 1 <= length f ->
  exists f' s', cg_feval f s0 e0 i0 a0 b0 k0 s = Some (f', s').
Proof.
  intros Hq Hn Hdeps Hi0 Hf0 R He Hf Hf1.
  assert (Hr : ready_as s s) by (by split).
  unfold cg_feval.
  assert (exists f1 s1,
    (if Qltb a0 (_a s + eps)
     then y ← rd (f0 s) i0; f' ← wr f 0 y; Some (f', s)
     else s ← for_each (cg_peer_left s0 a0) (dependencies i0) s;
          f' ← wr f 0 (ode_f (u s) a0 i0); Some (f', s)) = Some (f1, s1)
    /\ length f1 = length f /\ ready_as s s1) as (f1 & s1 & -> & Hl1 & Hr1).
  { destruct (Qltb a0 (_a s + eps)).
    - unfold rd. destruct (lookup_lt_is_Some_2 (f0 s) i0) as [y ->]; [lia|].
      simpl. unfold wr. rewrite decide_True by lia. simpl.
      eexists _, _. split; [done|]. split; [|done]. by rewrite length_insert.
    - destruct (for_each_total (ready_as s) (cg_peer_left s0 a0)
                  (dependencies i0)) with (s := s) as (s1 & -> & Hr1);
        [|done|].
      { intros i1 sy Hi1 Hsy. apply cg_peer_left_runs; [done..|].
        by apply Hdeps. }
      simpl. unfold wr. rewrite decide_True by lia. simpl.
      eexists _, _. split; [done|]. split; [|done]. by rewrite length_insert. }
  simpl.
  destruct (dependents_range_ready s s1 e0 Hn Hr1 He) as (lo & k & -> & Hs).
  simpl.
  destruct (for_range_total
    (fun '(fx, sx) => length fx = length f /\ ready_as s sx) 1 qsize
    (fun m '(f, s) =>
       let t := (a0 + k0 * qpoint m)%Q in
       s ← for_each (cg_peer m t s0 a0) (dependencies i0) s;
       s ← for_range (lo + (m - 1) * k) (lo + m * k) (cg_dependent t) s;
       f' ← wr f m (ode_f (u s) t i0);
       Some (f', s))) with (s := (f1, s1)) as ([f' s'] & Hrun & _).
  - intros m [fx sx] Hm [Hlen Hrx]. simpl.
    destruct (for_each_total (ready_as s)
                (cg_peer m (a0 + k0 * qpoint m) s0 a0) (dependencies i0))
      with (s := sx) as (s2 & -> & Hr2); [|done|].
    { intros i1 sy Hi1 Hsy. apply cg_peer_runs; [done..|by apply Hdeps|lia]. }
    simpl.
    destruct (for_range_total (ready_as s) (lo + (m - 1) * k) (lo + m * k)
                (cg_dependent (a0 + k0 * qpoint m)))
      with (s := s2) as (s3 & -> & Hr3); [|done|].
    { intros d sy Hd Hsy.
      destruct (Hs d) as (z & Hz & Hlt); [nia|].
      by eapply cg_dependent_runs. }
    simpl. unfold wr. rewrite decide_True by lia. simpl.
    eexists (_, _). split; [done|]. split; [|done].
    rewrite length_insert. done.
  - done.
  - by exists f', s'.
Qed.

End FevalRuns.

Section BuiltSlabReady.
Context {method : Method} {ode : ODE} {adaptivity : Adaptivity}
  {tolerance : Tolerance} {P : Type} {partition_ops : Partition P}.
Local Abbreviation Slab := (Slab P).
Local Abbreviation eps := real_epsilon.

Local Opaque createTimeSlab computeEndTime countDependencies_dry.

(** The dry run writes times into [u] and keeps its length. *)
Lemma computeDataSize_u_length fuel : forall a b offset (s : Slab) b' s',
  computeDataSize fuel a b offset s = Some (b', s') ->
  length (u s') = length (u s).
Proof.
  induction fuel as [|fuel IH]; simpl; intros a b offset s b' s' Hrun;
    [done|].
  destruct (computeEndTime a b offset s) as [[b1 end_] s1] eqn:Hc.
  apply computeEndTime_eq in Hc as (K' & _ & _ & Heq1).
  apply bind_Some in Hrun as (sA & HA & Hrun).
  apply bind_Some in Hrun as ([] & _ & Hrun).
  apply bind_Some in Hrun as (sB & HB & Hrun).
  apply bind_Some in Hrun as ([t sW] & HW & Hrun).
  inversion Hrun; subst b' s'. clear Hrun.
  assert (H1 : length (u s1) = length (u s)) by (rewrite Heq1; done).
  assert (HuA : length (u sA) = length (u s)).
  { eapply (for_range_inv (fun sx : Slab => length (u sx) = length (u s)));
      [| |exact HA]; [|done].
    intros n sx sx' _ IHx Hb.
    apply bind_Some in Hb as (u' & Hw & Hb). inversion Hb; subst sx'.
    simpl. apply wr_length in Hw. congruence. }
  assert (HuB : length (u sB) = length (u s)).
  { eapply (for_range_inv (fun sx : Slab => length (u sx) = length (u s)));
      [| |exact HB]; [|done].
    intros n sx sx' _ IHx Hb.
    apply bind_Some in Hb as (c & _ & Hb). inversion Hb; subst sx'. done. }
  eapply (while_loop_inv (fun _ (sx : Slab) => length (u sx) = length (u s)))
    in HW as [HW _]; [exact HW| |exact HuB].
  intros t0 sx t' sx' Hx _ Hb. apply IH in Hb. congruence.
Qed.

(** The loop of [allocData] over [u] has found room for [N] entries. *)
Lemma fill_u_room n a (s s' : Slab) :
  for_range 0 n (fun i s => u' ← wr (u s) i a; Some (set_u u' s)) s = Some s' ->
  n <= length (u s).
Proof.
  intros Hrun.
  eapply (for_range_ind (fun k (sx : Slab) =>
    length (u sx) = length (u s) /\ k <= length (u s)) 0 n);
    [lia| | |exact Hrun]; [|split; [done|lia]].
  intros k sx sx' Hk [I1 I2] Hb.
  apply bind_Some in Hb as (u' & [Hlt ->]%wr_Some & Hb).
  inversion Hb; subst sx'. simpl. rewrite length_insert. lia.
Qed.

(** A build keeps [f0] and leaves room in [u] for every component. *)
Lemma build_room fuel a b (s : Slab) b' s' :
  build fuel a b s = Some (b', s') ->
  N <= length (u s') /\ f0 s' = f0 s.
Proof.
  intros Hrun.
  apply build_eq in Hrun as (sA & sE & sC & HA & HE & HC & ->).
  destruct (build_start _ _ _ _ _ _ HA HE)
    as (s1 & bD & sD & H1 & HD & Eq & _).
  pose proof (fill_u_room _ _ _ _ H1) as Hroom.
  apply fill_u_loop in H1 as (Eu & Lu & _).
  pose proof (computeDataSize_u_length _ _ _ _ _ _ _ HD) as LD.
  apply computeDataSize_frame in HD as ED.
  pose proof (ext_static _ _ (createTimeSlab_extends _ _ _ _ _ _ _ HC)) as EC.
  assert (HuE : u sE = u sD).
  { change (u sE) with (u (set_kmin endtime sE)). rewrite Eq. reflexivity. }
  assert (HfE : f0 sE = f0 sD).
  { change (f0 sE) with (f0 (set_kmin endtime sE)). rewrite Eq. reflexivity. }
  assert (HuC : u sC = u sD).
  { rewrite EC. simpl. exact HuE. }
  assert (HfC : f0 sC = f0 s).
  { rewrite EC. simpl. rewrite HfE, ED. simpl. rewrite Eu. reflexivity. }
  simpl. rewrite HuC. split; [|done]. simpl in LD. lia.
Qed.

(** After a build in which every nodal point lies inside its sub-slab,
    the slab is ready for the right-hand side. *)
Lemma build_ready fuel a b (s : Slab) b' s' :
  partition_contract -> partition_stable -> partition_onto ->
  sparsity_ok ->
  (0 < kmax)%Q -> (threshold <= 1)%Q -> (0 <= eps)%Q -> 1 <= nsize ->
  length (elast s) = N -> (a < b)%Q ->
  build fuel a b s = Some (b', s') ->
  nodes_inside s' ->
  feval_ready s'.
Proof.
  intros Hpc Hdet Honto Hsp Hk Hth Heps Hns Hlen Hab Hrun Hnodes.
  destruct (build_fill fuel a b s b' s' Hpc Hdet Honto Hsp Hk Hth Heps Hns
              Hlen Hab Hrun Hnodes)
    as (Hel & Hla & Hlam & Hne & Hnd & Hbound & Htl & Hend
        & [F1 F2 F3 F4 F5]).
  destruct (build_arena fuel a b s b' s' Hpc Hdet Honto Hk Hth Hlen Hab Hrun)
    as [Hok _].
  destruct (build_dofs_readable fuel a b s b' s' Hlen Hns Hrun Hok)
    as (_ & Hjx & Hu0).
  destruct (build_room fuel a b s b' s' Hrun) as [Hu _].
  split; try done.
  - intros i Hi.
    destruct (latest_facts s' i Hel Hla Hi)
      as [[Hl _]|(x & Hl & Hx & _)].
    + exists (-1)%Z. split; [done|by left].
    + exists (Z.of_nat x). split; [done|right]. exists x. split; [done|lia].
  - intros x Hx. rewrite Hne in Hx.
    destruct (element_facts s' x Hel Hx) as (Hei & Hc & Hes & Hs).
    destruct (lm_read _ Hlam _ Hs) as [[a1 Ha1] [b1 Hb1]].
    by exists (comp_of s' x), (slab_of s' x), a1, b1.
  - intros x Hx. rewrite Hne in Hx.
    destruct (Hel x Hx) as (i & sg & p & _ & _ & _ & _ & Hp & Hpr).
    exists p. split; [done|].
    destruct Hpr as [[-> _]|(H0 & Hlt & _)]; [by left|right].
    exists (Z.to_nat p). split; lia.
  - intros e He.
    assert (Hlast : forall k, k = ne s' -> offs_to (ne s') s' k = nd s').
    { intros k ->. by rewrite Hnd, F2, Hne. }
    rewrite <- Hne in *.
    exists (offs_to (ne s') s' e),
      (count_if (counted_to (ne s') s' e) (dependencies (comp_of s' e))).
    change (nsize * count_if (counted_to (ne s') s' e)
                      (dependencies (comp_of s' e)))
      with (dim_to (ne s') s' e).
    split.
    + change (offs_to (ne s') s' e + dim_to (ne s') s' e)
        with (offs_to (ne s') s' (S e)).
      remember (offs_to (ne s') s' e) as lo eqn:Hlo.
      remember (offs_to (ne s') s' (S e)) as hi eqn:Hhi.
      unfold slot_range, rd. rewrite (F1 e) by lia. rewrite <- Hlo. simpl.
      destruct (decide (ne s' = 0 ∨ e < ne s' - 1)) as [Hd|Hd].
      * rewrite (F1 (e + 1)) by lia. simpl.
        replace (e + 1) with (S e) by lia. by rewrite <- Hhi.
      * simpl. rewrite <- (Hlast (S e)) by lia. by rewrite <- Hhi.
    + intros d Hd.
      destruct (filled_full (de s') (offs_to (ne s') s' e)
                  (dim_to (ne s') s' e)) with (j := d)
        as (z & Hz & Hpos); [|lia|].
      { rewrite F3 by done. rewrite Hne.
        apply (due_to_full s' a b'); try done. by rewrite <- Hne. }
      destruct (F5 e d z He ltac:(lia) Hz) as [->|(y & -> & Hy)]; [lia|].
      exists y. split; [done|]. destruct Hy as [Hy _]. lia.
Qed.

End BuiltSlabReady.

Section FevalValues.
Context {method : Method} {ode : ODE} {adaptivity : Adaptivity}
  {tolerance : Tolerance} {P : Type} {partition_ops : Partition P}.
Local Abbreviation Slab := (Slab P).
Local Abbreviation eps := real_epsilon.

(** ** The values that the right-hand side uses *)

Lemma only_u_reads (s s' : Slab) :
  only_u s s' ->
  elast s' = elast s /\ es s' = es s /\ ei s' = ei s /\ jx s' = jx s
  /\ de s' = de s
  /\ forall e0, dependents_range e0 s' = dependents_range e0 s.
Proof.
  intros [E _]. rewrite E. simpl. split_and!; reflexivity.
Qed.

Ltac step_own H :=
  repeat first
    [ match type of H with
      | Some _ = Some _ => inversion H; subst; clear H
      | None = Some _ => discriminate H
      end
    | match type of H with
      | (wr (u _) _ _ ≫= _) = Some _ =>
        let Hw := fresh "Hw" in
        apply bind_Some in H as (? & Hw & H)
      | (_ ≫= _) = Some _ => apply bind_Some in H as (? & _ & H)
      | (if ?c then _ else _) = Some _ => destruct c
      end ].

Lemma write_other (l l' : list real) i x j :
  wr l i x = Some l' -> j <> i -> l' !! j = l !! j.
Proof.
  intros [_ ->]%wr_Some Hj. by rewrite list_lookup_insert_ne.
Qed.

(** A peer writes [u] at its own component only. *)
Lemma cg_peer_own m t s0 a0 i (s s' : Slab) j :
  cg_peer m t s0 a0 i s = Some s' -> j <> i -> u s' !! j = u s !! j.
Proof.
  unfold cg_peer. intros H Hj. step_own H; try reflexivity;
    simpl; eapply write_other; eassumption.
Qed.

Lemma dg_peer_own m t s0 a0 i (s s' : Slab) j :
  dg_peer m t s0 a0 i s = Some s' -> j <> i -> u s' !! j = u s !! j.
Proof.
  unfold dg_peer. intros H Hj. step_own H; try reflexivity;
    simpl; eapply write_other; eassumption.
Qed.

(** A peer in the sub-slab of the current element: a dof is copied. *)
Lemma cg_peer_same m t s0 a0 i1 e1 (s s' : Slab) :
  1 <= m ->
  cg_peer m t s0 a0 i1 s = Some s' ->
  elast s !! i1 = Some (Z.of_nat e1) -> es s !! e1 = Some s0 ->
  exists x, jx s !! (e1 * nsize + m - 1) = Some x /\ u s' !! i1 = Some x.
Proof.
  intros Hm H He Hs. unfold cg_peer, rd in H. rewrite He in H. simpl in H.
  destruct (Z.eqb_spec (Z.of_nat e1) (-1)) as [Hneg|_]; [lia|].
  rewrite !rdZ_of_nat, Hs in H. simpl in H.
  destruct (decide (s0 = s0)) as [_|Hn]; [|done].
  apply bind_Some in H as (x & [_ Hx]%rdZ_Some & H).
  apply bind_Some in H as (u' & [Hlt ->]%wr_Some & H).
  inversion H; subst s'. clear H. exists x. split.
  - replace (e1 * nsize + m - 1)
      with (Z.to_nat (Z.of_nat e1 * Z.of_nat nsize + Z.of_nat m - 1)) by lia.
    exact Hx.
  - simpl. by rewrite list_lookup_insert_eq.
Qed.

Lemma dg_peer_same m t s0 a0 i1 e1 (s s' : Slab) :
  dg_peer m t s0 a0 i1 s = Some s' ->
  elast s !! i1 = Some (Z.of_nat e1) -> es s !! e1 = Some s0 ->
  exists x, jx s !! (e1 * nsize + m) = Some x /\ u s' !! i1 = Some x.
Proof.
  intros H He Hs. unfold dg_peer, rd in H. rewrite He in H. simpl in H.
  destruct (Z.eqb_spec (Z.of_nat e1) (-1)) as [Hneg|_]; [lia|].
  rewrite !rdZ_of_nat, Hs in H. simpl in H.
  destruct (decide (s0 = s0)) as [_|Hn]; [|done].
  apply bind_Some in H as (x & [_ Hx]%rdZ_Some & H).
  apply bind_Some in H as (u' & [Hlt ->]%wr_Some & H).
  inversion H; subst s'. clear H. exists x. split.
  - replace (e1 * nsize + m)
      with (Z.to_nat (Z.of_nat e1 * Z.of_nat nsize + Z.of_nat m)) by lia.
    exact Hx.
  - simpl. by rewrite list_lookup_insert_eq.
Qed.

(** The loop over the peers leaves in [u[i1]] the dof of every peer [i1]
    of the list that lies in the sub-slab of the current element. *)
Section Peers.
Variable body : nat -> Slab -> option Slab.
Variable s0 : nat.
Variable dof : nat -> nat.
Hypothesis body_frame : forall i (s s' : Slab),
  body i s = Some s' -> only_u s s'.
Hypothesis body_own : forall i (s s' : Slab) j,
  body i s = Some s' -> j <> i -> u s' !! j = u s !! j.
Hypothesis body_same : forall i1 e1 (s s' : Slab),
  body i1 s = Some s' ->
  elast s !! i1 = Some (Z.of_nat e1) -> es s !! e1 = Some s0 ->
  exists x, jx s !! dof e1 = Some x /\ u s' !! i1 = Some x.

Lemma peers_value l : forall (s s' : Slab),
  for_each body l s = Some s' ->
  only_u s s'
  /\ (forall j, j ∉ l -> u s' !! j = u s !! j)
  /\ (forall i1 e1, i1 ∈ l ->
        elast s !! i1 = Some (Z.of_nat e1) -> es s !! e1 = Some s0 ->
        exists x, jx s !! dof e1 = Some x /\ u s' !! i1 = Some x).
Proof.
  induction l as [|i l IH]; simpl; intros s s' Hrun.
  - inversion Hrun; subst s'. split; [apply only_u_refl|].
    split; [done|]. intros i1 e1 Hin. by apply elem_of_nil in Hin.
  - apply bind_Some in Hrun as (s1 & Hb & Hrun).
    pose proof (body_frame _ _ _ Hb) as Hf1.
    destruct (only_u_reads _ _ Hf1) as (E1 & E2 & _ & E4 & _).
    apply IH in Hrun as (Hf & Hout & Hin).
    split; [by eapply only_u_trans|]. split.
    + intros j Hj. apply not_elem_of_cons in Hj as [Hji Hjl].
      rewrite (Hout j Hjl). by eapply body_own.
    + intros i1 e1 Hi1 He Hs.
      destruct (decide (i1 ∈ l)) as [Hl|Hl].
      * destruct (Hin i1 e1 Hl) as (x & Hx & Hu).
        { by rewrite E1. }
        { by rewrite E2. }
        exists x. split; [by rewrite <- E4|exact Hu].
      * apply elem_of_cons in Hi1 as [->|Hi1]; [|done].
        destruct (body_same _ _ _ _ Hb He Hs) as (x & Hx & Hu).
        exists x. split; [exact Hx|]. by rewrite (Hout i Hl).
Qed.

End Peers.

(** A smaller element is read into the component that it belongs to. *)
Lemma cg_dependent_own t d (s s' : Slab) :
  cg_dependent t d s = Some s' ->
  exists z i1, de s !! d = Some (Z.of_nat z) /\ ei s !! z = Some i1
    /\ forall j, j <> i1 -> u s' !! j = u s !! j.
Proof.
  unfold cg_dependent. intros H.
  apply bind_Some in H as (e1 & He1 & H).
  apply bind_Some in H as (? & _ & H).
  apply bind_Some in H as (ep & _ & H).
  apply bind_Some in H as (i1 & [H0 Hi1]%rdZ_Some & H).
  exists (Z.to_nat e1), i1. rewrite Z2Nat.id by exact H0.
  split; [exact He1|]. split; [exact Hi1|].
  intros j Hj. step_own H. simpl. eapply write_other; eassumption.
Qed.

Lemma dg_dependent_own t d (s s' : Slab) :
  dg_dependent t d s = Some s' ->
  exists z i1, de s !! d = Some (Z.of_nat z) /\ ei s !! z = Some i1
    /\ forall j, j <> i1 -> u s' !! j = u s !! j.
Proof.
  unfold dg_dependent. intros H.
  apply bind_Some in H as (e1 & He1 & H).
  apply bind_Some in H as (? & _ & H).
  apply bind_Some in H as (i1 & [H0 Hi1]%rdZ_Some & H).
  exists (Z.to_nat e1), i1. rewrite Z2Nat.id by exact H0.
  split; [exact He1|]. split; [exact Hi1|].
  intros j Hj. step_own H. simpl. eapply write_other; eassumption.
Qed.

(** The loop over the smaller elements leaves [u[j]] alone when no slot
    that it visits holds an element of [j]. *)
Lemma dependents_keep (body : nat -> Slab -> option Slab) lo hi
    (s s' : Slab) j :
  (forall d (sx sx' : Slab), body d sx = Some sx' -> only_u sx sx') ->
  (forall d (sx sx' : Slab), body d sx = Some sx' ->
     exists z i1, de sx !! d = Some (Z.of_nat z) /\ ei sx !! z = Some i1
       /\ forall j, j <> i1 -> u sx' !! j = u sx !! j) ->
  for_range lo hi body s = Some s' ->
  (forall k z, lo <= k < hi -> de s !! k = Some (Z.of_nat z) ->
     ei s !! z <> Some j) ->
  only_u s s' /\ u s' !! j = u s !! j.
Proof.
  intros Hframe Hown Hrun Hno.
  eapply (for_range_inv (fun sx : Slab =>
    only_u s sx /\ u sx !! j = u s !! j)); [| |exact Hrun].
  - intros d sx sx' Hd [Hf Hu] Hb.
    pose proof (Hframe _ _ _ Hb) as Hf'.
    destruct (only_u_reads _ _ Hf) as (_ & _ & E3 & _ & E5 & _).
    destruct (Hown _ _ _ Hb) as (z & i1 & Hz & Hi1 & Hoth).
    split; [by eapply only_u_trans|].
    rewrite <- Hu. apply Hoth. intros ->.
    rewrite E5 in Hz. rewrite E3 in Hi1. exact (Hno d z Hd Hz Hi1).
  - split; [apply only_u_refl|reflexivity].
Qed.

(** C8: in [cg_feval] and [dg_feval], at every quadrature point [m >= 1]
    and for every dependency [i1] of the current component whose latest
    element [e1] lies in the sub-slab [s0] of the current element, the
    array [u] that [ode.f] is evaluated on for [f[m]] holds in [u[i1]]
    the dof [jx[e1 * nsize + m - 1]] (continuous method) or
    [jx[e1 * nsize + m]] (discontinuous method) itself: the basis is not
    evaluated.  The loop over the smaller elements runs after the one
    over the peers, so this is the value used as long as no slot visited
    for the current element holds an element of [i1].  At the last
    quadrature point that array is the [u] that the evaluator leaves. *)
Theorem feval_same_subslab_value (f : list real) s0 e0 i0 a0 b0 k0
    (s : Slab) f' s' (m i1 e1 : nat) :
  1 <= m -> m < qsize ->
  i1 ∈ dependencies i0 ->
  elast s !! i1 = Some (Z.of_nat e1) -> es s !! e1 = Some s0 ->
  ~ reads_smaller s e0 i1 ->
  (cg_feval f s0 e0 i0 a0 b0 k0 s = Some (f', s') ->
   exists x um,
     jx s !! (e1 * nsize + m - 1) = Some x /\ um !! i1 = Some x
     /\ f' !! m = Some (ode_f um (a0 + k0 * qpoint m)%Q i0)
     /\ (S m = qsize -> um = u s'))
  /\ (dg_feval f s0 e0 i0 a0 b0 k0 s = Some (f', s') ->
      exists x um,
        jx s !! (e1 * nsize + m) = Some x /\ um !! i1 = Some x
        /\ f' !! m = Some (ode_f um (a0 + k0 * qpoint m)%Q i0)
        /\ (S m = qsize -> um = u s')).
Proof.
  intros Hm Hq Hdep He Hs Hno. split.
  - (* the continuous method *)
    unfold cg_feval. intros Hrun.
    apply bind_Some in Hrun as ([f1 s1] & Hleft & Hrun).
    assert (Hf1 : only_u s s1).
    { destruct (Qltb a0 (_a s + eps)).
      - apply bind_Some in Hleft as (y & _ & Hleft).
        apply bind_Some in Hleft as (fx & _ & Hleft).
        inversion Hleft; subst. apply only_u_refl.
      - apply bind_Some in Hleft as (sx & Hpeers & Hleft).
        apply bind_Some in Hleft as (fx & _ & Hleft).
        inversion Hleft; subst.
        eapply for_each_only_u; [|exact Hpeers].
        intros x sx sx'. apply cg_peer_left_frame. }
    destruct (only_u_reads _ _ Hf1) as (_ & _ & _ & _ & _ & Er).
    apply bind_Some in Hrun as ([d ndep] & Hr & Hrun). rewrite Er in Hr.
    cut (only_u s s'
         /\ exists x um,
              jx s !! (e1 * nsize + m - 1) = Some x /\ um !! i1 = Some x
              /\ f' !! m = Some (ode_f um (a0 + k0 * qpoint m)%Q i0)
              /\ (S m = qsize -> um = u s'));
      [tauto|].
    eapply (for_range_ind (fun k '(fx, sx) =>
      only_u s sx
      /\ (m < k ->
          exists x um,
            jx s !! (e1 * nsize + m - 1) = Some x /\ um !! i1 = Some x
            /\ fx !! m = Some (ode_f um (a0 + k0 * qpoint m)%Q i0)
            /\ (S m = k -> um = u sx)))
      1 qsize) in Hrun; [|lia| |split; [exact Hf1|lia]].
    + destruct Hrun as [Hf Hv]. split; [exact Hf|]. apply Hv. exact Hq.
    + intros n [fx sx] [fx' sx'] Hn [Hf Hv] Hb.
      apply bind_Some in Hb as (sA & HA & Hb).
      apply bind_Some in Hb as (sB & HB & Hb).
      apply bind_Some in Hb as (fy & [Hlt ->]%wr_Some & Hb).
      inversion Hb; subst fx' sx'. clear Hb.
      destruct (only_u_reads _ _ Hf) as (E1 & E2 & E3 & E4 & E5 & _).
      destruct (peers_value (cg_peer n (a0 + k0 * qpoint n)%Q s0 a0) s0
                  (fun e => e * nsize + n - 1)
                  (cg_peer_frame n _ s0 a0) (cg_peer_own n _ s0 a0)
                  (fun i1' e1' sy sy' =>
                     cg_peer_same n _ s0 a0 i1' e1' sy sy' (proj1 Hn))
                  _ _ _ HA) as (HfA & _ & HvA).
      destruct (only_u_reads _ _ HfA) as (_ & _ & A3 & _ & A5 & _).
      destruct (dependents_keep (cg_dependent (a0 + k0 * qpoint n)%Q)
                  _ _ _ _ i1 (cg_dependent_frame _) (cg_dependent_own _) HB)
        as [HfB HuB].
      { intros k z Hk Hz Hi. apply Hno. exists d, ndep, k, z.
        rewrite A5, E5 in Hz. rewrite A3, E3 in Hi.
        split; [exact Hr|]. split; [|done]. nia. }
      split; [eapply only_u_trans; [exact Hf|];
              eapply only_u_trans; [exact HfA|exact HfB]|].
      intros Hmn. destruct (decide (m = n)) as [->|Hne].
      * destruct (HvA i1 e1 Hdep) as (x & Hx & Hu).
        { by rewrite E1. }
        { by rewrite E2. }
        exists x, (u sB). rewrite E4 in Hx. split; [exact Hx|].
        split; [by rewrite HuB|].
        split; [by rewrite list_lookup_insert_eq|done].
      * destruct Hv as (x & um & Hx & Hum & Hfm & _); [lia|].
        exists x, um. split; [exact Hx|]. split; [exact Hum|].
        split; [by rewrite list_lookup_insert_ne|]. intros Heq. lia.
  - (* the discontinuous method *)
    unfold dg_feval. intros Hrun.
    apply bind_Some in Hrun as ([d ndep] & Hr & Hrun).
    cut (only_u s s'
         /\ exists x um,
              jx s !! (e1 * nsize + m) = Some x /\ um !! i1 = Some x
              /\ f' !! m = Some (ode_f um (a0 + k0 * qpoint m)%Q i0)
              /\ (S m = qsize -> um = u s'));
      [tauto|].
    eapply (for_range_ind (fun k '(fx, sx) =>
      only_u s sx
      /\ (m < k ->
          exists x um,
            jx s !! (e1 * nsize + m) = Some x /\ um !! i1 = Some x
            /\ fx !! m = Some (ode_f um (a0 + k0 * qpoint m)%Q i0)
            /\ (S m = k -> um = u sx)))
      0 qsize) in Hrun; [|lia| |split; [apply only_u_refl|lia]].
    + destruct Hrun as [Hf Hv]. split; [exact Hf|]. apply Hv. exact Hq.
    + intros n [fx sx] [fx' sx'] Hn [Hf Hv] Hb.
      apply bind_Some in Hb as (sA & HA & Hb).
      apply bind_Some in Hb as (sB & HB & Hb).
      apply bind_Some in Hb as (fy & [Hlt ->]%wr_Some & Hb).
      inversion Hb; subst fx' sx'. clear Hb.
      destruct (only_u_reads _ _ Hf) as (E1 & E2 & E3 & E4 & E5 & _).
      destruct (peers_value (dg_peer n (a0 + k0 * qpoint n)%Q s0 a0) s0
                  (fun e => e * nsize + n)
                  (dg_peer_frame n _ s0 a0) (dg_peer_own n _ s0 a0)
                  (dg_peer_same n _ s0 a0)
                  _ _ _ HA) as (HfA & _ & HvA).
      destruct (only_u_reads _ _ HfA) as (_ & _ & A3 & _ & A5 & _).
      destruct (dependents_keep (dg_dependent (a0 + k0 * qpoint n)%Q)
                  _ _ _ _ i1 (dg_dependent_frame _) (dg_dependent_own _) HB)
        as [HfB HuB].
      { intros k z Hk Hz Hi. apply Hno. exists d, ndep, k, z.
        rewrite A5, E5 in Hz. rewrite A3, E3 in Hi.
        split; [exact Hr|]. split; [|done]. nia. }
      split; [eapply only_u_trans; [exact Hf|];
              eapply only_u_trans; [exact HfA|exact HfB]|].
      intros Hmn. destruct (decide (m = n)) as [->|Hne].
      * destruct (HvA i1 e1 Hdep) as (x & Hx & Hu).
        { by rewrite E1. }
        { by rewrite E2. }
        exists x, (u sB). rewrite E4 in Hx. split; [exact Hx|].
        split; [by rewrite HuB|].
        split; [by rewrite list_lookup_insert_eq|done].
      * destruct Hv as (x & um & Hx & Hum & Hfm & _); [lia|].
        exists x, um. split; [exact Hx|]. split; [exact Hum|].
        split; [by rewrite list_lookup_insert_ne|]. intros Heq. lia.
Qed.

End FevalValues.

Section SampleValue.
Context {method : Method} {ode : ODE} {adaptivity : Adaptivity}
  {tolerance : Tolerance} {P : Type} {partition_ops : Partition P}.
Local Abbreviation Slab := (Slab P).
Local Abbreviation eps := real_epsilon.

Local Opaque coverTime.

(** ** The element that a sample evaluates *)




End SampleValue.

Section TwoRatesMore.
#[local] Existing Instances dg0 oscillator adaptivity1 dolfin_eps two_rates.

Lemma within_time_adjacent_witness :
  within_time (1 # 2) 0 (1 # 2) = negb (within_time (1 # 2) (1 # 2) 1)
  /\ (within_time (1 # 2) 0 (1 # 2) = true
      <-> (1 # 2 <= (1 # 2) + real_epsilon)%Q).
Proof.
  apply within_time_adjacent; vm_compute; [reflexivity|discriminate].
Defined.

Lemma computeEndTime_bounds_witness :
  computeEndTime 0 1 1 (oscillator_new dg0 oscillator)
    = ((1 # 2)%Q, 2,
       set_kmin 0%Q (set_partition 1 (oscillator_new dg0 oscillator)))
  /\ (0 < 1 # 2)%Q /\ (1 # 2 <= 1)%Q.
Proof.
  assert (Hc : computeEndTime 0 1 1 (oscillator_new dg0 oscillator)
               = ((1 # 2)%Q, 2,
                  set_kmin 0%Q
                    (set_partition 1 (oscillator_new dg0 oscillator))))
    by (vm_compute; reflexivity).
  assert (Hth : (threshold <= 1)%Q) by (vm_compute; discriminate).
  assert (Hab : (0 < 1)%Q) by reflexivity.
  assert (HK : (0 < (partition_update
                       (partition (oscillator_new dg0 oscillator)) 1
                       (real_min kmax (1 - 0))).2)%Q) by reflexivity.
  destruct (computeEndTime_bounds 0 1 1 _ _ _ _ Hth Hab HK Hc)
    as (H1 & H2 & _).
  split; [exact Hc|]. split; [exact H1|exact H2].
Defined.

Lemma dry_run_keeps_arena_witness :
  exists b' s',
    computeDataSize 10 0 1 0 two_rates_built = Some (b', s')
    /\ sa s' = sa two_rates_built /\ jx s' = jx two_rates_built
    /\ elast s' = elast two_rates_built
    /\ ns two_rates_built < ns s'
    /\ nj s' + nsize * ne two_rates_built
       = nj two_rates_built + nsize * ne s'.
Proof.
  eexists _, _. split; [vm_compute; reflexivity|].
  match goal with
  | |- sa ?x = _ /\ _ =>
    assert (Hr : computeDataSize 10 0 1 0 two_rates_built = Some (1%Q, x))
      by (vm_compute; reflexivity)
  end.
  destruct (dry_run_keeps_arena 10 0 1 0 _ _ _ Hr)
    as ((A1 & _ & _ & _ & _ & _ & A7 & _) & _ & (B1 & _) & C1 & _ & _ & C4).
  split_and!; assumption.
Defined.

Lemma creation_only_appends_witness :
  exists b' s',
    createTimeSlab 10 0 1 0 two_rates_empty = Some (b', s')
    /\ extends two_rates_empty s'.
Proof.
  eexists _, _. split; [vm_compute; reflexivity|].
  apply (creation_only_appends 10 0 1 0 _ 1%Q).
  vm_compute. reflexivity.
Defined.

Lemma build_reaches_end_witness :
  _a two_rates_built = 0%Q /\ _b two_rates_built = 1%Q
  /\ (0 < 1)%Q /\ (1 <= 1)%Q
  /\ forall n, n < N ->
     exists el sigma,
       elast two_rates_built !! partition_index (partition two_rates_built) n
         = Some el
       /\ (0 <= el)%Z
       /\ es two_rates_built !! Z.to_nat el = Some sigma
       /\ sb two_rates_built !! sigma = Some (_b two_rates_built).
Proof.
  assert (Hk : (0 < kmax)%Q) by reflexivity.
  assert (Hth : (threshold <= 1)%Q) by (vm_compute; discriminate).
  assert (Hlen : length (elast (oscillator_new dg0 oscillator)) = N)
    by reflexivity.
  assert (Hab : (0 < 1)%Q) by reflexivity.
  exact (build_reaches_end 10 0 1 _ _ _ two_rates_contract Hk Hth Hlen Hab
           two_rates_build).
Defined.

Lemma build_dofs_initial_witness :
  u0 two_rates_built = u0 (oscillator_new dg0 oscillator)
  /\ next (size_j two_rates_built) = nsize * next (size_e two_rates_built)
  /\ forall e n, e < next (size_e two_rates_built) -> n < nsize ->
       exists i x, ei two_rates_built !! e = Some i
                   /\ u0 (oscillator_new dg0 oscillator) !! i = Some x
                   /\ jx two_rates_built !! (e * nsize + n) = Some x.
Proof.
  assert (Hlen : length (elast (oscillator_new dg0 oscillator)) = N)
    by reflexivity.
  exact (build_dofs_initial 10 0 1 _ _ _ Hlen two_rates_build).
Defined.

Lemma reset_spec_witness :
  reset two_rates_solved = Some two_rates_built
  /\ jx two_rates_built !! (2 * nsize + 0) = Some 0%Q
  /\ length (jx two_rates_built) = length (jx two_rates_solved).
Proof.
  assert (Hr : reset two_rates_solved = Some two_rates_built)
    by (vm_compute; reflexivity).
  destruct (reset_spec _ _ Hr) as (_ & HL & Hd & _).
  split; [exact Hr|]. split; [|exact HL].
  destruct (Hd 2 0) as (i & x & Hi & Hx & Hjx);
    [vm_compute; lia|vm_compute; lia|].
  rewrite Hjx. vm_compute in Hi. inversion Hi; subst i.
  vm_compute in Hx. symmetry. exact Hx.
Defined.

Lemma two_rates_dofs_initial : dofs_initial two_rates_built.
Proof.
  split; [reflexivity|].
  intros e n He Hn.
  assert (n = 0) by (vm_compute in Hn; lia). subst n.
  destruct e as [|[|[|e]]]; [..|vm_compute in He; lia].
  - exists 0, 1%Q. done.
  - exists 1, 0%Q. done.
  - exists 1, 0%Q. done.
Qed.

Lemma reset_initial_slab_witness :
  reset two_rates_built = Some two_rates_built.
Proof.
  apply reset_initial_slab;
    [exact two_rates_dofs_initial|vm_compute; lia|reflexivity].
Defined.

Lemma shift_accepted_witness :
  exists s',
    shift true two_rates_solved = Some (true, s')
    /\ u s' = [10; 30]%Q /\ u0 s' = [10; 30]%Q
    /\ jx s' = jx two_rates_solved
    /\ forall i, i < N ->
       exists x, end_value two_rates_solved (elast s') i x
                 /\ u s' !! i = Some x /\ u0 s' !! i = Some x.
Proof.
  eexists. split; [vm_compute; reflexivity|].
  split; [reflexivity|]. split; [reflexivity|].
  match goal with
  | |- jx ?x = _ /\ _ =>
    assert (Hr : shift true two_rates_solved = Some (true, x))
      by (vm_compute; reflexivity)
  end.
  destruct (shift_accepted _ _ _ Hr) as (_ & Hv & Hj & _).
  split; [exact Hj|exact Hv].
Defined.

Lemma feval_writes_u_only_witness :
  exists f' s',
    dg_feval [0%Q] 0 0 0 0 1 1 two_rates_solved = Some (f', s')
    /\ s' = set_u (u s') two_rates_solved
    /\ length (u s') = length (u two_rates_solved)
    /\ length f' = 1.
Proof.
  eexists _, _. split; [vm_compute; reflexivity|].
  match goal with
  | |- ?x = _ /\ _ =>
    assert (Hr : dg_feval [0%Q] 0 0 0 0 1 1 two_rates_solved
                 = Some ([30%Q], x)) by (vm_compute; reflexivity)
  end.
  exact (feval_writes_u_only [0%Q] 0 0 0 0 1 1 two_rates_solved _ _
           (or_intror Hr)).
Defined.

Lemma coverSlab_spec_witness :
  exists s',
    coverSlab 1 1 two_rates_built = Some (2, s')
    /\ elast s' = [0; 1]%Z
    /\ s' = set_elast (elast s') two_rates_built
    /\ (2 < ne two_rates_built ->
        exists s1, es two_rates_built !! 2 = Some s1 /\ Z.of_nat s1 <> 1%Z).
Proof.
  eexists. split; [vm_compute; reflexivity|]. split; [reflexivity|].
  match goal with
  | |- ?x = _ /\ _ =>
    assert (Hr : coverSlab 1 1 two_rates_built = Some (2, x))
      by (vm_compute; reflexivity)
  end.
  destruct (coverSlab_spec 1 1 two_rates_built _ _ Hr)
    as (_ & _ & Heq & _ & Hout & _).
  split; [exact Heq|exact Hout].
Defined.

Lemma coverNext_spec_witness :
  exists s',
    coverNext 0 1 two_rates_built = Some (1%Z, s')
    /\ elast s' = [0; 1]%Z
    /\ exists s1,
         es two_rates_built !! 1 = Some s1 /\ 1%Z = Z.of_nat s1
         /\ (0%Z = Z.of_nat s1 -> s' = two_rates_built)
         /\ (0%Z <> Z.of_nat s1 ->
             exists e1, coverSlab (Z.of_nat s1) 1 two_rates_built
                        = Some (e1, s')
                        /\ (1 < ne two_rates_built -> 1 < e1)).
Proof.
  eexists. split; [vm_compute; reflexivity|]. split; [reflexivity|].
  match goal with
  | |- exists s1, _ /\ _ /\ (_ -> ?x = _) /\ _ =>
    assert (Hr : coverNext 0 1 two_rates_built = Some (1%Z, x))
      by (vm_compute; reflexivity)
  end.
  exact (coverNext_spec 0 1 two_rates_built _ _ Hr).
Defined.

Lemma two_rates_onto : partition_onto.
Proof. intros p i Hi. exists i. split; [exact Hi|reflexivity]. Qed.

Lemma two_rates_arena : arena_ok two_rates_built /\ sampled two_rates_built.
Proof.
  assert (Hk : (0 < kmax)%Q) by reflexivity.
  assert (Hth : (threshold <= 1)%Q) by (vm_compute; discriminate).
  assert (Hlen : length (elast (oscillator_new dg0 oscillator)) = N)
    by reflexivity.
  assert (Hab : (0 < 1)%Q) by reflexivity.
  destruct (build_arena 10 0 1 _ _ _ two_rates_contract two_rates_stable
              two_rates_onto Hk Hth Hlen Hab two_rates_build)
    as (Hok & Hsam & _).
  split; assumption.
Qed.

Lemma coverTime_covers_witness :
  exists s',
    coverTime (1 # 4) two_rates_built = Some s'
    /\ elast s' = [0; 1]%Z
    /\ forall i, i < N -> holds_time s' (1 # 4) i.
Proof.
  assert (Heps : (0 <= real_epsilon)%Q) by (vm_compute; discriminate).
  assert (Ht : (1 # 4 <= _b two_rates_built + real_epsilon)%Q)
    by (vm_compute; discriminate).
  destruct (coverTime_covers (1 # 4) two_rates_built
              (proj1 two_rates_arena) (proj2 two_rates_arena) Heps Ht)
    as (s' & Hrun & _ & _ & _ & _ & Hcov).
  exists s'. split; [exact Hrun|]. split; [|exact Hcov].
  assert (Hr : coverTime (1 # 4) two_rates_built
               = Some (set_emax 1 (set_elast [0; 1]%Z two_rates_built)))
    by (vm_compute; reflexivity).
  rewrite Hr in Hrun. inversion Hrun. reflexivity.
Defined.

Lemma sample_then_usample_witness :
  exists s' v,
    sample (1 # 4) two_rates_solved = Some s'
    /\ usample 1 (1 # 4) s' = Some (v, s')
    /\ element_value 1 1 (1 # 4) s' = Some v
    /\ v = 20%Q.
Proof.
  assert (Heps : (0 <= real_epsilon)%Q) by (vm_compute; discriminate).
  assert (Ht : (1 # 4 <= _b two_rates_solved + real_epsilon)%Q)
    by (vm_compute; discriminate).
  assert (Hok : arena_ok two_rates_solved).
  { apply (same_arena_ok two_rates_built); [|exact (proj1 two_rates_arena)].
    unfold same_arena. done. }
  assert (Hsam : sampled two_rates_solved) by exact (proj2 two_rates_arena).
  assert (Hd : dofs_readable two_rates_solved)
    by (unfold dofs_readable; vm_compute; lia).
  destruct (sample_then_usample (1 # 4) 1 two_rates_solved Hok Hsam Hd
              Heps Ht ltac:(vm_compute; lia))
    as (s' & x & v & Hrun & _ & _ & _ & _ & Hx & Hev & Hu).
  assert (Hr : sample (1 # 4) two_rates_solved
               = Some (set_emax 1 (set_elast [0; 1]%Z two_rates_solved)))
    by (vm_compute; reflexivity).
  rewrite Hr in Hrun. inversion Hrun; subst s'. clear Hrun.
  assert (x = 1) by (cbn in Hx; injection Hx as Hx; lia). subst x.
  exists (set_emax 1 (set_elast [0; 1]%Z two_rates_solved)), v.
  split; [exact Hr|]. split; [exact Hu|]. split; [exact Hev|].
  vm_compute in Hev. inversion Hev. reflexivity.
Defined.

End TwoRatesMore.

Section TwoRatesFine.
#[local] Existing Instances dg1 oscillator adaptivity1 dolfin_eps two_rates.

Lemma two_rates_fine_build :
  build 10 0 1 (oscillator_new dg1 oscillator) = Some (1%Q, two_rates_fine).
Proof. vm_compute. reflexivity. Qed.

Lemma oscillator_sparsity : sparsity_ok.
Proof.
  split.
  - intros [|[|i0]] [|[|i1]] H0 H1; simpl in *; try lia;
      rewrite !list_elem_of_singleton; lia.
  - intros [|[|i]] Hi; simpl in *; try lia; apply NoDup_singleton.
  - intros [|[|i]] Hi; simpl in *; try lia; apply NoDup_singleton.
  - intros [|[|i]] i0 Hi; simpl in *; try lia;
      rewrite list_elem_of_singleton; lia.
Qed.

Lemma two_rates_fine_nodes : nodes_inside two_rates_fine.
Proof.
  intros sigma n Hs Hn.
  destruct sigma as [|[|[|sigma]]]; simpl in Hs; [| | |lia];
    (destruct n as [|[|n]]; simpl in Hn; [| |lia]);
    vm_compute; split; congruence.
Qed.

Lemma build_subslabs_nested_witness :
  build 10 0 1 (oscillator_new dg1 oscillator) = Some (1%Q, two_rates_fine)
  /\ laminar two_rates_fine
  /\ forall sigma, sigma < next (size_s two_rates_fine) ->
       (0 <= begin_at two_rates_fine sigma)%Q
       /\ (end_at two_rates_fine sigma <= 1)%Q.
Proof.
  split; [exact two_rates_fine_build|].
  assert (Hk : (0 < kmax)%Q) by reflexivity.
  assert (Hth : (threshold <= 1)%Q) by (vm_compute; discriminate).
  assert (Hlen : length (elast (oscillator_new dg1 oscillator)) = N)
    by reflexivity.
  assert (Hab : (0 < 1)%Q) by reflexivity.
  exact (build_subslabs_nested 10 0 1 _ _ _ two_rates_contract Hk Hth Hlen
           Hab two_rates_fine_build).
Defined.

Lemma build_slot_sizes_witness :
  build 10 0 1 (oscillator_new dg1 oscillator) = Some (1%Q, two_rates_fine)
  /\ nodes_inside two_rates_fine
  /\ 0 < ne two_rates_fine
  /\ (exists hi, slot_range two_rates_fine 0 = Some (0, hi))
  /\ exists lo,
       slot_range two_rates_fine 0
       = Some (lo, lo + nsize * count_if
                 (counted_to (ne two_rates_fine) two_rates_fine 0)
                 (dependencies (comp_of two_rates_fine 0))).
Proof.
  split; [exact two_rates_fine_build|].
  split; [exact two_rates_fine_nodes|].
  assert (Hk : (0 < kmax)%Q) by reflexivity.
  assert (Hth : (threshold <= 1)%Q) by (vm_compute; discriminate).
  assert (Heps : (0 <= real_epsilon)%Q) by (vm_compute; discriminate).
  assert (Hn : 1 <= nsize) by (vm_compute; lia).
  assert (Hlen : length (elast (oscillator_new dg1 oscillator)) = N)
    by reflexivity.
  assert (Hab : (0 < 1)%Q) by reflexivity.
  assert (He : 0 < ne two_rates_fine) by (vm_compute; lia).
  split; [exact He|].
  destruct (build_slot_sizes 10 0 1 _ _ _ two_rates_contract
              two_rates_deterministic two_rates_onto oscillator_sparsity
              Hk Hth Heps Hn Hlen Hab two_rates_fine_build
              two_rates_fine_nodes) as [H0 Hall].
  split; [exact (H0 He)|exact (Hall 0 He)].
Defined.

Lemma build_components_tile_witness :
  build 10 0 1 (oscillator_new dg1 oscillator) = Some (1%Q, two_rates_fine)
  /\ exists y, y < next (size_e two_rates_fine)
       /\ comp_of two_rates_fine y = 1
       /\ within_time (3 # 4) (left_end two_rates_fine y)
            (right_end two_rates_fine y) = true
       /\ forall y', y' < next (size_e two_rates_fine) ->
            comp_of two_rates_fine y' = 1 ->
            within_time (3 # 4) (left_end two_rates_fine y')
              (right_end two_rates_fine y') = true ->
            y' = y.
Proof.
  split; [exact two_rates_fine_build|].
  assert (Hk : (0 < kmax)%Q) by reflexivity.
  assert (Hth : (threshold <= 1)%Q) by (vm_compute; discriminate).
  assert (Heps : (0 <= real_epsilon)%Q) by (vm_compute; discriminate).
  assert (Hlen : length (elast (oscillator_new dg1 oscillator)) = N)
    by reflexivity.
  assert (Hab : (0 < 1)%Q) by reflexivity.
  assert (Hi : 1 < N) by (vm_compute; lia).
  assert (Ht1 : (0 + real_epsilon < 3 # 4)%Q) by reflexivity.
  assert (Ht2 : (3 # 4 <= 1 + real_epsilon)%Q) by (vm_compute; discriminate).
  exact (build_components_tile 10 0 1 _ _ _ two_rates_contract
           two_rates_onto Hk Hth Heps Hlen Hab two_rates_fine_build
           1 (3 # 4)%Q Hi Ht1 Ht2).
Defined.

Lemma two_rates_fine_ready : feval_ready two_rates_fine.
Proof.
  assert (Hk : (0 < kmax)%Q) by reflexivity.
  assert (Hth : (threshold <= 1)%Q) by (vm_compute; discriminate).
  assert (Heps : (0 <= real_epsilon)%Q) by (vm_compute; discriminate).
  assert (Hn : 1 <= nsize) by (vm_compute; lia).
  assert (Hlen : length (elast (oscillator_new dg1 oscillator)) = N)
    by reflexivity.
  assert (Hab : (0 < 1)%Q) by reflexivity.
  exact (build_ready 10 0 1 _ _ _ two_rates_contract two_rates_stable
           two_rates_onto oscillator_sparsity Hk Hth Heps Hn Hlen Hab
           two_rates_fine_build two_rates_fine_nodes).
Qed.

Lemma dg_feval_total_witness :
  feval_ready two_rates_fine
  /\ de two_rates_fine = [1; 2]%Z
  /\ exists f' s',
       dg_feval [0; 0]%Q 0 0 0 0 1 1 two_rates_fine = Some (f', s').
Proof.
  split; [exact two_rates_fine_ready|]. split; [reflexivity|].
  assert (Hn : 1 <= nsize) by (vm_compute; lia).
  assert (Hq : qsize <= nsize) by (vm_compute; lia).
  assert (Hdeps : forall i1, i1 ∈ dependencies 0 -> i1 < N).
  { intros i1 Hi1. apply list_elem_of_singleton in Hi1 as ->.
    vm_compute. lia. }
  assert (He : 0 < ne two_rates_fine) by (vm_compute; lia).
  assert (Hf : qsize <= length [0; 0]%Q) by (vm_compute; lia).
  exact (dg_feval_total [0; 0]%Q 0 0 0 0 1 1 two_rates_fine Hq Hn Hdeps
           two_rates_fine_ready He Hf).
Defined.

End TwoRatesFine.

Section TwoRatesCg.
#[local] Existing Instances cg1 oscillator adaptivity1 dolfin_eps two_rates.

Lemma two_rates_cg_build :
  build 10 0 1 (oscillator_new cg1 oscillator) = Some (1%Q, two_rates_cg).
Proof. vm_compute. reflexivity. Qed.

Lemma two_rates_cg_nodes : nodes_inside two_rates_cg.
Proof.
  intros sigma n Hs Hn.
  destruct sigma as [|[|[|sigma]]]; simpl in Hs; [| | |lia];
    (destruct n as [|n]; simpl in Hn; [|lia]);
    vm_compute; split; congruence.
Qed.

Lemma two_rates_cg_ready : feval_ready two_rates_cg.
Proof.
  assert (Hk : (0 < kmax)%Q) by reflexivity.
  assert (Hth : (threshold <= 1)%Q) by (vm_compute; discriminate).
  assert (Heps : (0 <= real_epsilon)%Q) by (vm_compute; discriminate).
  assert (Hn : 1 <= nsize) by (vm_compute; lia).
  assert (Hlen : length (elast (oscillator_new cg1 oscillator)) = N)
    by reflexivity.
  assert (Hab : (0 < 1)%Q) by reflexivity.
  exact (build_ready 10 0 1 _ _ _ two_rates_contract two_rates_stable
           two_rates_onto oscillator_sparsity Hk Hth Heps Hn Hlen Hab
           two_rates_cg_build two_rates_cg_nodes).
Qed.

Lemma cg_feval_total_witness :
  feval_ready two_rates_cg
  /\ de two_rates_cg = [2]%Z
  /\ exists f' s',
       cg_feval [0; 0]%Q 0 0 0 0 1 1 two_rates_cg = Some (f', s').
Proof.
  split; [exact two_rates_cg_ready|]. split; [reflexivity|].
  assert (Hn : 1 <= nsize) by (vm_compute; lia).
  assert (Hq : qsize <= nsize + 1) by (vm_compute; lia).
  assert (Hdeps : forall i1, i1 ∈ dependencies 0 -> i1 < N).
  { intros i1 Hi1. apply list_elem_of_singleton in Hi1 as ->.
    vm_compute. lia. }
  assert (Hi : 0 < N) by (vm_compute; lia).
  assert (Hf0 : N <= length (f0 two_rates_cg)) by (vm_compute; lia).
  assert (He : 0 < ne two_rates_cg) by (vm_compute; lia).
  assert (Hf : qsize <= length [0; 0]%Q) by (vm_compute; lia).
  assert (Hf1 : 1 <= length [0; 0]%Q) by (vm_compute; lia).
  exact (cg_feval_total [0; 0]%Q 0 0 0 0 1 1 two_rates_cg Hq Hn Hdeps Hi Hf0
           two_rates_cg_ready He Hf Hf1).
Defined.

End TwoRatesCg.

Section EpsSlab.
#[local] Existing Instances dg1 oscillator adaptivity1 dolfin_eps eps_rates.

(** C2: the creation leaves the sentinel in a range that the dry run
    has sized.  On a slab of twice the tolerance with dG(1), with a
    partition and a sparsity pattern as the creation expects them, the
    range of element 0 has two slots, for its two nodal points and its
    dependency on component 1; the nodal point at a third of the slab is
    not later than the start of either small element by more than the
    tolerance, so [within(t, a0, b0)] holds for neither and no element
    is entered for it.  The right-hand side of element 0 then stops at
    its assertion [e1 != -1]. *)
Lemma sentinel_remains_short_slab :
  partition_contract /\ partition_deterministic /\ partition_onto
  /\ sparsity_ok
  /\ build 10 0 two_eps (oscillator_new dg1 oscillator)
       = Some (two_eps, eps_built)
  /\ ne eps_built = 3 /\ nd eps_built = 2
  /\ next (size_d eps_built) = 2
  /\ slot_range eps_built 0 = Some (0, 2)
  /\ de eps_built !! 0 = Some 1%Z
  /\ de eps_built !! 1 = Some (-1)%Z
  /\ dg_dependent two_eps 1 eps_built = None
  /\ dg_feval [0; 0]%Q 0 0 0 0 two_eps two_eps eps_built = None.
Proof.
  split_and!.
  - apply table_contract; [reflexivity|]. repeat constructor.
  - apply table_deterministic.
  - intros p i Hi. exists i. split; [exact Hi|reflexivity].
  - exact oscillator_sparsity.
  - vm_compute. reflexivity.
  - reflexivity.
  - reflexivity.
  - reflexivity.
  - reflexivity.
  - reflexivity.
  - reflexivity.
  - reflexivity.
  - vm_compute. reflexivity.
Qed.

End EpsSlab.

Section ReorderingSampled.
#[local] Existing Instances dg0 oscillator adaptivity1 dolfin_eps reordering.

Lemma reordering_onto : partition_onto.
Proof.
  intros [] i Hi; change N with 2 in *.
  - destruct i as [|[|i]]; [exists 1|exists 0|lia]; (split; [lia|reflexivity]).
  - exists i. split; [exact Hi|reflexivity].
Qed.

Lemma build_sampled_witness :
  build 10 0 1 unswapped_new = Some (1%Q, reordered_built)
  /\ arena_ok reordered_built /\ sampled reordered_built
  /\ dofs_readable reordered_built
  /\ elast reordered_built = [2; 0]%Z
  /\ forall i, i < N ->
       exists x, elast reordered_built !! i = Some (Z.of_nat x)
         /\ x < ne reordered_built /\ ei reordered_built !! x = Some i
         /\ (forall e', x < e' < ne reordered_built ->
               ei reordered_built !! e' <> Some i)
         /\ exists sigma, es reordered_built !! x = Some sigma
              /\ sb reordered_built !! sigma = Some (_b reordered_built).
Proof.
  split; [exact reordering_build|].
  assert (Hk : (0 < kmax)%Q) by reflexivity.
  assert (Hth : (threshold <= 1)%Q) by (vm_compute; discriminate).
  assert (Hn : 1 <= nsize) by (vm_compute; lia).
  assert (Hlen : length (elast unswapped_new) = N) by reflexivity.
  assert (Hab : (0 < 1)%Q) by reflexivity.
  destruct (build_sampled 10 0 1 _ _ _ reordering_contract
              reordering_stable reordering_onto Hk Hth Hn Hlen Hab
              reordering_build) as (H1 & H2 & H3 & H4).
  split_and!; [exact H1|exact H2|exact H3|reflexivity|exact H4].
Defined.

End ReorderingSampled.

Section ThreeComponents.
#[local] Existing Instances three_components adaptivity1 dolfin_eps
  two_and_one.

Lemma feval_same_subslab_value_witness :
  (dependents_range (method := cg1) 0 three_cg_solved = Some (0, 1)
   /\ de three_cg_solved = [3]%Z
   /\ jx three_cg_solved = [10; 20; 30; 40]%Q
   /\ exists f' s' um,
        cg_feval (method := cg1) [0; 0]%Q 0 0 0 0 1 1 three_cg_solved
        = Some (f', s')
        /\ um !! 1 = Some 20%Q
        /\ f' !! 1 = Some (ode_f um (0 + 1 * 1)%Q 0)
        /\ u s' !! 1 = Some 20%Q)
  /\ (dependents_range (method := dg1) 0 three_dg_solved = Some (0, 1)
      /\ de three_dg_solved = [2; 3]%Z
      /\ jx three_dg_solved = [10; 20; 30; 40; 50; 60; 70; 80]%Q
      /\ exists f' s' um,
           dg_feval (method := dg1) [0; 0]%Q 0 0 0 0 1 1 three_dg_solved
           = Some (f', s')
           /\ um !! 1 = Some 40%Q
           /\ f' !! 1 = Some (ode_f um (0 + 1 * 1)%Q 0)
           /\ u s' !! 1 = Some 40%Q).
Proof.
  assert (Hdep : 1 ∈ dependencies 0) by (apply elem_of_cons; by left).
  split.
  - split; [reflexivity|]. split; [reflexivity|]. split; [reflexivity|].
    destruct (cg_feval (method := cg1) [0; 0]%Q 0 0 0 0 1 1 three_cg_solved)
      as [[f' s']|] eqn:Hc; [|vm_compute in Hc; discriminate].
    assert (Hno : ~ reads_smaller (method := cg1) three_cg_solved 0 1).
    { intros (d & ndep & k & z & Hr & Hk & Hz & Hi).
      vm_compute in Hr. inversion Hr; subst d ndep.
      destruct k as [|k]; simpl in Hz; [|destruct k; discriminate].
      assert (z = 3) by (injection Hz as Hz; lia). subst z. discriminate. }
    destruct (proj1 (feval_same_subslab_value (method := cg1) [0; 0]%Q
                       0 0 0 0 1 1 three_cg_solved f' s' 1 1 1
                       ltac:(lia) ltac:(vm_compute; lia) Hdep
                       eq_refl eq_refl Hno) Hc)
      as (x & um & Hx & Hum & Hf & Hlast).
    vm_compute in Hx. injection Hx as <-.
    exists f', s', um. split; [reflexivity|]. split; [exact Hum|].
    split; [exact Hf|]. rewrite (Hlast eq_refl) in Hum. exact Hum.
  - split; [reflexivity|]. split; [reflexivity|]. split; [reflexivity|].
    destruct (dg_feval (method := dg1) [0; 0]%Q 0 0 0 0 1 1 three_dg_solved)
      as [[f' s']|] eqn:Hd; [|vm_compute in Hd; discriminate].
    assert (Hno : ~ reads_smaller (method := dg1) three_dg_solved 0 1).
    { intros (d & ndep & k & z & Hr & Hk & Hz & Hi).
      vm_compute in Hr. inversion Hr; subst d ndep.
      destruct k as [|[|k]]; simpl in Hz; [| |destruct k; discriminate].
      - assert (z = 2) by (injection Hz as Hz; lia). subst z. discriminate.
      - assert (z = 3) by (injection Hz as Hz; lia). subst z. discriminate. }
    destruct (proj2 (feval_same_subslab_value (method := dg1) [0; 0]%Q
                       0 0 0 0 1 1 three_dg_solved f' s' 1 1 1
                       ltac:(lia) ltac:(vm_compute; lia) Hdep
                       eq_refl eq_refl Hno) Hd)
      as (x & um & Hx & Hum & Hf & Hlast).
    vm_compute in Hx. injection Hx as <-.
    exists f', s', um. split; [reflexivity|]. split; [exact Hum|].
    split; [exact Hf|]. rewrite (Hlast eq_refl) in Hum. exact Hum.
Defined.

End ThreeComponents.

Section SampleEdge.
#[local] Existing Instances dg0 oscillator adaptivity1 dolfin_eps two_rates.




End SampleEdge.
